(** * Markdown-to-PDF pipeline of Stock-GPT: a shallow embedding of
      [downloadAsPdf] and its nested helpers ([tokenizeLine],
      [renderFormattedLine], [renderTable], the per-line classifier).

    JavaScript strings are sequences of UTF-16 code units. A number is a
    rational, and every operation on numbers is followed by the rounding
    of the arithmetic, which the facility brings along: the rounding to
    the nearest double for the numbers of JavaScript, none for exact
    arithmetic. *)

(** The later modules embed the rest of the page's logic: the placement of
    the tutorial tooltip, the tutorial and the theme, the conversion of
    Markdown to HTML for the chat, the prompt builders and the loading of
    the configurations. *)

From Stdlib Require Import Ascii String.
From Stdlib Require Import List NArith ZArith QArith Qround Qabs Qpower Bool Lia Lqa.
Import ListNotations.

Set Implicit Arguments.
Local Open Scope list_scope.

(* ================================================================== *)
(** ** JavaScript strings *)
(* ================================================================== *)

Module Js.

(** A code unit, and a string as the sequence of its code units. *)
Definition char := N.
Definition str := list char.

(** ASCII literals, for writing the constants of the source. *)
Fixpoint lit (s : string) : str :=
  match s with
  | EmptyString => []
  | String a s' => N_of_ascii a :: lit s'
  end.

Definition ch (a : ascii) : char := N_of_ascii a.

(** ECMAScript LineTerminator: LF, CR, LS, PS. The regex atom [.] matches
    every code unit but these. *)
Definition isLineTerminator (c : char) : bool :=
  (c =? 10)%N || (c =? 13)%N || (c =? 8232)%N || (c =? 8233)%N.

(** ECMAScript WhiteSpace + LineTerminator: the class [\s] and the code
    units removed by [String.prototype.trim]. *)
Definition isWhiteSpace (c : char) : bool :=
  (c =? 9)%N || (c =? 10)%N || (c =? 11)%N || (c =? 12)%N || (c =? 13)%N ||
  (c =? 32)%N || (c =? 160)%N || (c =? 5760)%N ||
  ((8192 <=? c)%N && (c <=? 8202)%N) ||
  (c =? 8232)%N || (c =? 8233)%N || (c =? 8239)%N || (c =? 8287)%N ||
  (c =? 12288)%N || (c =? 65279)%N.

(** [s.startsWith(p)] *)
Fixpoint startsWith (s p : str) {struct p} : bool :=
  match p with
  | [] => true
  | y :: p' =>
      match s with
      | [] => false
      | x :: s' => N.eqb x y && startsWith s' p'
      end
  end.

(** [s.substring(a, b)] for [0 <= a <= b]; [b] is clamped to the length. *)
Definition substring (s : str) (a b : nat) : str := firstn (b - a) (skipn a s).

(** [s.substring(a)] *)
Definition substringFrom (s : str) (a : nat) : str := skipn a s.

(** [s.includes(c)] for a one-unit needle. *)
Definition includes (s : str) (c : char) : bool := existsb (N.eqb c) s.

Fixpoint dropWhile (p : char -> bool) (s : str) : str :=
  match s with
  | [] => []
  | c :: s' => if p c then dropWhile p s' else s
  end.

Fixpoint takeWhile (p : char -> bool) (s : str) : str :=
  match s with
  | [] => []
  | c :: s' => if p c then c :: takeWhile p s' else []
  end.

(** [s.trim()] *)
Definition trim (s : str) : str :=
  rev (dropWhile isWhiteSpace (rev (dropWhile isWhiteSpace s))).

(** [s.split(sep)] for a one-unit separator: the fields between the
    occurrences of [sep]; always at least one field. *)
Fixpoint split (sep : char) (s : str) : list str :=
  match s with
  | [] => [[]]
  | c :: s' =>
      if N.eqb c sep then [] :: split sep s'
      else match split sep s' with
           | [] => [[c]]
           | f :: fs => (c :: f) :: fs
           end
  end.

(** [s.substring(0, i)]: a negative [i] counts as 0. *)
Definition substringTo (s : str) (i : Z) : str := firstn (Z.to_nat i) s.

(** [s.substring(i)]: a negative [i] counts as 0. *)
Definition substringFromZ (s : str) (i : Z) : str := skipn (Z.to_nat i) s.

(** [a.slice(1, -1)] *)
Definition slice_1_m1 {A} (a : list A) : list A :=
  firstn (length a - 2) (skipn 1 a).

(** [a.slice(2)] *)
Definition slice_2 {A} (a : list A) : list A := skipn 2 a.

(** A code unit below 128 is a code point of its own. *)
Definition isAscii (c : char) : bool := (c <? 128)%N.

(** The upper case of a code unit below 128: [a]..[z] go to [A]..[Z]. *)
Definition upperAscii (c : char) : char :=
  if (97 <=? c)%N && (c <=? 122)%N then (c - 32)%N else c.

(** [s.toUpperCase()]. The mapping goes code point by code point and looks
    at no context, so the units below 128 are mapped by themselves;
    [other] is the mapping of the Unicode tables on a run of units from
    128 up, [run] the units of the run that is being read. *)
Fixpoint toUpperCaseFrom (other : str -> str) (run s : str) : str :=
  let mapped := match run with [] => [] | _ :: _ => other run end in
  match s with
  | [] => mapped
  | c :: s' =>
      if isAscii c
      then mapped ++ upperAscii c :: toUpperCaseFrom other [] s'
      else toUpperCaseFrom other (run ++ [c]) s'
  end.

Definition toUpperCase (other : str -> str) (s : str) : str :=
  toUpperCaseFrom other [] s.

End Js.

Import Js.

(* ================================================================== *)
(** ** The inline tokenizer *)
(* ================================================================== *)

Module Tokenizer.

(** [type Token = { text; isBold; isLink; url? }] *)
Record Token := mkToken {
  text : str;
  isBold : bool;
  isLink : bool;
  url : option str
}.

(** *** The regular expression [/(\*\*.*?\*\*|https?:\/\/[^\s]+)/g]

    Each function below takes the text from the current position on and
    returns the number of code units the (sub)pattern consumes there, in
    the order a backtracking matcher tries them. *)

Definition star : char := 42%N.

(** [.*?\*\*]: the lazy star first tries to stop, and otherwise consumes
    one more unit that is not a line terminator. *)
Fixpoint lazyDotsStars (s : str) : option nat :=
  if startsWith s [star; star] then Some 2%nat
  else match s with
       | [] => None
       | c :: s' =>
           if isLineTerminator c then None
           else option_map S (lazyDotsStars s')
       end.

(** First alternative, [\*\*.*?\*\*]. *)
Definition matchBold (s : str) : option nat :=
  if startsWith s [star; star]
  then option_map (fun n => 2 + n)%nat (lazyDotsStars (skipn 2 s))
  else None.

(** [:\/\/[^\s]+]: the greedy class takes every unit up to the next white
    space and needs at least one. *)
Definition matchUrlTail (s : str) : option nat :=
  if startsWith s (lit "://")
  then let n := length (takeWhile (fun c => negb (isWhiteSpace c)) (skipn 3 s)) in
       if (1 <=? n)%nat then Some (3 + n)%nat else None
  else None.

(** Second alternative, [https?:\/\/[^\s]+]: [s?] is greedy, so the branch
    with the [s] is tried before the one without. *)
Definition matchUrl (s : str) : option nat :=
  if startsWith s (lit "http")
  then let r := skipn 4 s in
       let withS :=
         match r with
         | c :: r' => if N.eqb c (ch "s") then option_map S (matchUrlTail r') else None
         | [] => None
         end in
       match withS with
       | Some n => Some (4 + n)%nat
       | None => option_map (fun n => 4 + n)%nat (matchUrlTail r)
       end
  else None.

(** The whole pattern at one position. *)
Definition matchAt (s : str) : option nat :=
  match matchBold s with
  | Some n => Some n
  | None => matchUrl s
  end.

(** Leftmost match in [s], which starts at index [i] of the line. *)
Fixpoint search (s : str) (i : nat) : option (nat * nat) :=
  match matchAt s with
  | Some n => Some (i, n)
  | None =>
      match s with
      | [] => None
      | _ :: s' => search s' (S i)
      end
  end.

(** [regex.exec(line)] with [regex.lastIndex = lastIndex]: the index and
    the text of the match ([match.index], [match[0]]); the new [lastIndex]
    is the end of the match. *)
Definition exec (line : str) (lastIndex : nat) : option (nat * str) :=
  if (length line <? lastIndex)%nat then None
  else match search (skipn lastIndex line) lastIndex with
       | Some (index, n) => Some (index, substring line index (index + n))
       | None => None
       end.

Definition plain (s : str) : Token := mkToken s false false None.
Definition link (s : str) : Token := mkToken s false true (Some s).

(** [{ ...token, isBold: true }] *)
Definition withBold (t : Token) : Token :=
  mkToken (text t) true (isLink t) (url t).

(** The [while ((match = regex.exec(line)) !== null)] loop of [tokenizeLine]
    followed by the trailing-text push. [fuel] bounds the number of loop
    iterations and nested calls; [None] means it ran out. *)
Fixpoint tokenizeLoop (fuel : nat) (line : str) (lastIndex : nat)
    (tokens : list Token) : option (list Token) :=
  match fuel with
  | O => None
  | S fuel' =>
      match exec line lastIndex with
      | Some (index, matchedText) =>
          let tokens1 :=
            if (lastIndex <? index)%nat
            then tokens ++ [plain (substring line lastIndex index)]
            else tokens in
          let isLink := startsWith matchedText (lit "http") in
          let lastIndex' := (index + length matchedText)%nat in
          if isLink then
            tokenizeLoop fuel' line lastIndex' (tokens1 ++ [link matchedText])
          else
            let innerText := substring matchedText 2 (length matchedText - 2) in
            match tokenizeLoop fuel' innerText 0 [] with
            | Some innerTokens =>
                tokenizeLoop fuel' line lastIndex'
                  (tokens1 ++ map withBold innerTokens)
            | None => None
            end
      | None =>
          Some (if (lastIndex <? length line)%nat
                then tokens ++ [plain (substringFrom line lastIndex)]
                else tokens)
      end
  end.

(** [tokenizeLine(line)]: a match consumes at least four code units, so
    the length of the line bounds every loop and every nested call. *)
Definition tokenizeLine (line : str) : option (list Token) :=
  tokenizeLoop (S (length line)) line 0 [].

(** The loop of [tokenizeLine] resumed at [lastIndex] with an empty token
    array; [tokenizeLine line] is [tokenizeFrom line 0]. *)
Definition tokenizeFrom (line : str) (lastIndex : nat) : option (list Token) :=
  tokenizeLoop (S (length line)) line lastIndex [].

(** Concatenation of the [text] fields, in order. *)
Definition concatText (ts : list Token) : str := flat_map text ts.

(** [/\*\*.*?\*\*/.test(line)]: the line holds a bold marker pair. *)
Fixpoint hasBoldPair (s : str) : bool :=
  match matchBold s with
  | Some _ => true
  | None => match s with [] => false | _ :: s' => hasBoldPair s' end
  end.

(** [/https?:\/\/[^\s]+/.test(line)]: the line holds a bare URL. *)
Fixpoint hasUrl (s : str) : bool :=
  match matchUrl s with
  | Some _ => true
  | None => match s with [] => false | _ :: s' => hasUrl s' end
  end.

End Tokenizer.

Import Tokenizer.


(* ================================================================== *)
(** ** Table parsing and line classification (pure parts) *)
(* ================================================================== *)

Module Table.

Definition pipe : char := ch "|".

(** [row.split('|').slice(1, -1).map(cell => cell.trim())] *)
Definition parseRow (row : str) : list str :=
  map trim (slice_1_m1 (split pipe row)).

(** The first two statements of [renderTable]: [head] is a one-row grid
    built from [tableLines[0]], [body] comes from [tableLines.slice(2)].
    [tableLines[0]] is [undefined] for an empty array and the call of
    [split] on it raises a TypeError: [None]. *)
Definition parseTable (tableLines : list str)
    : option (list (list str) * list (list str)) :=
  match tableLines with
  | [] => None
  | line0 :: _ => Some ([parseRow line0], map parseRow (slice_2 tableLines))
  end.

End Table.

Module Classifier.

Inductive LineKind :=
| Blank | TableRow | Heading2 | Heading3 | Bullet | Paragraph.

(** The tests of the [lines.forEach] body, in the order of the source, on
    the line as bound after [line = line.trim()]. *)
Definition classifyTrimmed (line : str) : LineKind :=
  match line with
  | [] => Blank
  | _ =>
      if includes line Table.pipe && startsWith line [Table.pipe] then TableRow
      else if startsWith line (lit "## ") then Heading2
      else if startsWith line (lit "### ") then Heading3
      else if startsWith line (lit "- ") then Bullet
      else Paragraph
  end.

(** Classification of a raw document line. *)
Definition classify (line : str) : LineKind := classifyTrimmed (trim line).

End Classifier.

Import Table Classifier.

(* ================================================================== *)
(** ** The drawing facility and the layout state *)
(* ================================================================== *)

Module Pdf.

Inductive FontStyle := Normal | Bold | Italic.

(** The options object of [doc.text]. *)
Inductive TextOpt := NoOpt | MaxWidth (w : Q) | AlignCenter.

(** What ends up on a page. [Grid] is the table the table facility is given
    to draw, [CellText] that facility's own text draw of a cell. *)
Inductive Op :=
| Text (s : str) (x y : Q) (opt : TextOpt)
| TextWithLink (s : str) (x y : Q) (url : str)
| Grid (head body : list (list str)) (startY : Q)
| CellText (raw : str).

(** The state of the [jsPDF] object that the code reads or writes. *)
Record Doc := mkDoc {
  fontSize : Q;
  fontStyle : FontStyle;
  textColor : Z * Z * Z;
  numPages : nat;
  page : nat;
  drawn : list (nat * Op);
  lastFinalY : Q
}.

(** Calls into the facility (jsPDF, autoTable); any of them may fail. *)
Inductive Call :=
| CNew
| CGetFontSize
| CSetFontSize (n : Q)
| CSetFont (f : FontStyle)
| CSetTextColor (r g b : Z)
| CGetTextWidth (s : str)
| CText (s : str) (x y : Q) (opt : TextOpt)
| CTextWithLink (s : str) (x y : Q) (url : str)
| CAddPage
| CSetPage (i : nat)
| CGetNumberOfPages
| CSplitTextToSize (s : str) (w : Q)
| CAutoTable (head body : list (list str)) (startY : Q)
| CSave (filename : str).

Inductive Exn :=
| FacilityError (c : Call)
| TypeError.

(** A cell as the table facility hands it to the hooks. [typeof raw] is
    always ['string'] here: [head] and [body] are grids of strings. *)
Record Cell := mkCell {
  raw : str;
  cellX : Q;
  cellY : Q;
  cellWidth : Q;
  padLeft : Q;
  padTop : Q;
  padHorizontal : Q
}.

(** What the table facility does next while it lays out a table: it goes
    on to a new page, or it lays out a cell. *)
Inductive TableStep :=
| NextPage
| LayCell (c : Cell).

(** The collaborators of [downloadAsPdf] that are not in the source:
    page geometry, text measurement and splitting of jsPDF, the case
    mapping of Unicode outside ASCII, the failures of the facility, the
    layout decisions of autoTable, and the rounding of the number
    arithmetic. A number is a rational; [round] gives the number that the
    arithmetic of the engine makes of an exact result: for the doubles of
    JavaScript the nearest double ([binary64] below), for exact arithmetic
    the result itself. *)
Record Facility := mkFacility {
  pageWidth : Q;
  pageHeight : Q;
  textWidth : Q -> FontStyle -> str -> Q;
  splitTextToSize : Q -> FontStyle -> str -> Q -> list str;
  upperCaseOther : str -> str;
  throws : Call -> bool;
  tableLayout : list (list str) -> list (list str) -> Q -> list TableStep;
  tableFinalY : list (list str) -> list (list str) -> Q -> Q;
  didAfterSuppressed : bool;
  round : Q -> Q
}.

(** The variables [downloadAsPdf] closes over. *)
Record Layout := mkLayout {
  doc : Doc;
  y : Q;
  tableLines : list str;
  inTable : bool
}.

Inductive Outcome (A : Type) : Type :=
| Ret (a : A)
| Throw (e : Exn)
| OutOfFuel.
Arguments Ret {A} a.
Arguments Throw {A} e.
Arguments OutOfFuel {A}.

(** Computations over the layout state that may raise or not return. *)
Definition M (A : Type) : Type := Layout -> Outcome (A * Layout).

Definition ret {A} (a : A) : M A := fun st => Ret (a, st).

Definition bind {A B} (m : M A) (k : A -> M B) : M B :=
  fun st =>
    match m st with
    | Ret (a, st') => k a st'
    | Throw e => Throw e
    | OutOfFuel => OutOfFuel
    end.

Definition throw {A} (e : Exn) : M A := fun _ => Throw e.
Definition diverge {A} : M A := fun _ => OutOfFuel.

Declare Scope layout_scope.
Delimit Scope layout_scope with layout.
Notation "x <- m ;; k" := (bind m (fun x => k))
  (at level 61, m at next level, right associativity) : layout_scope.
Notation "m ;; k" := (bind m (fun _ => k))
  (at level 61, right associativity) : layout_scope.
Local Open Scope layout_scope.

Fixpoint forEach {A} (l : list A) (f : A -> M unit) : M unit :=
  match l with
  | [] => ret tt
  | a :: l' => f a ;; forEach l' f
  end.

Definition getDoc : M Doc := fun st => Ret (doc st, st).
Definition modifyDoc (f : Doc -> Doc) : M unit :=
  fun st => Ret (tt, mkLayout (f (doc st)) (y st) (tableLines st) (inTable st)).
Definition getY : M Q := fun st => Ret (y st, st).
Definition setY (v : Q) : M unit :=
  fun st => Ret (tt, mkLayout (doc st) v (tableLines st) (inTable st)).
Definition getTableLines : M (list str) := fun st => Ret (tableLines st, st).
Definition setTableLines (l : list str) : M unit :=
  fun st => Ret (tt, mkLayout (doc st) (y st) l (inTable st)).
Definition getInTable : M bool := fun st => Ret (inTable st, st).
Definition setInTable (b : bool) : M unit :=
  fun st => Ret (tt, mkLayout (doc st) (y st) (tableLines st) b).

(** [a > b] on numbers. *)
Definition Qgtb (a b : Q) : bool := negb (Qle_bool a b).

Definition withFontSize (n : Q) (d : Doc) : Doc :=
  mkDoc n (fontStyle d) (textColor d) (numPages d) (page d) (drawn d) (lastFinalY d).
Definition withFontStyle (f : FontStyle) (d : Doc) : Doc :=
  mkDoc (fontSize d) f (textColor d) (numPages d) (page d) (drawn d) (lastFinalY d).
Definition withTextColor (c : Z * Z * Z) (d : Doc) : Doc :=
  mkDoc (fontSize d) (fontStyle d) c (numPages d) (page d) (drawn d) (lastFinalY d).
Definition withNewPage (d : Doc) : Doc :=
  mkDoc (fontSize d) (fontStyle d) (textColor d) (S (numPages d)) (S (numPages d))
        (drawn d) (lastFinalY d).
Definition withPage (i : nat) (d : Doc) : Doc :=
  mkDoc (fontSize d) (fontStyle d) (textColor d) (numPages d) i (drawn d) (lastFinalY d).
Definition withOp (o : Op) (d : Doc) : Doc :=
  mkDoc (fontSize d) (fontStyle d) (textColor d) (numPages d) (page d)
        (drawn d ++ [(page d, o)]) (lastFinalY d).
Definition withFinalY (v : Q) (d : Doc) : Doc :=
  mkDoc (fontSize d) (fontStyle d) (textColor d) (numPages d) (page d) (drawn d) v.

(** [new jsPDF({ orientation: 'p', unit: 'mm', format: 'a4' })]: one page,
    the library's default font (size 16, normal, black). *)
Definition newDoc : Doc := mkDoc 16 Normal (0, 0, 0)%Z 1 1 [] 0.

Definition leftMargin : Q := 15.
Definition topMargin : Q := 20.

(** The closure state at the start of [downloadAsPdf]. *)
Definition initial : Layout := mkLayout newDoc topMargin [] false.

Fixpoint uintToStr (d : Decimal.uint) : str :=
  match d with
  | Decimal.Nil => []
  | Decimal.D0 d => 48%N :: uintToStr d
  | Decimal.D1 d => 49%N :: uintToStr d
  | Decimal.D2 d => 50%N :: uintToStr d
  | Decimal.D3 d => 51%N :: uintToStr d
  | Decimal.D4 d => 52%N :: uintToStr d
  | Decimal.D5 d => 53%N :: uintToStr d
  | Decimal.D6 d => 54%N :: uintToStr d
  | Decimal.D7 d => 55%N :: uintToStr d
  | Decimal.D8 d => 56%N :: uintToStr d
  | Decimal.D9 d => 57%N :: uintToStr d
  end.

(** A page number inside a template literal. *)
Definition natToStr (n : nat) : str := uintToStr (Nat.to_uint n).

(** [/https?:\/\//.test(s)] *)
Fixpoint hasUrlScheme (s : str) : bool :=
  startsWith s (lit "http://") || startsWith s (lit "https://") ||
  match s with
  | [] => false
  | _ :: s' => hasUrlScheme s'
  end.

(** [willDrawCell]: [Some false] is [return false], [None] is no return. *)
Definition willDrawCell (c : Cell) : option bool :=
  if hasUrlScheme (raw c) then Some false else None.

Section Engine.

Variable fac : Facility.

(** The four operations on numbers: the exact result, rounded. *)
Definition add (a b : Q) : Q := round fac (a + b).
Definition sub (a b : Q) : Q := round fac (a - b).
Definition mul (a b : Q) : Q := round fac (a * b).
Definition div (a b : Q) : Q := round fac (a / b).

Definition contentWidth : Q := sub (pageWidth fac) (mul leftMargin 2).

(** A call into the facility: raises when the facility fails on it. *)
Definition facility (c : Call) : M unit :=
  fun st => if throws fac c then Throw (FacilityError c) else Ret (tt, st).

Definition getFontSize : M Q :=
  facility CGetFontSize ;; d <- getDoc ;; ret (fontSize d).
Definition setFontSize (n : Q) : M unit :=
  facility (CSetFontSize n) ;; modifyDoc (withFontSize n).
(** [doc.setFont(undefined, style)] *)
Definition setFont (f : FontStyle) : M unit :=
  facility (CSetFont f) ;; modifyDoc (withFontStyle f).
Definition setTextColor (r g b : Z) : M unit :=
  facility (CSetTextColor r g b) ;; modifyDoc (withTextColor (r, g, b)).
Definition getTextWidth (s : str) : M Q :=
  facility (CGetTextWidth s) ;; d <- getDoc ;;
  ret (textWidth fac (fontSize d) (fontStyle d) s).
Definition text (s : str) (x y : Q) (opt : TextOpt) : M unit :=
  facility (CText s x y opt) ;; modifyDoc (withOp (Text s x y opt)).
Definition textWithLink (s : str) (x y : Q) (u : str) : M unit :=
  facility (CTextWithLink s x y u) ;; modifyDoc (withOp (TextWithLink s x y u)).
Definition addPage : M unit :=
  facility CAddPage ;; modifyDoc withNewPage.
Definition setPage (i : nat) : M unit :=
  facility (CSetPage i) ;; modifyDoc (withPage i).
Definition getNumberOfPages : M nat :=
  facility CGetNumberOfPages ;; d <- getDoc ;; ret (numPages d).

(** [checkPageBreak(spaceNeeded)] *)
Definition checkPageBreak (spaceNeeded : Q) : M unit :=
  y0 <- getY ;;
  if Qgtb (add y0 spaceNeeded) (sub (pageHeight fac) 15)
  then addPage ;; setY topMargin
  else ret tt.

(** [addPageNumbers()] *)
Definition addPageNumbers : M unit :=
  pageCount <- getNumberOfPages ;;
  setFontSize 9 ;;
  setFont Italic ;;
  forEach (seq 1 pageCount) (fun i =>
    setPage i ;;
    text (lit "Page " ++ natToStr i ++ lit " of " ++ natToStr pageCount)
         (div (pageWidth fac) 2) (sub (pageHeight fac) 10) AlignCenter).

Definition lineHeight : Q := 5.

(** [while (doc.getTextWidth(remainingText.substring(0, i)) > budget) { i--; }]
    returning the final [i]; [budget] is [x + maxWidth - currentX] or
    [maxWidth], which do not change while the loop runs. *)
Fixpoint shrink (fuel : nat) (remainingText : str) (budget : Q) (i : Z) : M Z :=
  match fuel with
  | O => diverge
  | S fuel' =>
      w <- getTextWidth (substringTo remainingText i) ;;
      if Qgtb w budget then shrink fuel' remainingText budget (i - 1)
      else ret i
  end.

(** [token.url || textToPrint] *)
Definition urlOr (token : Token) (textToPrint : str) : str :=
  match url token with
  | Some (c :: u) => c :: u
  | _ => textToPrint
  end.

(** [while (remainingText.length > 0) { ... }] for one token; returns
    [currentX] and [currentY] as the loop leaves them. *)
Fixpoint printToken (fuel : nat) (token : Token) (x maxWidth : Q)
    (remainingText : str) (currentX currentY : Q) : M (Q * Q) :=
  match remainingText with
  | [] => ret (currentX, currentY)
  | _ :: _ =>
      match fuel with
      | O => diverge
      | S fuel' =>
          let len := Z.of_nat (length remainingText) in
          i <- shrink fuel' remainingText (sub (add x maxWidth) currentX) len ;;
          r <- (if (i =? 0)%Z && Qgtb currentX x then
                  checkPageBreak lineHeight ;;
                  i' <- shrink fuel' remainingText maxWidth len ;;
                  ret (i', x, add currentY lineHeight)
                else ret (i, currentX, currentY)) ;;
          let '(i1, currentX1, currentY1) := r in
          let i2 := if (i1 =? 0)%Z && (0 <? len)%Z then 1%Z else i1 in
          let textToPrint := substringTo remainingText i2 in
          (if isLink token
           then textWithLink textToPrint currentX1 currentY1 (urlOr token textToPrint)
           else text textToPrint currentX1 currentY1 NoOpt) ;;
          w <- getTextWidth textToPrint ;;
          printToken fuel' token x maxWidth (substringFromZ remainingText i2)
                     (add currentX1 w) currentY1
      end
  end.

(** [tokens.forEach(token => { ... })] *)
Fixpoint renderTokens (fuel : nat) (tokens : list Token) (x maxWidth : Q)
    (currentX currentY : Q) : M (Q * Q) :=
  match tokens with
  | [] => ret (currentX, currentY)
  | token :: rest =>
      setFont (if isBold token then Bold else Normal) ;;
      (if isLink token then setTextColor 41 102 194 else ret tt) ;;
      r <- printToken fuel token x maxWidth (Tokenizer.text token) currentX currentY ;;
      (if isLink token then setTextColor 51 51 51 else ret tt) ;;
      renderTokens fuel rest x maxWidth (fst r) (snd r)
  end.

(** [renderFormattedLine(line, x, currentY, maxWidth)] *)
Definition renderFormattedLine (fuel : nat) (line : str) (x currentY maxWidth : Q)
    : M Q :=
  originalFontSize <- getFontSize ;;
  setFontSize 10 ;;
  match tokenizeLine line with
  | None => diverge
  | Some tokens =>
      r <- renderTokens fuel tokens x maxWidth x currentY ;;
      setFontSize originalFontSize ;;
      setFont Normal ;;
      ret (add (snd r) lineHeight)
  end.

(** [didDrawCell] *)
Definition didDrawCell (fuel : nat) (c : Cell) : M unit :=
  if hasUrlScheme (raw c)
  then renderFormattedLine fuel (raw c)
         (add (cellX c) (padLeft c)) (add (add (cellY c) (padTop c)) 3)
         (sub (cellWidth c) (padHorizontal c)) ;;
       ret tt
  else ret tt.

(** Modelled from the spec: the table-layout facility ([autoTable] of the
    jspdf-autotable package, which is not part of the source), reduced to
    its page splitting and its dispatch of the two per-cell hooks. It goes
    through the steps of its layout: it adds a page where the rows run
    over the page, and for every cell it lays out it calls [willDrawCell];
    unless that returns [false] it draws the cell text itself and then
    calls [didDrawCell]. What it does after a [willDrawCell] that returned
    [false] is the facility's choice, [didAfterSuppressed]: it goes on to
    the next cell at once ([false], which is what jspdf-autotable does), or
    it still calls [didDrawCell] ([true], which is what the spec takes for
    granted). *)
Fixpoint drawCells (fuel : nat) (steps : list TableStep) : M unit :=
  match steps with
  | [] => ret tt
  | NextPage :: rest =>
      modifyDoc withNewPage ;;
      drawCells fuel rest
  | LayCell c :: rest =>
      match willDrawCell c with
      | Some false =>
          if didAfterSuppressed fac then didDrawCell fuel c else ret tt
      | _ =>
          modifyDoc (withOp (CellText (raw c))) ;;
          didDrawCell fuel c
      end ;;
      drawCells fuel rest
  end.

(** Modelled from the spec: [autoTable(doc, { head, body, startY, ...,
    willDrawCell, didDrawCell })]; it draws the table it is given and
    reports the bottom of the table in [doc.lastAutoTable.finalY]. *)
Definition autoTable (fuel : nat) (head body : list (list str)) (startY : Q)
    : M unit :=
  facility (CAutoTable head body startY) ;;
  modifyDoc (withOp (Grid head body startY)) ;;
  drawCells fuel (tableLayout fac head body startY) ;;
  modifyDoc (withFinalY (tableFinalY fac head body startY)).

(** [renderTable()] *)
Definition renderTable (fuel : nat) : M unit :=
  lines <- getTableLines ;;
  match parseTable lines with
  | None => throw TypeError
  | Some (head, body) =>
      checkPageBreak (add (mul (inject_Z (Z.of_nat (length body))) 10) 10) ;;
      startY <- getY ;;
      autoTable fuel head body startY ;;
      d <- getDoc ;;
      setY (add (lastFinalY d) 10) ;;
      setInTable false ;;
      setTableLines []
  end.

Definition bulletGlyph : str := [8226%N; 32%N; 32%N].

(** The [line.startsWith('- ')] branch. *)
Definition renderBullet (fuel : nat) (line : str) : M unit :=
  setFontSize 10 ;;
  setFont Normal ;;
  facility (CSplitTextToSize (bulletGlyph ++ substringFrom line 2) (sub contentWidth 3)) ;;
  d <- getDoc ;;
  let bulletLines :=
    splitTextToSize fac (fontSize d) (fontStyle d)
      (bulletGlyph ++ substringFrom line 2) (sub contentWidth 3) in
  forEach bulletLines (fun bulletLine =>
    y0 <- getY ;;
    y1 <- renderFormattedLine fuel bulletLine (add leftMargin 3) (sub y0 5)
            (sub contentWidth 3) ;;
    setY y1).

(** The body of [lines.forEach(line => { ... })]. *)
Definition processLine (fuel : nat) (line0 : str) : M unit :=
  let line := trim line0 in
  match classifyTrimmed line with
  | Blank =>
      t <- getInTable ;;
      (if t then renderTable fuel else ret tt) ;;
      y0 <- getY ;;
      setY (add y0 5)
  | TableRow =>
      setInTable true ;;
      lines <- getTableLines ;;
      setTableLines (lines ++ [line])
  | kind =>
      t <- getInTable ;;
      (if t then renderTable fuel else ret tt) ;;
      checkPageBreak 10 ;;
      match kind with
      | Heading2 =>
          y0 <- getY ;;
          setY (add y0 5) ;;
          setFontSize 16 ;;
          setFont Bold ;;
          y1 <- getY ;;
          text (substringFrom line 3) leftMargin y1 (MaxWidth contentWidth) ;;
          setY (add y1 10)
      | Heading3 =>
          y0 <- getY ;;
          setY (add y0 4) ;;
          setFontSize 12 ;;
          setFont Bold ;;
          setTextColor 63 81 181 ;;
          y1 <- getY ;;
          text (substringFrom line 4) leftMargin y1 (MaxWidth contentWidth) ;;
          setTextColor 51 51 51 ;;
          setY (add y1 8)
      | Bullet => renderBullet fuel line
      | _ =>
          y0 <- getY ;;
          y1 <- renderFormattedLine fuel line leftMargin y0 contentWidth ;;
          setY y1
      end
  end.

(** The [try] block of [downloadAsPdf] up to [addPageNumbers()]. *)
Definition generate (fuel : nat) (reportText ticker : str) : M unit :=
  facility CNew ;;
  setFontSize 24 ;;
  setFont Bold ;;
  y0 <- getY ;;
  text (lit "Financial Analyst Report: " ++ toUpperCase (upperCaseOther fac) ticker)
       leftMargin y0 NoOpt ;;
  setY (add y0 15) ;;
  forEach (split 10%N reportText) (processLine fuel) ;;
  t <- getInTable ;;
  (if t then renderTable fuel else ret tt) ;;
  addPageNumbers.

(** What the browser sees of a call. *)
Inductive Effect :=
| SaveFile (filename : str) (d : Doc)
| ConsoleError (label : str) (e : Exn)
| AddErrorMessage (message : str).

(** The [catch (e)] block. *)
Definition catchBlock (e : Exn) : list Effect :=
  [ConsoleError (lit "Failed to generate PDF:") e;
   AddErrorMessage (lit "An error occurred while creating the PDF file.")].

(** [downloadAsPdf(reportText, ticker)]; [None] when the call does not
    return within [fuel]. *)
Definition downloadAsPdf (fuel : nat) (reportText ticker : str)
    : option (list Effect) :=
  let filename := ticker ++ lit "_Financial_Analysis.pdf" in
  match generate fuel reportText ticker initial with
  | Ret (_, st) =>
      if throws fac (CSave filename)
      then Some (catchBlock (FacilityError (CSave filename)))
      else Some [SaveFile filename (doc st)]
  | Throw e => Some (catchBlock e)
  | OutOfFuel => None
  end.

End Engine.

End Pdf.

Import Pdf.

Unset Implicit Arguments.

(* ================================================================== *)
(** ** The arithmetic of doubles *)
(* ================================================================== *)

Module Double.

(** The whole number nearest to [q]; of two that are equally near, the
    even one. *)
Definition nearestEven (q : Q) : Z :=
  let n := Qnum q in
  let d := Zpos (Qden q) in
  let f := (n / d)%Z in
  match (2 * (n mod d) ?= d)%Z with
  | Lt => f
  | Gt => (f + 1)%Z
  | Eq => if Z.even f then f else (f + 1)%Z
  end.

(** [2 ^ e] for a whole exponent of either sign. *)
Definition pow2 (e : Z) : Q :=
  match e with
  | Z0 => 1
  | Zpos p => inject_Z (2 ^ Zpos p)
  | Zneg p => 1 # (2 ^ p)%positive
  end.

(** [floor (log2 |q|)] for [q] other than 0. *)
Definition magnitude (q : Q) : Z :=
  let n := Z.abs (Qnum q) in
  let d := Zpos (Qden q) in
  let k := (Z.log2 n - Z.log2 d)%Z in
  if Qle_bool (pow2 k) (n # Qden q) then k else (k - 1)%Z.

(** The exponent of the last binary place of a double as large as [q]: a
    double has 53 significant places, and no place below [2 ^ -1074]. *)
Definition lastPlace (q : Q) : Z := Z.max (magnitude q - 52) (-1074).

(** [q] rounded to a whole multiple of [2 ^ e]. *)
Definition toPlace (e : Z) (q : Q) : Q :=
  inject_Z (nearestEven (q * pow2 (- e))) * pow2 e.

(** The double nearest to [q], ties to the even one: the rounding of
    every operation on the numbers of JavaScript (IEEE 754 binary64,
    round to nearest). Numbers beyond the largest double are not cut off:
    the infinities and NaN are left out. *)
Definition binary64 (q : Q) : Q :=
  if (Qnum q =? 0)%Z then 0 else Qred (toPlace (lastPlace q) q).

End Double.

Import Double.

(* ================================================================== *)
(** ** Observations on runs, and a sample facility *)
(* ================================================================== *)

Module Observe.

(** The height at which an operation puts its text. *)
Definition opY (o : Op) : option Q :=
  match o with
  | Text _ _ y0 _ => Some y0
  | TextWithLink _ _ y0 _ => Some y0
  | Grid _ _ _ => None
  | CellText _ => None
  end.

(** The text an operation puts on the page. *)
Definition opText (o : Op) : str :=
  match o with
  | Text s _ _ _ => s
  | TextWithLink s _ _ _ => s
  | Grid _ _ _ => []
  | CellText s => s
  end.

(** A text draw made by the table facility itself for a cell whose raw
    text holds a URL scheme. *)
Definition isDefaultLinkDraw (po : nat * Op) : bool :=
  match snd po with
  | CellText r => hasUrlScheme r
  | _ => false
  end.

(** Number of such draws in a document. *)
Definition defaultLinkDraws (d : Doc) : nat :=
  length (filter isDefaultLinkDraw (drawn d)).

(** A computation keeps the number of default draws of link cells. *)
Definition keeps {A : Type} (m : M A) : Prop :=
  forall st a st', m st = Ret (a, st') ->
    defaultLinkDraws (doc st') = defaultLinkDraws (doc st).

(** The font weight [renderFormattedLine] selects for a token. *)
Definition tokenStyle (t : Token) : FontStyle :=
  if isBold t then Bold else Normal.

(** The tokens fit on one physical line that starts at [x] and is
    [maxWidth] wide when each of them, measured whole at font size 10 in
    its own weight, fits in what is left of the line after the tokens
    before it; what is left is computed as the renderer computes it, in
    the arithmetic of the facility. *)
Fixpoint fitsOnLine (fac : Facility) (tokens : list Token)
    (x maxWidth currentX : Q) : bool :=
  match tokens with
  | [] => true
  | t :: ts =>
      match Tokenizer.text t with
      | [] => fitsOnLine fac ts x maxWidth currentX
      | _ :: _ =>
          let w := textWidth fac 10 (tokenStyle t) (Tokenizer.text t) in
          negb (Qgtb w (sub fac (add fac x maxWidth) currentX)) &&
          fitsOnLine fac ts x maxWidth (add fac currentX w)
      end
  end.

(** Between [st] and [st'] exactly [ops] were added to the drawing: the
    closure variables, the pages and the table extent are as before. *)
Definition draws (ops : list (nat * Op)) (st st' : Layout) : Prop :=
  y st' = y st /\ tableLines st' = tableLines st /\ inTable st' = inTable st /\
  numPages (doc st') = numPages (doc st) /\ page (doc st') = page (doc st) /\
  lastFinalY (doc st') = lastFinalY (doc st) /\
  drawn (doc st') = drawn (doc st) ++ ops.

(** The page that is current once [checkPageBreak(spaceNeeded)] has run. *)
Definition pageAfterPageCheck (fac : Facility) (spaceNeeded : Q) (st : Layout) : nat :=
  if Qgtb (add fac (y st) spaceNeeded) (sub fac (pageHeight fac) 15)
  then S (numPages (doc st)) else page (doc st).

(** The value of [y] once [checkPageBreak(spaceNeeded)] has run. *)
Definition yAfterPageCheck (fac : Facility) (spaceNeeded : Q) (y0 : Q) : Q :=
  if Qgtb (add fac y0 spaceNeeded) (sub fac (pageHeight fac) 15) then topMargin else y0.

(** The operation that prints [s] for [token]. *)
Definition printOp (token : Token) (s : str) (currentX currentY : Q) : Op :=
  if isLink token then TextWithLink s currentX currentY (urlOr token s)
  else Text s currentX currentY NoOpt.

(** The text of a bullet line (already trimmed) fits on one physical
    line: [splitTextToSize] gives back a single line, and the tokens of
    that line fit, unwrapped, in the indented content width. *)
Definition bulletFits (fac : Facility) (line : str) : bool :=
  match splitTextToSize fac 10 Normal (bulletGlyph ++ substringFrom line 2)
          (sub fac (contentWidth fac) 3) with
  | [bulletLine] =>
      match tokenizeLine bulletLine with
      | Some tokens =>
          fitsOnLine fac tokens (add fac leftMargin 3) (sub fac (contentWidth fac) 3)
            (add fac leftMargin 3)
      | None => false
      end
  | _ => false
  end.

(** What a line whose tokens fit puts on page [pg]: every token once, in
    one piece, from left to right at the height [currentY], the pen moving
    on by the measured width of each. *)
Fixpoint lineOps (fac : Facility) (pg : nat) (tokens : list Token)
    (currentX currentY : Q) : list (nat * Op) :=
  match tokens with
  | [] => []
  | t :: ts =>
      match Tokenizer.text t with
      | [] => lineOps fac pg ts currentX currentY
      | _ :: _ =>
          (pg, printOp t (Tokenizer.text t) currentX currentY) ::
          lineOps fac pg ts
            (add fac currentX (textWidth fac 10 (tokenStyle t) (Tokenizer.text t)))
            currentY
      end
  end.

(** What a bullet line (already trimmed) that fits puts on page [pg] when
    the cursor is at [y0]. *)
Definition bulletOps (fac : Facility) (pg : nat) (line : str) (y0 : Q)
    : list (nat * Op) :=
  match splitTextToSize fac 10 Normal (bulletGlyph ++ substringFrom line 2)
          (sub fac (contentWidth fac) 3) with
  | [bulletLine] =>
      match tokenizeLine bulletLine with
      | Some tokens => lineOps fac pg tokens (add fac leftMargin 3) (sub fac y0 5)
      | None => []
      end
  | _ => []
  end.

(** The height [h] moved down by [n] line heights, one after the other,
    in the arithmetic of the facility. *)
Fixpoint lowered (fac : Facility) (n : nat) (h : Q) : Q :=
  match n with
  | O => h
  | S n' => add fac (lowered fac n' h) lineHeight
  end.

(** A rounding that keeps the order of the numbers and leaves the numbers
    it produces as they are, as exact arithmetic does trivially and the
    rounding to the nearest double by [inDoubles_monotone]. *)
Definition monotoneRounding (fac : Facility) : Prop :=
  (forall a b, a <= b -> round fac a <= round fac b) /\
  (forall a, round fac (round fac a) == round fac a).

(** What the table facility draws by itself while it goes through
    [steps], starting on page [pg] of [pages]: the text of every cell
    without a URL scheme, on the page that is current when the cell is
    laid out. *)
Fixpoint ownDraws (pg pages : nat) (steps : list TableStep) : list (nat * Op) :=
  match steps with
  | [] => []
  | NextPage :: rest => ownDraws (S pages) (S pages) rest
  | LayCell c :: rest =>
      if hasUrlScheme (raw c) then ownDraws pg pages rest
      else (pg, CellText (raw c)) :: ownDraws pg pages rest
  end.

(** The interior of a cell, as [didDrawCell] hands it to the renderer:
    left edge, baseline and width. *)
Definition interiorX (fac : Facility) (c : Cell) : Q := add fac (cellX c) (padLeft c).
Definition interiorY (fac : Facility) (c : Cell) : Q :=
  add fac (add fac (cellY c) (padTop c)) 3.
Definition interiorWidth (fac : Facility) (c : Cell) : Q :=
  sub fac (cellWidth c) (padHorizontal c).

(** The text of every link cell of a layout fits on one line of the
    interior of its cell. *)
Fixpoint linkCellsFit (fac : Facility) (steps : list TableStep) : bool :=
  match steps with
  | [] => true
  | NextPage :: rest => linkCellsFit fac rest
  | LayCell c :: rest =>
      (if hasUrlScheme (raw c)
       then match tokenizeLine (raw c) with
            | Some tokens =>
                fitsOnLine fac tokens (interiorX fac c) (interiorWidth fac c)
                  (interiorX fac c)
            | None => false
            end
       else true) && linkCellsFit fac rest
  end.

(** What a table puts on the pages when the facility still calls
    [didDrawCell] for a link cell and every link cell fits: the facility's
    own draw of every cell without a URL scheme, and for every link cell
    the tokens of its text, drawn by the renderer in the interior of the
    cell. *)
Fixpoint hookDraws (fac : Facility) (pg pages : nat) (steps : list TableStep)
    : list (nat * Op) :=
  match steps with
  | [] => []
  | NextPage :: rest => hookDraws fac (S pages) (S pages) rest
  | LayCell c :: rest =>
      (if hasUrlScheme (raw c)
       then match tokenizeLine (raw c) with
            | Some tokens => lineOps fac pg tokens (interiorX fac c) (interiorY fac c)
            | None => []
            end
       else [(pg, CellText (raw c))]) ++ hookDraws fac pg pages rest
  end.

(** An operation that puts no text of a link cell on the page: the grid
    of a table, or the facility's draw of a cell without a URL scheme. *)
Definition noLinkText (po : nat * Op) : Prop :=
  match snd po with
  | Grid _ _ _ => True
  | CellText r => hasUrlScheme r = false
  | _ => False
  end.

(** Every single code unit of [s], measured alone at font size 10 in
    weight [style], is at most [maxWidth] wide. *)
Definition charsFit (fac : Facility) (maxWidth : Q) (style : FontStyle) (s : str) : bool :=
  forallb (fun c => Qle_bool (textWidth fac 10 style [c]) maxWidth) s.

(** A sample measure: every code unit is 1 wide but [W], which is 2 wide;
    the empty string is 0 wide. *)
Definition sampleWidth (_ : Q) (_ : FontStyle) (s : str) : Q :=
  fold_right (fun c acc => (if (c =? 87)%N then 2 else 1) + acc) 0 s.

(** A sample facility: A4 pages, the sample measure, no splitting, no
    failure, no table cell, exact arithmetic (on the whole numbers of the
    sample measure the arithmetic of doubles is exact as well). *)
Definition sampleFacility : Facility :=
  mkFacility 210 297 sampleWidth (fun _ _ s _ => [s]) (fun s => s)
             (fun _ => false) (fun _ _ _ => []) (fun _ _ y0 => y0) false
             (fun q => q).

(** The sample facility with a measurement that fails. *)
Definition failingMeasure : Facility :=
  mkFacility 210 297 sampleWidth (fun _ _ s _ => [s]) (fun s => s)
             (fun c => match c with CGetTextWidth _ => true | _ => false end)
             (fun _ _ _ => []) (fun _ _ y0 => y0) false
             (fun q => q).

(** The sample facility going through the given steps for any table;
    [after] says whether it still calls [didDrawCell] for a cell whose
    [willDrawCell] returned [false]. *)
Definition sampleLayout (steps : list TableStep) (after : bool) : Facility :=
  mkFacility 210 297 sampleWidth (fun _ _ s _ => [s]) (fun s => s)
             (fun _ => false) (fun _ _ _ => steps) (fun _ _ y0 => y0 + 20) after
             (fun q => q).

(** The sample facility laying out the given cells on one page. *)
Definition sampleTable (cells : list Cell) (after : bool) : Facility :=
  sampleLayout (map LayCell cells) after.

(** A facility with the arithmetic of doubles in place of its own. *)
Definition inDoubles (fac : Facility) : Facility :=
  mkFacility (pageWidth fac) (pageHeight fac) (textWidth fac) (splitTextToSize fac)
             (upperCaseOther fac) (throws fac) (tableLayout fac) (tableFinalY fac)
             (didAfterSuppressed fac) binary64.

(** A measure with fractions: every code unit is a tenth wide, as near as
    a double gets to it. *)
Definition tenthWidth (_ : Q) (_ : FontStyle) (s : str) : Q :=
  binary64 (inject_Z (Z.of_nat (length s)) * binary64 (1 # 10)).

(** A page 33.6 wide, so that an indented line is 0.6 wide, measured in
    tenths: once computed exactly, once in doubles. *)
Definition tenthExact : Facility :=
  mkFacility (binary64 (336 # 10)) 297 tenthWidth (fun _ _ s _ => [s]) (fun s => s)
             (fun _ => false) (fun _ _ _ => []) (fun _ _ y0 => y0) false
             (fun q => q).

Definition tenthFacility : Facility := inDoubles tenthExact.

(** Two cells of a sample table row, the second one with a link. *)
Definition sampleCells : list Cell :=
  [mkCell (lit "Site") 15 35 60 2 2 4;
   mkCell (lit "https://example.com") 75 35 60 2 2 4].

(** A link cell whose interior (5 - 4) is narrower than a [W], and the
    sample facility laying out just that cell. *)
Definition narrowCell : Cell := mkCell (lit "W http://x") 15 35 5 2 2 4.
Definition narrowTable : Facility := sampleTable [narrowCell] true.

(** The layout state after a level-2 heading: bold is in effect. *)
Definition afterHeading : Layout :=
  mkLayout (mkDoc 16 Bold (0, 0, 0)%Z 1 1 [] 0) 50 [] false.

End Observe.

Import Observe.

(* ================================================================== *)
(** ** Invariants of the pipeline *)
(* ================================================================== *)

Module Invariants.

(** The shape of a token: its text is not empty; a link carries its own
    text as [url] and starts with a URL scheme; any other token has no
    [url]. *)
Definition wellFormedToken (t : Token) : Prop :=
  Tokenizer.text t <> [] /\
  (isLink t = true ->
     url t = Some (Tokenizer.text t) /\
     (startsWith (Tokenizer.text t) (lit "http://") = true \/
      startsWith (Tokenizer.text t) (lit "https://") = true)) /\
  (isLink t = false -> url t = None).

(** A string without its asterisks. *)
Definition dropStars (s : str) : str :=
  filter (fun c => negb (N.eqb c star)) s.

(** The table buffer and its flag agree: the flag is set exactly when
    rows are waiting. *)
Definition bufferInv (st : Layout) : Prop :=
  inTable st = true <-> tableLines st <> [].

(** From [st] to [st'] the drawn operations were only added to and no
    page was removed. *)
Definition extends (st st' : Layout) : Prop :=
  (exists ops, drawn (doc st') = drawn (doc st) ++ ops) /\
  (numPages (doc st) <= numPages (doc st'))%nat.

(** A computation that only adds to the document. *)
Definition grows {A : Type} (m : M A) : Prop :=
  forall st a st', m st = Ret (a, st') -> extends st st'.

(** An outcome that is not a TypeError and, when it is a return, ends in
    a state with property [Q]. *)
Definition outcomeOK {A : Type} (Q : Layout -> Prop) (o : Outcome (A * Layout)) : Prop :=
  match o with
  | Ret (_, st') => Q st'
  | Throw e => e <> TypeError
  | OutOfFuel => True
  end.

(** A computation that leaves the table buffer and its flag alone and
    raises nothing but failures of the facility. *)
Definition framed {A : Type} (m : M A) : Prop :=
  forall st,
    outcomeOK (fun st' => tableLines st' = tableLines st /\ inTable st' = inTable st)
              (m st).

(** The stamp [addPageNumbers] puts on page [i] of [pageCount]. *)
Definition pageStamp (fac : Facility) (pageCount i : nat) : nat * Op :=
  (i, Text (lit "Page " ++ natToStr i ++ lit " of " ++ natToStr pageCount)
           (div fac (pageWidth fac) 2) (sub fac (pageHeight fac) 10) AlignCenter).

End Invariants.

Import Invariants.

(* ================================================================== *)
(** ** The tutorial tooltip *)
(* ================================================================== *)

Module Tooltip.

(** [step.position]: ['top'] or ['bottom'], the only values
    [buildTutorialSteps] puts there. *)
Inductive Position := Top | Bottom.

(** The fields of a [DOMRect] that [showTutorialStep] reads. *)
Record Rect := mkRect {
  rTop : Q;
  rLeft : Q;
  rWidth : Q;
  rHeight : Q;
  rBottom : Q
}.

(** [Math.max] and [Math.min] on two numbers. *)
Definition jsMax (a b : Q) : Q := if Qle_bool a b then b else a.
Definition jsMin (a b : Q) : Q := if Qle_bool a b then a else b.

Definition margin : Q := 15.
Definition edgeMargin : Q := 10.

Section Placement.

(** The rounding of the number arithmetic: [binary64] for the doubles of
    JavaScript. *)
Variable round : Q -> Q.

(** [window.innerWidth - tooltipRect.width - edgeMargin], and the same
    for the height. *)
Definition farEdge (inner size : Q) : Q := round (round (inner - size) - edgeMargin).

(** The horizontal position: centred on the target, then clamped. *)
Definition tooltipLeft (targetRect tooltipRect : Rect) (innerWidth : Q) : Q :=
  let left :=
    round (round (rLeft targetRect + round (rWidth targetRect / 2))
           - round (rWidth tooltipRect / 2)) in
  jsMax edgeMargin (jsMin left (farEdge innerWidth (rWidth tooltipRect))).

(** [tooltipRect.height + margin] *)
Definition needed (tooltipRect : Rect) : Q := round (rHeight tooltipRect + margin).

Definition spaceBelow (targetRect : Rect) (innerHeight : Q) : Q :=
  round (innerHeight - rBottom targetRect).

Definition fitsBelow (targetRect tooltipRect : Rect) (innerHeight : Q) : bool :=
  Qle_bool (needed tooltipRect) (spaceBelow targetRect innerHeight).

Definition fitsAbove (targetRect tooltipRect : Rect) : bool :=
  let spaceAbove := rTop targetRect in
  Qle_bool (needed tooltipRect) spaceAbove.

(** [finalPosition]: the preferred side, flipped when it does not fit and
    the other side does. *)
Definition finalPosition (position : Position) (targetRect tooltipRect : Rect)
    (innerHeight : Q) : Position :=
  match position with
  | Bottom =>
      if negb (fitsBelow targetRect tooltipRect innerHeight) &&
         fitsAbove targetRect tooltipRect
      then Top else Bottom
  | Top =>
      if negb (fitsAbove targetRect tooltipRect) &&
         fitsBelow targetRect tooltipRect innerHeight
      then Bottom else Top
  end.

(** [top] before the clamp: beside the target, on either side. *)
Definition topAbove (targetRect tooltipRect : Rect) : Q :=
  round (round (rTop targetRect - rHeight tooltipRect) - margin).
Definition topBelow (targetRect : Rect) : Q := round (rBottom targetRect + margin).

(** The vertical position: beside the target on the final side, then
    clamped. *)
Definition tooltipTop (position : Position) (targetRect tooltipRect : Rect)
    (innerHeight : Q) : Q :=
  let top :=
    match finalPosition position targetRect tooltipRect innerHeight with
    | Top => topAbove targetRect tooltipRect
    | Bottom => topBelow targetRect
    end in
  jsMax edgeMargin (jsMin top (farEdge innerHeight (rHeight tooltipRect))).


End Placement.

End Tooltip.

Import Tooltip.

(* ================================================================== *)
(** ** Configurations, the tutorial and the theme *)
(* ================================================================== *)

Module App.

(** [a === b] on strings. *)
Fixpoint streqb (a b : str) : bool :=
  match a, b with
  | [], [] => true
  | x :: a', y :: b' => N.eqb x y && streqb a' b'
  | _, _ => false
  end.

(** A section of a report structure: [heading] is a string,
    [score_guideline] and [subheadings] may be missing. *)
Record ReportSection := mkSection {
  heading : str;
  score_guideline : option str;
  subheadings : option (list str)
}.

(** [config.report_structure] *)
Record ReportStructure := mkStructure {
  sections : option (list ReportSection);
  structureSubheadings : option (list str)
}.

(** An analysis configuration, as parsed from its JSON file, with the
    fields the code reads, at the types it uses them at: [id] and
    [displayName] are strings, the others may be missing ([None] is
    [undefined]); [dcfParametersJson] is the text that
    [JSON.stringify(config.dcf_model_parameters, null, 2)] puts in a
    string. *)
Record Config := mkConfig {
  configId : str;
  displayName : str;
  description : option str;
  report_structure : option ReportStructure;
  system_instruction_template : option str;
  prompt_description : option str;
  citation_template : option str;
  data_sources : option (list str);
  dcfParametersJson : str
}.

(** [analysisConfigs]: a [Map] from id to configuration. *)
Definition Configs := list (str * Config).

(** [analysisConfigs.get(key)]; [None] is [undefined], and
    [analysisConfigs.has(key)] is whether it is [Some]. *)
Fixpoint mapGet (m : Configs) (key : str) : option Config :=
  match m with
  | [] => None
  | (k, v) :: m' => if streqb k key then Some v else mapGet m' key
  end.

(** A step of the tutorial. *)
Record Step := mkStep {
  elementId : str;
  title : str;
  stepDescription : str;
  position : Position
}.

Definition promptStep : Step :=
  mkStep (lit "prompt-input") (lit "Your Turn!")
    (lit "Enter a stock ticker for a report, or ask any financial question in chat mode to get started.")
    Top.

Definition stepsConfig : list (str * Position) :=
  [(lit "chat", Bottom); (lit "quick_summary", Bottom); (lit "deep_dive", Bottom);
   (lit "technical", Bottom); (lit "prompt-input", Top)].

(** The body of [stepsConfig.forEach(stepConf => { ... })]; a description
    is truthy when it is a string that is not empty. *)
Definition addStep (configs : Configs) (steps : list Step)
    (stepConf : str * Position) : list Step :=
  if streqb (fst stepConf) (lit "prompt-input") then steps ++ [promptStep]
  else match mapGet configs (fst stepConf) with
       | Some config =>
           match description config with
           | Some (c :: d) =>
               steps ++
               [mkStep (configId config) (displayName config) (c :: d) (snd stepConf)]
           | _ => steps
           end
       | None => steps
       end.

(** [buildTutorialSteps()]: the new value of [tutorialSteps]. *)
Definition buildTutorialSteps (configs : Configs) : list Step :=
  fold_left (addStep configs) stepsConfig [].

(** [localStorage]: the pairs of key and value, the latest first; every
    write is taken to succeed. *)
Definition Storage := list (str * str).

(** [localStorage.getItem(key)]; [None] is [null]. *)
Fixpoint getItem (s : Storage) (key : str) : option str :=
  match s with
  | [] => None
  | (k, v) :: s' => if streqb k key then Some v else getItem s' key
  end.

(** [localStorage.setItem(key, value)] *)
Definition setItem (s : Storage) (key value : str) : Storage := (key, value) :: s.

(** What the tutorial functions read and write: the two module variables,
    the overlay's [hidden] class, whether the resize listener is attached,
    the text of the title, of the description and of the button, and the
    local storage. The geometry of the highlight and of the tooltip is
    [Tooltip]'s. *)
Record Tutorial := mkTutorial {
  tutorialSteps : list Step;
  currentTutorialStep : nat;
  overlayHidden : bool;
  resizeListener : bool;
  shownTitle : option str;
  shownDescription : option str;
  nextLabel : option str;
  storage : Storage
}.

(** What a lookup in the page gives; [document.querySelector] raises a
    SyntaxError on a selector it cannot parse. *)
Inductive Lookup := Found | NotFound | InvalidSelector.

Inductive TOutcome :=
| TRet (t : Tutorial)
| TTypeError
| TSyntaxError
| TOutOfFuel.

Section Dom.

(** Whether the page has the overlay, and whether it has the highlight,
    the tooltip, the title, the description and the button. *)
Variable overlay widgets : bool.
Variable getElementById : str -> bool.
Variable querySelector : str -> Lookup.

(** The lookup of [targetElement] in [showTutorialStep]. *)
Definition targetElement (step : Step) : Lookup :=
  if streqb (elementId step) (lit "prompt-input")
  then (if getElementById (elementId step) then Found else NotFound)
  else querySelector (lit "label[for=" ++ [34%N] ++ elementId step ++ [34%N] ++ lit "]").

(** [endTutorial()] *)
Definition endTutorial (t : Tutorial) : Tutorial :=
  if negb overlay then t
  else mkTutorial (tutorialSteps t) (currentTutorialStep t) true false
         (shownTitle t) (shownDescription t) (nextLabel t)
         (setItem (storage t) (lit "hasSeenTutorial") (lit "true")).

(** [showTutorialStep(index)] and [handleTutorialNext()], which call each
    other. [tutorialSteps[index]] is [undefined] past the end, and reading
    [step.elementId] then raises a TypeError. *)
Fixpoint showTutorialStep (fuel : nat) (index : nat) (t : Tutorial) : TOutcome :=
  match fuel with
  | O => TOutOfFuel
  | S fuel' =>
      if negb widgets then TRet t
      else match nth_error (tutorialSteps t) index with
           | None => TTypeError
           | Some step =>
               match targetElement step with
               | InvalidSelector => TSyntaxError
               | NotFound => handleTutorialNext fuel' t
               | Found =>
                   TRet (mkTutorial (tutorialSteps t) (currentTutorialStep t)
                           (overlayHidden t) (resizeListener t)
                           (Some (title step)) (Some (stepDescription step))
                           (Some (if (index =? length (tutorialSteps t) - 1)%nat
                                  then lit "Done" else lit "Next"))
                           (storage t))
               end
           end
  end
with handleTutorialNext (fuel : nat) (t : Tutorial) : TOutcome :=
  match fuel with
  | O => TOutOfFuel
  | S fuel' =>
      let t1 := mkTutorial (tutorialSteps t) (S (currentTutorialStep t))
                  (overlayHidden t) (resizeListener t)
                  (shownTitle t) (shownDescription t) (nextLabel t) (storage t) in
      if (currentTutorialStep t1 <? length (tutorialSteps t1))%nat
      then showTutorialStep fuel' (currentTutorialStep t1) t1
      else TRet (endTutorial t1)
  end.

(** [startTutorial()] *)
Definition startTutorial (fuel : nat) (t : Tutorial) : TOutcome :=
  if ((length (tutorialSteps t) =? 0)%nat || negb overlay)%bool then TRet t
  else
    let t1 := mkTutorial (tutorialSteps t) 0 false (resizeListener t)
                (shownTitle t) (shownDescription t) (nextLabel t) (storage t) in
    match showTutorialStep fuel (currentTutorialStep t1) t1 with
    | TRet t2 =>
        TRet (mkTutorial (tutorialSteps t2) (currentTutorialStep t2)
                (overlayHidden t2) true
                (shownTitle t2) (shownDescription t2) (nextLabel t2) (storage t2))
    | o => o
    end.

(** [handleTutorialResize()] *)
Definition handleTutorialResize (fuel : nat) (t : Tutorial) : TOutcome :=
  if (negb overlay || overlayHidden t)%bool then TRet t
  else showTutorialStep fuel (currentTutorialStep t) t.

(** The click listener of the Next button run up to [n] times; the button
    is part of the overlay, so there is no click once that is hidden. *)
Fixpoint pressNext (fuel : nat) (n : nat) (t : Tutorial) : TOutcome :=
  match n with
  | O => TRet t
  | S n' =>
      if overlayHidden t then TRet t
      else match handleTutorialNext fuel t with
           | TRet t' => pressNext fuel n' t'
           | o => o
           end
  end.

(** What a call leaves: the step it shows, or the tutorial closed. *)
Definition settled (t t' : Tutorial) : Prop :=
  (exists step,
     nth_error (tutorialSteps t) (currentTutorialStep t') = Some step /\
     targetElement step = Found /\
     shownTitle t' = Some (title step) /\
     shownDescription t' = Some (stepDescription step) /\
     nextLabel t' =
       Some (if (currentTutorialStep t' =? length (tutorialSteps t) - 1)%nat
             then lit "Done" else lit "Next") /\
     overlayHidden t' = overlayHidden t /\
     resizeListener t' = resizeListener t /\
     storage t' = storage t) \/
  ((length (tutorialSteps t) <= currentTutorialStep t')%nat /\
   overlayHidden t' = true /\
   resizeListener t' = false /\
   getItem (storage t') (lit "hasSeenTutorial") = Some (lit "true")).

End Dom.

(** The page as the theme functions see it: whether [document.body] has
    the class [dark-mode], and the local storage. *)
Record Page := mkPage {
  darkMode : bool;
  pageStorage : Storage
}.

(** [applyTheme(theme)] *)
Definition applyTheme (theme : str) (p : Page) : Page :=
  if streqb theme (lit "dark") then mkPage true (pageStorage p)
  else mkPage false (pageStorage p).

(** [toggleTheme()] *)
Definition toggleTheme (p : Page) : Page :=
  let isDarkMode := darkMode p in
  let newTheme := if isDarkMode then lit "light" else lit "dark" in
  let p1 := applyTheme newTheme p in
  mkPage (darkMode p1) (setItem (pageStorage p1) (lit "theme") newTheme).

(** [initializeTheme()]; [prefersDark] is what the media query gives. *)
Definition initializeTheme (prefersDark : bool) (p : Page) : Page :=
  match getItem (pageStorage p) (lit "theme") with
  | Some (c :: savedTheme) => applyTheme (c :: savedTheme) p
  | _ => if prefersDark then applyTheme (lit "dark") p else p
  end.

(** A loaded configuration and a tutorial built from it, for examples. *)
Definition sampleConfigs : Configs :=
  [(lit "chat",
    mkConfig (lit "chat") (lit "Chat") (Some (lit "Ask a question"))
      None (Some (lit "You are a helpful analyst.")) None None None (lit "undefined"))].

Definition sampleTutorial : Tutorial :=
  mkTutorial (buildTutorialSteps sampleConfigs) 0 false true None None None [].

End App.

Import App.

(* ================================================================== *)
(** ** Markdown to HTML for the chat *)
(* ================================================================== *)

Module Html.

(** A regular expression at one position: given whether the position is
    the start of a line (where [^] matches under the flag [m]) and the
    text from the position on, the length of the match and the text that
    replaces it, with the [$1] of the replacement pattern filled in. *)
Definition Matcher := bool -> str -> option (nat * str).

(** [s.replace(re, replacement)] for a regular expression with the flag
    [g] whose matches are never empty: the scan goes left to right, copies
    the units where nothing matches, and resumes at the end of each match
    ([skip] counts the units of the current match still to pass). *)
Fixpoint replaceAll (m : Matcher) (skip : nat) (atStart : bool) (s : str) : str :=
  match s with
  | [] => []
  | c :: s' =>
      match skip with
      | S k => replaceAll m k (isLineTerminator c) s'
      | O =>
          match m atStart s with
          | Some (S k, r) => r ++ replaceAll m k (isLineTerminator c) s'
          | _ => c :: replaceAll m O (isLineTerminator c) s'
          end
      end
  end.

Definition replace (m : Matcher) (s : str) : str := replaceAll m 0 true s.

Definition lessThan : char := 60%N.
Definition greaterThan : char := 62%N.
Definition quote : char := 34%N.

(** [/</g] and [/>/g], replaced by an entity. *)
Definition angle (c : char) (entity : str) : Matcher :=
  fun _ s =>
    match s with
    | x :: _ => if N.eqb x c then Some (1%nat, entity) else None
    | [] => None
    end.

(** [/^## (.*$)/gim] and its like: the marker at the start of a line, and
    the rest of the line as [$1]. *)
Definition lineMarker (marker opening closing : str) : Matcher :=
  fun atStart s =>
    if atStart && startsWith s marker then
      let captured :=
        takeWhile (fun c => negb (isLineTerminator c)) (skipn (length marker) s) in
      Some ((length marker + length captured)%nat, opening ++ captured ++ closing)
    else None.

(** [/\*\*(.*?)\*\*/g] *)
Definition strong : Matcher :=
  fun _ s =>
    match matchBold s with
    | Some n => Some (n, lit "<strong>" ++ substring s 2 (n - 2) ++ lit "</strong>")
    | None => None
    end.

(** The flag [i] compares canonical forms: a lower-case letter of ASCII
    becomes its upper case; no code unit outside ASCII has a canonical
    form inside it, so this is enough against a pattern written in ASCII. *)
Definition canonicalize (c : char) : char :=
  if ((97 <=? c) && (c <=? 122))%N then (c - 32)%N else c.

Fixpoint startsWithIgnoreCase (s p : str) {struct p} : bool :=
  match p with
  | [] => true
  | y :: p' =>
      match s with
      | [] => false
      | x :: s' => N.eqb (canonicalize x) (canonicalize y) && startsWithIgnoreCase s' p'
      end
  end.

(** [/<\/ul>\s*<ul>/gim], replaced by the empty string: the greedy [\s*]
    takes the whole run of white space, and giving some of it back cannot
    help since [<] is no white space. *)
Definition adjacentLists : Matcher :=
  fun _ s =>
    if startsWithIgnoreCase s (lit "</ul>") then
      let spaces := takeWhile isWhiteSpace (skipn 5 s) in
      if startsWithIgnoreCase (skipn (5 + length spaces) s) (lit "<ul>")
      then Some ((5 + length spaces + 4)%nat, [])
      else None
    else None.

(** The replacement of the link pattern with [$1] filled in. *)
Definition anchor (u : str) : str :=
  lit "<a href=" ++ [quote] ++ u ++ [quote] ++
  lit " target=" ++ [quote] ++ lit "_blank" ++ [quote] ++
  lit " rel=" ++ [quote] ++ lit "noopener noreferrer" ++ [quote] ++
  lit ">" ++ u ++ lit "</a>".

(** [/(https?:\/\/[^\s]+)/g] *)
Definition autolink : Matcher :=
  fun _ s =>
    match matchUrl s with
    | Some n => Some (n, anchor (firstn n s))
    | None => None
    end.

(** [text.replace(/</g, "&lt;").replace(/>/g, "&gt;")] *)
Definition safeText (text : str) : str :=
  replace (angle greaterThan (lit "&gt;")) (replace (angle lessThan (lit "&lt;")) text).

Definition headers2 (s : str) : str :=
  replace (lineMarker (lit "## ") (lit "<h2>") (lit "</h2>")) s.

Definition headers3 (s : str) : str :=
  replace (lineMarker (lit "### ") (lit "<h3>") (lit "</h3>")) s.

Definition lists (s : str) : str :=
  replace (lineMarker (lit "- ") (lit "<ul><li>") (lit "</li></ul>")) s.

(** [markdownToHtml(text)] *)
Definition markdownToHtml (text : str) : str :=
  replace autolink
    (replace adjacentLists
       (lists (replace strong (headers3 (headers2 (safeText text)))))).

(** Some line of [s] starts with [marker]; [atStart] tells whether [s]
    itself starts a line. *)
Fixpoint anyLineStarts (marker : str) (atStart : bool) (s : str) : bool :=
  match s with
  | [] => false
  | c :: s' =>
      (atStart && startsWith s marker) || anyLineStarts marker (isLineTerminator c) s'
  end.

(** The lines [- item], one per item, joined by line feeds. *)
Fixpoint bulletLines (items : list str) : str :=
  match items with
  | [] => []
  | [item] => lit "- " ++ item
  | item :: rest => lit "- " ++ item ++ [10%N] ++ bulletLines rest
  end.

(** What the two escaping passes make of one code unit. *)
Definition escapeUnit (c : char) : str :=
  if N.eqb c lessThan then lit "&lt;"
  else if N.eqb c greaterThan then lit "&gt;"
  else [c].

(** An item of a list with nothing in it for any of the passes: no angle
    bracket, no line terminator, no asterisk, no URL scheme. *)
Definition plainItem (item : str) : Prop :=
  Forall (fun c => c <> lessThan /\ c <> greaterThan /\ c <> star /\
                   isLineTerminator c = false) item /\
  hasUrlScheme item = false.

End Html.

Import Html.

(* ================================================================== *)
(** ** The prompts *)
(* ================================================================== *)

Module Prompts.

Definition lf : char := 10%N.
Definition dollar : char := 36%N.

(** [parts.join(sep)] *)
Definition join (sep : str) (parts : list str) : str :=
  match parts with
  | [] => []
  | p :: ps => p ++ flat_map (fun q => sep ++ q) ps
  end.

(** [v || ''] for a string or [undefined]. *)
Definition orEmpty (v : option str) : str :=
  match v with
  | Some s => s
  | None => []
  end.

(** [array.map((x, index) => f(index, x))], counting from [index]. *)
Fixpoint mapIndexed {A B : Type} (f : nat -> A -> B) (index : nat) (l : list A)
    : list B :=
  match l with
  | [] => []
  | x :: l' => f index x :: mapIndexed f (S index) l'
  end.

(** The arrow function of [buildQuickSummaryStructure]. *)
Definition quickSummarySection (section : ReportSection) : str :=
  let sectionText :=
    [lf] ++ lit "**" ++ heading section ++ lit "** " ++
    orEmpty (score_guideline section) ++ [lf] in
  match subheadings section with
  | Some (sub :: subs) =>
      sectionText ++ join [lf] (map (fun sub => lit "- " ++ sub) (sub :: subs))
  | _ => sectionText
  end.

(** [buildQuickSummaryStructure(sections)] *)
Definition buildQuickSummaryStructure (sections : list ReportSection) : str :=
  join [] (map quickSummarySection sections).

(** The arrow function of [buildDeepDiveStructure]. *)
Definition deepDiveSection (index : nat) (section : ReportSection) : str :=
  let sectionText :=
    [lf] ++ lit "## " ++ natToStr (index + 1) ++ lit ". " ++ heading section ++
    lit " " ++
    match score_guideline section with
    | Some (c :: g) => lit "(Score: " ++ (c :: g) ++ lit ")"
    | _ => []
    end in
  match subheadings section with
  | Some (sub :: subs) =>
      sectionText ++ [lf] ++ join [lf] (map (fun sub => lit "### " ++ sub) (sub :: subs))
  | _ => sectionText
  end.

(** [buildDeepDiveStructure(sections)] *)
Definition buildDeepDiveStructure (sections : list ReportSection) : str :=
  join [] (mapIndexed deepDiveSection 0 sections).

(** The first occurrence of [pattern] in [s], as the text before it and
    the text after it. *)
Fixpoint cut (pattern s : str) : option (str * str) :=
  if startsWith s pattern then Some ([], skipn (length pattern) s)
  else match s with
       | [] => None
       | c :: s' =>
           match cut pattern s' with
           | Some (before, after) => Some (c :: before, after)
           | None => None
           end
       end.

(** [s.includes(pattern)] *)
Definition includesStr (s pattern : str) : bool :=
  match cut pattern s with
  | Some _ => true
  | None => false
  end.

(** The replacement text of [String.prototype.replace] for a pattern that
    is a string: in the replacement, [$$] stands for a dollar sign, [$&]
    for the matched text, [$`] for the text before it and [$'] for the
    text after it; there are no groups, so any other [$] stands for
    itself. *)
Fixpoint getSubstitution (matched before after replacement : str) : str :=
  match replacement with
  | [] => []
  | c :: r =>
      if N.eqb c dollar then
        match r with
        | d :: r' =>
            if N.eqb d dollar then dollar :: getSubstitution matched before after r'
            else if N.eqb d 38%N then matched ++ getSubstitution matched before after r'
            else if N.eqb d 96%N then before ++ getSubstitution matched before after r'
            else if N.eqb d 39%N then after ++ getSubstitution matched before after r'
            else dollar :: getSubstitution matched before after r
        | [] => [dollar]
        end
      else c :: getSubstitution matched before after r
  end.

(** [s.replace(pattern, replacement)] for a pattern that is a string:
    only the first occurrence is replaced. *)
Definition replaceFirst (s pattern replacement : str) : str :=
  match cut pattern s with
  | None => s
  | Some (before, after) =>
      before ++ getSubstitution pattern before after replacement ++ after
  end.

(** What a prompt builder gives: the prompt, an [Error] with its message,
    or the TypeError of a property read on [undefined]. *)
Inductive Result (A : Type) :=
| Built (a : A)
| Failed (message : str)
| ReadOfUndefined.

Arguments Built {A} a.
Arguments Failed {A} message.
Arguments ReadOfUndefined {A}.

(** [{ systemInstruction, contents }] *)
Record Prompt := mkPrompt {
  systemInstruction : str;
  contents : str
}.

(** The choice of the structure in [buildPrompt], by the [id] of the
    configuration. *)
Definition structureOf (config : Config) : Result str :=
  if streqb (configId config) (lit "quick_summary") then
    match report_structure config with
    | Some rs =>
        match sections rs with
        | Some ss => Built (buildQuickSummaryStructure ss)
        | None => ReadOfUndefined
        end
    | None => ReadOfUndefined
    end
  else if streqb (configId config) (lit "deep_dive") then
    match report_structure config with
    | Some rs =>
        match sections rs with
        | Some ss => Built (buildDeepDiveStructure ss)
        | None => ReadOfUndefined
        end
    | None => ReadOfUndefined
    end
  else if streqb (configId config) (lit "technical") then
    match report_structure config with
    | Some rs =>
        match structureSubheadings rs with
        | Some subs => Built (join [lf] (map (fun sub => lit "- " ++ sub) subs))
        | None => ReadOfUndefined
        end
    | None => ReadOfUndefined
    end
  else Built [].

(** [buildPrompt(analysisType, ticker)] *)
Definition buildPrompt (configs : Configs) (analysisType ticker : str)
    : Result Prompt :=
  let configKey :=
    if streqb analysisType (lit "full_report") then lit "deep_dive" else analysisType in
  match mapGet configs configKey with
  | None =>
      Failed (lit "Analysis configuration for '" ++ configKey ++ lit "' not found.")
  | Some config =>
      match structureOf config with
      | Built structure =>
          match system_instruction_template config with
          | None => ReadOfUndefined
          | Some template =>
              let s1 :=
                if includesStr template (lit "{STRUCTURE}")
                then replaceFirst template (lit "{STRUCTURE}") structure
                else template in
              let s2 :=
                if includesStr s1 (lit "{DATA_SOURCES}")
                then match data_sources config with
                     | Some sources =>
                         Built (replaceFirst s1 (lit "{DATA_SOURCES}")
                                  (join (lit ", ") sources))
                     | None => ReadOfUndefined
                     end
                else Built s1 in
              match s2 with
              | Built s2 =>
                  let s3 :=
                    if includesStr s2 (lit "{DCF_PARAMETERS}")
                    then replaceFirst s2 (lit "{DCF_PARAMETERS}") (dcfParametersJson config)
                    else s2 in
                  let s4 :=
                    match citation_template config with
                    | Some (c :: t) => s3 ++ c :: t
                    | _ => s3
                    end in
                  match prompt_description config with
                  | None => ReadOfUndefined
                  | Some description =>
                      let c1 :=
                        if includesStr description (lit "{STRUCTURE}")
                        then replaceFirst description (lit "{STRUCTURE}") structure
                        else description in
                      Built (mkPrompt s4 (replaceFirst c1 (lit "{TICKER}") ticker))
                  end
              | Failed m => Failed m
              | ReadOfUndefined => ReadOfUndefined
              end
          end
      | Failed m => Failed m
      | ReadOfUndefined => ReadOfUndefined
      end
  end.

(** A text without line feed. *)
Definition oneLine (s : str) : Prop := Forall (fun c => c <> lf) s.

(** The subheadings of a section as an array. *)
Definition subheadingsOf (section : ReportSection) : list str :=
  match subheadings section with
  | Some subs => subs
  | None => []
  end.

(** A section whose lines stay lines: no line feed in its heading, in its
    guideline and in its subheadings, and every subheading has a unit that
    is no white space. *)
Definition sectionOfLines (section : ReportSection) : Prop :=
  oneLine (heading section) /\
  oneLine (orEmpty (score_guideline section)) /\
  Forall (fun sub => oneLine sub /\ exists c, In c sub /\ isWhiteSpace c = false)
         (subheadingsOf section).

(** No [$] of the text starts a replacement pattern. *)
Fixpoint noPattern (s : str) : bool :=
  match s with
  | [] => true
  | c :: r =>
      if N.eqb c dollar then
        match r with
        | d :: _ =>
            negb (N.eqb d dollar || N.eqb d 38%N || N.eqb d 96%N || N.eqb d 39%N)
            && noPattern r
        | [] => true
        end
      else noPattern r
  end.

End Prompts.

Import Prompts.

(* ================================================================== *)
(** ** Loading the configurations *)
(* ================================================================== *)

Module Loading.

(** What [fetch] and [response.json()] give for one file: a response that
    is not [ok], a parsed configuration, or a rejection (of the request or
    of the parsing). *)
Inductive Response :=
| NotOk
| Json (config : Config)
| Rejected.

(** [analysisConfigs.set(key, config)]: a key that is there keeps its
    place. *)
Fixpoint mapSet (m : Configs) (key : str) (config : Config) : Configs :=
  match m with
  | [] => [(key, config)]
  | (k, v) :: m' =>
      if streqb k key then (k, config) :: m'
      else (k, v) :: mapSet m' key config
  end.

(** The part of the page that loading writes: the options made from the
    configurations, each with the [id] of its input (which is the [for] of
    its label) and the text of its label; whether an error message was
    added; whether the chat was disabled. *)
Record Options := mkOptions {
  dynamicOptions : list (str * str);
  errorAdded : bool;
  chatDisabled : bool
}.

Definition configFiles : list str :=
  [lit "chat.json"; lit "quick_summary.json"; lit "deep_dive.json";
   lit "technical.json"].

(** The [for] loop of [loadConfigs]: the map when the loop is left, and
    whether it was left at its end ([false] when a rejection leads to the
    [catch] block, with the map as it is by then). *)
Fixpoint loadFiles (fetch : str -> Response) (files : list str) (m : Configs)
    : Configs * bool :=
  match files with
  | [] => (m, true)
  | file :: files' =>
      match fetch (lit "./prompts/" ++ file) with
      | NotOk => loadFiles fetch files' m
      | Rejected => (m, false)
      | Json config =>
          match configId config, displayName config with
          | _ :: _, _ :: _ => loadFiles fetch files' (mapSet m (configId config) config)
          | _, _ => loadFiles fetch files' m
          end
      end
  end.

(** [populateAnalysisOptions()]: the options made before are removed, and
    one is added for each configuration but the chat's, in the order of
    the map. *)
Definition populateAnalysisOptions (fieldset : bool) (m : Configs) (o : Options)
    : Options :=
  if negb fieldset then o
  else mkOptions
         (map (fun config => (configId config, displayName config))
              (filter (fun config => negb (streqb (configId config) (lit "chat")))
                      (map snd m)))
         (errorAdded o) (chatDisabled o).

(** [loadConfigs()], from the map and the page as they are. *)
Definition loadConfigs (fieldset : bool) (fetch : str -> Response) (m : Configs)
    (o : Options) : Configs * Options :=
  match loadFiles fetch configFiles m with
  | (m', true) => (m', populateAnalysisOptions fieldset m' o)
  | (m', false) => (m', mkOptions (dynamicOptions o) true true)
  end.

(** An entry that sits under the [id] of its configuration, which has an
    [id] and a name. *)
Definition keyed (entry : str * Config) : Prop :=
  fst entry = configId (snd entry) /\
  configId (snd entry) <> [] /\ displayName (snd entry) <> [].

End Loading.

Import Loading.

(* ================================================================== *)
(** ** Pages added during a call *)
(* ================================================================== *)

Module Pages.

(** Since [st0]: the number of pages and [y] are as they were, or exactly
    one page was added and [y] is at the top margin. *)
Definition brokeAtMostOnce (st0 st : Layout) : Prop :=
  (numPages (doc st) = numPages (doc st0) /\ y st = y st0) \/
  (numPages (doc st) = S (numPages (doc st0)) /\ y st = topMargin).

(** A computation that keeps it so. *)
Definition breaksOnce {A : Type} (st0 : Layout) (m : M A) : Prop :=
  forall st a st',
    brokeAtMostOnce st0 st -> m st = Ret (a, st') -> brokeAtMostOnce st0 st'.

(** A computation that adds no page and leaves [y] alone. *)
Definition still {A : Type} (m : M A) : Prop :=
  forall st a st',
    m st = Ret (a, st') ->
    numPages (doc st') = numPages (doc st) /\ y st' = y st.

End Pages.

Import Pages.

(* ================================================================== *)
(** ** Table rows as they are written, and the tables of a report *)
(* ================================================================== *)

Module Written.

(** A cell as it stands between two pipes: its content, with white space
    before it and after it. *)
Record WrittenCell := mkWritten {
  before : str;
  content : str;
  after : str
}.

Definition writeCell (c : WrittenCell) : str := before c ++ content c ++ after c.

(** [s] neither starts nor ends with white space. *)
Definition clean (s : str) : bool :=
  match s with
  | [] => true
  | c :: _ => negb (isWhiteSpace c) && negb (isWhiteSpace (last s c))
  end.

(** The white space around the content is white space, and the content
    holds no pipe and neither starts nor ends with white space. *)
Definition wellWritten (c : WrittenCell) : Prop :=
  forallb isWhiteSpace (before c) = true /\
  forallb isWhiteSpace (after c) = true /\
  includes (content c) pipe = false /\
  clean (content c) = true.

(** A row between its outer pipes: a pipe, then every cell with a pipe
    behind it. *)
Definition writeRow (cells : list WrittenCell) : str :=
  pipe :: flat_map (fun c => writeCell c ++ [pipe]) cells.

(** The tables of a document: the head and the body of every table that
    the table facility was given, in the order of drawing. *)
Definition tablesOf (d : Doc) : list (list (list str) * list (list str)) :=
  flat_map (fun po => match snd po with
                      | Grid head body _ => [(head, body)]
                      | _ => []
                      end) (drawn d).

(** A run of table rows that ends, if it has a row. *)
Definition closeRun (run : list str) : list (list str) :=
  match run with
  | [] => []
  | _ :: _ => [run]
  end.

(** The runs of table rows of a report: the lines that are table rows,
    trimmed, every run of such lines one after the other taken together;
    [run] is the run that is being read. *)
Fixpoint tableRuns (lines : list str) (run : list str) : list (list str) :=
  match lines with
  | [] => closeRun run
  | line :: rest =>
      match classify line with
      | TableRow => tableRuns rest (run ++ [trim line])
      | _ => closeRun run ++ tableRuns rest []
      end
  end.

(** A computation that draws no table. *)
Definition drawsNoTable {A : Type} (m : M A) : Prop :=
  forall st a st', m st = Ret (a, st') -> tablesOf (doc st') = tablesOf (doc st).

(** The tables of the file that a call hands to the browser. *)
Definition savedTables (effects : option (list Effect))
    : option (list (list (list str) * list (list str))) :=
  match effects with
  | Some [SaveFile _ d] => Some (tablesOf d)
  | _ => None
  end.

(** A report that is one table with a link in a cell. *)
Definition linkTable : str :=
  lit "|Name|Link|" ++ [10%N] ++ lit "|-|-|" ++ [10%N] ++
  lit "|Site|https://example.com|".

(** What a call hands to the browser to save. *)
Definition savedDrawing (effects : option (list Effect)) : option (list (nat * Op)) :=
  match effects with
  | Some [SaveFile _ d] => Some (drawn d)
  | _ => None
  end.

(** A report that is one table whose rows have no closing pipe. *)
Definition unclosedTable : str :=
  lit "|A|B" ++ [10%N] ++ lit "|-|-" ++ [10%N] ++ lit "|1|2".

(** A report with two tables and a paragraph between them. *)
Definition twoTables : str :=
  lit "| a | b |" ++ [10%N] ++ lit "|-|-|" ++ [10%N] ++ lit "| 1 | 2 |" ++ [10%N] ++
  lit "text" ++ [10%N] ++ lit "|c|" ++ [10%N] ++ lit "|-|" ++ [10%N] ++ lit "|3|".

End Written.

Import Written.

(* ================================================================== *)
(** ** The rounding to the nearest double *)
(* ================================================================== *)

Section Doubles.

(** [nearestEven] is the floor or the whole number after it. *)
Lemma nearestEven_floor (q : Q) :
  nearestEven q = Qfloor q \/ nearestEven q = (Qfloor q + 1)%Z.
Proof.
  destruct q as [n d]. unfold nearestEven, Qfloor. cbn [Qnum Qden].
  destruct (2 * (n mod Z.pos d) ?= Z.pos d)%Z; auto.
  destruct (Z.even (n / Z.pos d)); auto.
Qed.

(** [nearestEven] keeps the order. *)
Lemma nearestEven_le (x y : Q) :
  x <= y -> (nearestEven x <= nearestEven y)%Z.
Proof.
  intros L.
  pose proof (Qfloor_resp_le x y L) as F.
  destruct (Z.eq_dec (Qfloor x) (Qfloor y)) as [E|N].
  - destruct x as [n d], y as [m e]. unfold Qle in L. unfold Qfloor in E.
    unfold nearestEven. cbn [Qnum Qden] in *.
    pose proof (Z.div_mod n (Z.pos d) ltac:(lia)) as Dn.
    pose proof (Z.div_mod m (Z.pos e) ltac:(lia)) as Dm.
    pose proof (Z.mod_pos_bound n (Z.pos d) ltac:(lia)) as Bn.
    pose proof (Z.mod_pos_bound m (Z.pos e) ltac:(lia)) as Bm.
    rewrite <- E in *.
    set (f := (n / Z.pos d)%Z) in *.
    set (r := (n mod Z.pos d)%Z) in *.
    set (s := (m mod Z.pos e)%Z) in *.
    assert (R : (r * Z.pos e <= s * Z.pos d)%Z) by nia.
    destruct (Z.compare_spec (2 * r) (Z.pos d)) as [C|C|C];
      destruct (Z.compare_spec (2 * s) (Z.pos e)) as [C'|C'|C'];
      try destruct (Z.even f); try lia; nia.
  - destruct (nearestEven_floor x) as [-> | ->],
             (nearestEven_floor y) as [-> | ->]; lia.
Qed.

Lemma nearestEven_eq (x y : Q) : x == y -> nearestEven x = nearestEven y.
Proof.
  intros E. apply Z.le_antisymm; apply nearestEven_le; rewrite E; apply Qle_refl.
Qed.

(** A whole number is its own nearest whole number. *)
Lemma nearestEven_whole (z : Z) : nearestEven (inject_Z z) = z.
Proof.
  unfold nearestEven, inject_Z. cbn [Qnum Qden].
  rewrite Z.mod_1_r, Z.div_1_r. reflexivity.
Qed.

(** Rounding to the nearest, ties to even, is symmetric about 0. *)
Lemma nearestEven_opp (q : Q) : nearestEven (- q) = (- nearestEven q)%Z.
Proof.
  destruct q as [n d]. unfold nearestEven, Qopp. cbn [Qnum Qden].
  pose proof (Z.div_mod n (Z.pos d) ltac:(lia)) as Dn.
  pose proof (Z.mod_pos_bound n (Z.pos d) ltac:(lia)) as Bn.
  set (f := (n / Z.pos d)%Z) in *.
  set (r := (n mod Z.pos d)%Z) in *.
  destruct (Z.eq_dec r 0) as [Z0|NZ].
  - assert (E1 : ((- n) / Z.pos d = - f)%Z).
    { symmetry. apply (Z.div_unique (- n) (Z.pos d) (- f) 0); lia. }
    assert (E2 : ((- n) mod Z.pos d = 0)%Z).
    { symmetry. apply (Z.mod_unique (- n) (Z.pos d) (- f) 0); lia. }
    rewrite E1, E2, Z0. cbn. reflexivity.
  - assert (E1 : ((- n) / Z.pos d = - f - 1)%Z).
    { symmetry. apply (Z.div_unique (- n) (Z.pos d) (- f - 1) (Z.pos d - r)); lia. }
    assert (E2 : ((- n) mod Z.pos d = Z.pos d - r)%Z).
    { symmetry. apply (Z.mod_unique (- n) (Z.pos d) (- f - 1) (Z.pos d - r)); lia. }
    rewrite E1, E2.
    destruct (Z.compare_spec (2 * r) (Z.pos d)) as [C|C|C];
      destruct (Z.compare_spec (2 * (Z.pos d - r)) (Z.pos d)) as [C'|C'|C'];
      try lia.
    replace (- f - 1)%Z with (- (f + 1))%Z by lia.
    rewrite Z.even_opp, Z.even_add. cbn.
    destruct (Z.even f); cbn; lia.
Qed.

Lemma pow2_power (e : Z) : pow2 e == 2 ^ e.
Proof.
  destruct e as [|p|p]; unfold pow2.
  - reflexivity.
  - rewrite Zpower_Qpower by lia. reflexivity.
  - change (Z.neg p) with (- Z.pos p)%Z. rewrite Qpower_opp.
    rewrite <- (Zpower_Qpower 2 (Z.pos p)) by lia.
    rewrite <- Pos2Z.inj_pow. reflexivity.
Qed.

Lemma pow2_pos (e : Z) : 0 < pow2 e.
Proof. rewrite pow2_power. apply Qpower_0_lt. reflexivity. Qed.

Lemma pow2_add (a b : Z) : pow2 (a + b) == pow2 a * pow2 b.
Proof.
  rewrite !pow2_power. apply Qpower_plus. discriminate.
Qed.

Lemma pow2_cancel (e : Z) : pow2 e * pow2 (- e) == 1.
Proof.
  rewrite <- pow2_add. replace (e + - e)%Z with 0%Z by lia. reflexivity.
Qed.

Lemma pow2_le (a b : Z) : (a <= b)%Z -> pow2 a <= pow2 b.
Proof.
  intros L. rewrite !pow2_power. apply Qpower_le_compat_l; [exact L|discriminate].
Qed.

Lemma pow2_lt_inv (a b : Z) : pow2 a < pow2 b -> (a < b)%Z.
Proof.
  rewrite !pow2_power. intros L. apply (Qpower_lt_compat_l_inv 2); [exact L|reflexivity].
Qed.

Lemma pow2_whole (k : Z) : (0 <= k)%Z -> pow2 k = inject_Z (2 ^ k).
Proof.
  destruct k as [|p|p]; intros L; try lia; reflexivity.
Qed.

Lemma nonzero_num (q : Q) : (Qnum q =? 0)%Z = false <-> ~ q == 0.
Proof.
  destruct q as [n d]. unfold Qeq. cbn [Qnum Qden].
  rewrite Z.eqb_neq. lia.
Qed.

Lemma zero_num (q : Q) : (Qnum q =? 0)%Z = true <-> q == 0.
Proof.
  destruct q as [n d]. unfold Qeq. cbn [Qnum Qden].
  rewrite Z.eqb_eq. lia.
Qed.

(** [magnitude q] is the exponent of the power of 2 at or below [|q|]. *)
Lemma magnitude_spec (q : Q) :
  ~ q == 0 ->
  pow2 (magnitude q) <= Qabs q /\ Qabs q < pow2 (magnitude q + 1).
Proof.
  intros NZ. apply nonzero_num in NZ. apply Z.eqb_neq in NZ.
  destruct q as [n d]. cbn [Qnum] in NZ.
  unfold magnitude. cbn [Qnum Qden Qabs].
  set (N := Z.abs n). set (D := Z.pos d).
  assert (HN : (0 < N)%Z) by (unfold N; lia).
  assert (HD : (0 < D)%Z) by (unfold D; lia).
  destruct (Z.log2_spec N HN) as [Na Nb].
  destruct (Z.log2_spec D HD) as [Da Db].
  pose proof (Z.log2_nonneg N) as A0.
  pose proof (Z.log2_nonneg D) as B0.
  set (a := Z.log2 N) in *. set (b := Z.log2 D) in *.
  assert (Q1 : N # d == inject_Z N / inject_Z D) by apply Qmake_Qdiv.
  assert (QD : 0 < inject_Z D) by (change (inject_Z 0 < inject_Z D); rewrite <- Zlt_Qlt; exact HD).
  assert (F : N # d == inject_Z N * / inject_Z D) by exact Q1.
  assert (I : / inject_Z D * inject_Z D == 1).
  { rewrite Qmult_comm. apply Qmult_inv_r. intros E. rewrite E in QD.
    apply (Qlt_irrefl 0 QD). }
  assert (IP : 0 < / inject_Z D) by (apply Qinv_lt_0_compat; exact QD).
  destruct (Qle_bool (pow2 (a - b)) (N # d)) eqn:C.
  - apply Qle_bool_iff in C. split; [exact C|].
    replace (a - b + 1)%Z with ((a + 1) + - b)%Z by lia.
    rewrite pow2_add, (pow2_whole (a + 1)) by lia.
    pose proof (pow2_cancel b) as PC. rewrite (pow2_whole b) in PC by lia.
    pose proof (pow2_pos (- b)) as PP.
    assert (L1 : inject_Z N < inject_Z (2 ^ (a + 1))) by (rewrite <- Zlt_Qlt; exact Nb).
    assert (L2 : inject_Z (2 ^ b) <= inject_Z D) by (rewrite <- Zle_Qle; exact Da).
    assert (L0 : 0 < inject_Z N) by (change (inject_Z 0 < inject_Z N); rewrite <- Zlt_Qlt; exact HN).
    rewrite F.
    set (x := inject_Z N) in *. set (u := inject_Z (2 ^ (a + 1))) in *.
    set (v := inject_Z (2 ^ b)) in *. set (w := inject_Z D) in *.
    set (p := pow2 (- b)) in *. set (i := / w) in *.
    assert (G : i <= p).
    { assert (G1 : v * i <= 1) by nra. nra. }
    nra.
  - assert (C' : N # d < pow2 (a - b)).
    { apply Qnot_le_lt. intros L. apply Qle_bool_iff in L. congruence. }
    split.
    + replace (a - b - 1)%Z with (a + - (b + 1))%Z by lia.
      rewrite pow2_add, (pow2_whole a) by lia.
      pose proof (pow2_cancel (b + 1)) as PC. rewrite (pow2_whole (b + 1)) in PC by lia.
      pose proof (pow2_pos (- (b + 1))) as PP.
      assert (L1 : inject_Z (2 ^ a) <= inject_Z N) by (rewrite <- Zle_Qle; exact Na).
      assert (L2 : inject_Z D < inject_Z (2 ^ (b + 1))) by (rewrite <- Zlt_Qlt; exact Db).
      assert (L0 : 0 < inject_Z (2 ^ a)).
      { change (inject_Z 0 < inject_Z (2 ^ a)). rewrite <- Zlt_Qlt. apply Z.pow_pos_nonneg; lia. }
      rewrite F.
      set (x := inject_Z N) in *. set (u := inject_Z (2 ^ a)) in *.
      set (v := inject_Z (2 ^ (b + 1))) in *. set (w := inject_Z D) in *.
      set (p := pow2 (- (b + 1))) in *. set (i := / w) in *.
      assert (G : p <= i).
      { assert (G1 : w * p <= 1) by nra. nra. }
      nra.
    + replace (a - b - 1 + 1)%Z with (a - b)%Z by lia. exact C'.
Qed.

Lemma magnitude_unique (q : Q) (k : Z) :
  pow2 k <= Qabs q -> Qabs q < pow2 (k + 1) -> magnitude q = k.
Proof.
  intros L U.
  assert (NZ : ~ q == 0).
  { intros E. rewrite E in L. pose proof (pow2_pos k) as P.
    change (Qabs 0) with 0 in L. lra. }
  destruct (magnitude_spec q NZ) as [L' U'].
  assert (A : (k < magnitude q + 1)%Z).
  { apply pow2_lt_inv. eapply Qle_lt_trans; eassumption. }
  assert (B : (magnitude q < k + 1)%Z).
  { apply pow2_lt_inv. eapply Qle_lt_trans; eassumption. }
  lia.
Qed.

Lemma magnitude_le (a b : Q) :
  ~ a == 0 -> Qabs a <= Qabs b -> (magnitude a <= magnitude b)%Z.
Proof.
  intros NZ L.
  assert (NZb : ~ b == 0).
  { intros E. rewrite E in L. change (Qabs 0) with 0 in L.
    apply Qabs_Qle_condition in L. apply NZ. lra. }
  destruct (magnitude_spec a NZ) as [La Ua].
  destruct (magnitude_spec b NZb) as [Lb Ub].
  assert (A : (magnitude a < magnitude b + 1)%Z).
  { apply pow2_lt_inv. lra. }
  lia.
Qed.

Lemma toPlace_le (e : Z) (x y : Q) : x <= y -> toPlace e x <= toPlace e y.
Proof.
  intros L. unfold toPlace.
  apply Qmult_le_compat_r; [|apply Qlt_le_weak, pow2_pos].
  rewrite <- Zle_Qle. apply nearestEven_le.
  apply Qmult_le_compat_r; [exact L|apply Qlt_le_weak, pow2_pos].
Qed.

Lemma toPlace_eq (e : Z) (x y : Q) : x == y -> toPlace e x == toPlace e y.
Proof.
  intros E. apply Qle_antisym; apply toPlace_le; rewrite E; apply Qle_refl.
Qed.

(** A whole multiple of a place at or above [e] is left as it is. *)
Lemma toPlace_whole (e : Z) (z : Z) (k : Z) :
  (0 <= k)%Z ->
  toPlace e (inject_Z z * pow2 (e + k)) == inject_Z z * pow2 (e + k).
Proof.
  intros K. unfold toPlace.
  assert (E : inject_Z z * pow2 (e + k) * pow2 (- e) == inject_Z (z * 2 ^ k)).
  { rewrite pow2_add, inject_Z_mult, <- (pow2_whole k K).
    pose proof (pow2_cancel e) as C.
    set (p := pow2 e) in *. set (q := pow2 (- e)) in *. set (r := pow2 k).
    rewrite <- Qmult_assoc, <- (Qmult_assoc p r q), (Qmult_comm r q),
      (Qmult_assoc p q r), C. ring. }
  rewrite (nearestEven_eq _ _ E), nearestEven_whole.
  rewrite inject_Z_mult, <- (pow2_whole k K), pow2_add. ring.
Qed.

Lemma toPlace_opp (e : Z) (q : Q) : toPlace e (- q) == - toPlace e q.
Proof.
  unfold toPlace.
  assert (E : - q * pow2 (- e) == - (q * pow2 (- e))) by ring.
  rewrite (nearestEven_eq _ _ E), nearestEven_opp, inject_Z_opp. ring.
Qed.

Lemma toPlace_zero (e : Z) : toPlace e 0 == 0.
Proof.
  unfold toPlace.
  assert (E : 0 * pow2 (- e) == inject_Z 0) by ring.
  rewrite (nearestEven_eq _ _ E), nearestEven_whole. ring.
Qed.

Lemma binary64_nonzero (q : Q) :
  ~ q == 0 -> binary64 q == toPlace (lastPlace q) q.
Proof.
  intros NZ. unfold binary64. apply nonzero_num in NZ. rewrite NZ.
  apply Qred_correct.
Qed.

Lemma binary64_zero (q : Q) : q == 0 -> binary64 q = 0.
Proof.
  intros Z0. unfold binary64. apply zero_num in Z0. now rewrite Z0.
Qed.

Lemma magnitude_opp (q : Q) : magnitude (- q) = magnitude q.
Proof.
  destruct q as [n d]. unfold magnitude. cbn [Qopp Qnum Qden].
  now rewrite Z.abs_opp.
Qed.

Lemma lastPlace_opp (q : Q) : lastPlace (- q) = lastPlace q.
Proof. unfold lastPlace. now rewrite magnitude_opp. Qed.

(** Rounding to the nearest double is symmetric about 0. *)
Lemma binary64_opp (q : Q) : binary64 (- q) == - binary64 q.
Proof.
  destruct (Qeq_dec q 0) as [Z0|NZ].
  - rewrite (binary64_zero q Z0), (binary64_zero (- q)); [reflexivity|].
    rewrite Z0. reflexivity.
  - rewrite (binary64_nonzero q NZ), binary64_nonzero, lastPlace_opp.
    + apply toPlace_opp.
    + intros E. apply NZ. lra.
Qed.

Lemma binary64_nonneg (q : Q) : 0 <= q -> 0 <= binary64 q.
Proof.
  intros P. destruct (Qeq_dec q 0) as [Z0|NZ].
  - rewrite (binary64_zero q Z0). apply Qle_refl.
  - rewrite (binary64_nonzero q NZ), <- (toPlace_zero (lastPlace q)).
    apply toPlace_le, P.
Qed.

Lemma pow2_place (e m : Z) :
  (e <= m)%Z -> toPlace e (pow2 m) == pow2 m.
Proof.
  intros L.
  assert (E : pow2 m == inject_Z 1 * pow2 (e + (m - e))).
  { replace (e + (m - e))%Z with m by lia. ring. }
  rewrite (toPlace_eq e _ _ E), toPlace_whole by lia.
  symmetry. exact E.
Qed.

Lemma binary64_le_positive (a b : Q) :
  0 < a -> a <= b -> binary64 a <= binary64 b.
Proof.
  intros P L.
  assert (NZa : ~ a == 0) by (intros E; lra).
  assert (NZb : ~ b == 0) by (intros E; lra).
  rewrite (binary64_nonzero a NZa), (binary64_nonzero b NZb).
  assert (Aa : Qabs a == a) by (apply Qabs_pos; lra).
  assert (Ab : Qabs b == b) by (apply Qabs_pos; lra).
  assert (M : (magnitude a <= magnitude b)%Z).
  { apply magnitude_le; [exact NZa|]. rewrite Aa, Ab. exact L. }
  destruct (magnitude_spec a NZa) as [La Ua].
  destruct (magnitude_spec b NZb) as [Lb Ub].
  rewrite Aa in La, Ua. rewrite Ab in Lb, Ub.
  destruct (Z.eq_dec (lastPlace a) (lastPlace b)) as [E|N].
  - rewrite E. apply toPlace_le, L.
  - assert (Lt : (magnitude a < magnitude b)%Z /\ lastPlace b = (magnitude b - 52)%Z /\
                 (lastPlace a <= magnitude b)%Z).
    { unfold lastPlace in *. lia. }
    destruct Lt as (Lt & Eb & Le).
    apply Qle_trans with (pow2 (magnitude b)).
    + rewrite <- (pow2_place (lastPlace a) (magnitude b) Le).
      apply toPlace_le.
      apply Qle_trans with (pow2 (magnitude a + 1)); [lra|].
      apply pow2_le. lia.
    + rewrite <- (pow2_place (lastPlace b) (magnitude b)) by lia.
      apply toPlace_le, Lb.
Qed.

(** Rounding to the nearest double keeps the order. *)
Lemma binary64_le (a b : Q) : a <= b -> binary64 a <= binary64 b.
Proof.
  intros L.
  destruct (Qlt_le_dec 0 a) as [Pa|Na].
  - apply binary64_le_positive; assumption.
  - destruct (Qlt_le_dec b 0) as [Nb|Pb].
    + assert (G : binary64 (- b) <= binary64 (- a)).
      { apply binary64_le_positive; lra. }
      rewrite !binary64_opp in G. lra.
    + apply Qle_trans with 0; [|apply binary64_nonneg, Pb].
      assert (G : 0 <= binary64 (- a)) by (apply binary64_nonneg; lra).
      rewrite binary64_opp in G. lra.
Qed.

Lemma binary64_eq (a b : Q) : a == b -> binary64 a == binary64 b.
Proof.
  intros E. apply Qle_antisym; apply binary64_le; rewrite E; apply Qle_refl.
Qed.

(** A whole number of at most 53 places, at a place a double has, is a
    double. *)
Lemma binary64_of_place (N e : Z) :
  (-1074 <= e)%Z -> (Z.abs N <= 2 ^ 53)%Z ->
  binary64 (inject_Z N * pow2 e) == inject_Z N * pow2 e.
Proof.
  intros E B.
  destruct (Z.eq_dec N 0) as [->|NZ].
  - rewrite binary64_zero; ring.
  - set (r := inject_Z N * pow2 e).
    pose proof (pow2_pos e) as Pe.
    assert (HN : (0 < Z.abs N)%Z) by lia.
    destruct (Z.log2_spec (Z.abs N) HN) as [La Lb].
    pose proof (Z.log2_nonneg (Z.abs N)) as L0.
    set (l := Z.log2 (Z.abs N)) in *.
    assert (L53 : (l <= 53)%Z).
    { destruct (Z_le_gt_dec l 53) as [?|G]; [assumption|].
      assert (2 ^ 54 <= 2 ^ l)%Z by (apply Z.pow_le_mono_r; lia). lia. }
    assert (Ar : Qabs r == inject_Z (Z.abs N) * pow2 e).
    { unfold r. rewrite Qabs_Qmult, (Qabs_pos (pow2 e)) by lra.
      apply Qmult_comp; [|reflexivity].
      unfold Qabs, inject_Z. reflexivity. }
    assert (NZr : ~ r == 0).
    { intros Z0. rewrite Z0 in Ar. change (Qabs 0) with 0 in Ar.
      assert (0 < inject_Z (Z.abs N)).
      { change (inject_Z 0 < inject_Z (Z.abs N)). rewrite <- Zlt_Qlt. exact HN. }
      nra. }
    assert (M : magnitude r = (l + e)%Z).
    { apply magnitude_unique; rewrite Ar.
      - rewrite pow2_add, (pow2_whole l L0).
        apply Qmult_le_compat_r; [|lra]. rewrite <- Zle_Qle. exact La.
      - replace (l + e + 1)%Z with ((l + 1) + e)%Z by lia.
        rewrite pow2_add, (pow2_whole (l + 1)) by lia.
        apply Qmult_lt_compat_r; [lra|]. rewrite <- Zlt_Qlt. exact Lb. }
    rewrite (binary64_nonzero r NZr).
    unfold lastPlace. rewrite M.
    destruct (Z_le_gt_dec l 52) as [S|G].
    + set (e' := Z.max (l + e - 52) (-1074)).
      assert (E' : (e' <= e)%Z) by (unfold e'; lia).
      assert (R : r == inject_Z N * pow2 (e' + (e - e'))).
      { unfold r. replace (e' + (e - e'))%Z with e by lia. reflexivity. }
      rewrite (toPlace_eq e' _ _ R), toPlace_whole by lia.
      symmetry. exact R.
    + assert (L : l = 53%Z) by lia. rewrite L in *.
      assert (AN : Z.abs N = (2 ^ 53)%Z) by lia.
      replace (Z.max (53 + e - 52) (-1074)) with (e + 1)%Z by lia.
      assert (R : r == inject_Z (N / 2) * pow2 (e + 1 + 0)).
      { unfold r. replace (e + 1 + 0)%Z with (1 + e)%Z by lia.
        rewrite pow2_add. change (pow2 1) with (inject_Z 2).
        rewrite Qmult_assoc, <- inject_Z_mult.
        replace (N / 2 * 2)%Z with N; [reflexivity|].
        destruct (Z.abs_eq_or_opp N) as [A|A]; rewrite A in AN.
        - rewrite AN. reflexivity.
        - assert (N = (- 2 ^ 53)%Z) by lia. subst N. reflexivity. }
      rewrite (toPlace_eq (e + 1) _ _ R), toPlace_whole by lia.
      symmetry. exact R.
Qed.

(** The double nearest to a number has at most 53 places. *)
Lemma binary64_places (q : Q) :
  ~ q == 0 ->
  (Z.abs (nearestEven (q * pow2 (- lastPlace q))) <= 2 ^ 53)%Z.
Proof.
  intros NZ.
  destruct (magnitude_spec q NZ) as [_ U].
  set (e := lastPlace q).
  assert (E : (magnitude q + 1 - e <= 53)%Z) by (unfold e, lastPlace; lia).
  pose proof (pow2_pos (- e)) as P.
  assert (B : Qabs (q * pow2 (- e)) <= inject_Z (2 ^ 53)).
  { rewrite Qabs_Qmult, (Qabs_pos (pow2 (- e))) by lra.
    apply Qle_trans with (pow2 (magnitude q + 1) * pow2 (- e)).
    - apply Qmult_le_compat_r; lra.
    - rewrite <- pow2_add, <- (pow2_whole 53) by lia. apply pow2_le. lia. }
  apply Qabs_Qle_condition in B. destruct B as [B1 B2].
  apply nearestEven_le in B1, B2.
  rewrite <- inject_Z_opp in B1.
  rewrite nearestEven_whole in B1, B2.
  lia.
Qed.

(** A double is its own nearest double. *)
Lemma binary64_again (q : Q) : binary64 (binary64 q) == binary64 q.
Proof.
  destruct (Qeq_dec q 0) as [Z0|NZ].
  - rewrite (binary64_zero q Z0). reflexivity.
  - rewrite (binary64_eq _ _ (binary64_nonzero q NZ)), (binary64_nonzero q NZ).
    unfold toPlace. apply binary64_of_place.
    + unfold lastPlace. lia.
    + apply binary64_places, NZ.
Qed.

Lemma inDoubles_monotone (fac : Facility) : monotoneRounding (inDoubles fac).
Proof.
  split; cbn [round inDoubles].
  - apply binary64_le.
  - apply binary64_again.
Qed.

Lemma binary64_same (a b : Q) : a == b -> binary64 a = binary64 b.
Proof.
  intros E. destruct (Qeq_dec a 0) as [Z0|NZ].
  - rewrite (binary64_zero a Z0), (binary64_zero b); [reflexivity|].
    rewrite <- E. exact Z0.
  - assert (NZb : ~ b == 0) by (intros Z0; apply NZ; rewrite E; exact Z0).
    pose proof (binary64_eq a b E) as G.
    unfold binary64 in *.
    apply nonzero_num in NZ, NZb. rewrite NZ, NZb in *.
    apply Qred_complete. rewrite !Qred_correct in G. exact G.
Qed.

(** Among doubles, taking 5 away and adding it again gives back every
    number from 5 up (as long as the doubles are whole-numbered apart or
    closer): both steps are exact. *)
Lemma binary64_down_and_up (v : Q) :
  binary64 v = v -> 5 <= v -> v < inject_Z (2 ^ 53) ->
  binary64 (binary64 (v - 5) + 5) = v.
Proof.
  intros D L U.
  assert (NZ : ~ v == 0) by (intros E; lra).
  assert (Av : Qabs v == v) by (apply Qabs_pos; lra).
  destruct (magnitude_spec v NZ) as [Lm _]. rewrite Av in Lm.
  assert (M : (magnitude v < 53)%Z).
  { apply pow2_lt_inv. rewrite (pow2_whole 53) by lia. lra. }
  set (e := lastPlace v).
  assert (E0 : (-1074 <= e <= 0)%Z) by (unfold e, lastPlace; lia).
  set (N := nearestEven (v * pow2 (- e))).
  assert (V : v == inject_Z N * pow2 e).
  { rewrite <- D at 1. exact (binary64_nonzero v NZ). }
  pose proof (binary64_places v NZ) as B. fold e in B. fold N in B.
  pose proof (pow2_pos e) as Pe.
  pose proof (pow2_cancel e) as C.
  rewrite (pow2_whole (- e)) in C by lia.
  set (k := (2 ^ (- e))%Z) in *.
  assert (K : (0 < k)%Z) by (apply Z.pow_pos_nonneg; lia).
  assert (S : v - 5 == inject_Z (N - 5 * k) * pow2 e).
  { unfold Zminus. rewrite inject_Z_plus, inject_Z_opp, inject_Z_mult, V.
    change (inject_Z 5) with 5.
    set (p := pow2 e) in *. set (q := inject_Z k) in *. set (n := inject_Z N).
    assert (G : 5 == 5 * (p * q)) by (rewrite C; ring).
    rewrite G at 1. ring. }
  assert (N5 : (5 * k <= N)%Z).
  { rewrite Zle_Qle, inject_Z_mult. change (inject_Z 5) with 5.
    rewrite V in L.
    set (p := pow2 e) in *. set (q := inject_Z k) in *. set (n := inject_Z N) in *.
    assert (Q0 : 0 < q).
    { unfold q. change (inject_Z 0 < inject_Z k). rewrite <- Zlt_Qlt. exact K. }
    assert (G : n == n * p * q) by (rewrite <- Qmult_assoc, C; ring).
    rewrite G. nra. }
  assert (X : binary64 (v - 5) == v - 5).
  { eapply Qeq_trans; [apply (binary64_eq _ _ S)|].
    eapply Qeq_trans; [apply binary64_of_place; lia|].
    symmetry. exact S. }
  rewrite <- D at 2. apply binary64_same. rewrite X. ring.
Qed.

Lemma inDoubles_down_and_up (fac : Facility) (v : Q) :
  binary64 v = v -> 5 <= v -> v < inject_Z (2 ^ 53) ->
  add (inDoubles fac) (sub (inDoubles fac) v 5) 5 = v.
Proof. exact (binary64_down_and_up v). Qed.

End Doubles.

(* ================================================================== *)
(** ** Facts about strings *)
(* ================================================================== *)

Section StringFacts.

Lemma startsWith_length (s p : str) :
  startsWith s p = true -> (length p <= length s)%nat.
Proof.
  revert s; induction p as [|c p IH]; intros [|d s]; simpl; try lia; try discriminate.
  intros H; apply andb_prop in H; destruct H as [_ H]; apply IH in H; lia.
Qed.

Lemma startsWith_firstn (s p : str) (n : nat) :
  startsWith s p = true -> (length p <= n)%nat ->
  startsWith (firstn n s) p = true.
Proof.
  revert s n; induction p as [|c p IH]; intros s n; simpl; [reflexivity|].
  destruct s as [|d s]; [discriminate|].
  intros H Hn; destruct n as [|n]; [lia|]; simpl.
  apply andb_prop in H; destruct H as [H1 H2].
  rewrite H1; simpl; apply IH; [assumption | lia].
Qed.

Lemma startsWith_app (p s : str) : startsWith (p ++ s) p = true.
Proof.
  induction p as [|c p IH]; simpl; [reflexivity|].
  now rewrite N.eqb_refl, IH.
Qed.

Lemma takeWhile_length (f : char -> bool) (s : str) :
  (length (takeWhile f s) <= length s)%nat.
Proof. induction s as [|c s IH]; simpl; [lia|]; destruct (f c); simpl; lia. Qed.

Lemma skipn_split_at (s : str) (a b : nat) :
  (a <= b)%nat -> skipn a s = substring s a b ++ skipn b s.
Proof.
  intros Hab; unfold substring.
  replace (skipn b s) with (skipn (b - a) (skipn a s)).
  - now rewrite firstn_skipn.
  - rewrite skipn_skipn; f_equal; lia.
Qed.

Lemma dropWhile_all (f : char -> bool) (ws s : str) :
  forallb f ws = true -> dropWhile f (ws ++ s) = dropWhile f s.
Proof.
  induction ws as [|c ws IH]; simpl; [reflexivity|].
  intros H; apply andb_prop in H; destruct H as [H1 H2]; rewrite H1; auto.
Qed.

Lemma dropWhile_app_keep (f : char -> bool) (s t : str) :
  dropWhile f s <> [] -> dropWhile f (s ++ t) = dropWhile f s ++ t.
Proof.
  induction s as [|c s IH]; simpl; [congruence|].
  destruct (f c); [exact IH | reflexivity].
Qed.

Lemma dropWhile_app_gone (f : char -> bool) (s t : str) :
  dropWhile f s = [] -> dropWhile f (s ++ t) = dropWhile f t.
Proof.
  induction s as [|c s IH]; simpl; [reflexivity|].
  destruct (f c); [exact IH | discriminate].
Qed.

Lemma forallb_rev (f : char -> bool) (s : str) :
  forallb f (rev s) = forallb f s.
Proof.
  induction s as [|c s IH]; simpl; [reflexivity|].
  rewrite forallb_app, IH; simpl; rewrite andb_true_r; apply andb_comm.
Qed.

(** Leading white space does not survive [trim]. *)
Lemma trim_leading (ws s : str) :
  forallb isWhiteSpace ws = true -> trim (ws ++ s) = trim s.
Proof. intros H; unfold trim; now rewrite dropWhile_all. Qed.

(** Trailing white space does not survive [trim]. *)
Lemma trim_trailing (s ws : str) :
  forallb isWhiteSpace ws = true -> trim (s ++ ws) = trim s.
Proof.
  intros H; unfold trim.
  assert (Hr : forallb isWhiteSpace (rev ws) = true) by now rewrite forallb_rev.
  destruct (dropWhile isWhiteSpace s) as [|c r] eqn:E.
  - rewrite (dropWhile_app_gone isWhiteSpace s ws E).
    replace (dropWhile isWhiteSpace ws) with (@nil char); [reflexivity|].
    rewrite <- (app_nil_r ws), dropWhile_all by assumption; reflexivity.
  - rewrite dropWhile_app_keep by (rewrite E; discriminate).
    rewrite E, rev_app_distr, dropWhile_all by assumption.
    reflexivity.
Qed.


End StringFacts.

(* ================================================================== *)
(** ** Facts about the regular expression *)
(* ================================================================== *)

Section RegexFacts.

Lemma lazyDotsStars_eq (s : str) :
  lazyDotsStars s =
  if startsWith s [star; star] then Some 2%nat
  else match s with
       | [] => None
       | c :: s' =>
           if isLineTerminator c then None else option_map S (lazyDotsStars s')
       end.
Proof. destruct s; reflexivity. Qed.

Lemma lazyDotsStars_bounds (s : str) (n : nat) :
  lazyDotsStars s = Some n -> (2 <= n <= length s)%nat.
Proof.
  revert n; induction s as [|c s IH]; intros n; rewrite lazyDotsStars_eq.
  - simpl; discriminate.
  - destruct (startsWith (c :: s) [star; star]) eqn:E.
    + intros H; injection H as <-.
      apply startsWith_length in E; simpl in *; lia.
    + destruct (isLineTerminator c); [discriminate|].
      destruct (lazyDotsStars s) as [m|]; [|discriminate].
      simpl; intros H; injection H as <-.
      specialize (IH m eq_refl); lia.
Qed.

Lemma matchBold_bounds (s : str) (n : nat) :
  matchBold s = Some n -> (4 <= n <= length s)%nat.
Proof.
  unfold matchBold.
  destruct (startsWith s [star; star]) eqn:E; [|discriminate].
  destruct (lazyDotsStars (skipn 2 s)) as [m|] eqn:L; [|discriminate].
  simpl; intros H; injection H as <-.
  apply lazyDotsStars_bounds in L. apply startsWith_length in E.
  rewrite length_skipn in L. simpl in E. lia.
Qed.

Lemma matchUrlTail_bounds (s : str) (n : nat) :
  matchUrlTail s = Some n -> (4 <= n <= length s)%nat.
Proof.
  unfold matchUrlTail.
  destruct (startsWith s (lit "://")) eqn:E; [|discriminate].
  set (k := length (takeWhile _ _)).
  destruct (Nat.leb_spec 1 k); [|discriminate].
  intros Hn; injection Hn as <-.
  assert (k <= length (skipn 3 s))%nat by apply takeWhile_length.
  apply startsWith_length in E. rewrite length_skipn in *. simpl in E. lia.
Qed.

Lemma matchUrl_bounds (s : str) (n : nat) :
  matchUrl s = Some n ->
  (8 <= n <= length s)%nat /\ startsWith s (lit "http") = true.
Proof.
  unfold matchUrl.
  destruct (startsWith s (lit "http")) eqn:E; [|discriminate].
  intros H; split; [|reflexivity].
  apply startsWith_length in E; simpl in E.
  assert (Hl : length (skipn 4 s) = (length s - 4)%nat) by apply length_skipn.
  destruct (skipn 4 s) as [|c r] eqn:R.
  - simpl in H. discriminate.
  - destruct (N.eqb c (ch "s")).
    + destruct (matchUrlTail r) as [m|] eqn:T.
      * simpl in H; injection H as <-.
        apply matchUrlTail_bounds in T. simpl in Hl. lia.
      * simpl in H.
        destruct (matchUrlTail (c :: r)) as [m|] eqn:T'; [|discriminate].
        simpl in H; injection H as <-.
        apply matchUrlTail_bounds in T'. simpl in *. lia.
    + destruct (matchUrlTail (c :: r)) as [m|] eqn:T'; [|discriminate].
      simpl in H; injection H as <-.
      apply matchUrlTail_bounds in T'. simpl in *. lia.
Qed.

Lemma matchAt_bounds (s : str) (n : nat) :
  matchAt s = Some n -> (4 <= n <= length s)%nat.
Proof.
  unfold matchAt. destruct (matchBold s) as [m|] eqn:B.
  - intros H; injection H as <-. now apply matchBold_bounds.
  - intros H; apply matchUrl_bounds in H. lia.
Qed.

Lemma search_eq (s : str) (i : nat) :
  search s i =
  match matchAt s with
  | Some n => Some (i, n)
  | None => match s with [] => None | _ :: s' => search s' (S i) end
  end.
Proof. destruct s; reflexivity. Qed.

Lemma search_spec (s : str) (i j n : nat) :
  search s i = Some (j, n) ->
  (i <= j)%nat /\ (j - i + n <= length s)%nat /\
  matchAt (skipn (j - i) s) = Some n.
Proof.
  revert i; induction s as [|c s IH]; intros i; rewrite search_eq.
  - destruct (matchAt []) as [m|] eqn:E; [|discriminate].
    apply matchAt_bounds in E; simpl in E; lia.
  - destruct (matchAt (c :: s)) as [m|] eqn:E.
    + intros H; injection H as <- <-.
      rewrite Nat.sub_diag. apply matchAt_bounds in E as B.
      change (skipn 0 (c :: s)) with (c :: s).
      repeat split; try lia; assumption.
    + intros H; apply IH in H; destruct H as (H1 & H2 & H3).
      replace (j - i)%nat with (S (j - S i)) by lia.
      change (skipn (S (j - S i)) (c :: s)) with (skipn (j - S i) s).
      simpl length.
      repeat split; try lia; assumption.
Qed.

Lemma search_none (s : str) (i : nat) :
  (forall k, matchAt (skipn k s) = None) -> search s i = None.
Proof.
  revert i; induction s as [|c s IH]; intros i H; rewrite search_eq.
  - specialize (H 0%nat); simpl skipn in H. now rewrite H.
  - specialize (H 0%nat) as H0; simpl skipn in H0. rewrite H0.
    apply IH. intros k. exact (H (S k)).
Qed.

(** What a successful [exec] returns. *)
Lemma exec_spec (line : str) (lastIndex index : nat) (m : str) :
  exec line lastIndex = Some (index, m) ->
  (lastIndex <= index)%nat /\ (index + length m <= length line)%nat /\
  (4 <= length m)%nat /\
  matchAt (skipn index line) = Some (length m) /\
  m = firstn (length m) (skipn index line).
Proof.
  unfold exec.
  destruct (Nat.ltb_spec (length line) lastIndex) as [|Hle]; [discriminate|].
  destruct (search (skipn lastIndex line) lastIndex) as [[j n]|] eqn:E; [|discriminate].
  intros H; injection H as <- <-.
  apply search_spec in E; destruct E as (H1 & H2 & H3).
  rewrite skipn_skipn in H3.
  replace (j - lastIndex + lastIndex)%nat with j in H3 by lia.
  rewrite length_skipn in H2.
  apply matchAt_bounds in H3 as B. rewrite length_skipn in B.
  unfold substring. replace (j + n - j)%nat with n by lia.
  assert (L : length (firstn n (skipn j line)) = n).
  { rewrite length_firstn, length_skipn; lia. }
  rewrite L. repeat split; try lia; assumption.
Qed.

Lemma hasBoldPair_skipn (s : str) (k : nat) :
  hasBoldPair s = false -> matchBold (skipn k s) = None.
Proof.
  revert k; induction s as [|c s IH]; intros k; simpl.
  - destruct k; simpl; reflexivity.
  - destruct (matchBold (c :: s)) eqn:E; [discriminate|].
    intros H; destruct k as [|k]; simpl; auto.
Qed.

Lemma hasUrl_skipn (s : str) (k : nat) :
  hasUrl s = false -> matchUrl (skipn k s) = None.
Proof.
  revert k; induction s as [|c s IH]; intros k; simpl.
  - destruct k; simpl; reflexivity.
  - destruct (matchUrl (c :: s)) eqn:E; [discriminate|].
    intros H; destruct k as [|k]; simpl; auto.
Qed.

End RegexFacts.

(* ================================================================== *)
(** ** The tokenizer: termination and structure *)
(* ================================================================== *)

Section TokenizerFacts.

Lemma tokenizeLoop_S (fuel : nat) (line : str) (lastIndex : nat) (tokens : list Token) :
  tokenizeLoop (S fuel) line lastIndex tokens =
  match exec line lastIndex with
  | Some (index, matchedText) =>
      let tokens1 :=
        if (lastIndex <? index)%nat
        then tokens ++ [plain (substring line lastIndex index)]
        else tokens in
      if startsWith matchedText (lit "http") then
        tokenizeLoop fuel line (index + length matchedText)
          (tokens1 ++ [link matchedText])
      else
        match tokenizeLoop fuel
                (substring matchedText 2 (length matchedText - 2)) 0 [] with
        | Some innerTokens =>
            tokenizeLoop fuel line (index + length matchedText)
              (tokens1 ++ map withBold innerTokens)
        | None => None
        end
  | None =>
      Some (if (lastIndex <? length line)%nat
            then tokens ++ [plain (substringFrom line lastIndex)]
            else tokens)
  end.
Proof. reflexivity. Qed.

Lemma inner_length (m : str) :
  (4 <= length m)%nat ->
  length (substring m 2 (length m - 2)) = (length m - 4)%nat.
Proof.
  intros H; unfold substring. rewrite length_firstn, length_skipn. lia.
Qed.

(** The loop returns once the fuel exceeds what is left of the line. *)
Lemma tokenizeLoop_total (fuel : nat) :
  forall line lastIndex tokens,
    (length line - lastIndex < fuel)%nat ->
    exists r, tokenizeLoop fuel line lastIndex tokens = Some r.
Proof.
  induction fuel as [|fuel IH]; intros line li tokens Hf; [lia|].
  rewrite tokenizeLoop_S.
  destruct (exec line li) as [[idx m]|] eqn:E; [|eauto].
  apply exec_spec in E; destruct E as (H1 & H2 & H3 & _ & _).
  cbv zeta.
  destruct (startsWith m (lit "http")).
  - apply IH; lia.
  - destruct (IH (substring m 2 (length m - 2)) 0%nat []) as [it Hit].
    { rewrite inner_length by assumption. lia. }
    rewrite Hit. apply IH; lia.
Qed.

(** More fuel does not change a result. *)
Lemma tokenizeLoop_mono (fuel : nat) :
  forall line lastIndex tokens r,
    tokenizeLoop fuel line lastIndex tokens = Some r ->
    forall fuel', (fuel <= fuel')%nat ->
    tokenizeLoop fuel' line lastIndex tokens = Some r.
Proof.
  induction fuel as [|fuel IH]; intros line li tokens r H fuel' Hle.
  - discriminate.
  - destruct fuel' as [|fuel']; [lia|].
    rewrite tokenizeLoop_S in *.
    destruct (exec line li) as [[idx m]|]; [|assumption].
    cbv zeta in *.
    destruct (startsWith m (lit "http")).
    + eapply IH; [eassumption | lia].
    + destruct (tokenizeLoop fuel (substring m 2 (length m - 2)) 0 []) as [it|] eqn:Hit;
        [|discriminate].
      rewrite (IH _ _ _ _ Hit fuel') by lia.
      eapply IH; [eassumption | lia].
Qed.

(** The accumulator is only ever extended. *)
Lemma tokenizeLoop_acc (fuel : nat) :
  forall line lastIndex a b,
    tokenizeLoop fuel line lastIndex (a ++ b) =
    option_map (app a) (tokenizeLoop fuel line lastIndex b).
Proof.
  induction fuel as [|fuel IH]; intros line li a b; [reflexivity|].
  rewrite !tokenizeLoop_S.
  destruct (exec line li) as [[idx m]|].
  - cbv zeta.
    assert (T : (if (li <? idx)%nat
                 then (a ++ b) ++ [plain (substring line li idx)] else a ++ b) =
                a ++ (if (li <? idx)%nat
                      then b ++ [plain (substring line li idx)] else b)).
    { destruct (li <? idx)%nat; [now rewrite app_assoc | reflexivity]. }
    rewrite T.
    destruct (startsWith m (lit "http")).
    + rewrite <- app_assoc. apply IH.
    + destruct (tokenizeLoop fuel (substring m 2 (length m - 2)) 0 []); [|reflexivity].
      rewrite <- app_assoc. apply IH.
  - simpl. destruct (li <? length line)%nat; [now rewrite app_assoc | reflexivity].
Qed.

(** [tokenizeLine] always returns. *)
Lemma tokenizeLine_total (line : str) :
  exists r, tokenizeLine line = Some r.
Proof. apply tokenizeLoop_total. lia. Qed.

Lemma concatText_app (a b : list Token) :
  concatText (a ++ b) = concatText a ++ concatText b.
Proof. apply flat_map_app. Qed.

(** On a line without a bold marker pair the loop only re-emits the text
    it walks over. *)
Lemma tokenizeLoop_concat_no_bold (line : str) :
  hasBoldPair line = false ->
  forall fuel lastIndex tokens r,
    (lastIndex <= length line)%nat ->
    tokenizeLoop fuel line lastIndex tokens = Some r ->
    concatText r = concatText tokens ++ skipn lastIndex line.
Proof.
  intros NB; induction fuel as [|fuel IH]; intros li tokens r Hli H; [discriminate|].
  rewrite tokenizeLoop_S in H.
  destruct (exec line li) as [[idx m]|] eqn:E.
  - apply exec_spec in E; destruct E as (H1 & H2 & H3 & H4 & H5).
    cbv zeta in H.
    assert (U : matchUrl (skipn idx line) = Some (length m)).
    { unfold matchAt in H4. now rewrite (hasBoldPair_skipn line idx NB) in H4. }
    apply matchUrl_bounds in U; destruct U as [_ U].
    assert (L : startsWith m (lit "http") = true).
    { rewrite H5. apply startsWith_firstn; [assumption | simpl; lia]. }
    rewrite L in H. apply IH in H; [|lia].
    rewrite H, concatText_app. simpl. rewrite app_nil_r.
    assert (P : concatText (if (li <? idx)%nat
                            then tokens ++ [plain (substring line li idx)]
                            else tokens) =
                concatText tokens ++ substring line li idx).
    { destruct (Nat.ltb_spec li idx).
      - rewrite concatText_app; simpl; now rewrite app_nil_r.
      - replace idx with li by lia. unfold substring.
        rewrite Nat.sub_diag; simpl. now rewrite app_nil_r. }
    rewrite P, <- !app_assoc. f_equal.
    rewrite (skipn_split_at line li idx H1). f_equal.
    rewrite (skipn_split_at line idx (idx + length m)) by lia.
    f_equal. unfold substring.
    replace (idx + length m - idx)%nat with (length m) by lia.
    exact H5.
  - injection H as <-.
    destruct (Nat.ltb_spec li (length line)).
    + rewrite concatText_app; simpl; now rewrite app_nil_r.
    + rewrite skipn_all2 by lia. now rewrite app_nil_r.
Qed.

End TokenizerFacts.

Section BoldFacts.

Lemma startsWith_two (s : str) (a b : char) :
  startsWith s [a; b] = true -> s = a :: b :: skipn 2 s.
Proof.
  destruct s as [|x [|y s]]; simpl; try discriminate.
  - rewrite andb_false_r; discriminate.
  - intros H. apply andb_prop in H; destruct H as [H1 H2].
    apply andb_prop in H2; destruct H2 as [H2 _].
    apply N.eqb_eq in H1, H2. now subst.
Qed.

(** The lazy scan stops right after the first [**] it meets. *)
Lemma lazyDotsStars_shape (s : str) (n : nat) :
  lazyDotsStars s = Some n ->
  firstn n s = firstn (n - 2) s ++ [star; star].
Proof.
  revert n; induction s as [|c s IH]; intros n; rewrite lazyDotsStars_eq.
  - simpl; discriminate.
  - destruct (startsWith (c :: s) [star; star]) eqn:E.
    + intros H; injection H as <-.
      apply startsWith_two in E. rewrite E. reflexivity.
    + destruct (isLineTerminator c); [discriminate|].
      destruct (lazyDotsStars s) as [m|] eqn:L; [|discriminate].
      simpl option_map. intros H; injection H as <-.
      apply lazyDotsStars_bounds in L as B.
      specialize (IH m eq_refl).
      replace (S m - 2)%nat with (S (m - 2)) by lia.
      simpl. now rewrite IH.
Qed.

(** A bold match is its inner text between two pairs of asterisks. *)
Lemma matchBold_shape (s : str) (n : nat) :
  matchBold s = Some n ->
  firstn n s =
  [star; star] ++ substring (firstn n s) 2 (n - 2) ++ [star; star].
Proof.
  unfold matchBold.
  destruct (startsWith s [star; star]) eqn:E; [|discriminate].
  destruct (lazyDotsStars (skipn 2 s)) as [m|] eqn:L; [|discriminate].
  simpl option_map. intros H; injection H as <-.
  apply lazyDotsStars_bounds in L as B.
  apply lazyDotsStars_shape in L.
  apply startsWith_two in E.
  set (r := skipn 2 s) in *. rewrite E.
  unfold substring. cbn [firstn skipn Nat.sub Nat.add app].
  rewrite firstn_firstn.
  replace (Nat.min (m - 0 - 2) m) with (m - 2)%nat by lia.
  now rewrite L.
Qed.

Lemma tokenizeFrom_enough (line : str) (lastIndex fuel : nat) (r : list Token) :
  tokenizeLoop fuel line lastIndex [] = Some r ->
  tokenizeFrom line lastIndex = Some r.
Proof.
  intros H. destruct (tokenizeLoop_total (S (length line)) line lastIndex []) as [r' Hr'];
    [lia|].
  unfold tokenizeFrom. rewrite Hr'. f_equal.
  destruct (Nat.le_ge_cases fuel (S (length line))) as [Hle|Hle].
  - rewrite (tokenizeLoop_mono _ _ _ _ _ H _ Hle) in Hr'. congruence.
  - rewrite (tokenizeLoop_mono _ _ _ _ _ Hr' _ Hle) in H. congruence.
Qed.

End BoldFacts.

(* ================================================================== *)
(** ** Properties of the tokenizer *)
(* ================================================================== *)

(** C1, as stated, fails: the delimiters of a bold match are not part of
    any token, so the texts of the tokens of ["**bold**"] concatenate to
    ["bold"]. *)
Lemma tokenizeLine_concat_bold_differs :
  tokenizeLine (lit "**bold**") = Some [mkToken (lit "bold") true false None] /\
  concatText [mkToken (lit "bold") true false None] <> lit "**bold**".
Proof. split; [reflexivity | discriminate]. Qed.

(** C1 (amended): for every line that holds no bold marker pair, the
    tokenizer returns and the concatenation of the [text] fields of its
    tokens, in order, is the line itself. *)
Theorem tokenizeLine_concat_no_bold (line : str) :
  hasBoldPair line = false ->
  exists tokens,
    tokenizeLine line = Some tokens /\ concatText tokens = line.
Proof.
  intros NB. destruct (tokenizeLine_total line) as [r Hr].
  exists r; split; [assumption|].
  apply (tokenizeLoop_concat_no_bold line NB) in Hr; [|lia].
  exact Hr.
Qed.

Lemma tokenizeLine_concat_no_bold_witness :
  hasBoldPair (lit "see https://x.com now") = false /\
  exists tokens,
    tokenizeLine (lit "see https://x.com now") = Some tokens /\
    concatText tokens = lit "see https://x.com now".
Proof.
  split; [reflexivity|].
  apply (tokenizeLine_concat_no_bold (lit "see https://x.com now")).
  reflexivity.
Defined.

(** C8: a line that holds neither a bold marker pair nor a bare URL gives
    exactly one plain token whose text is the whole line, and the empty
    line gives no token. *)
Theorem tokenizeLine_no_marker (line : str) :
  hasBoldPair line = false ->
  hasUrl line = false ->
  (line <> [] -> tokenizeLine line = Some [plain line]) /\
  (line = [] -> tokenizeLine line = Some []).
Proof.
  intros NB NU.
  assert (E : exec line 0 = None).
  { unfold exec. simpl Nat.ltb. simpl skipn.
    rewrite search_none; [reflexivity|].
    intros k. unfold matchAt.
    now rewrite (hasBoldPair_skipn line k NB), (hasUrl_skipn line k NU). }
  unfold tokenizeLine. rewrite tokenizeLoop_S, E.
  split.
  - intros Hne. destruct line as [|c l]; [congruence|]. reflexivity.
  - intros ->. reflexivity.
Qed.

Lemma tokenizeLine_no_marker_witness :
  (lit "plain" <> [] -> tokenizeLine (lit "plain") = Some [plain (lit "plain")]) /\
  (lit "plain" = [] -> tokenizeLine (lit "plain") = Some []).
Proof.
  apply (tokenizeLine_no_marker (lit "plain")); reflexivity.
Defined.

(** C5: at every bold match the inner text (the match without its two
    delimiters) is tokenized by a nested call and each token of that call
    is pushed with [isBold] set, whatever its own flag was; the line
    ["**a https://x.com b**"] gives three bold tokens, the middle one a
    link. *)
Theorem tokenizeLine_bold_inherited (line : str) (lastIndex index : nat) (matchedText : str) :
  exec line lastIndex = Some (index, matchedText) ->
  startsWith matchedText (lit "http") = false ->
  exists innerText innerTokens restTokens,
    matchedText = [star; star] ++ innerText ++ [star; star] /\
    tokenizeLine innerText = Some innerTokens /\
    tokenizeFrom line (index + length matchedText) = Some restTokens /\
    tokenizeFrom line lastIndex =
      Some ((if (lastIndex <? index)%nat
             then [plain (substring line lastIndex index)] else []) ++
            map withBold innerTokens ++ restTokens) /\
    (forall t, In t (map withBold innerTokens) -> isBold t = true) /\
    map Tokenizer.text (map withBold innerTokens) = map Tokenizer.text innerTokens /\
    map isLink (map withBold innerTokens) = map isLink innerTokens /\
    tokenizeLine (lit "**a https://x.com b**") =
      Some [mkToken (lit "a ") true false None;
            mkToken (lit "https://x.com") true true (Some (lit "https://x.com"));
            mkToken (lit " b") true false None].
Proof.
  intros E NL.
  apply exec_spec in E as S; destruct S as (H1 & H2 & H3 & H4 & H5).
  set (innerText := substring matchedText 2 (length matchedText - 2)).
  destruct (tokenizeLine_total innerText) as [it Hit].
  destruct (tokenizeLoop_total (length line) line (index + length matchedText)
              ((if (lastIndex <? index)%nat
                then [plain (substring line lastIndex index)] else []) ++
               map withBold it)) as [r Hr]; [lia|].
  rewrite <- (app_nil_r (_ ++ map withBold it)), tokenizeLoop_acc in Hr.
  destruct (tokenizeLoop (length line) line (index + length matchedText) [])
    as [rest|] eqn:Hrest; [|discriminate].
  exists innerText, it, rest.
  assert (B : matchBold (skipn index line) = Some (length matchedText)).
  { unfold matchAt in H4. destruct (matchBold (skipn index line)); [assumption|].
    apply matchUrl_bounds in H4; destruct H4 as [_ U].
    rewrite H5, startsWith_firstn in NL; [discriminate | assumption | simpl; lia]. }
  repeat split.
  - apply matchBold_shape in B. rewrite <- H5 in B. exact B.
  - exact Hit.
  - eapply tokenizeFrom_enough; exact Hrest.
  - unfold tokenizeFrom. rewrite tokenizeLoop_S, E. cbv zeta. rewrite NL.
    fold innerText.
    assert (Hin : tokenizeLoop (length line) innerText 0 [] = Some it).
    { destruct (tokenizeLoop_total (length line) innerText 0 []) as [it' Hit'].
      { unfold innerText. rewrite inner_length by assumption. lia. }
      rewrite Hit'. f_equal.
      destruct (Nat.le_ge_cases (length line) (S (length innerText))) as [Hle|Hle].
      - unfold tokenizeLine in Hit.
        rewrite (tokenizeLoop_mono _ _ _ _ _ Hit' _ Hle) in Hit. congruence.
      - unfold tokenizeLine in Hit.
        rewrite (tokenizeLoop_mono _ _ _ _ _ Hit _ Hle) in Hit'. congruence. }
    rewrite Hin.
    assert (T : (if (lastIndex <? index)%nat
                 then [] ++ [plain (substring line lastIndex index)] else []) =
                (if (lastIndex <? index)%nat
                 then [plain (substring line lastIndex index)] else [])).
    { destruct (lastIndex <? index)%nat; reflexivity. }
    rewrite T.
    rewrite <- (app_nil_r (_ ++ map withBold it)), tokenizeLoop_acc, Hrest.
    simpl option_map. now rewrite <- app_assoc.
  - intros t Ht. apply in_map_iff in Ht. destruct Ht as (t0 & <- & _). reflexivity.
  - rewrite map_map. reflexivity.
  - rewrite map_map. reflexivity.
Qed.

Lemma tokenizeLine_bold_inherited_witness :
  exists innerText innerTokens restTokens,
    lit "**a https://x.com b**" = [star; star] ++ innerText ++ [star; star] /\
    tokenizeLine innerText = Some innerTokens /\
    tokenizeFrom (lit "x **a https://x.com b**") (2 + length (lit "**a https://x.com b**"))
      = Some restTokens /\
    tokenizeFrom (lit "x **a https://x.com b**") 1 =
      Some ((if (1 <? 2)%nat
             then [plain (substring (lit "x **a https://x.com b**") 1 2)] else []) ++
            map withBold innerTokens ++ restTokens) /\
    (forall t, In t (map withBold innerTokens) -> isBold t = true) /\
    map Tokenizer.text (map withBold innerTokens) = map Tokenizer.text innerTokens /\
    map isLink (map withBold innerTokens) = map isLink innerTokens /\
    tokenizeLine (lit "**a https://x.com b**") =
      Some [mkToken (lit "a ") true false None;
            mkToken (lit "https://x.com") true true (Some (lit "https://x.com"));
            mkToken (lit " b") true false None].
Proof.
  apply (tokenizeLine_bold_inherited (lit "x **a https://x.com b**") 1 2
           (lit "**a https://x.com b**")); reflexivity.
Defined.

(* ================================================================== *)
(** ** Properties of table parsing and line classification *)
(* ================================================================== *)

Section SplitFacts.

Lemma split_nonempty (sep : char) (s : str) : split sep s <> [].
Proof.
  destruct s as [|c s]; simpl; [discriminate|].
  destruct (N.eqb c sep); [discriminate|].
  destruct (split sep s); discriminate.
Qed.

Lemma split_snoc (sep : char) (s : str) :
  split sep (s ++ [sep]) = split sep s ++ [[]].
Proof.
  induction s as [|c s IH]; simpl.
  - now rewrite N.eqb_refl.
  - destruct (N.eqb c sep); [now rewrite IH|].
    rewrite IH. destruct (split sep s) as [|f fs] eqn:E; [|reflexivity].
    now apply split_nonempty in E.
Qed.

(** A row between two outer pipes: its cells are the fields of the text
    between the pipes. *)
Lemma parseRow_outer_pipes (s : str) :
  parseRow ([pipe] ++ s ++ [pipe]) = map trim (split pipe s).
Proof.
  unfold parseRow, slice_1_m1. f_equal.
  change ([pipe] ++ s ++ [pipe]) with (pipe :: (s ++ [pipe])).
  cbn [split]. rewrite N.eqb_refl, split_snoc.
  cbn [skipn length]. rewrite length_app. cbn [length].
  replace (S (length (split pipe s) + 1) - 2)%nat with (length (split pipe s)) by lia.
  rewrite firstn_app, firstn_all, Nat.sub_diag. cbn [firstn]. apply app_nil_r.
Qed.

End SplitFacts.

Section WrittenRows.

Lemma isWhiteSpace_pipe : isWhiteSpace pipe = false.
Proof. reflexivity. Qed.

Lemma includes_app (s t : str) (c : char) :
  includes (s ++ t) c = includes s c || includes t c.
Proof. unfold includes. apply existsb_app. Qed.

Lemma white_no_pipe (ws : str) :
  forallb isWhiteSpace ws = true -> includes ws pipe = false.
Proof.
  induction ws as [|c ws IH]; [reflexivity|]. cbn [forallb includes existsb].
  intros H. apply andb_prop in H. destruct H as [W H].
  fold (includes ws pipe). rewrite (IH H), orb_false_r.
  destruct (N.eqb_spec pipe c) as [<-|]; [|reflexivity].
  rewrite isWhiteSpace_pipe in W. discriminate.
Qed.

Lemma writeCell_no_pipe (c : WrittenCell) :
  wellWritten c -> includes (writeCell c) pipe = false.
Proof.
  intros (B & A & P & _). unfold writeCell.
  rewrite !includes_app, P, (white_no_pipe _ B), (white_no_pipe _ A). reflexivity.
Qed.

(** A field without pipe in front of a pipe is the first field. *)
Lemma split_field (s rest : str) :
  includes s pipe = false ->
  split pipe (s ++ pipe :: rest) = s :: split pipe rest.
Proof.
  induction s as [|c s IH]; intros H.
  - cbn [app split]. now rewrite N.eqb_refl.
  - cbn [includes existsb] in H. apply orb_false_elim in H. destruct H as [C H].
    cbn [app split]. rewrite N.eqb_sym, C. fold (includes s pipe) in H.
    now rewrite (IH H).
Qed.

Lemma split_last_field (s : str) :
  includes s pipe = false -> split pipe s = [s].
Proof.
  induction s as [|c s IH]; intros H; [reflexivity|].
  cbn [includes existsb] in H. apply orb_false_elim in H. destruct H as [C H].
  cbn [split]. rewrite N.eqb_sym, C. fold (includes s pipe) in H.
  now rewrite (IH H).
Qed.

(** The fields of a written row with [tail] behind its last pipe. *)
Lemma split_written (cells : list WrittenCell) (tail : str) :
  Forall wellWritten cells -> includes tail pipe = false ->
  split pipe (flat_map (fun c => writeCell c ++ [pipe]) cells ++ tail) =
  map writeCell cells ++ [tail].
Proof.
  intros F T. induction F as [|c cells W _ IH]; cbn [flat_map map app].
  - apply split_last_field. exact T.
  - rewrite <- !app_assoc. cbn [app].
    rewrite (split_field _ _ (writeCell_no_pipe c W)). now rewrite IH.
Qed.

Lemma slice_1_m1_middle {A : Type} (a b : A) (l : list A) :
  slice_1_m1 (a :: l ++ [b]) = l.
Proof.
  unfold slice_1_m1. cbn [skipn length]. rewrite length_app. cbn [length].
  replace (S (length l + 1) - 2)%nat with (length l + 0)%nat by lia.
  rewrite firstn_app_2. cbn [firstn]. apply app_nil_r.
Qed.

Lemma last_cons_ne (c d : char) (s : str) : last (c :: d :: s) c = last (d :: s) d.
Proof.
  revert c d. induction s as [|e s IH]; intros c d; [reflexivity|].
  change (last (c :: d :: e :: s) c) with (last (d :: e :: s) c).
  change (last (d :: e :: s) d) with (last (e :: s) d).
  change (last (d :: e :: s) c) with (last (e :: s) c).
  clear IH. revert e. induction s as [|f s IH]; intros e; [reflexivity|].
  change (last (e :: f :: s) c) with (last (f :: s) c).
  change (last (e :: f :: s) d) with (last (f :: s) d). apply IH.
Qed.

(** A string that neither starts nor ends with white space is left as it
    is by [trim]. *)
Lemma trim_clean (s : str) : clean s = true -> trim s = s.
Proof.
  destruct s as [|c s]; [reflexivity|].
  unfold clean. intros H. apply andb_prop in H. destruct H as [H1 H2].
  apply negb_true_iff in H1. apply negb_true_iff in H2.
  unfold trim. cbn [dropWhile]. rewrite H1.
  destruct (exists_last (l := c :: s) ltac:(discriminate)) as (s' & z & E).
  assert (L : last (c :: s) c = z) by (rewrite E; apply last_last).
  rewrite E, rev_app_distr. cbn [rev app dropWhile].
  rewrite <- L, H2. rewrite L. cbn [rev].
  now rewrite rev_involutive.
Qed.

Lemma trim_written (c : WrittenCell) : wellWritten c -> trim (writeCell c) = content c.
Proof.
  intros (B & A & _ & C). unfold writeCell.
  rewrite (trim_leading _ _ B), (trim_trailing _ _ A). apply trim_clean. exact C.
Qed.

Lemma map_trim_written (cells : list WrittenCell) :
  Forall wellWritten cells -> map trim (map writeCell cells) = map content cells.
Proof.
  induction 1 as [|c cells W _ IH]; [reflexivity|].
  cbn [map]. now rewrite (trim_written c W), IH.
Qed.

(** A row between its outer pipes gives the contents of its cells. *)
Lemma parseRow_written (cells : list WrittenCell) :
  Forall wellWritten cells -> parseRow (writeRow cells) = map content cells.
Proof.
  intros F. unfold parseRow, writeRow. cbn [split]. rewrite N.eqb_refl.
  rewrite <- (app_nil_r (flat_map _ cells)).
  rewrite (split_written cells [] F eq_refl).
  rewrite slice_1_m1_middle. apply map_trim_written. exact F.
Qed.

(** Without the closing pipe, what stands behind the last pipe is dropped
    in place of the empty field. *)
Lemma parseRow_open (cells : list WrittenCell) (tail : str) :
  Forall wellWritten cells -> includes tail pipe = false ->
  parseRow (writeRow cells ++ tail) = map content cells.
Proof.
  intros F T. unfold parseRow, writeRow.
  change ((pipe :: flat_map (fun c => writeCell c ++ [pipe]) cells) ++ tail)
    with (pipe :: (flat_map (fun c => writeCell c ++ [pipe]) cells ++ tail)).
  cbn [split]. rewrite N.eqb_refl.
  rewrite (split_written cells tail F T).
  rewrite slice_1_m1_middle. apply map_trim_written. exact F.
Qed.

(** A line that starts with a pipe is a table row. *)
Lemma trim_pipe (s : str) : exists s', trim (pipe :: s) = pipe :: s'.
Proof.
  unfold trim. cbn [dropWhile]. rewrite isWhiteSpace_pipe.
  cbn [rev].
  destruct (dropWhile isWhiteSpace (rev s)) as [|c r] eqn:E.
  - rewrite (dropWhile_app_gone _ _ _ E). cbn [dropWhile].
    rewrite isWhiteSpace_pipe. exists []. reflexivity.
  - rewrite dropWhile_app_keep by (rewrite E; discriminate). rewrite E.
    rewrite rev_app_distr. cbn [rev app]. eexists. reflexivity.
Qed.

Lemma classify_pipe (s : str) : classify (pipe :: s) = TableRow.
Proof.
  unfold classify. destruct (trim_pipe s) as (s' & ->).
  unfold classifyTrimmed. cbn [includes existsb startsWith].
  now rewrite N.eqb_refl.
Qed.

End WrittenRows.

(** C3 (the code at a failing input): of a table run, line 0 gives the
    header row, line 1 is dropped whatever it holds, and lines 2 and up
    give the body rows. A row that stands between its two outer pipes
    gives the contents of its cells, without the white space around them:
    [slice(1, -1)] takes away the two empty fields that the outer pipes
    produce. The run [|A|B|], [|-|-|], [|1|2|], [|3|4|] parses to the header
    [A; B] and the body [[1; 2]; [3; 4]]. But a row without its closing
    pipe is a table row as well, and of such a row [slice(1, -1)] takes
    away the last cell in place of the empty field: [|A|B] parses to [A],
    and the table that is drawn for the report [|A|B], [|-|-], [|1|2] has
    the header [A] and the body [[1]]. *)
Theorem parseTable_drops_cell_without_closing_pipe :
  (forall head sep body,
     Forall wellWritten head -> Forall (Forall wellWritten) body ->
     parseTable (writeRow head :: sep :: map writeRow body) =
     Some ([map content head], map (map content) body)) /\
  parseTable [lit "|A|B|"; lit "|-|-|"; lit "|1|2|"; lit "|3|4|"] =
    Some ([[lit "A"; lit "B"]], [[lit "1"; lit "2"]; [lit "3"; lit "4"]]) /\
  (forall cells lost,
     Forall wellWritten cells -> wellWritten lost ->
     classify (writeRow cells ++ writeCell lost) = TableRow /\
     parseRow (writeRow cells ++ writeCell lost) = map content cells /\
     parseRow (writeRow (cells ++ [lost])) = map content cells ++ [content lost]) /\
  parseRow (lit "|A|B") = [lit "A"] /\
  savedTables (downloadAsPdf sampleFacility 10 unclosedTable (lit "ACME")) =
    Some [([[lit "A"]], [[lit "1"]])].
Proof.
  split; [|split; [reflexivity|split; [|split; [reflexivity|vm_compute; reflexivity]]]].
  - intros head sep body H B. unfold parseTable, slice_2. cbn [skipn].
    rewrite (parseRow_written head H). do 3 f_equal.
    induction B as [|row body R _ IH]; [reflexivity|].
    cbn [map]. now rewrite (parseRow_written row R), IH.
  - intros cells lost C L. split; [apply classify_pipe|]. split.
    + apply parseRow_open; [exact C | apply writeCell_no_pipe; exact L].
    + rewrite parseRow_written by (apply Forall_app; split; [exact C|now constructor]).
      now rewrite map_app.
Qed.

Lemma parseTable_drops_cell_without_closing_pipe_witness :
  parseTable [lit "| Name |Price  |"; lit "|---|---|"; lit "|  ACME | 10 |"] =
    Some ([[lit "Name"; lit "Price"]], [[lit "ACME"; lit "10"]]) /\
  classify (lit "| Name |Price  ") = TableRow /\
  parseRow (lit "| Name |Price  ") = [lit "Name"].
Proof.
  destruct parseTable_drops_cell_without_closing_pipe as (A & _ & B & _).
  split.
  - apply (A [mkWritten (lit " ") (lit "Name") (lit " ");
              mkWritten [] (lit "Price") (lit "  ")]
             (lit "|---|---|")
             [[mkWritten (lit "  ") (lit "ACME") (lit " ");
               mkWritten (lit " ") (lit "10") (lit " ")]]);
      repeat constructor.
  - destruct (B [mkWritten (lit " ") (lit "Name") (lit " ")]
                (mkWritten [] (lit "Price") (lit "  "))) as (B1 & B2 & _);
      [repeat constructor | repeat constructor |].
    split; [exact B1 | exact B2].
Defined.



(* ================================================================== *)
(** ** Reasoning about layout computations *)
(* ================================================================== *)

Section MonadFacts.

Lemma bind_Ret_inv {A B : Type} (m : M A) (k : A -> M B) (st : Layout)
    (b : B) (st' : Layout) :
  bind m k st = Ret (b, st') ->
  exists a st1, m st = Ret (a, st1) /\ k a st1 = Ret (b, st').
Proof.
  unfold bind. destruct (m st) as [[a st1]| |]; try discriminate.
  intros H. exists a, st1. split; [reflexivity | assumption].
Qed.

Lemma bind_Ret {A B : Type} (m : M A) (k : A -> M B) (st st1 : Layout) (a : A) :
  m st = Ret (a, st1) -> bind m k st = k a st1.
Proof. unfold bind. now intros ->. Qed.

Lemma bind_OutOfFuel {A B : Type} (m : M A) (k : A -> M B) (st : Layout) :
  m st = OutOfFuel -> bind m k st = OutOfFuel.
Proof. unfold bind. now intros ->. Qed.

Lemma bind_Throw {A B : Type} (m : M A) (k : A -> M B) (st : Layout) (e : Exn) :
  m st = Throw e -> bind m k st = Throw e.
Proof. unfold bind. now intros ->. Qed.

End MonadFacts.

(** Splits a returning [bind] in a hypothesis into its two halves. *)
Ltac bind_inv H :=
  let a := fresh "a" in
  let st1 := fresh "st" in
  let H1 := fresh "Hm" in
  apply bind_Ret_inv in H; destruct H as (a & st1 & H1 & H).

Section FacilityFacts.

Variable fac : Facility.

Lemma facility_Ret_inv (c : Call) (st : Layout) (u : unit) (st' : Layout) :
  facility fac c st = Ret (u, st') -> st' = st.
Proof.
  unfold facility. destruct (throws fac c); [discriminate|].
  intros H; injection H as _ <-. reflexivity.
Qed.

Lemma facility_ok (c : Call) (st : Layout) :
  throws fac c = false -> facility fac c st = Ret (tt, st).
Proof. unfold facility. now intros ->. Qed.

Lemma setFontSize_inv (n : Q) (st : Layout) (u : unit) (st' : Layout) :
  setFontSize fac n st = Ret (u, st') ->
  st' = mkLayout (withFontSize n (doc st)) (y st) (tableLines st) (inTable st).
Proof.
  unfold setFontSize. intros H. bind_inv H.
  apply facility_Ret_inv in Hm. subst. unfold modifyDoc in H. congruence.
Qed.

Lemma setFont_inv (f : FontStyle) (st : Layout) (u : unit) (st' : Layout) :
  setFont fac f st = Ret (u, st') ->
  st' = mkLayout (withFontStyle f (doc st)) (y st) (tableLines st) (inTable st).
Proof.
  unfold setFont. intros H. bind_inv H.
  apply facility_Ret_inv in Hm. subst. unfold modifyDoc in H. congruence.
Qed.

Lemma getFontSize_inv (st : Layout) (n : Q) (st' : Layout) :
  getFontSize fac st = Ret (n, st') -> st' = st /\ n = fontSize (doc st).
Proof.
  unfold getFontSize. intros H. bind_inv H.
  apply facility_Ret_inv in Hm. subst. bind_inv H.
  unfold getDoc in Hm. injection Hm as <- <-.
  unfold ret in H. injection H as <- <-. split; reflexivity.
Qed.

(** What [renderFormattedLine] leaves of the font when it returns. *)
Lemma renderFormattedLine_font (fuel : nat) (line : str) (x currentY maxWidth : Q)
    (st : Layout) (r : Q) (st' : Layout) :
  renderFormattedLine fac fuel line x currentY maxWidth st = Ret (r, st') ->
  fontSize (doc st') = fontSize (doc st) /\ fontStyle (doc st') = Normal.
Proof.
  unfold renderFormattedLine. intros H.
  bind_inv H. apply getFontSize_inv in Hm. destruct Hm as [-> ->].
  bind_inv H. clear Hm.
  destruct (tokenizeLine line) as [tokens|]; [|discriminate].
  bind_inv H. clear Hm.
  bind_inv H. apply setFontSize_inv in Hm.
  bind_inv H. apply setFont_inv in Hm0.
  unfold ret in H. injection H as _ <-. subst. simpl. split; reflexivity.
Qed.

End FacilityFacts.

(* ================================================================== *)
(** ** Properties of the renderer's font handling and of the entry point *)
(* ================================================================== *)

(** C6, as stated, fails: called with bold in effect (as it is for the
    paragraph after a level-2 heading), [renderFormattedLine] returns with
    the normal weight in effect. *)
Lemma renderFormattedLine_drops_bold :
  exists r st',
    renderFormattedLine sampleFacility 3 (lit "x") 15 50 180 afterHeading = Ret (r, st') /\
    fontStyle (doc afterHeading) = Bold /\
    fontStyle (doc st') <> fontStyle (doc afterHeading).
Proof.
  eexists; eexists. split; [vm_compute; reflexivity|].
  split; [reflexivity | discriminate].
Qed.

(** C6 (amended): when [renderFormattedLine] returns, the font size that
    was in effect before the call is in effect again, and the font weight
    is normal, whatever it was before the call. *)
Theorem renderFormattedLine_restores_size (fac : Facility) (fuel : nat) (line : str)
    (x currentY maxWidth : Q) (st : Layout) (r : Q) (st' : Layout) :
  renderFormattedLine fac fuel line x currentY maxWidth st = Ret (r, st') ->
  fontSize (doc st') = fontSize (doc st) /\ fontStyle (doc st') = Normal.
Proof. apply renderFormattedLine_font. Qed.

Lemma renderFormattedLine_restores_size_witness :
  fontSize (doc (mkLayout (mkDoc 16 Normal (0, 0, 0)%Z 1 1
                     [(1%nat, Text (lit "x") 15 50 NoOpt)] 0) 50 [] false)) =
    fontSize (doc afterHeading) /\
  fontStyle (doc (mkLayout (mkDoc 16 Normal (0, 0, 0)%Z 1 1
                     [(1%nat, Text (lit "x") 15 50 NoOpt)] 0) 50 [] false)) = Normal.
Proof.
  apply (renderFormattedLine_restores_size sampleFacility 3 (lit "x") 15 50 180
           afterHeading 55).
  vm_compute. reflexivity.
Defined.

(** C7: when generation raises, [downloadAsPdf] catches the exception,
    logs it, shows the notice "An error occurred while creating the PDF
    file." and hands no file to the browser. *)
Theorem downloadAsPdf_catches (fac : Facility) (fuel : nat) (reportText ticker : str)
    (e : Exn) :
  generate fac fuel reportText ticker initial = Throw e ->
  downloadAsPdf fac fuel reportText ticker =
    Some [ConsoleError (lit "Failed to generate PDF:") e;
          AddErrorMessage (lit "An error occurred while creating the PDF file.")] /\
  (forall effects filename d,
     downloadAsPdf fac fuel reportText ticker = Some effects ->
     ~ In (SaveFile filename d) effects).
Proof.
  intros H. unfold downloadAsPdf. rewrite H. split; [reflexivity|].
  intros effects filename d E. injection E as <-.
  simpl. intros [F|[F|[]]]; discriminate.
Qed.

Lemma downloadAsPdf_catches_witness :
  downloadAsPdf failingMeasure 5 (lit "hello") (lit "ACME") =
    Some [ConsoleError (lit "Failed to generate PDF:")
            (FacilityError (CGetTextWidth (lit "hello")));
          AddErrorMessage (lit "An error occurred while creating the PDF file.")] /\
  (forall effects filename d,
     downloadAsPdf failingMeasure 5 (lit "hello") (lit "ACME") = Some effects ->
     ~ In (SaveFile filename d) effects).
Proof.
  apply (downloadAsPdf_catches failingMeasure 5 (lit "hello") (lit "ACME")).
  vm_compute. reflexivity.
Defined.

(** A file is handed to the browser only by a generation that returned. *)
Lemma downloadAsPdf_saves_after_generation (fac : Facility) (fuel : nat)
    (reportText ticker : str) (effects : list Effect) (filename : str) (d : Doc) :
  downloadAsPdf fac fuel reportText ticker = Some effects ->
  In (SaveFile filename d) effects ->
  exists st, generate fac fuel reportText ticker initial = Ret (tt, st) /\ d = doc st.
Proof.
  unfold downloadAsPdf.
  destruct (generate fac fuel reportText ticker initial) as [[[] st]|e|]; [| |discriminate].
  - destruct (throws fac _).
    + intros H; injection H as <-. simpl. intros [F|[F|[]]]; discriminate.
    + intros H; injection H as <-. simpl. intros [F|[]]. injection F as _ <-.
      exists st. split; reflexivity.
  - intros H; injection H as <-. simpl. intros [F|[F|[]]]; discriminate.
Qed.

(* ================================================================== *)
(** ** The wrapping loop: where it does not return *)
(* ================================================================== *)

Section Divergence.

Variable fac : Facility.
Hypothesis no_failure : forall c, throws fac c = false.

Lemma getTextWidth_ok (s : str) (st : Layout) :
  getTextWidth fac s st =
  Ret (textWidth fac (fontSize (doc st)) (fontStyle (doc st)) s, st).
Proof.
  unfold getTextWidth. erewrite bind_Ret by (apply facility_ok, no_failure).
  reflexivity.
Qed.

Lemma shrink_S (fuel : nat) (remainingText : str) (budget : Q) (i : Z) (st : Layout) :
  shrink fac (S fuel) remainingText budget i st =
  if Qgtb (textWidth fac (fontSize (doc st)) (fontStyle (doc st))
             (substringTo remainingText i)) budget
  then shrink fac fuel remainingText budget (i - 1) st
  else Ret (i, st).
Proof.
  cbn [shrink]. erewrite bind_Ret by apply getTextWidth_ok.
  destruct (Qgtb _ budget); reflexivity.
Qed.

(** With a budget that no measured width fits in, the shrinking loop has
    no exit: [i] runs below 0 and the prefix stays empty. *)
Lemma shrink_never_returns (remainingText : str) (budget : Q) (st : Layout) :
  (forall s, Qgtb (textWidth fac (fontSize (doc st)) (fontStyle (doc st)) s) budget = true) ->
  forall fuel i, shrink fac fuel remainingText budget i st = OutOfFuel.
Proof.
  intros W; induction fuel as [|fuel IH]; intros i; [reflexivity|].
  rewrite shrink_S, W. apply IH.
Qed.

Lemma printToken_S (fuel : nat) (token : Token) (x maxWidth : Q) (c : char)
    (rest : str) (currentX currentY : Q) :
  printToken fac (S fuel) token x maxWidth (c :: rest) currentX currentY =
  (let remainingText := c :: rest in
   let len := Z.of_nat (length remainingText) in
   bind (shrink fac fuel remainingText (sub fac (add fac x maxWidth) currentX) len) (fun i =>
   bind (if (i =? 0)%Z && Qgtb currentX x then
           bind (checkPageBreak fac lineHeight) (fun _ =>
           bind (shrink fac fuel remainingText maxWidth len) (fun i' =>
           ret (i', x, add fac currentY lineHeight)))
         else ret (i, currentX, currentY)) (fun r =>
   let '(i1, currentX1, currentY1) := r in
   let i2 := if (i1 =? 0)%Z && (0 <? len)%Z then 1%Z else i1 in
   let textToPrint := substringTo remainingText i2 in
   bind (if isLink token
         then textWithLink fac textToPrint currentX1 currentY1 (urlOr token textToPrint)
         else text fac textToPrint currentX1 currentY1 NoOpt) (fun _ =>
   bind (getTextWidth fac textToPrint) (fun w =>
   printToken fac fuel token x maxWidth (substringFromZ remainingText i2)
              (add fac currentX1 w) currentY1))))).
Proof. reflexivity. Qed.

(** Once the pen is so far right that not even the empty string fits,
    a token with text left over is never finished. *)
Lemma printToken_never_returns (token : Token) (x maxWidth : Q)
    (c : char) (rest : str) (currentX currentY : Q) (st : Layout) :
  (forall s, Qgtb (textWidth fac (fontSize (doc st)) (fontStyle (doc st)) s)
               (sub fac (add fac x maxWidth) currentX) = true) ->
  forall fuel,
    printToken fac fuel token x maxWidth (c :: rest) currentX currentY st = OutOfFuel.
Proof.
  intros W [|fuel]; [reflexivity|].
  rewrite printToken_S. cbv zeta.
  apply bind_OutOfFuel. now apply shrink_never_returns.
Qed.

End Divergence.

Section SampleDivergence.

Lemma sampleWidth_nonneg (a : Q) (f : FontStyle) (s : str) : 0 <= sampleWidth a f s.
Proof.
  induction s as [|c s IH]; simpl; [lra|].
  destruct (c =? 87)%N; lra.
Qed.

Lemma sampleWidth_exceeds (a : Q) (f : FontStyle) (s : str) (budget : Q) :
  budget < 0 -> Qgtb (sampleWidth a f s) budget = true.
Proof.
  intros Hb. unfold Qgtb. apply negb_true_iff.
  destruct (Qle_bool (sampleWidth a f s) budget) eqn:E; [|reflexivity].
  apply Qle_bool_iff in E. pose proof (sampleWidth_nonneg a f s). lra.
Qed.

(** After the forced emission of [W] the pen is right of the line end. *)
Lemma printToken_Wi (f : nat) (st : Layout) :
  printToken sampleFacility (S (S (S (S f)))) (plain (lit "Wi")) 0 1 (lit "Wi") 0 0 st
  = OutOfFuel.
Proof.
  change (lit "Wi") with [87%N; 105%N].
  rewrite printToken_S.
  cbn -[printToken].
  apply printToken_never_returns; [reflexivity|].
  intros s. apply sampleWidth_exceeds. reflexivity.
Qed.

End SampleDivergence.

(* ================================================================== *)
(** ** Lines that fit: no wrap, one line height *)
(* ================================================================== *)

Section Fits.

Variable fac : Facility.
Hypothesis no_failure : forall c, throws fac c = false.

Lemma draws_refl (st : Layout) : draws [] st st.
Proof. repeat split. now rewrite app_nil_r. Qed.

Lemma draws_trans (ops1 ops2 : list (nat * Op)) (st1 st2 st3 : Layout) :
  draws ops1 st1 st2 -> draws ops2 st2 st3 -> draws (ops1 ++ ops2) st1 st3.
Proof.
  intros (A1 & A2 & A3 & A4 & A5 & A6 & A7) (B1 & B2 & B3 & B4 & B5 & B6 & B7).
  repeat split; try congruence.
  rewrite B7, A7. now rewrite app_assoc.
Qed.

Lemma setFont_ok (f : FontStyle) (st : Layout) :
  setFont fac f st =
  Ret (tt, mkLayout (withFontStyle f (doc st)) (y st) (tableLines st) (inTable st)).
Proof.
  unfold setFont. erewrite bind_Ret by (apply facility_ok, no_failure). reflexivity.
Qed.

Lemma setFontSize_ok (n : Q) (st : Layout) :
  setFontSize fac n st =
  Ret (tt, mkLayout (withFontSize n (doc st)) (y st) (tableLines st) (inTable st)).
Proof.
  unfold setFontSize. erewrite bind_Ret by (apply facility_ok, no_failure). reflexivity.
Qed.

Lemma setTextColor_ok (r g b : Z) (st : Layout) :
  setTextColor fac r g b st =
  Ret (tt, mkLayout (withTextColor (r, g, b) (doc st)) (y st) (tableLines st) (inTable st)).
Proof.
  unfold setTextColor. erewrite bind_Ret by (apply facility_ok, no_failure). reflexivity.
Qed.

Lemma getFontSize_ok (st : Layout) :
  getFontSize fac st = Ret (fontSize (doc st), st).
Proof.
  unfold getFontSize. erewrite bind_Ret by (apply facility_ok, no_failure). reflexivity.
Qed.

Lemma text_ok (s : str) (x y0 : Q) (opt : TextOpt) (st : Layout) :
  text fac s x y0 opt st =
  Ret (tt, mkLayout (withOp (Text s x y0 opt) (doc st)) (y st) (tableLines st) (inTable st)).
Proof.
  unfold text. erewrite bind_Ret by (apply facility_ok, no_failure). reflexivity.
Qed.

Lemma textWithLink_ok (s : str) (x y0 : Q) (u : str) (st : Layout) :
  textWithLink fac s x y0 u st =
  Ret (tt, mkLayout (withOp (TextWithLink s x y0 u) (doc st)) (y st) (tableLines st)
             (inTable st)).
Proof.
  unfold textWithLink. erewrite bind_Ret by (apply facility_ok, no_failure). reflexivity.
Qed.

Lemma substringTo_full (s : str) : substringTo s (Z.of_nat (length s)) = s.
Proof. unfold substringTo. rewrite Nat2Z.id. apply firstn_all. Qed.

Lemma substringFromZ_full (s : str) : substringFromZ s (Z.of_nat (length s)) = [].
Proof. unfold substringFromZ. rewrite Nat2Z.id. apply skipn_all. Qed.

(** A text that fits in what is left of the line is printed in one piece,
    without a wrap. *)
Lemma printToken_fits (fuel : nat) (token : Token) (x maxWidth : Q) (c : char)
    (rest : str) (currentX currentY : Q) (st : Layout) :
  (2 <= fuel)%nat ->
  Qgtb (textWidth fac (fontSize (doc st)) (fontStyle (doc st)) (c :: rest))
       (sub fac (add fac x maxWidth) currentX) = false ->
  printToken fac fuel token x maxWidth (c :: rest) currentX currentY st =
  Ret ((add fac currentX
          (textWidth fac (fontSize (doc st)) (fontStyle (doc st)) (c :: rest)),
        currentY),
       mkLayout (withOp (printOp token (c :: rest) currentX currentY) (doc st))
                (y st) (tableLines st) (inTable st)).
Proof.
  intros Hf W. destruct fuel as [|[|f]]; try lia.
  rewrite printToken_S. cbv zeta.
  set (s := c :: rest) in *.
  assert (Hlen : (Z.of_nat (length s) =? 0)%Z = false).
  { apply Z.eqb_neq. subst s. simpl length. lia. }
  erewrite bind_Ret; cycle 1.
  { rewrite shrink_S by assumption. rewrite substringTo_full, W. reflexivity. }
  rewrite Hlen. cbn [andb].
  erewrite bind_Ret by reflexivity.
  cbv beta iota. rewrite Hlen. cbn [andb].
  rewrite substringTo_full, substringFromZ_full.
  unfold printOp. destruct (isLink token).
  - erewrite bind_Ret by apply textWithLink_ok.
    erewrite bind_Ret by (apply getTextWidth_ok; assumption).
    reflexivity.
  - erewrite bind_Ret by apply text_ok.
    erewrite bind_Ret by (apply getTextWidth_ok; assumption).
    reflexivity.
Qed.

Lemma draws_withOp (o : Op) (st : Layout) :
  draws [(page (doc st), o)]
    st (mkLayout (withOp o (doc st)) (y st) (tableLines st) (inTable st)).
Proof. repeat split. Qed.

Lemma draws_font (st : Layout) (d : Doc) :
  numPages d = numPages (doc st) -> page d = page (doc st) ->
  lastFinalY d = lastFinalY (doc st) -> drawn d = drawn (doc st) ->
  draws [] st (mkLayout d (y st) (tableLines st) (inTable st)).
Proof.
  intros H1 H2 H3 H4. repeat split; try assumption.
  cbn [doc]. rewrite H4. now rewrite app_nil_r.
Qed.

Lemma draws_page (ops : list (nat * Op)) (st st' : Layout) :
  draws ops st st' -> page (doc st') = page (doc st).
Proof. intros (_ & _ & _ & _ & P & _). exact P. Qed.

(** Tokens that fit are printed one after the other at the height the
    call started with. *)
Lemma renderTokens_fits (fuel : nat) (x maxWidth currentY : Q) (tokens : list Token) :
  (2 <= fuel)%nat ->
  forall currentX st,
    fontSize (doc st) = 10 ->
    fitsOnLine fac tokens x maxWidth currentX = true ->
    exists currentX' st',
      renderTokens fac fuel tokens x maxWidth currentX currentY st =
        Ret ((currentX', currentY), st') /\
      draws (lineOps fac (page (doc st)) tokens currentX currentY) st st' /\
      fontSize (doc st') = 10.
Proof.
  intros Hf. induction tokens as [|t ts IH]; intros cx st Hsz Hfit.
  - exists cx, st. repeat split; [now rewrite app_nil_r | assumption].
  - cbn [renderTokens fitsOnLine lineOps] in *.
    rewrite (bind_Ret _ _ _ _ _ (setFont_ok _ st)).
    set (st1 := mkLayout (withFontStyle _ (doc st)) _ _ _).
    assert (D1 : draws [] st st1) by (apply draws_font; reflexivity).
    assert (exists st2, (if isLink t then setTextColor fac 41 102 194 else ret tt) st1
                        = Ret (tt, st2) /\ draws [] st1 st2 /\
                        fontSize (doc st2) = 10 /\
                        fontStyle (doc st2) = tokenStyle t) as (st2 & E2 & D2 & S2 & F2).
    { destruct (isLink t).
      - eexists. split; [apply setTextColor_ok|].
        split; [apply draws_font; reflexivity|]. split; [exact Hsz | reflexivity].
      - exists st1. split; [reflexivity|]. split; [apply draws_refl|].
        split; [exact Hsz | reflexivity]. }
    rewrite (bind_Ret _ _ _ _ _ E2).
    pose proof (draws_trans _ _ _ _ _ D1 D2) as D12. cbn [app] in D12.
    pose proof (draws_page _ _ _ D12) as P12.
    assert (exists cx3 st3 ops3,
              printToken fac fuel t x maxWidth (Tokenizer.text t) cx currentY st2
                = Ret ((cx3, currentY), st3) /\
              draws ops3 st2 st3 /\ fontSize (doc st3) = 10 /\
              fitsOnLine fac ts x maxWidth cx3 = true /\
              lineOps fac (page (doc st)) (t :: ts) cx currentY =
                ops3 ++ lineOps fac (page (doc st)) ts cx3 currentY)
      as (cx3 & st3 & ops3 & E3 & D3 & S3 & Fit3 & L3).
    { cbn [lineOps]. destruct (Tokenizer.text t) as [|c rest] eqn:T.
      - exists cx, st2, []. split; [destruct fuel; reflexivity|].
        split; [apply draws_refl|]. split; [assumption|]. split; [assumption|reflexivity].
      - apply andb_prop in Hfit. destruct Hfit as [W Fit].
        apply negb_true_iff in W.
        eexists; eexists; eexists. split.
        + apply printToken_fits; [assumption|]. rewrite S2, F2. exact W.
        + split; [apply draws_withOp|].
          split; [exact S2|]. rewrite S2, F2. split; [exact Fit|].
          rewrite P12. reflexivity. }
    rewrite (bind_Ret _ _ _ _ _ E3).
    assert (exists st4, (if isLink t then setTextColor fac 51 51 51 else ret tt) st3
                        = Ret (tt, st4) /\ draws [] st3 st4 /\
                        fontSize (doc st4) = 10) as (st4 & E4 & D4 & S4).
    { destruct (isLink t).
      - eexists. split; [apply setTextColor_ok|].
        split; [apply draws_font; reflexivity | exact S3].
      - exists st3. split; [reflexivity|]. split; [apply draws_refl | exact S3]. }
    rewrite (bind_Ret _ _ _ _ _ E4). cbn [fst snd].
    destruct (IH cx3 st4 S4 Fit3) as (cx5 & st5 & E5 & D5 & S5).
    exists cx5, st5. split; [exact E5|]. split; [|exact S5].
    pose proof (draws_trans _ _ _ _ _ D12 D3) as D123. cbn [app] in D123.
    pose proof (draws_trans _ _ _ _ _ D123 D4) as D1234. rewrite app_nil_r in D1234.
    pose proof (draws_page _ _ _ D1234) as P4. rewrite P4 in D5.
    cbn [lineOps] in L3. rewrite L3.
    exact (draws_trans _ _ _ _ _ D1234 D5).
Qed.

(** A line whose tokens fit costs one line height, and what it draws is
    its tokens at the height it was called with. *)
Lemma renderFormattedLine_fits (fuel : nat) (line : str) (x currentY maxWidth : Q)
    (tokens : list Token) (st : Layout) :
  (2 <= fuel)%nat ->
  tokenizeLine line = Some tokens ->
  fitsOnLine fac tokens x maxWidth x = true ->
  exists st',
    renderFormattedLine fac fuel line x currentY maxWidth st =
      Ret (add fac currentY lineHeight, st') /\
    draws (lineOps fac (page (doc st)) tokens x currentY) st st' /\
    fontSize (doc st') = fontSize (doc st) /\ fontStyle (doc st') = Normal.
Proof.
  intros Hf T Fit. unfold renderFormattedLine.
  rewrite (bind_Ret _ _ _ _ _ (getFontSize_ok st)).
  rewrite (bind_Ret _ _ _ _ _ (setFontSize_ok 10 st)).
  rewrite T.
  set (st1 := mkLayout (withFontSize 10 (doc st)) _ _ _).
  destruct (renderTokens_fits fuel x maxWidth currentY tokens Hf x st1 eq_refl Fit)
    as (cx & st2 & E & D & S).
  rewrite (bind_Ret _ _ _ _ _ E). cbn [snd].
  rewrite (bind_Ret _ _ _ _ _ (setFontSize_ok _ st2)).
  rewrite (bind_Ret _ _ _ _ _ (setFont_ok _ _)).
  eexists. split; [reflexivity|]. split; [|split; reflexivity].
  assert (D0 : draws [] st st1) by (apply draws_font; reflexivity).
  pose proof (draws_trans _ _ _ _ _ D0 D) as D01. cbn [app] in D01.
  set (st3 := mkLayout (withFontSize (fontSize (doc st)) (doc st2)) (y st2)
                (tableLines st2) (inTable st2)).
  assert (D3 : draws [] st2 st3) by (apply draws_font; reflexivity).
  pose proof (draws_trans _ _ _ _ _ D01 D3) as D013. rewrite app_nil_r in D013.
  assert (D4 : draws [] st3
                 (mkLayout (withFontStyle Normal (doc st3)) (y st3) (tableLines st3)
                    (inTable st3))) by (apply draws_font; reflexivity).
  pose proof (draws_trans _ _ _ _ _ D013 D4) as R. rewrite app_nil_r in R.
  exact R.
Qed.

End Fits.

(* ================================================================== *)
(** ** The wrapping loop: where it does return *)
(* ================================================================== *)

Section Wrapping.

Variable fac : Facility.
Hypothesis no_failure : forall c, throws fac c = false.
Hypothesis exact : forall q, round fac q = q.
Hypothesis width_empty : forall size style, textWidth fac size style [] == 0.
Hypothesis width_nonneg : forall size style s, 0 <= textWidth fac size style s.

Lemma Qgtb_false (a b : Q) : Qgtb a b = false <-> a <= b.
Proof.
  unfold Qgtb. rewrite negb_false_iff. apply Qle_bool_iff.
Qed.

Lemma Qgtb_true (a b : Q) : Qgtb a b = true <-> b < a.
Proof.
  unfold Qgtb. rewrite negb_true_iff. split.
  - intros H. apply Qnot_le_lt. intros L. apply Qle_bool_iff in L. congruence.
  - intros H. destruct (Qle_bool a b) eqn:E; [|reflexivity].
    apply Qle_bool_iff in E. lra.
Qed.

(** With a budget that is not negative the shrinking loop stops, at the
    longest prefix that fits. *)
Lemma shrink_returns (remainingText : str) (budget : Q) (st : Layout) :
  0 <= budget ->
  forall fuel i,
    (0 <= i)%Z -> (Z.to_nat i < fuel)%nat ->
    exists j,
      shrink fac fuel remainingText budget i st = Ret (j, st) /\
      (0 <= j <= i)%Z /\
      textWidth fac (fontSize (doc st)) (fontStyle (doc st))
        (substringTo remainingText j) <= budget /\
      (forall k, (j < k <= i)%Z ->
         budget < textWidth fac (fontSize (doc st)) (fontStyle (doc st))
                    (substringTo remainingText k)).
Proof.
  intros Hb. induction fuel as [|fuel IH]; intros i Hi Hf; [lia|].
  rewrite shrink_S by assumption.
  destruct (Qgtb _ budget) eqn:E.
  - apply Qgtb_true in E.
    assert (i <> 0)%Z.
    { intros ->. unfold substringTo in E. simpl in E.
      rewrite width_empty in E. lra. }
    destruct (IH (i - 1)%Z) as (j & Ej & Bj & Wj & Mj); try lia.
    exists j. split; [exact Ej|]. split; [lia|]. split; [exact Wj|].
    intros k Hk. destruct (Z.eq_dec k i) as [->|]; [exact E|]. apply Mj. lia.
  - apply Qgtb_false in E. exists i. split; [reflexivity|]. split; [lia|].
    split; [exact E|]. intros k Hk. lia.
Qed.

Lemma checkPageBreak_font (spaceNeeded : Q) (st : Layout) :
  exists st',
    checkPageBreak fac spaceNeeded st = Ret (tt, st') /\
    fontSize (doc st') = fontSize (doc st) /\
    fontStyle (doc st') = fontStyle (doc st) /\
    drawn (doc st') = drawn (doc st).
Proof.
  unfold checkPageBreak.
  rewrite (bind_Ret getY _ st st (y st) eq_refl).
  destruct (Qgtb _ _).
  - eexists. split.
    + unfold addPage. erewrite bind_Ret; cycle 1.
      { erewrite bind_Ret by (apply facility_ok, no_failure). reflexivity. }
      reflexivity.
    + repeat split.
  - exists st. repeat split.
Qed.

Lemma charsFit_head (maxWidth : Q) (style : FontStyle) (c : char) (rest : str) :
  charsFit fac maxWidth style (c :: rest) = true ->
  textWidth fac 10 style (substringTo (c :: rest) 1) <= maxWidth.
Proof.
  unfold charsFit. cbn [forallb]. intros H. apply andb_prop in H. destruct H as [H _].
  apply Qle_bool_iff in H. exact H.
Qed.

Lemma charsFit_skipn (maxWidth : Q) (style : FontStyle) (s : str) (n : nat) :
  charsFit fac maxWidth style s = true ->
  charsFit fac maxWidth style (skipn n s) = true.
Proof.
  unfold charsFit. revert n. induction s as [|c s IH]; intros [|n] H; try assumption.
  cbn [skipn]. apply IH. cbn [forallb] in H. apply andb_prop in H. tauto.
Qed.

(** When every single character fits the full width, a token is printed
    to its end, in pieces none of which is wider than [maxWidth]; the pen
    stays inside the line. *)
Lemma printToken_returns (x maxWidth : Q) (token : Token) (style : FontStyle) :
  forall fuel remainingText currentX currentY st,
    (length remainingText + 2 <= fuel)%nat ->
    fontSize (doc st) = 10 -> fontStyle (doc st) = style ->
    charsFit fac maxWidth style remainingText = true ->
    x <= currentX -> currentX <= x + maxWidth ->
    exists currentX' currentY' st' ops,
      printToken fac fuel token x maxWidth remainingText currentX currentY st =
        Ret ((currentX', currentY'), st') /\
      x <= currentX' /\ currentX' <= x + maxWidth /\
      fontSize (doc st') = 10 /\ fontStyle (doc st') = style /\
      drawn (doc st') = drawn (doc st) ++ ops /\
      Forall (fun po => textWidth fac 10 style (opText (snd po)) <= maxWidth) ops.
Proof.
  induction fuel as [|fuel IH]; intros txt cx cy st Hf Hsz Hsty Hfit Hx1 Hx2; [lia|].
  destruct txt as [|c rest].
  - exists cx, cy, st, []. cbn [printToken]. repeat split; try assumption.
    + now rewrite app_nil_r.
    + constructor.
  - rewrite printToken_S. cbv zeta. unfold add, sub. rewrite !exact.
    set (txt := c :: rest) in *.
    set (len := Z.of_nat (length txt)).
    assert (Hlen : (1 <= len)%Z) by (subst len txt; simpl length; lia).
    assert (Hfuel : (Z.to_nat len < fuel)%nat).
    { subst len. rewrite Nat2Z.id. lia. }
    assert (Hone : textWidth fac 10 style (substringTo txt 1) <= maxWidth)
      by (apply charsFit_head; exact Hfit).
    (* first shrinking loop *)
    destruct (shrink_returns txt (x + maxWidth - cx) st ltac:(lra) fuel len
                ltac:(lia) Hfuel) as (j1 & E1 & B1 & W1 & M1).
    rewrite Hsz, Hsty in W1, M1.
    rewrite (bind_Ret _ _ _ _ _ E1).
    (* the wrap, if any *)
    assert (exists i1 cx1 cy1 st1,
              (if (j1 =? 0)%Z && Qgtb cx x
               then bind (checkPageBreak fac lineHeight) (fun _ =>
                    bind (shrink fac fuel txt maxWidth len) (fun i' =>
                    ret (i', x, cy + lineHeight)))
               else ret (j1, cx, cy)) st = Ret ((i1, cx1, cy1), st1) /\
              (1 <= i1 <= len)%Z /\
              textWidth fac 10 style (substringTo txt i1) <= x + maxWidth - cx1 /\
              x <= cx1 /\
              fontSize (doc st1) = 10 /\ fontStyle (doc st1) = style /\
              drawn (doc st1) = drawn (doc st))
      as (i1 & cx1 & cy1 & st1 & E2 & B2 & W2 & X2 & S2 & F2 & D2).
    { destruct ((j1 =? 0)%Z && Qgtb cx x) eqn:T.
      - apply andb_prop in T. destruct T as [_ T].
        destruct (checkPageBreak_font lineHeight st) as (st1 & Ec & Sc & Fc & Dc).
        assert (Hmw : 0 <= maxWidth).
        { pose proof (width_nonneg 10 style (substringTo txt 1)). lra. }
        destruct (shrink_returns txt maxWidth st1 Hmw fuel len ltac:(lia) Hfuel)
          as (j2 & Ej & Bj & Wj & Mj).
        rewrite Sc, Hsz, Fc, Hsty in Wj, Mj.
        assert (j2 <> 0)%Z.
        { intros ->. specialize (Mj 1%Z ltac:(lia)). lra. }
        exists j2, x, (cy + lineHeight), st1. split.
        + rewrite (bind_Ret _ _ _ _ _ Ec). rewrite (bind_Ret _ _ _ _ _ Ej). reflexivity.
        + repeat split; try lia; try congruence; try lra.
      - exists j1, cx, cy, st. split; [reflexivity|].
        assert (j1 <> 0)%Z.
        { intros ->. cbn [Z.eqb andb] in T.
          assert (cx <= x) by (apply Qgtb_false; exact T).
          specialize (M1 1%Z ltac:(lia)). lra. }
        repeat split; try lia; try assumption. }
    rewrite (bind_Ret _ _ _ _ _ E2). cbv beta iota.
    assert (Hi1 : (i1 =? 0)%Z = false) by (apply Z.eqb_neq; lia).
    rewrite Hi1. cbn [andb].
    set (printed := substringTo txt i1) in *.
    (* the draw and the measure *)
    set (st2 := mkLayout (withOp (printOp token printed cx1 cy1) (doc st1))
                  (y st1) (tableLines st1) (inTable st1)).
    assert (E3 : (if isLink token
                  then textWithLink fac printed cx1 cy1 (urlOr token printed)
                  else text fac printed cx1 cy1 NoOpt) st1 = Ret (tt, st2)).
    { unfold st2, printOp. destruct (isLink token).
      - apply textWithLink_ok; assumption.
      - apply text_ok; assumption. }
    rewrite (bind_Ret _ _ _ _ _ E3).
    rewrite (bind_Ret _ _ _ _ _ (getTextWidth_ok fac no_failure printed st2)).
    change (fontSize (doc st2)) with (fontSize (doc st1)).
    change (fontStyle (doc st2)) with (fontStyle (doc st1)).
    rewrite S2, F2.
    pose proof (width_nonneg 10 style printed) as Hp.
    destruct (IH (substringFromZ txt i1) (cx1 + textWidth fac 10 style printed) cy1 st2)
      as (cx' & cy' & st' & ops & E4 & X4 & X4' & S4 & F4 & D4 & P4).
    + unfold substringFromZ. rewrite length_skipn.
      assert (length txt = Z.to_nat len) by (subst len; now rewrite Nat2Z.id).
      lia.
    + exact S2.
    + exact F2.
    + apply charsFit_skipn. exact Hfit.
    + lra.
    + lra.
    + exists cx', cy', st', ((page (doc st1), printOp token printed cx1 cy1) :: ops).
      split; [rewrite exact; exact E4|]. repeat split; try assumption.
      * rewrite D4. unfold st2. cbn [doc drawn withOp]. rewrite D2.
        now rewrite <- app_assoc.
      * constructor; [|exact P4]. cbn [snd].
        assert (opText (printOp token printed cx1 cy1) = printed) as ->
          by (unfold printOp; destruct (isLink token); reflexivity).
        lra.
Qed.

(** The same for the tokens of a line. *)
Lemma renderTokens_returns (fuel : nat) (x maxWidth : Q) (tokens : list Token) :
  (forall t, In t tokens ->
     (length (Tokenizer.text t) + 2 <= fuel)%nat /\
     charsFit fac maxWidth (tokenStyle t) (Tokenizer.text t) = true) ->
  forall currentX currentY st,
    fontSize (doc st) = 10 ->
    x <= currentX -> currentX <= x + maxWidth ->
    exists currentX' currentY' st' ops,
      renderTokens fac fuel tokens x maxWidth currentX currentY st =
        Ret ((currentX', currentY'), st') /\
      drawn (doc st') = drawn (doc st) ++ ops /\
      Forall (fun po => exists style,
                textWidth fac 10 style (opText (snd po)) <= maxWidth) ops.
Proof.
  induction tokens as [|t ts IH]; intros Hall cx cy st Hsz Hx1 Hx2.
  - exists cx, cy, st, []. split; [reflexivity|].
    split; [now rewrite app_nil_r | constructor].
  - cbn [renderTokens].
    rewrite (bind_Ret _ _ _ _ _ (setFont_ok fac no_failure _ st)).
    set (st1 := mkLayout (withFontStyle _ (doc st)) _ _ _).
    assert (exists st2, (if isLink t then setTextColor fac 41 102 194 else ret tt) st1
                        = Ret (tt, st2) /\ fontSize (doc st2) = 10 /\
                        fontStyle (doc st2) = tokenStyle t /\
                        drawn (doc st2) = drawn (doc st))
      as (st2 & E2 & S2 & F2 & D2).
    { destruct (isLink t).
      - eexists. split; [apply setTextColor_ok; assumption|].
        repeat split. exact Hsz.
      - exists st1. repeat split. exact Hsz. }
    rewrite (bind_Ret _ _ _ _ _ E2).
    destruct (Hall t (or_introl eq_refl)) as [Hlen Hfit].
    destruct (printToken_returns x maxWidth t (tokenStyle t) fuel (Tokenizer.text t)
                cx cy st2 Hlen S2 F2 Hfit Hx1 Hx2)
      as (cx3 & cy3 & st3 & ops3 & E3 & X3 & X3' & S3 & F3 & D3 & P3).
    rewrite (bind_Ret _ _ _ _ _ E3).
    assert (exists st4, (if isLink t then setTextColor fac 51 51 51 else ret tt) st3
                        = Ret (tt, st4) /\ fontSize (doc st4) = 10 /\
                        drawn (doc st4) = drawn (doc st3))
      as (st4 & E4 & S4 & D4).
    { destruct (isLink t).
      - eexists. split; [apply setTextColor_ok; assumption|].
        repeat split. exact S3.
      - exists st3. repeat split. exact S3. }
    rewrite (bind_Ret _ _ _ _ _ E4). cbn [fst snd].
    destruct (IH (fun t' H' => Hall t' (or_intror H')) cx3 cy3 st4 S4 X3 X3')
      as (cx5 & cy5 & st5 & ops5 & E5 & D5 & P5).
    exists cx5, cy5, st5, (ops3 ++ ops5). split; [exact E5|]. split.
    + rewrite D5, D4, D3, D2. now rewrite app_assoc.
    + apply Forall_app. split; [|exact P5].
      eapply Forall_impl; [|exact P3]. intros po H. exists (tokenStyle t). exact H.
Qed.

(** In exact arithmetic and with enough fuel, [renderFormattedLine]
    returns on every line each of whose characters fits the width alone,
    and no text it draws is wider than [maxWidth]. *)
Lemma renderFormattedLine_returns (fuel : nat) (line : str) (x currentY maxWidth : Q)
    (tokens : list Token) (st : Layout) :
  0 <= maxWidth ->
  tokenizeLine line = Some tokens ->
  (forall t, In t tokens ->
     (length (Tokenizer.text t) + 2 <= fuel)%nat /\
     charsFit fac maxWidth (tokenStyle t) (Tokenizer.text t) = true) ->
  exists r st' ops,
    renderFormattedLine fac fuel line x currentY maxWidth st = Ret (r, st') /\
    drawn (doc st') = drawn (doc st) ++ ops /\
    Forall (fun po => exists style,
              textWidth fac 10 style (opText (snd po)) <= maxWidth) ops.
Proof.
  intros Hmw T Hall. unfold renderFormattedLine.
  rewrite (bind_Ret _ _ _ _ _ (getFontSize_ok fac no_failure st)).
  rewrite (bind_Ret _ _ _ _ _ (setFontSize_ok fac no_failure 10 st)).
  rewrite T.
  set (st1 := mkLayout (withFontSize 10 (doc st)) _ _ _).
  destruct (renderTokens_returns fuel x maxWidth tokens Hall x currentY st1 eq_refl)
    as (cx & cy & st2 & ops & E & D & P); try lra.
  rewrite (bind_Ret _ _ _ _ _ E). cbn [snd].
  rewrite (bind_Ret _ _ _ _ _ (setFontSize_ok fac no_failure _ st2)).
  rewrite (bind_Ret _ _ _ _ _ (setFont_ok fac no_failure _ _)).
  eexists; eexists; exists ops. split; [reflexivity|].
  split; [exact D | exact P].
Qed.

End Wrapping.

Section NarrowCell.

Lemma printToken_W_narrow (f : nat) (st : Layout) :
  printToken narrowTable (S (S (S (S f)))) (plain (lit "W ")) (15 + 2) (5 - 4)
    (lit "W ") (15 + 2) (35 + 2 + 3) st = OutOfFuel.
Proof.
  change (lit "W ") with [87%N; 32%N].
  rewrite printToken_S.
  cbn -[printToken].
  apply printToken_never_returns; [reflexivity|].
  intros s. apply sampleWidth_exceeds. reflexivity.
Qed.

Lemma renderFormattedLine_narrow (fuel : nat) (st : Layout) :
  renderFormattedLine narrowTable fuel (lit "W http://x") (15 + 2) (35 + 2 + 3) (5 - 4) st
  = OutOfFuel.
Proof.
  destruct fuel as [|[|[|[|f]]]]; try (vm_compute; reflexivity).
  unfold renderFormattedLine.
  change (tokenizeLine (lit "W http://x"))
    with (Some [plain (lit "W "); link (lit "http://x")]).
  erewrite bind_Ret by reflexivity.
  erewrite bind_Ret by reflexivity.
  apply bind_OutOfFuel.
  cbn [renderTokens].
  erewrite bind_Ret by reflexivity.
  erewrite bind_Ret by reflexivity.
  apply bind_OutOfFuel. apply printToken_W_narrow.
Qed.

Lemma renderTable_narrow (fuel : nat) (st : Layout) :
  tableLines st = [lit "|W http://x|"] ->
  renderTable narrowTable fuel st = OutOfFuel.
Proof.
  intros T. unfold renderTable.
  rewrite (bind_Ret getTableLines _ st st _ eq_refl), T.
  cbn [parseTable].
  destruct (checkPageBreak_font narrowTable (fun _ => eq_refl)
              (inject_Z (Z.of_nat (length (map parseRow (slice_2 [lit "|W http://x|"]))))
               * 10 + 10) st) as (st1 & E & _).
  rewrite (bind_Ret _ _ _ _ _ E).
  rewrite (bind_Ret getY _ st1 st1 _ eq_refl).
  apply bind_OutOfFuel.
  unfold autoTable.
  erewrite bind_Ret by reflexivity.
  erewrite bind_Ret by reflexivity.
  apply bind_OutOfFuel.
  change (tableLayout narrowTable _ _ _) with [LayCell narrowCell].
  cbn [drawCells].
  apply bind_OutOfFuel.
  change (willDrawCell narrowCell) with (Some false).
  change (didAfterSuppressed narrowTable) with true.
  cbv iota.
  unfold didDrawCell.
  change (hasUrlScheme (raw narrowCell)) with true.
  cbv iota.
  apply bind_OutOfFuel.
  apply renderFormattedLine_narrow.
Qed.

(** The same loop reached from the entry point: a report that is one
    table row with a link, laid out in a cell narrower than a [W]. *)
Lemma downloadAsPdf_narrow_cell_never_returns (fuel : nat) :
  downloadAsPdf narrowTable fuel (lit "|W http://x|") (lit "ACME") = None.
Proof.
  unfold downloadAsPdf.
  replace (generate narrowTable fuel (lit "|W http://x|") (lit "ACME") initial)
    with (@OutOfFuel (unit * Layout)); [reflexivity|].
  symmetry. unfold generate.
  do 6 (erewrite bind_Ret by reflexivity).
  change (split 10%N (lit "|W http://x|")) with [lit "|W http://x|"].
  cbn [forEach].
  erewrite bind_Ret by reflexivity.
  erewrite bind_Ret by reflexivity.
  apply bind_OutOfFuel.
  apply renderTable_narrow. reflexivity.
Qed.

End NarrowCell.

(** The hypotheses of [renderFormattedLine_returns] at the sample
    measure: a line of eight characters in a width of three. *)
Example renderFormattedLine_returns_sample :
  exists r st' ops,
    renderFormattedLine sampleFacility 10 (lit "abcdefgh") 0 0 3 initial = Ret (r, st') /\
    drawn (doc st') = drawn (doc initial) ++ ops /\
    Forall (fun po => exists style,
              textWidth sampleFacility 10 style (opText (snd po)) <= 3) ops.
Proof.
  apply (renderFormattedLine_returns sampleFacility (fun _ => eq_refl) (fun _ => eq_refl)
           (fun _ _ => Qeq_refl 0) sampleWidth_nonneg 10 (lit "abcdefgh") 0 0 3
           [plain (lit "abcdefgh")] initial).
  - lra.
  - reflexivity.
  - intros t [<-|[]]. split; [simpl; lia | reflexivity].
Qed.

(** C2 (the code at a failing input): with a line ["Wi"] and a width of 1,
    which is the width of the narrowest character of the sample measure,
    the forced emission of [W] moves the pen past the end of the line, and
    the next shrinking loop never exits: [renderFormattedLine] does not
    return, whatever the fuel. *)
Theorem renderFormattedLine_Wi_never_returns :
  (forall size style c, 1 <= textWidth sampleFacility size style [c]) /\
  textWidth sampleFacility 10 Normal (lit "i") <= 1 /\
  forall fuel,
    renderFormattedLine sampleFacility fuel (lit "Wi") 0 0 1 initial = OutOfFuel.
Proof.
  split; [intros size style c; simpl; destruct (c =? 87)%N; lra|].
  split; [vm_compute; discriminate|].
  intros [|[|[|[|f]]]]; try (vm_compute; reflexivity).
  unfold renderFormattedLine.
  change (tokenizeLine (lit "Wi")) with (Some [plain (lit "Wi")]).
  cbn -[printToken].
  apply bind_OutOfFuel.
  erewrite bind_Ret by reflexivity.
  erewrite bind_Ret by reflexivity.
  apply bind_OutOfFuel. apply printToken_Wi.
Qed.

(* ================================================================== *)
(** ** Default cell draws are only ever added by the facility *)
(* ================================================================== *)

Create HintDb keeps.

Section Keeps.

Variable fac : Facility.

Lemma keeps_ret {A : Type} (a : A) : keeps (ret a).
Proof. intros st b st' H. injection H as _ <-. reflexivity. Qed.

Lemma keeps_bind {A B : Type} (m : M A) (k : A -> M B) :
  keeps m -> (forall a, keeps (k a)) -> keeps (bind m k).
Proof.
  intros Hm Hk st b st' H. bind_inv H.
  rewrite (Hk _ _ _ _ H). eapply Hm; eassumption.
Qed.

Lemma keeps_if {A : Type} (b : bool) (m1 m2 : M A) :
  keeps m1 -> keeps m2 -> keeps (if b then m1 else m2).
Proof. destruct b; auto. Qed.

Lemma keeps_facility (c : Call) : keeps (facility fac c).
Proof. intros st a st' H. apply facility_Ret_inv in H. now subst. Qed.

Lemma keeps_modifyDoc (f : Doc -> Doc) :
  (forall d, defaultLinkDraws (f d) = defaultLinkDraws d) -> keeps (modifyDoc f).
Proof. intros Hf st a st' H. injection H as _ <-. apply Hf. Qed.

Lemma keeps_getDoc : keeps getDoc.
Proof. intros st a st' H. injection H as _ <-. reflexivity. Qed.

Lemma keeps_getY : keeps getY.
Proof. intros st a st' H. injection H as _ <-. reflexivity. Qed.

Lemma keeps_setY (v : Q) : keeps (setY v).
Proof. intros st a st' H. injection H as _ <-. reflexivity. Qed.

Lemma defaultLinkDraws_withOp (o : Op) (d : Doc) :
  isDefaultLinkDraw (page d, o) = false ->
  defaultLinkDraws (withOp o d) = defaultLinkDraws d.
Proof.
  intros H. unfold defaultLinkDraws, withOp. cbn [drawn].
  rewrite filter_app. cbn [filter]. rewrite H. now rewrite app_nil_r.
Qed.

Hint Resolve keeps_ret keeps_facility keeps_getDoc keeps_getY keeps_setY : keeps.

Ltac keeps_step :=
  first [ solve [auto with keeps]
        | apply keeps_bind; [|intros ?]
        | apply keeps_if
        | apply keeps_modifyDoc; intros ?;
          first [reflexivity | apply defaultLinkDraws_withOp; reflexivity] ].

Lemma keeps_getFontSize : keeps (getFontSize fac).
Proof. unfold getFontSize. repeat keeps_step. Qed.

Lemma keeps_setFontSize (n : Q) : keeps (setFontSize fac n).
Proof. unfold setFontSize. repeat keeps_step. Qed.

Lemma keeps_setFont (f : FontStyle) : keeps (setFont fac f).
Proof. unfold setFont. repeat keeps_step. Qed.

Lemma keeps_setTextColor (r g b : Z) : keeps (setTextColor fac r g b).
Proof. unfold setTextColor. repeat keeps_step. Qed.

Lemma keeps_getTextWidth (s : str) : keeps (getTextWidth fac s).
Proof. unfold getTextWidth. repeat keeps_step. Qed.

Lemma keeps_text (s : str) (x y0 : Q) (opt : TextOpt) : keeps (text fac s x y0 opt).
Proof. unfold text. repeat keeps_step. Qed.

Lemma keeps_textWithLink (s : str) (x y0 : Q) (u : str) :
  keeps (textWithLink fac s x y0 u).
Proof. unfold textWithLink. repeat keeps_step. Qed.

Lemma keeps_addPage : keeps (addPage fac).
Proof. unfold addPage. repeat keeps_step. Qed.

Hint Resolve keeps_getFontSize keeps_setFontSize keeps_setFont keeps_setTextColor
  keeps_getTextWidth keeps_text keeps_textWithLink keeps_addPage : keeps.

Lemma keeps_checkPageBreak (spaceNeeded : Q) : keeps (checkPageBreak fac spaceNeeded).
Proof. unfold checkPageBreak. repeat keeps_step. Qed.

Hint Resolve keeps_checkPageBreak : keeps.

Lemma keeps_shrink (fuel : nat) :
  forall remainingText budget i, keeps (shrink fac fuel remainingText budget i).
Proof.
  induction fuel as [|fuel IH]; intros remainingText budget i.
  - intros st a st' H. discriminate.
  - cbn [shrink]. repeat keeps_step; apply IH.
Qed.

Hint Resolve keeps_shrink : keeps.

Lemma keeps_printToken (fuel : nat) :
  forall token x maxWidth remainingText currentX currentY,
    keeps (printToken fac fuel token x maxWidth remainingText currentX currentY).
Proof.
  induction fuel as [|fuel IH]; intros token x maxWidth [|c rest] currentX currentY;
    try solve [cbn [printToken]; auto with keeps].
  - intros st a st' H. cbn in H. discriminate.
  - rewrite printToken_S. cbv zeta.
    apply keeps_bind; [auto with keeps | intros i].
    apply keeps_bind; [repeat keeps_step | intros [[i1 cx1] cy1]].
    apply keeps_bind; [repeat keeps_step | intros _].
    apply keeps_bind; [auto with keeps | intros w]. apply IH.
Qed.

Hint Resolve keeps_printToken : keeps.

Lemma keeps_renderTokens (fuel : nat) (tokens : list Token) :
  forall x maxWidth currentX currentY,
    keeps (renderTokens fac fuel tokens x maxWidth currentX currentY).
Proof.
  induction tokens as [|t ts IH]; intros x maxWidth currentX currentY; cbn [renderTokens].
  - auto with keeps.
  - repeat keeps_step; apply IH.
Qed.

Hint Resolve keeps_renderTokens : keeps.

Lemma keeps_renderFormattedLine (fuel : nat) (line : str) (x currentY maxWidth : Q) :
  keeps (renderFormattedLine fac fuel line x currentY maxWidth).
Proof.
  unfold renderFormattedLine. repeat keeps_step.
  destruct (tokenizeLine line) as [tokens|].
  - repeat keeps_step.
  - intros st0 r0 st0' H0. discriminate.
Qed.

Hint Resolve keeps_renderFormattedLine : keeps.

Lemma keeps_didDrawCell (fuel : nat) (c : Cell) : keeps (didDrawCell fac fuel c).
Proof. unfold didDrawCell. repeat keeps_step. Qed.

Hint Resolve keeps_didDrawCell : keeps.

(** The facility's dispatch draws no link cell by itself. *)
Lemma keeps_drawCells (fuel : nat) (steps : list TableStep) :
  keeps (drawCells fac fuel steps).
Proof.
  induction steps as [|[|c] cs IH]; cbn [drawCells]; [auto with keeps| |].
  - apply keeps_bind; [|intros _; exact IH].
    apply keeps_modifyDoc. reflexivity.
  - apply keeps_bind; [|intros _; exact IH].
    unfold willDrawCell.
    destruct (hasUrlScheme (raw c)) eqn:E.
    + repeat keeps_step.
    + apply keeps_bind; [|intros _; auto with keeps].
      apply keeps_modifyDoc. intros d. apply defaultLinkDraws_withOp.
      unfold isDefaultLinkDraw. cbn [snd]. exact E.
Qed.

Lemma keeps_autoTable (fuel : nat) (head body : list (list str)) (startY : Q) :
  keeps (autoTable fac fuel head body startY).
Proof.
  unfold autoTable.
  apply keeps_bind; [auto with keeps | intros _].
  apply keeps_bind;
    [apply keeps_modifyDoc; intros d; apply defaultLinkDraws_withOp; reflexivity
    | intros _].
  apply keeps_bind; [apply keeps_drawCells | intros _].
  apply keeps_modifyDoc. reflexivity.
Qed.

End Keeps.

(** A URL scheme anywhere in the text makes the test of the hooks succeed. *)
Lemma hasUrlScheme_contains (a b : str) :
  hasUrlScheme (a ++ lit "http://" ++ b) = true /\
  hasUrlScheme (a ++ lit "https://" ++ b) = true.
Proof.
  induction a as [|c a [IH1 IH2]].
  - split; reflexivity.
  - split.
    + change ((c :: a) ++ lit "http://" ++ b) with (c :: (a ++ lit "http://" ++ b)).
      cbn [hasUrlScheme]. rewrite IH1. apply orb_true_r.
    + change ((c :: a) ++ lit "https://" ++ b) with (c :: (a ++ lit "https://" ++ b)).
      cbn [hasUrlScheme]. rewrite IH2. apply orb_true_r.
Qed.

Section SuppressedCells.

Variable fac : Facility.
Hypothesis skips : didAfterSuppressed fac = false.

(** A facility that goes on to the next cell after a [willDrawCell] that
    returned [false] draws the cells without a URL scheme and nothing
    else: the hook [didDrawCell] is not reached for a link cell and does
    nothing for any other. *)
Lemma drawCells_skips (fuel : nat) (steps : list TableStep) :
  forall st,
    exists st',
      drawCells fac fuel steps st = Ret (tt, st') /\
      drawn (doc st') =
        drawn (doc st) ++ ownDraws (page (doc st)) (numPages (doc st)) steps /\
      y st' = y st /\ tableLines st' = tableLines st /\ inTable st' = inTable st.
Proof.
  induction steps as [|[|c] rest IH]; intros st; cbn [drawCells ownDraws].
  - exists st. repeat split. now rewrite app_nil_r.
  - rewrite (bind_Ret (modifyDoc withNewPage) _ st _ tt eq_refl).
    destruct (IH (mkLayout (withNewPage (doc st)) (y st) (tableLines st) (inTable st)))
      as (st' & E & D & Y & T & I).
    exists st'. split; [exact E|]. repeat split; assumption.
  - unfold willDrawCell, didDrawCell. destruct (hasUrlScheme (raw c)) eqn:U.
    + rewrite skips. rewrite (bind_Ret (ret tt) _ st st tt eq_refl).
      exact (IH st).
    + erewrite bind_Ret by reflexivity.
      destruct (IH (mkLayout (withOp (CellText (raw c)) (doc st)) (y st) (tableLines st)
                      (inTable st))) as (st' & E & D & Y & T & I).
      exists st'. split; [exact E|]. repeat split; try assumption.
      rewrite D. cbn [doc drawn withOp page numPages]. now rewrite <- app_assoc.
Qed.

Lemma ownDraws_noLinkText (steps : list TableStep) :
  forall pg pages, Forall noLinkText (ownDraws pg pages steps).
Proof.
  induction steps as [|[|c] rest IH]; intros pg pages; cbn [ownDraws].
  - constructor.
  - apply IH.
  - destruct (hasUrlScheme (raw c)) eqn:U; [apply IH|].
    constructor; [exact U | apply IH].
Qed.

End SuppressedCells.

Section CalledCells.

Variable fac : Facility.
Hypothesis no_failure : forall c, throws fac c = false.
Hypothesis calls : didAfterSuppressed fac = true.

(** A facility that still calls [didDrawCell] for a cell whose
    [willDrawCell] returned [false] has every link cell that fits drawn by
    the renderer, in the interior of the cell, and every other cell by
    itself. *)
Lemma drawCells_calls (fuel : nat) (steps : list TableStep) :
  (2 <= fuel)%nat ->
  linkCellsFit fac steps = true ->
  forall st,
    exists st',
      drawCells fac fuel steps st = Ret (tt, st') /\
      drawn (doc st') =
        drawn (doc st) ++ hookDraws fac (page (doc st)) (numPages (doc st)) steps /\
      y st' = y st /\ tableLines st' = tableLines st /\ inTable st' = inTable st.
Proof.
  intros Hf. induction steps as [|[|c] rest IH]; intros F st;
    cbn [drawCells hookDraws linkCellsFit] in *.
  - exists st. repeat split. now rewrite app_nil_r.
  - rewrite (bind_Ret (modifyDoc withNewPage) _ st _ tt eq_refl).
    destruct (IH F (mkLayout (withNewPage (doc st)) (y st) (tableLines st) (inTable st)))
      as (st' & E & D & Y & T & I).
    exists st'. split; [exact E|]. repeat split; assumption.
  - apply andb_prop in F. destruct F as [Fc F].
    unfold willDrawCell, didDrawCell. destruct (hasUrlScheme (raw c)) eqn:U.
    + rewrite calls.
      destruct (tokenizeLine (raw c)) as [tokens|] eqn:T; [|discriminate].
      destruct (renderFormattedLine_fits fac no_failure fuel (raw c)
                  (add fac (cellX c) (padLeft c))
                  (add fac (add fac (cellY c) (padTop c)) 3)
                  (sub fac (cellWidth c) (padHorizontal c)) tokens st Hf T Fc)
        as (st1 & E1 & D1 & _).
      destruct D1 as (Y1 & T1 & I1 & N1 & P1 & _ & D1).
      erewrite bind_Ret; cycle 1.
      { erewrite bind_Ret by exact E1. reflexivity. }
      destruct (IH F st1) as (st' & E & D & Y & Tl & I).
      exists st'. split; [exact E|]. repeat split; try congruence.
      rewrite D, D1, P1, N1. unfold interiorX, interiorY. now rewrite <- app_assoc.
    + erewrite bind_Ret by reflexivity.
      destruct (IH F (mkLayout (withOp (CellText (raw c)) (doc st)) (y st) (tableLines st)
                        (inTable st))) as (st' & E & D & Y & T & I).
      exists st'. split; [exact E|]. repeat split; try assumption.
      rewrite D. cbn [doc drawn withOp page numPages app]. now rewrite <- app_assoc.
Qed.

End CalledCells.

(** C4 (the code at a failing input): [willDrawCell] returns [false] for
    a cell whose raw text holds a URL scheme, so no run of the table
    facility adds a default draw of a link cell, whatever the facility.
    What is drawn for a link cell then depends on the facility. One that
    goes on to the next cell after a [willDrawCell] that returned [false],
    without calling [didDrawCell] (jspdf-autotable does so), never reaches
    the renderer: all that a table adds to the document is its grid and
    the facility's own draws of the cells without a URL scheme, and the
    text of a link cell is drawn by nobody. Only with a facility that
    still calls [didDrawCell] is a link cell drawn by the renderer, in the
    interior of the cell (stated for link cells that fit on one line). *)
Theorem suppressed_link_cells_are_left_blank (fac : Facility) (fuel : nat)
    (head body : list (list str)) (startY : Q) (st st' : Layout) :
  autoTable fac fuel head body startY st = Ret (tt, st') ->
  defaultLinkDraws (doc st') = defaultLinkDraws (doc st) /\
  (forall c, hasUrlScheme (raw c) = true -> willDrawCell c = Some false) /\
  (didAfterSuppressed fac = false ->
   drawn (doc st') =
     drawn (doc st) ++
     (page (doc st), Grid head body startY) ::
     ownDraws (page (doc st)) (numPages (doc st)) (tableLayout fac head body startY) /\
   Forall noLinkText
     ((page (doc st), Grid head body startY) ::
      ownDraws (page (doc st)) (numPages (doc st)) (tableLayout fac head body startY))) /\
  (didAfterSuppressed fac = true ->
   (forall c, throws fac c = false) -> (2 <= fuel)%nat ->
   linkCellsFit fac (tableLayout fac head body startY) = true ->
   drawn (doc st') =
     drawn (doc st) ++
     (page (doc st), Grid head body startY) ::
     hookDraws fac (page (doc st)) (numPages (doc st)) (tableLayout fac head body startY)).
Proof.
  intros H. split; [|split].
  - exact (keeps_autoTable fac fuel head body startY st tt st' H).
  - intros c U. unfold willDrawCell. now rewrite U.
  - unfold autoTable in H.
    apply bind_Ret_inv in H. destruct H as (u & s1 & H1 & H).
    apply facility_Ret_inv in H1. subst s1.
    apply bind_Ret_inv in H. destruct H as (u1 & s1 & H1 & H).
    injection H1 as _ <-.
    apply bind_Ret_inv in H. destruct H as (u2 & s2 & H2 & H).
    injection H as <-. cbn [doc drawn withFinalY].
    split.
    + intros S. split; [|constructor; [exact I | apply ownDraws_noLinkText]].
      destruct (drawCells_skips fac S fuel (tableLayout fac head body startY)
                  (mkLayout (withOp (Grid head body startY) (doc st)) (y st)
                     (tableLines st) (inTable st))) as (s3 & E & D & _).
      rewrite E in H2. injection H2 as _ <-. rewrite D.
      cbn [doc drawn withOp page numPages]. now rewrite <- app_assoc.
    + intros C NF Hf F.
      destruct (drawCells_calls fac NF C fuel (tableLayout fac head body startY) Hf F
                  (mkLayout (withOp (Grid head body startY) (doc st)) (y st)
                     (tableLines st) (inTable st))) as (s3 & E & D & _).
      rewrite E in H2. injection H2 as _ <-. rewrite D.
      cbn [doc drawn withOp page numPages]. now rewrite <- app_assoc.
Qed.

Lemma suppressed_link_cells_are_left_blank_witness :
  (exists st',
     autoTable (sampleTable sampleCells false) 5 [[lit "Name"; lit "Link"]]
       [[lit "Site"; lit "https://example.com"]] 35 initial = Ret (tt, st') /\
     drawn (doc st') =
       [(1%nat, Grid [[lit "Name"; lit "Link"]]
                  [[lit "Site"; lit "https://example.com"]] 35);
        (1%nat, CellText (lit "Site"))]) /\
  (exists st',
     autoTable (sampleTable sampleCells true) 5 [[lit "Name"; lit "Link"]]
       [[lit "Site"; lit "https://example.com"]] 35 initial = Ret (tt, st') /\
     drawn (doc st') =
       [(1%nat, Grid [[lit "Name"; lit "Link"]]
                  [[lit "Site"; lit "https://example.com"]] 35);
        (1%nat, CellText (lit "Site"));
        (1%nat, TextWithLink (lit "https://example.com") (75 + 2) (35 + 2 + 3)
                  (lit "https://example.com"))]).
Proof.
  split.
  - destruct (autoTable (sampleTable sampleCells false) 5 [[lit "Name"; lit "Link"]]
                [[lit "Site"; lit "https://example.com"]] 35 initial)
      as [[[] st']|e|] eqn:E; try (vm_compute in E; discriminate E).
    exists st'. split; [reflexivity|].
    destruct (suppressed_link_cells_are_left_blank (sampleTable sampleCells false) 5
                [[lit "Name"; lit "Link"]] [[lit "Site"; lit "https://example.com"]] 35
                initial st' E) as (_ & _ & B & _).
    destruct (B eq_refl) as [D _]. exact D.
  - destruct (autoTable (sampleTable sampleCells true) 5 [[lit "Name"; lit "Link"]]
                [[lit "Site"; lit "https://example.com"]] 35 initial)
      as [[[] st']|e|] eqn:E; try (vm_compute in E; discriminate E).
    exists st'. split; [reflexivity|].
    destruct (suppressed_link_cells_are_left_blank (sampleTable sampleCells true) 5
                [[lit "Name"; lit "Link"]] [[lit "Site"; lit "https://example.com"]] 35
                initial st' E) as (_ & _ & _ & C).
    apply C; [reflexivity | intros c; reflexivity | lia | reflexivity].
Defined.


(** The same table in a whole report, with a facility that goes on to the
    next cell after a [willDrawCell] that returned [false]: the file that
    is saved holds the title, the grid, the cell [Site] and the page
    stamp, and the link nowhere. *)
Example downloadAsPdf_link_cell_blank :
  savedDrawing (downloadAsPdf (sampleTable sampleCells false) 10 linkTable (lit "ACME")) =
  Some [(1%nat, Text (lit "Financial Analyst Report: ACME") 15 20 NoOpt);
        (1%nat, Grid [[lit "Name"; lit "Link"]] [[lit "Site"; lit "https://example.com"]] 35);
        (1%nat, CellText (lit "Site"));
        (1%nat, Text (lit "Page 1 of 1") (210 / 2) (297 - 10) AlignCenter)].
Proof. vm_compute. reflexivity. Qed.

(** With a facility that still calls [didDrawCell], the link is there, as
    a link. *)
Example downloadAsPdf_link_cell_drawn :
  savedDrawing (downloadAsPdf (sampleTable sampleCells true) 10 linkTable (lit "ACME")) =
  Some [(1%nat, Text (lit "Financial Analyst Report: ACME") 15 20 NoOpt);
        (1%nat, Grid [[lit "Name"; lit "Link"]] [[lit "Site"; lit "https://example.com"]] 35);
        (1%nat, CellText (lit "Site"));
        (1%nat, TextWithLink (lit "https://example.com") (75 + 2) (35 + 2 + 3)
                  (lit "https://example.com"));
        (1%nat, Text (lit "Page 1 of 1") (210 / 2) (297 - 10) AlignCenter)].
Proof. vm_compute. reflexivity. Qed.

(* ================================================================== *)
(** ** Bullet lines *)
(* ================================================================== *)

Section Bullets.

Variable fac : Facility.
Hypothesis no_failure : forall c, throws fac c = false.

Lemma lineOps_height (pg : nat) (currentY : Q) (tokens : list Token) :
  forall currentX,
    Forall (fun po => opY (snd po) = Some currentY)
           (lineOps fac pg tokens currentX currentY).
Proof.
  induction tokens as [|t ts IH]; intros cx; cbn [lineOps]; [constructor|].
  destruct (Tokenizer.text t); [apply IH|].
  constructor; [|apply IH]. cbn [snd]. unfold printOp.
  destruct (isLink t); reflexivity.
Qed.

(** Everything a bullet that fits draws is at the same height, 5 above
    the cursor. *)
Lemma bulletOps_height (pg : nat) (line : str) (y0 : Q) :
  Forall (fun po => opY (snd po) = Some (sub fac y0 5)) (bulletOps fac pg line y0).
Proof.
  unfold bulletOps.
  destruct (splitTextToSize fac 10 Normal _ _) as [|bl [|? ?]]; try constructor.
  destruct (tokenizeLine bl); [apply lineOps_height | constructor].
Qed.

(** A bullet that fits is drawn 5 above the cursor, and the cursor gets
    that height plus the line height. *)
Lemma renderBullet_fits (fuel : nat) (line : str) (st : Layout) :
  (2 <= fuel)%nat ->
  bulletFits fac line = true ->
  exists st',
    renderBullet fac fuel line st = Ret (tt, st') /\
    y st' = add fac (sub fac (y st) 5) lineHeight /\
    tableLines st' = tableLines st /\ inTable st' = inTable st /\
    numPages (doc st') = numPages (doc st) /\ page (doc st') = page (doc st) /\
    drawn (doc st') = drawn (doc st) ++ bulletOps fac (page (doc st)) line (y st).
Proof.
  intros Hf B. unfold bulletFits in B. unfold renderBullet, bulletOps.
  rewrite (bind_Ret _ _ _ _ _ (setFontSize_ok fac no_failure 10 st)).
  rewrite (bind_Ret _ _ _ _ _ (setFont_ok fac no_failure Normal _)).
  rewrite (bind_Ret _ _ _ _ _ (facility_ok fac _ _ (no_failure _))).
  set (st1 := mkLayout (withFontStyle Normal _) _ _ _).
  rewrite (bind_Ret getDoc _ st1 st1 (doc st1) eq_refl).
  change (fontSize (doc st1)) with 10.
  change (fontStyle (doc st1)) with Normal.
  destruct (splitTextToSize fac 10 Normal (bulletGlyph ++ substringFrom line 2)
              (sub fac (contentWidth fac) 3)) as [|bl [|? ?]]; try discriminate.
  destruct (tokenizeLine bl) as [tokens|] eqn:T; [|discriminate].
  cbn [forEach].
  destruct (renderFormattedLine_fits fac no_failure fuel bl (add fac leftMargin 3)
              (sub fac (y st1) 5) (sub fac (contentWidth fac) 3) tokens st1 Hf T B)
    as (st2 & E & D & _).
  destruct D as (D1 & D2 & D3 & D4 & D5 & D6 & D7).
  erewrite bind_Ret; cycle 1.
  { rewrite (bind_Ret getY _ st1 st1 (y st1) eq_refl).
    rewrite (bind_Ret _ _ _ _ _ E). reflexivity. }
  eexists. split; [reflexivity|].
  cbn [y tableLines inTable doc]. repeat split; try assumption.
Qed.

Lemma checkPageBreak_ok (spaceNeeded : Q) (st : Layout) :
  exists d,
    checkPageBreak fac spaceNeeded st =
      Ret (tt, mkLayout d (yAfterPageCheck fac spaceNeeded (y st))
                 (tableLines st) (inTable st)) /\
    drawn d = drawn (doc st) /\
    page d = pageAfterPageCheck fac spaceNeeded st.
Proof.
  unfold checkPageBreak, yAfterPageCheck, pageAfterPageCheck.
  rewrite (bind_Ret getY _ st st (y st) eq_refl).
  destruct (Qgtb (add fac (y st) spaceNeeded) (sub fac (pageHeight fac) 15)).
  - exists (withNewPage (doc st)). split; [|split; reflexivity].
    unfold addPage.
    erewrite bind_Ret; cycle 1.
    { erewrite bind_Ret by (apply facility_ok, no_failure). reflexivity. }
    reflexivity.
  - exists (doc st). split; [|split; reflexivity]. destruct st; reflexivity.
Qed.

(** A bullet line of the document, outside a table, that fits. *)
Lemma processLine_bullet (fuel : nat) (line : str) (st : Layout) :
  (2 <= fuel)%nat ->
  classify line = Bullet ->
  bulletFits fac (trim line) = true ->
  inTable st = false ->
  exists st',
    processLine fac fuel line st = Ret (tt, st') /\
    y st' = add fac (sub fac (yAfterPageCheck fac 10 (y st)) 5) lineHeight /\
    inTable st' = false /\
    drawn (doc st') =
      drawn (doc st) ++
      bulletOps fac (pageAfterPageCheck fac 10 st) (trim line)
        (yAfterPageCheck fac 10 (y st)).
Proof.
  intros Hf C B T. unfold processLine. unfold classify in C. rewrite C.
  rewrite (bind_Ret getInTable _ st st (inTable st) eq_refl). rewrite T.
  rewrite (bind_Ret (ret tt) _ st st tt eq_refl).
  destruct (checkPageBreak_ok 10 st) as (d & E & Dd & Pd).
  rewrite (bind_Ret _ _ _ _ _ E).
  set (st1 := mkLayout d _ _ _).
  destruct (renderBullet_fits fuel (trim line) st1 Hf B)
    as (st2 & E2 & Y2 & _ & I2 & _ & _ & O2).
  exists st2. split; [exact E2|]. split; [exact Y2|]. split; [now rewrite I2|].
  rewrite O2. cbn [doc st1 y]. now rewrite Dd, Pd.
Qed.

(** The page check before a bullet leaves the cursor where it is or at
    the top margin, and at the top margin it leaves it there. *)
Lemma yAfterPageCheck_cases (y0 : Q) :
  yAfterPageCheck fac 10 y0 = y0 \/ yAfterPageCheck fac 10 y0 = topMargin.
Proof. unfold yAfterPageCheck. destruct (Qgtb _ _); [right|left]; reflexivity. Qed.

Lemma yAfterPageCheck_again (y0 : Q) :
  yAfterPageCheck fac 10 (yAfterPageCheck fac 10 y0) = yAfterPageCheck fac 10 y0.
Proof.
  unfold yAfterPageCheck.
  destruct (Qgtb (add fac y0 10) (sub fac (pageHeight fac) 15)) eqn:E0.
  - destruct (Qgtb (add fac topMargin 10) (sub fac (pageHeight fac) 15)); reflexivity.
  - rewrite E0. reflexivity.
Qed.

End Bullets.

(** C9: a bullet line whose text fits on one physical line leaves the
    vertical position of the cursor as it was: its text is drawn at
    [y - 5], token by token, and [y] becomes that height plus the line
    height 5, which is [y] again. So of two such bullet lines in a row in
    the document, both are drawn at the same height, 5 above where the
    page check before the first one left the cursor. Whether a text fits
    is decided as the renderer decides it, in the arithmetic of the
    facility; that [y - 5 + 5] is [y] in that arithmetic is asked of the
    cursor height and of the top margin (among doubles it holds from 5
    up, by [inDoubles_down_and_up]). *)
Theorem bullet_leaves_y (fac : Facility) (fuel : nat) (line1 line2 : str) (st : Layout) :
  (forall c, throws fac c = false) ->
  (2 <= fuel)%nat ->
  classify line1 = Bullet -> bulletFits fac (trim line1) = true ->
  classify line2 = Bullet -> bulletFits fac (trim line2) = true ->
  inTable st = false ->
  (forall v, v = y st \/ v = topMargin -> add fac (sub fac v 5) 5 = v) ->
  (exists st',
     renderBullet fac fuel (trim line1) st = Ret (tt, st') /\
     y st' = y st /\
     drawn (doc st') =
       drawn (doc st) ++ bulletOps fac (page (doc st)) (trim line1) (y st)) /\
  (exists st1 st2,
     processLine fac fuel line1 st = Ret (tt, st1) /\
     processLine fac fuel line2 st1 = Ret (tt, st2) /\
     y st1 = yAfterPageCheck fac 10 (y st) /\
     y st2 = y st1 /\
     drawn (doc st1) =
       drawn (doc st) ++
       bulletOps fac (pageAfterPageCheck fac 10 st) (trim line1) (y st1) /\
     drawn (doc st2) =
       drawn (doc st1) ++
       bulletOps fac (pageAfterPageCheck fac 10 st1) (trim line2) (y st1) /\
     Forall (fun po => opY (snd po) = Some (sub fac (y st1) 5))
       (bulletOps fac (pageAfterPageCheck fac 10 st) (trim line1) (y st1) ++
        bulletOps fac (pageAfterPageCheck fac 10 st1) (trim line2) (y st1))).
Proof.
  intros NF Hf C1 B1 C2 B2 T A. split.
  - destruct (renderBullet_fits fac NF fuel (trim line1) st Hf B1)
      as (st' & E & Y & _ & _ & _ & _ & O).
    exists st'. split; [exact E|]. split; [|exact O].
    rewrite Y. apply A. left. reflexivity.
  - destruct (processLine_bullet fac NF fuel line1 st Hf C1 B1 T)
      as (st1 & E1 & Y1 & T1 & O1).
    destruct (processLine_bullet fac NF fuel line2 st1 Hf C2 B2 T1)
      as (st2 & E2 & Y2 & _ & O2).
    assert (A0 : add fac (sub fac (yAfterPageCheck fac 10 (y st)) 5) 5 =
                 yAfterPageCheck fac 10 (y st)).
    { apply A. apply yAfterPageCheck_cases. }
    assert (Q1 : y st1 = yAfterPageCheck fac 10 (y st)).
    { rewrite Y1. exact A0. }
    assert (Q2 : yAfterPageCheck fac 10 (y st1) = y st1).
    { rewrite Q1. apply yAfterPageCheck_again. }
    rewrite Q2 in Y2, O2. rewrite <- Q1 in O1.
    exists st1, st2. repeat split; try assumption.
    + rewrite Y2, Q1. exact A0.
    + apply Forall_app. split; apply bulletOps_height.
Qed.

Lemma bullet_leaves_y_witness :
  (exists st',
     renderBullet tenthFacility 5 (trim (lit "- **x**y")) initial = Ret (tt, st') /\
     y st' = y initial /\
     drawn (doc st') =
       drawn (doc initial) ++
       bulletOps tenthFacility (page (doc initial)) (trim (lit "- **x**y")) (y initial)) /\
  (exists st1 st2,
     processLine tenthFacility 5 (lit "- **x**y") initial = Ret (tt, st1) /\
     processLine tenthFacility 5 (lit "  - ab") st1 = Ret (tt, st2) /\
     y st1 = yAfterPageCheck tenthFacility 10 (y initial) /\
     y st2 = y st1 /\
     drawn (doc st1) =
       drawn (doc initial) ++
       bulletOps tenthFacility (pageAfterPageCheck tenthFacility 10 initial)
         (trim (lit "- **x**y")) (y st1) /\
     drawn (doc st2) =
       drawn (doc st1) ++
       bulletOps tenthFacility (pageAfterPageCheck tenthFacility 10 st1)
         (trim (lit "  - ab")) (y st1) /\
     Forall (fun po => opY (snd po) = Some (sub tenthFacility (y st1) 5))
       (bulletOps tenthFacility (pageAfterPageCheck tenthFacility 10 initial)
          (trim (lit "- **x**y")) (y st1) ++
        bulletOps tenthFacility (pageAfterPageCheck tenthFacility 10 st1)
          (trim (lit "  - ab")) (y st1))).
Proof.
  apply (bullet_leaves_y tenthFacility 5 (lit "- **x**y") (lit "  - ab") initial).
  - intros c. reflexivity.
  - lia.
  - reflexivity.
  - vm_compute. reflexivity.
  - reflexivity.
  - vm_compute. reflexivity.
  - reflexivity.
  - intros v [->| ->]; vm_compute; reflexivity.
Defined.

(** The arithmetic decides whether a line wraps: on a page whose indented
    lines are 0.6 wide, measured in tenths, the bullet [- **x**yy] fits in
    exact arithmetic and leaves [y] at 20; in doubles the last [y] does
    not fit any more, the line wraps and [y] ends 5 lower. *)
Example rounding_decides_the_wrap :
  bulletFits tenthExact (lit "- **x**yy") = true /\
  bulletFits tenthFacility (lit "- **x**yy") = false /\
  (exists st, renderBullet tenthExact 10 (lit "- **x**yy") initial = Ret (tt, st) /\
              y st = 20) /\
  (exists st, renderBullet tenthFacility 10 (lit "- **x**yy") initial = Ret (tt, st) /\
              y st = 25).
Proof.
  split; [vm_compute; reflexivity|]. split; [vm_compute; reflexivity|].
  split; eexists; (split; [vm_compute; reflexivity|reflexivity]).
Qed.

(* ================================================================== *)
(** ** Further properties of the tokenizer *)
(* ================================================================== *)

Section TokenShape.

Lemma startsWith_decompose (s p : str) :
  startsWith s p = true -> s = p ++ skipn (length p) s.
Proof.
  revert s; induction p as [|c p IH]; intros s; [reflexivity|].
  destruct s as [|d s]; [discriminate|]. cbn [startsWith].
  intros H. apply andb_prop in H. destruct H as [H1 H2].
  apply N.eqb_eq in H1. subst d. cbn [length skipn app]. f_equal. now apply IH.
Qed.

Lemma startsWith_app_cancel (p r q : str) :
  startsWith (p ++ r) (p ++ q) = startsWith r q.
Proof.
  induction p as [|c p IH]; [reflexivity|].
  cbn [app startsWith]. now rewrite N.eqb_refl, IH.
Qed.

(** A URL match starts with one of the two schemes. *)
Lemma matchUrl_scheme (s : str) (n : nat) :
  matchUrl s = Some n ->
  startsWith s (lit "http://") = true \/ startsWith s (lit "https://") = true.
Proof.
  unfold matchUrl.
  destruct (startsWith s (lit "http")) eqn:E; [|discriminate].
  apply startsWith_decompose in E. change (length (lit "http")) with 4%nat in E.
  set (r := skipn 4 s) in *. intros H.
  assert (T : forall t k, matchUrlTail t = Some k -> startsWith t (lit "://") = true).
  { intros t k. unfold matchUrlTail.
    destruct (startsWith t (lit "://")); [reflexivity | discriminate]. }
  rewrite E.
  destruct r as [|c r'].
  - discriminate.
  - destruct (N.eqb c (ch "s")) eqn:C.
    + destruct (matchUrlTail r') as [k|] eqn:T1.
      * right. apply N.eqb_eq in C. subst c.
        change (lit "https://") with (lit "http" ++ ch "s" :: lit "://").
        rewrite startsWith_app_cancel. cbn [startsWith].
        rewrite N.eqb_refl. exact (T _ _ T1).
      * left. cbn [option_map] in H.
        destruct (matchUrlTail (c :: r')) as [k|] eqn:T2; [|discriminate].
        change (lit "http://") with (lit "http" ++ lit "://").
        rewrite startsWith_app_cancel. exact (T _ _ T2).
    + left.
      destruct (matchUrlTail (c :: r')) as [k|] eqn:T2; [|discriminate].
      change (lit "http://") with (lit "http" ++ lit "://").
      rewrite startsWith_app_cancel. exact (T _ _ T2).
Qed.

Lemma matchBold_stars (s : str) (n : nat) :
  matchBold s = Some n -> startsWith s [star; star] = true.
Proof.
  unfold matchBold. destruct (startsWith s [star; star]); [reflexivity | discriminate].
Qed.

(** Which alternative of the pattern a match of [exec] comes from. *)
Lemma exec_alternative (line : str) (lastIndex index : nat) (m : str) :
  exec line lastIndex = Some (index, m) ->
  if startsWith m (lit "http")
  then matchUrl (skipn index line) = Some (length m)
  else matchBold (skipn index line) = Some (length m).
Proof.
  intros E. apply exec_spec in E. destruct E as (H1 & H2 & H3 & H4 & H5).
  unfold matchAt in H4.
  destruct (matchBold (skipn index line)) as [k|] eqn:B.
  - injection H4 as ->.
    apply matchBold_stars in B.
    assert (S2 : startsWith m [star; star] = true).
    { rewrite H5. apply startsWith_firstn; [exact B | simpl; lia]. }
    destruct (startsWith m (lit "http")) eqn:L; [|reflexivity].
    apply startsWith_decompose in L. apply startsWith_decompose in S2.
    rewrite L in S2 at 1. discriminate.
  - apply matchUrl_bounds in H4 as U. destruct U as [_ U].
    assert (L : startsWith m (lit "http") = true).
    { rewrite H5. apply startsWith_firstn; [exact U | simpl; lia]. }
    rewrite L. exact H4.
Qed.

Lemma wellFormedToken_withBold (t : Token) :
  wellFormedToken t -> wellFormedToken (withBold t).
Proof. unfold wellFormedToken, withBold. cbn. tauto. Qed.

Lemma tokenizeLoop_wellFormed (fuel : nat) :
  forall line lastIndex tokens r,
    Forall wellFormedToken tokens ->
    tokenizeLoop fuel line lastIndex tokens = Some r ->
    Forall wellFormedToken r.
Proof.
  induction fuel as [|fuel IH]; intros line li acc r Hacc H; [discriminate|].
  rewrite tokenizeLoop_S in H.
  destruct (exec line li) as [[idx m]|] eqn:E.
  - apply exec_alternative in E as A.
    apply exec_spec in E. destruct E as (H1 & H2 & H3 & H4 & H5).
    cbv zeta in H.
    assert (Hacc1 : Forall wellFormedToken
                      (if (li <? idx)%nat
                       then acc ++ [plain (substring line li idx)] else acc)).
    { destruct (Nat.ltb_spec li idx); [|exact Hacc].
      apply Forall_app. split; [exact Hacc|]. constructor; [|constructor].
      unfold wellFormedToken, plain. cbn [Tokenizer.text isLink url].
      split; [|split; [discriminate | reflexivity]].
      intros N. apply (f_equal (@length char)) in N.
      unfold substring in N. rewrite length_firstn, length_skipn in N.
      simpl in N. lia. }
    destruct (startsWith m (lit "http")) eqn:L.
    + eapply IH; [|exact H].
      apply Forall_app. split; [exact Hacc1|]. constructor; [|constructor].
      unfold wellFormedToken, link. cbn [Tokenizer.text isLink url].
      split; [|split; [|discriminate]].
      * intros N. rewrite N in H3. simpl in H3. lia.
      * intros _. split; [reflexivity|].
        apply matchUrl_bounds in A as B. destruct B as [B _].
        apply matchUrl_scheme in A. rewrite H5.
        destruct A as [A|A]; [left|right];
          (apply startsWith_firstn; [exact A | simpl; lia]).
    + destruct (tokenizeLoop fuel (substring m 2 (length m - 2)) 0 []) as [it|] eqn:Hit;
        [|discriminate].
      eapply IH; [|exact H].
      apply Forall_app. split; [exact Hacc1|].
      apply (IH _ _ _ _ (Forall_nil _)) in Hit.
      clear - Hit. induction Hit; constructor; auto using wellFormedToken_withBold.
  - injection H as <-.
    destruct (Nat.ltb_spec li (length line)); [|exact Hacc].
    apply Forall_app. split; [exact Hacc|]. constructor; [|constructor].
    unfold wellFormedToken, plain. cbn [Tokenizer.text isLink url].
    split; [|split; [discriminate | reflexivity]].
    intros N. apply (f_equal (@length char)) in N.
    unfold substringFrom in N. rewrite length_skipn in N. simpl in N. lia.
Qed.

End TokenShape.

(** X1: [tokenizeLine] returns on every line, and each token it returns
    has a text that is not empty; a link token has its own text as [url]
    and that text starts with [http://] or [https://]; a token that is not
    a link has no [url]. *)
Theorem tokenizeLine_tokens_well_formed (line : str) :
  exists tokens,
    tokenizeLine line = Some tokens /\ Forall wellFormedToken tokens.
Proof.
  destruct (tokenizeLine_total line) as [r Hr]. exists r. split; [exact Hr|].
  exact (tokenizeLoop_wellFormed _ _ _ _ _ (Forall_nil _) Hr).
Qed.

Section StarsOnly.

Lemma dropStars_app (a b : str) : dropStars (a ++ b) = dropStars a ++ dropStars b.
Proof. apply filter_app. Qed.

Lemma concatText_withBold (ts : list Token) :
  concatText (map withBold ts) = concatText ts.
Proof.
  unfold concatText. induction ts as [|t ts IH]; [reflexivity|].
  cbn [map flat_map]. now rewrite IH.
Qed.

(** A bold match of [exec], split into delimiters and inner text. *)
Lemma exec_bold_shape (line : str) (lastIndex index : nat) (m : str) :
  exec line lastIndex = Some (index, m) ->
  startsWith m (lit "http") = false ->
  m = [star; star] ++ substring m 2 (length m - 2) ++ [star; star].
Proof.
  intros E L. apply exec_alternative in E as A. rewrite L in A.
  apply exec_spec in E. destruct E as (_ & _ & _ & _ & H5).
  apply matchBold_shape in A. rewrite <- H5 in A. exact A.
Qed.

(** What the loop adds to its accumulator is, asterisks apart, the text
    it walks over, and it is never longer than that text. *)
Lemma tokenizeLoop_stars_only (fuel : nat) :
  forall line lastIndex tokens r,
    (lastIndex <= length line)%nat ->
    tokenizeLoop fuel line lastIndex tokens = Some r ->
    dropStars (concatText r) =
      dropStars (concatText tokens) ++ dropStars (skipn lastIndex line) /\
    (length (concatText r) <=
       length (concatText tokens) + (length line - lastIndex))%nat.
Proof.
  induction fuel as [|fuel IH]; intros line li acc r Hli H; [discriminate|].
  rewrite tokenizeLoop_S in H.
  destruct (exec line li) as [[idx m]|] eqn:E.
  - apply exec_spec in E as S. destruct S as (H1 & H2 & H3 & H4 & H5).
    cbv zeta in H.
    assert (P : concatText (if (li <? idx)%nat
                            then acc ++ [plain (substring line li idx)]
                            else acc) =
                concatText acc ++ substring line li idx).
    { destruct (Nat.ltb_spec li idx).
      - rewrite concatText_app; simpl; now rewrite app_nil_r.
      - replace idx with li by lia. unfold substring.
        rewrite Nat.sub_diag; simpl. now rewrite app_nil_r. }
    assert (Lsub : length (substring line li idx) = (idx - li)%nat).
    { unfold substring. rewrite length_firstn, length_skipn. lia. }
    assert (D : skipn li line =
                substring line li idx ++ m ++ skipn (idx + length m) line).
    { rewrite (skipn_split_at line li idx H1). f_equal.
      rewrite (skipn_split_at line idx (idx + length m)) by lia.
      f_equal. unfold substring.
      replace (idx + length m - idx)%nat with (length m) by lia.
      symmetry. exact H5. }
    destruct (startsWith m (lit "http")) eqn:L.
    + apply IH in H; [|lia]. destruct H as [Hd Hl].
      rewrite concatText_app, P in Hd, Hl. cbn [concatText flat_map link Tokenizer.text] in Hd, Hl.
      rewrite app_nil_r in Hd, Hl. split.
      * rewrite Hd, D. rewrite !dropStars_app. now rewrite <- !app_assoc.
      * rewrite !length_app, Lsub in Hl. lia.
    + destruct (tokenizeLoop fuel (substring m 2 (length m - 2)) 0 []) as [it|] eqn:Hit;
        [|discriminate].
      apply IH in Hit; [|lia]. destruct Hit as [Id Il].
      change (dropStars (concatText it) =
              dropStars (substring m 2 (length m - 2))) in Id.
      change (length (concatText it) <=
              0 + (length (substring m 2 (length m - 2)) - 0))%nat in Il.
      rewrite inner_length in Il by assumption.
      apply IH in H; [|lia]. destruct H as [Hd Hl].
      rewrite concatText_app, P, concatText_withBold in Hd, Hl.
      pose proof (exec_bold_shape line li idx m E L) as Sh.
      assert (Dm : dropStars m = dropStars (substring m 2 (length m - 2))).
      { remember (substring m 2 (length m - 2)) as inner eqn:Ei. clear - Sh.
        rewrite Sh, !dropStars_app.
        change (dropStars [star; star]) with (@nil char).
        cbn [app]. apply app_nil_r. }
      split.
      * rewrite Hd, D. rewrite !dropStars_app, Id, Dm. now rewrite <- !app_assoc.
      * rewrite !length_app, Lsub in Hl. lia.
  - injection H as <-.
    destruct (Nat.ltb_spec li (length line)).
    + rewrite concatText_app. cbn [concatText flat_map plain Tokenizer.text].
      rewrite app_nil_r. unfold substringFrom. split; [apply dropStars_app|].
      rewrite length_app, length_skipn. lia.
    + rewrite skipn_all2 by lia. cbn [dropStars filter]. rewrite app_nil_r.
      split; [reflexivity | lia].
Qed.

End StarsOnly.

(** X2: the only text [tokenizeLine] loses is asterisks: with the
    asterisks taken out, the concatenation of the texts of the tokens is
    the line; and the concatenation is never longer than the line. *)
Theorem tokenizeLine_loses_only_asterisks (line : str) :
  exists tokens,
    tokenizeLine line = Some tokens /\
    dropStars (concatText tokens) = dropStars line /\
    (length (concatText tokens) <= length line)%nat.
Proof.
  destruct (tokenizeLine_total line) as [r Hr]. exists r. split; [exact Hr|].
  apply tokenizeLoop_stars_only in Hr; [|lia]. destruct Hr as [Hd Hl].
  cbn [concatText flat_map dropStars filter app skipn length] in Hd, Hl.
  split; [exact Hd | lia].
Qed.

Section OneLevel.

Lemma matchBold_cons_none (c : char) (s : str) :
  startsWith (c :: s) [star; star] = false ->
  forall k, matchBold (c :: firstn k s) = None.
Proof.
  intros H k. unfold matchBold.
  destruct (startsWith (c :: firstn k s) [star; star]) eqn:E; [|reflexivity].
  exfalso. cbn [startsWith] in H, E.
  apply andb_prop in E. destruct E as [E1 E2]. rewrite E1 in H. cbn [andb] in H.
  destruct (firstn k s) as [|d r] eqn:F; [discriminate|].
  apply andb_prop in E2. destruct E2 as [E2 _].
  destruct s as [|d' s']; [destruct k; discriminate|].
  destruct k as [|k]; [discriminate|]. cbn [firstn] in F. injection F as <- _.
  rewrite E2 in H. discriminate.
Qed.

(** What the lazy scan passes over holds no bold pair. *)
Lemma lazyDotsStars_inner_plain (s : str) (n : nat) :
  lazyDotsStars s = Some n -> hasBoldPair (firstn (n - 2) s) = false.
Proof.
  revert n; induction s as [|c s IH]; intros n; rewrite lazyDotsStars_eq.
  - simpl; discriminate.
  - destruct (startsWith (c :: s) [star; star]) eqn:E.
    + intros H; injection H as <-. reflexivity.
    + destruct (isLineTerminator c); [discriminate|].
      destruct (lazyDotsStars s) as [m|] eqn:L; [|discriminate].
      cbn [option_map]. intros H; injection H as <-.
      apply lazyDotsStars_bounds in L as B.
      replace (S m - 2)%nat with (S (m - 2)) by lia.
      cbn [firstn hasBoldPair].
      rewrite (matchBold_cons_none c s E (m - 2)).
      exact (IH m eq_refl).
Qed.

Lemma exec_bold_inner_plain (line : str) (lastIndex index : nat) (m : str) :
  exec line lastIndex = Some (index, m) ->
  startsWith m (lit "http") = false ->
  hasBoldPair (substring m 2 (length m - 2)) = false.
Proof.
  intros E L. apply exec_alternative in E as A. rewrite L in A.
  apply exec_spec in E. destruct E as (_ & _ & H3 & _ & H5).
  unfold matchBold in A.
  destruct (startsWith (skipn index line) [star; star]) eqn:S2; [|discriminate].
  destruct (lazyDotsStars (skipn 2 (skipn index line))) as [k|] eqn:Lz; [|discriminate].
  cbn [option_map] in A. injection A as A.
  apply lazyDotsStars_bounds in Lz as B.
  apply lazyDotsStars_inner_plain in Lz.
  replace (substring m 2 (length m - 2))
    with (firstn (k - 2) (skipn 2 (skipn index line))); [exact Lz|].
  unfold substring. rewrite H5 at 2. rewrite <- A.
  replace (2 + k - 2 - 2)%nat with (k - 2)%nat by lia.
  rewrite skipn_firstn_comm. replace (2 + k - 2)%nat with k by lia.
  rewrite firstn_firstn. f_equal. lia.
Qed.

(** Without a bold pair in the line no token is bold. *)
Lemma tokenizeLoop_no_bold_tokens (line : str) :
  hasBoldPair line = false ->
  forall fuel lastIndex tokens r,
    Forall (fun t => isBold t = false) tokens ->
    tokenizeLoop fuel line lastIndex tokens = Some r ->
    Forall (fun t => isBold t = false) r.
Proof.
  intros NB; induction fuel as [|fuel IH]; intros li acc r Hacc H; [discriminate|].
  rewrite tokenizeLoop_S in H.
  destruct (exec line li) as [[idx m]|] eqn:E.
  - apply exec_alternative in E as A. cbv zeta in H.
    assert (Hacc1 : Forall (fun t => isBold t = false)
                      (if (li <? idx)%nat
                       then acc ++ [plain (substring line li idx)] else acc)).
    { destruct (li <? idx)%nat; [|exact Hacc].
      apply Forall_app. split; [exact Hacc|]. constructor; [reflexivity | constructor]. }
    destruct (startsWith m (lit "http")).
    + eapply IH; [|exact H]. apply Forall_app. split; [exact Hacc1|].
      constructor; [reflexivity | constructor].
    + rewrite (hasBoldPair_skipn line idx NB) in A. discriminate.
  - injection H as <-. destruct (li <? length line)%nat; [|exact Hacc].
    apply Forall_app. split; [exact Hacc|]. constructor; [reflexivity | constructor].
Qed.

End OneLevel.

(** X3: bold does not nest. A line without a bold marker pair gives no
    bold token; and at every bold match the inner text holds no bold
    marker pair, so the tokens of the nested call are not bold before
    [isBold] is forced on them: the recursion of [tokenizeLine] is one
    level deep. *)
Theorem tokenizeLine_bold_one_level (line : str) (lastIndex index : nat) (matchedText : str) :
  exec line lastIndex = Some (index, matchedText) ->
  startsWith matchedText (lit "http") = false ->
  hasBoldPair (substring matchedText 2 (length matchedText - 2)) = false /\
  (exists innerTokens,
     tokenizeLine (substring matchedText 2 (length matchedText - 2)) = Some innerTokens /\
     Forall (fun t => isBold t = false) innerTokens) /\
  (forall plainLine tokens,
     hasBoldPair plainLine = false ->
     tokenizeLine plainLine = Some tokens ->
     Forall (fun t => isBold t = false) tokens).
Proof.
  intros E L.
  pose proof (exec_bold_inner_plain line lastIndex index matchedText E L) as NB.
  split; [exact NB|]. split.
  - destruct (tokenizeLine_total (substring matchedText 2 (length matchedText - 2)))
      as [it Hit].
    exists it. split; [exact Hit|].
    exact (tokenizeLoop_no_bold_tokens _ NB _ _ _ _ (Forall_nil _) Hit).
  - intros pl tokens NBp H.
    exact (tokenizeLoop_no_bold_tokens _ NBp _ _ _ _ (Forall_nil _) H).
Qed.

Lemma tokenizeLine_bold_one_level_witness :
  hasBoldPair (substring (lit "**a **") 2 (length (lit "**a **") - 2)) = false /\
  (exists innerTokens,
     tokenizeLine (substring (lit "**a **") 2 (length (lit "**a **") - 2)) = Some innerTokens /\
     Forall (fun t => isBold t = false) innerTokens) /\
  (forall plainLine tokens,
     hasBoldPair plainLine = false ->
     tokenizeLine plainLine = Some tokens ->
     Forall (fun t => isBold t = false) tokens).
Proof.
  apply (tokenizeLine_bold_one_level (lit "x **a ****b**") 1 2 (lit "**a **"));
    reflexivity.
Defined.

(* ================================================================== *)
(** ** The document only grows *)
(* ================================================================== *)

Create HintDb grows.

Section Grows.

Variable fac : Facility.

Lemma extends_refl (st : Layout) : extends st st.
Proof. split; [exists []; now rewrite app_nil_r | lia]. Qed.

Lemma extends_trans (st1 st2 st3 : Layout) :
  extends st1 st2 -> extends st2 st3 -> extends st1 st3.
Proof.
  intros [[o1 D1] N1] [[o2 D2] N2]. split; [|lia].
  exists (o1 ++ o2). rewrite D2, D1. now rewrite app_assoc.
Qed.

Lemma grows_ret {A : Type} (a : A) : grows (ret a).
Proof. intros st b st' H. injection H as _ <-. apply extends_refl. Qed.

Lemma grows_bind {A B : Type} (m : M A) (k : A -> M B) :
  grows m -> (forall a, grows (k a)) -> grows (bind m k).
Proof.
  intros Hm Hk st b st' H. bind_inv H.
  eapply extends_trans; [eapply Hm | eapply Hk]; eassumption.
Qed.

Lemma grows_if {A : Type} (b : bool) (m1 m2 : M A) :
  grows m1 -> grows m2 -> grows (if b then m1 else m2).
Proof. destruct b; auto. Qed.

Lemma grows_facility (c : Call) : grows (facility fac c).
Proof.
  intros st a st' H. apply facility_Ret_inv in H. subst. apply extends_refl.
Qed.

Lemma grows_modifyDoc (f : Doc -> Doc) :
  (forall d, (exists ops, drawn (f d) = drawn d ++ ops) /\
             (numPages d <= numPages (f d))%nat) ->
  grows (modifyDoc f).
Proof. intros Hf st a st' H. injection H as _ <-. apply Hf. Qed.

Lemma grows_state {A : Type} (m : M A) :
  (forall st a st', m st = Ret (a, st') -> doc st' = doc st) -> grows m.
Proof.
  intros Hm st a st' H. apply Hm in H. unfold extends. rewrite H.
  split; [exists []; now rewrite app_nil_r | lia].
Qed.

Lemma grows_getDoc : grows getDoc.
Proof. apply grows_state. intros st a st' H. now injection H as _ <-. Qed.
Lemma grows_getY : grows getY.
Proof. apply grows_state. intros st a st' H. now injection H as _ <-. Qed.
Lemma grows_setY (v : Q) : grows (setY v).
Proof. apply grows_state. intros st a st' H. now injection H as _ <-. Qed.
Lemma grows_getInTable : grows getInTable.
Proof. apply grows_state. intros st a st' H. now injection H as _ <-. Qed.
Lemma grows_setInTable (b : bool) : grows (setInTable b).
Proof. apply grows_state. intros st a st' H. now injection H as _ <-. Qed.
Lemma grows_getTableLines : grows getTableLines.
Proof. apply grows_state. intros st a st' H. now injection H as _ <-. Qed.
Lemma grows_setTableLines (l : list str) : grows (setTableLines l).
Proof. apply grows_state. intros st a st' H. now injection H as _ <-. Qed.
Lemma grows_throw {A : Type} (e : Exn) : grows (@throw A e).
Proof. intros st a st' H. discriminate. Qed.
Lemma grows_diverge {A : Type} : grows (@diverge A).
Proof. intros st a st' H. discriminate. Qed.

Hint Resolve grows_ret grows_facility grows_getDoc grows_getY grows_setY
  grows_getInTable grows_setInTable grows_getTableLines grows_setTableLines
  grows_throw grows_diverge : grows.

Ltac grows_doc :=
  apply grows_modifyDoc; intros ?; split;
  [ first [ exists []; cbn; now rewrite app_nil_r | eexists; reflexivity ]
  | cbn; lia ].

Ltac grows_step :=
  first [ solve [auto with grows]
        | apply grows_bind; [|intros ?]
        | apply grows_if
        | grows_doc ].

Lemma grows_getFontSize : grows (getFontSize fac).
Proof. unfold getFontSize. repeat grows_step. Qed.
Lemma grows_setFontSize (n : Q) : grows (setFontSize fac n).
Proof. unfold setFontSize. repeat grows_step. Qed.
Lemma grows_setFont (f : FontStyle) : grows (setFont fac f).
Proof. unfold setFont. repeat grows_step. Qed.
Lemma grows_setTextColor (r g b : Z) : grows (setTextColor fac r g b).
Proof. unfold setTextColor. repeat grows_step. Qed.
Lemma grows_getTextWidth (s : str) : grows (getTextWidth fac s).
Proof. unfold getTextWidth. repeat grows_step. Qed.
Lemma grows_text (s : str) (x y0 : Q) (opt : TextOpt) : grows (text fac s x y0 opt).
Proof. unfold text. repeat grows_step. Qed.
Lemma grows_textWithLink (s : str) (x y0 : Q) (u : str) :
  grows (textWithLink fac s x y0 u).
Proof. unfold textWithLink. repeat grows_step. Qed.
Lemma grows_addPage : grows (addPage fac).
Proof. unfold addPage. repeat grows_step. Qed.
Lemma grows_setPage (i : nat) : grows (setPage fac i).
Proof. unfold setPage. repeat grows_step. Qed.
Lemma grows_getNumberOfPages : grows (getNumberOfPages fac).
Proof. unfold getNumberOfPages. repeat grows_step. Qed.

Hint Resolve grows_getFontSize grows_setFontSize grows_setFont grows_setTextColor
  grows_getTextWidth grows_text grows_textWithLink grows_addPage grows_setPage
  grows_getNumberOfPages : grows.

Lemma grows_checkPageBreak (spaceNeeded : Q) : grows (checkPageBreak fac spaceNeeded).
Proof. unfold checkPageBreak. repeat grows_step. Qed.

Hint Resolve grows_checkPageBreak : grows.

Lemma grows_forEach {A : Type} (l : list A) (f : A -> M unit) :
  (forall a, grows (f a)) -> grows (forEach l f).
Proof.
  intros Hf. induction l as [|a l IH]; cbn [forEach]; [auto with grows|].
  apply grows_bind; [apply Hf | intros _; exact IH].
Qed.

Lemma grows_shrink (fuel : nat) :
  forall remainingText budget i, grows (shrink fac fuel remainingText budget i).
Proof.
  induction fuel as [|fuel IH]; intros remainingText budget i; cbn [shrink].
  - auto with grows.
  - repeat grows_step; apply IH.
Qed.

Hint Resolve grows_shrink : grows.

Lemma grows_printToken (fuel : nat) :
  forall token x maxWidth remainingText currentX currentY,
    grows (printToken fac fuel token x maxWidth remainingText currentX currentY).
Proof.
  induction fuel as [|fuel IH]; intros token x maxWidth [|c rest] currentX currentY;
    try solve [cbn [printToken]; auto with grows].
  rewrite printToken_S. cbv zeta.
  apply grows_bind; [auto with grows | intros i].
  apply grows_bind; [repeat grows_step | intros [[i1 cx1] cy1]].
  apply grows_bind; [repeat grows_step | intros _].
  apply grows_bind; [auto with grows | intros w]. apply IH.
Qed.

Hint Resolve grows_printToken : grows.

Lemma grows_renderTokens (fuel : nat) (tokens : list Token) :
  forall x maxWidth currentX currentY,
    grows (renderTokens fac fuel tokens x maxWidth currentX currentY).
Proof.
  induction tokens as [|t ts IH]; intros x maxWidth currentX currentY; cbn [renderTokens].
  - auto with grows.
  - repeat grows_step; apply IH.
Qed.

Hint Resolve grows_renderTokens : grows.

Lemma grows_renderFormattedLine (fuel : nat) (line : str) (x currentY maxWidth : Q) :
  grows (renderFormattedLine fac fuel line x currentY maxWidth).
Proof.
  unfold renderFormattedLine. repeat grows_step.
  destruct (tokenizeLine line) as [tokens|]; repeat grows_step.
Qed.

Hint Resolve grows_renderFormattedLine : grows.

Lemma grows_didDrawCell (fuel : nat) (c : Cell) : grows (didDrawCell fac fuel c).
Proof. unfold didDrawCell. repeat grows_step. Qed.

Hint Resolve grows_didDrawCell : grows.

Lemma grows_drawCells (fuel : nat) (steps : list TableStep) :
  grows (drawCells fac fuel steps).
Proof.
  induction steps as [|[|c] cs IH]; cbn [drawCells]; [auto with grows| |].
  - apply grows_bind; [|intros _; exact IH]. repeat grows_step.
  - apply grows_bind; [|intros _; exact IH].
    destruct (willDrawCell c) as [[|]|]; repeat grows_step.
Qed.

Hint Resolve grows_drawCells : grows.

Lemma grows_autoTable (fuel : nat) (head body : list (list str)) (startY : Q) :
  grows (autoTable fac fuel head body startY).
Proof. unfold autoTable. repeat grows_step. Qed.

Hint Resolve grows_autoTable : grows.

Lemma grows_renderTable (fuel : nat) : grows (renderTable fac fuel).
Proof.
  unfold renderTable. apply grows_bind; [auto with grows | intros lines].
  destruct (parseTable lines) as [[head body]|]; repeat grows_step.
Qed.

Hint Resolve grows_renderTable : grows.

Lemma grows_renderBullet (fuel : nat) (line : str) : grows (renderBullet fac fuel line).
Proof.
  unfold renderBullet. repeat grows_step.
  apply grows_forEach. intros bl. repeat grows_step.
Qed.

Hint Resolve grows_renderBullet : grows.

Lemma grows_processLine (fuel : nat) (line : str) : grows (processLine fac fuel line).
Proof.
  unfold processLine. destruct (classifyTrimmed (trim line)); repeat grows_step.
Qed.

Lemma grows_addPageNumbers : grows (addPageNumbers fac).
Proof.
  unfold addPageNumbers. repeat grows_step.
  apply grows_forEach. intros i. repeat grows_step.
Qed.

End Grows.

(** X4: the layout never erases: whatever lines are processed, what was
    drawn before is still there, in the same order, followed by what was
    added, and the number of pages has not gone down. *)
Theorem layout_only_adds (fac : Facility) (fuel : nat) (lines : list str)
    (st st' : Layout) :
  forEach lines (processLine fac fuel) st = Ret (tt, st') ->
  (exists ops, drawn (doc st') = drawn (doc st) ++ ops) /\
  (numPages (doc st) <= numPages (doc st'))%nat.
Proof.
  intros H.
  exact (grows_forEach lines _ (grows_processLine fac fuel) st tt st' H).
Qed.

Lemma layout_only_adds_witness :
  exists st',
    forEach [lit "## T"; lit "text"; lit "- b"] (processLine sampleFacility 5) afterHeading
      = Ret (tt, st') /\
    (exists ops, drawn (doc st') = drawn (doc afterHeading) ++ ops) /\
    (numPages (doc afterHeading) <= numPages (doc st'))%nat.
Proof.
  eexists. split; [vm_compute; reflexivity|].
  apply (layout_only_adds sampleFacility 5 [lit "## T"; lit "text"; lit "- b"] afterHeading).
  vm_compute. reflexivity.
Defined.

(* ================================================================== *)
(** ** The table buffer *)
(* ================================================================== *)

Create HintDb framed.
Create HintDb tables.

Section Framed.

Variable fac : Facility.

Lemma framed_ret {A : Type} (a : A) : framed (ret a).
Proof. intros st. cbn. split; reflexivity. Qed.

Lemma framed_bind {A B : Type} (m : M A) (k : A -> M B) :
  framed m -> (forall a, framed (k a)) -> framed (bind m k).
Proof.
  intros Hm Hk st. specialize (Hm st). unfold bind.
  destruct (m st) as [[a st1]|e|]; cbn in *; try assumption.
  destruct Hm as [T1 I1]. specialize (Hk a st1).
  destruct (k a st1) as [[b st2]|e|]; cbn in *; try assumption.
  destruct Hk as [T2 I2]. split; congruence.
Qed.

Lemma framed_if {A : Type} (b : bool) (m1 m2 : M A) :
  framed m1 -> framed m2 -> framed (if b then m1 else m2).
Proof. destruct b; auto. Qed.

Lemma framed_facility (c : Call) : framed (facility fac c).
Proof.
  intros st. unfold facility. destruct (throws fac c); cbn.
  - discriminate.
  - split; reflexivity.
Qed.

Lemma framed_modifyDoc (f : Doc -> Doc) : framed (modifyDoc f).
Proof. intros st. cbn. split; reflexivity. Qed.
Lemma framed_getDoc : framed getDoc.
Proof. intros st. cbn. split; reflexivity. Qed.
Lemma framed_getY : framed getY.
Proof. intros st. cbn. split; reflexivity. Qed.
Lemma framed_setY (v : Q) : framed (setY v).
Proof. intros st. cbn. split; reflexivity. Qed.
Lemma framed_getInTable : framed getInTable.
Proof. intros st. cbn. split; reflexivity. Qed.
Lemma framed_getTableLines : framed getTableLines.
Proof. intros st. cbn. split; reflexivity. Qed.
Lemma framed_diverge {A : Type} : framed (@diverge A).
Proof. intros st. exact I. Qed.

Hint Resolve framed_ret framed_facility framed_modifyDoc framed_getDoc framed_getY
  framed_setY framed_getInTable framed_getTableLines framed_diverge : framed.

Ltac framed_step :=
  first [ solve [auto with framed]
        | apply framed_bind; [|intros ?]
        | apply framed_if ].

Lemma framed_getFontSize : framed (getFontSize fac).
Proof. unfold getFontSize. repeat framed_step. Qed.
Lemma framed_setFontSize (n : Q) : framed (setFontSize fac n).
Proof. unfold setFontSize. repeat framed_step. Qed.
Lemma framed_setFont (f : FontStyle) : framed (setFont fac f).
Proof. unfold setFont. repeat framed_step. Qed.
Lemma framed_setTextColor (r g b : Z) : framed (setTextColor fac r g b).
Proof. unfold setTextColor. repeat framed_step. Qed.
Lemma framed_getTextWidth (s : str) : framed (getTextWidth fac s).
Proof. unfold getTextWidth. repeat framed_step. Qed.
Lemma framed_text (s : str) (x y0 : Q) (opt : TextOpt) : framed (text fac s x y0 opt).
Proof. unfold text. repeat framed_step. Qed.
Lemma framed_textWithLink (s : str) (x y0 : Q) (u : str) :
  framed (textWithLink fac s x y0 u).
Proof. unfold textWithLink. repeat framed_step. Qed.
Lemma framed_addPage : framed (addPage fac).
Proof. unfold addPage. repeat framed_step. Qed.
Lemma framed_setPage (i : nat) : framed (setPage fac i).
Proof. unfold setPage. repeat framed_step. Qed.
Lemma framed_getNumberOfPages : framed (getNumberOfPages fac).
Proof. unfold getNumberOfPages. repeat framed_step. Qed.

Hint Resolve framed_getFontSize framed_setFontSize framed_setFont framed_setTextColor
  framed_getTextWidth framed_text framed_textWithLink framed_addPage framed_setPage
  framed_getNumberOfPages : framed.

Lemma framed_checkPageBreak (spaceNeeded : Q) : framed (checkPageBreak fac spaceNeeded).
Proof. unfold checkPageBreak. repeat framed_step. Qed.

Hint Resolve framed_checkPageBreak : framed.

Lemma framed_forEach {A : Type} (l : list A) (f : A -> M unit) :
  (forall a, framed (f a)) -> framed (forEach l f).
Proof.
  intros Hf. induction l as [|a l IH]; cbn [forEach]; [auto with framed|].
  apply framed_bind; [apply Hf | intros _; exact IH].
Qed.

Lemma framed_shrink (fuel : nat) :
  forall remainingText budget i, framed (shrink fac fuel remainingText budget i).
Proof.
  induction fuel as [|fuel IH]; intros remainingText budget i; cbn [shrink].
  - auto with framed.
  - repeat framed_step; apply IH.
Qed.

Hint Resolve framed_shrink : framed.

Lemma framed_printToken (fuel : nat) :
  forall token x maxWidth remainingText currentX currentY,
    framed (printToken fac fuel token x maxWidth remainingText currentX currentY).
Proof.
  induction fuel as [|fuel IH]; intros token x maxWidth [|c rest] currentX currentY;
    try solve [cbn [printToken]; auto with framed].
  rewrite printToken_S. cbv zeta.
  apply framed_bind; [auto with framed | intros i].
  apply framed_bind; [repeat framed_step | intros [[i1 cx1] cy1]].
  apply framed_bind; [repeat framed_step | intros _].
  apply framed_bind; [auto with framed | intros w]. apply IH.
Qed.

Hint Resolve framed_printToken : framed.

Lemma framed_renderTokens (fuel : nat) (tokens : list Token) :
  forall x maxWidth currentX currentY,
    framed (renderTokens fac fuel tokens x maxWidth currentX currentY).
Proof.
  induction tokens as [|t ts IH]; intros x maxWidth currentX currentY; cbn [renderTokens].
  - auto with framed.
  - repeat framed_step; apply IH.
Qed.

Hint Resolve framed_renderTokens : framed.

(** [renderFormattedLine] does not touch the table buffer and raises only
    what the facility raises. *)
Lemma framed_renderFormattedLine (fuel : nat) (line : str) (x currentY maxWidth : Q) :
  framed (renderFormattedLine fac fuel line x currentY maxWidth).
Proof.
  unfold renderFormattedLine. repeat framed_step.
  destruct (tokenizeLine line) as [tokens|]; repeat framed_step.
Qed.

Hint Resolve framed_renderFormattedLine : framed.

Lemma framed_didDrawCell (fuel : nat) (c : Cell) : framed (didDrawCell fac fuel c).
Proof. unfold didDrawCell. repeat framed_step. Qed.

Hint Resolve framed_didDrawCell : framed.

Lemma framed_drawCells (fuel : nat) (steps : list TableStep) :
  framed (drawCells fac fuel steps).
Proof.
  induction steps as [|[|c] cs IH]; cbn [drawCells]; [auto with framed| |].
  - apply framed_bind; [|intros _; exact IH]. repeat framed_step.
  - apply framed_bind; [|intros _; exact IH].
    destruct (willDrawCell c) as [[|]|]; repeat framed_step.
Qed.

Hint Resolve framed_drawCells : framed.

Lemma framed_autoTable (fuel : nat) (head body : list (list str)) (startY : Q) :
  framed (autoTable fac fuel head body startY).
Proof. unfold autoTable. repeat framed_step. Qed.

Hint Resolve framed_autoTable : framed.

Lemma framed_renderBullet (fuel : nat) (line : str) : framed (renderBullet fac fuel line).
Proof.
  unfold renderBullet. repeat framed_step.
  apply framed_forEach. intros bl. repeat framed_step.
Qed.

Lemma framed_addPageNumbers : framed (addPageNumbers fac).
Proof.
  unfold addPageNumbers. repeat framed_step.
  apply framed_forEach. intros i. repeat framed_step.
Qed.

Hint Resolve framed_renderBullet framed_addPageNumbers : framed.

(** After a framed computation the rest decides. *)
Lemma outcomeOK_bind {A B : Type} (m : M A) (k : A -> M B) (Q : Layout -> Prop)
    (st : Layout) :
  framed m ->
  (forall a st1, tableLines st1 = tableLines st -> inTable st1 = inTable st ->
                 outcomeOK Q (k a st1)) ->
  outcomeOK Q (bind m k st).
Proof.
  intros Hm Hk. specialize (Hm st). unfold bind.
  destruct (m st) as [[a st1]|e|]; cbn in *; try assumption.
  destruct Hm as [T1 I1]. apply Hk; assumption.
Qed.

(** With rows waiting, [renderTable] raises no TypeError and leaves the
    buffer empty and the flag down. *)
Lemma renderTable_flushes (fuel : nat) (st : Layout) :
  tableLines st <> [] ->
  outcomeOK (fun st' => inTable st' = false /\ tableLines st' = [])
            (renderTable fac fuel st).
Proof.
  intros NE. unfold renderTable.
  rewrite (bind_Ret getTableLines _ st st _ eq_refl).
  destruct (tableLines st) as [|l ls] eqn:T; [congruence|].
  cbn [parseTable].
  apply outcomeOK_bind; [auto with framed | intros _ st1 _ _].
  apply outcomeOK_bind; [auto with framed | intros startY st2 _ _].
  apply outcomeOK_bind; [auto with framed | intros _ st3 _ _].
  apply outcomeOK_bind; [auto with framed | intros d st4 _ _].
  apply outcomeOK_bind; [auto with framed | intros _ st5 _ _].
  cbn. split; reflexivity.
Qed.

(** One line of the document keeps the buffer and its flag in agreement
    and raises no TypeError. *)
Lemma processLine_bufferInv (fuel : nat) (line : str) (st : Layout) :
  bufferInv st ->
  outcomeOK bufferInv (processLine fac fuel line st).
Proof.
  intros Inv.
  assert (Flush : outcomeOK (fun st' => inTable st' = false /\ tableLines st' = [])
                    ((t <- getInTable ;;
                      if t then renderTable fac fuel else ret tt)%layout st)).
  { rewrite (bind_Ret getInTable _ st st _ eq_refl).
    destruct (inTable st) eqn:T.
    - apply renderTable_flushes. apply Inv. exact T.
    - cbn. split; [exact T|].
      destruct (tableLines st) as [|l ls] eqn:L; [reflexivity|].
      assert (F : inTable st = true) by (apply Inv; rewrite L; discriminate).
      congruence. }
  assert (Empty : forall st1 : Layout,
            inTable st1 = false -> tableLines st1 = [] -> bufferInv st1).
  { intros st1 H1 H2. unfold bufferInv. rewrite H1, H2.
    split; [discriminate | congruence]. }
  assert (Rest : forall (k : M unit), framed k ->
            outcomeOK bufferInv
              ((t <- getInTable ;;
                (if t then renderTable fac fuel else ret tt) ;; k)%layout st)).
  { intros k Hk.
    rewrite (bind_Ret getInTable _ st st _ eq_refl).
    rewrite (bind_Ret getInTable _ st st _ eq_refl) in Flush.
    unfold bind at 1.
    destruct ((if inTable st then renderTable fac fuel else ret tt) st)
      as [[u st1]|e|]; cbn in Flush |- *; try assumption.
    destruct Flush as [F1 F2]. specialize (Hk st1).
    destruct (k st1) as [[u2 st2]|e|]; cbn in Hk |- *; try assumption.
    destruct Hk as [K1 K2]. apply Empty; congruence. }
  unfold processLine.
  destruct (classifyTrimmed (trim line)).
  - apply Rest. repeat framed_step.
  - cbn. unfold bufferInv. cbn. split; [intros _|reflexivity].
    destruct (tableLines st); discriminate.
  - apply Rest. repeat framed_step.
  - apply Rest. repeat framed_step.
  - apply Rest. repeat framed_step.
  - apply Rest. repeat framed_step.
Qed.

Lemma forEach_bufferInv (fuel : nat) (lines : list str) :
  forall st, bufferInv st ->
    outcomeOK bufferInv (forEach lines (processLine fac fuel) st).
Proof.
  induction lines as [|l ls IH]; intros st Inv; [exact Inv|].
  cbn [forEach]. unfold bind.
  pose proof (processLine_bufferInv fuel l st Inv) as P.
  destruct (processLine fac fuel l st) as [[u st1]|e|]; cbn in P |- *; try assumption.
  apply IH. exact P.
Qed.

(** The whole generation: no TypeError, and on return the buffer is
    empty and the flag is down. *)
Lemma generate_outcome (fuel : nat) (reportText ticker : str) :
  outcomeOK (fun st => inTable st = false /\ tableLines st = [])
            (generate fac fuel reportText ticker initial).
Proof.
  unfold generate.
  apply outcomeOK_bind; [auto with framed | intros _ st1 T1 I1].
  apply outcomeOK_bind; [auto with framed | intros _ st2 T2 I2].
  apply outcomeOK_bind; [auto with framed | intros _ st3 T3 I3].
  apply outcomeOK_bind; [auto with framed | intros y0 st4 T4 I4].
  apply outcomeOK_bind; [auto with framed | intros _ st5 T5 I5].
  apply outcomeOK_bind; [auto with framed | intros _ st6 T6 I6].
  assert (Inv6 : bufferInv st6).
  { unfold bufferInv.
    replace (inTable st6) with false by (cbn in *; congruence).
    replace (tableLines st6) with (@nil str) by (cbn in *; congruence).
    split; [discriminate | congruence]. }
  unfold bind at 1.
  pose proof (forEach_bufferInv fuel (split 10%N reportText) st6 Inv6) as P.
  destruct (forEach (split 10%N reportText) (processLine fac fuel) st6)
    as [[u st7]|e|]; [|exact P|exact I].
  cbv beta iota. change (bufferInv st7) in P.
  rewrite (bind_Ret getInTable _ st7 st7 _ eq_refl).
  assert (Flush : outcomeOK (fun st' => inTable st' = false /\ tableLines st' = [])
                    ((if inTable st7 then renderTable fac fuel else ret tt) st7)).
  { destruct (inTable st7) eqn:T.
    - apply renderTable_flushes. apply P. exact T.
    - cbn. split; [exact T|].
      destruct (tableLines st7) as [|l ls] eqn:L; [reflexivity|].
      assert (F : inTable st7 = true) by (apply P; rewrite L; discriminate).
      congruence. }
  unfold bind at 1.
  destruct ((if inTable st7 then renderTable fac fuel else ret tt) st7)
    as [[u2 st8]|e|]; [|exact Flush|exact I].
  cbv beta iota. change (inTable st8 = false /\ tableLines st8 = []) in Flush.
  pose proof (framed_addPageNumbers st8) as F.
  destruct (addPageNumbers fac st8) as [[u3 st9]|e|]; [|exact F|exact I].
  cbn in F |- *. destruct Flush, F. split; congruence.
Qed.

(** *** The tables that are drawn *)

Lemma noTable_ret {A : Type} (a : A) : drawsNoTable (ret a).
Proof. intros st b st' H. injection H as _ <-. reflexivity. Qed.

Lemma noTable_bind {A B : Type} (m : M A) (k : A -> M B) :
  drawsNoTable m -> (forall a, drawsNoTable (k a)) -> drawsNoTable (bind m k).
Proof.
  intros Hm Hk st b st' H.
  apply bind_Ret_inv in H. destruct H as (a & s1 & H1 & H).
  rewrite (Hk _ _ _ _ H). exact (Hm _ _ _ H1).
Qed.

Lemma noTable_if {A : Type} (b : bool) (m1 m2 : M A) :
  drawsNoTable m1 -> drawsNoTable m2 -> drawsNoTable (if b then m1 else m2).
Proof. destruct b; auto. Qed.

Lemma noTable_state {A : Type} (m : M A) :
  (forall st a st', m st = Ret (a, st') -> drawn (doc st') = drawn (doc st)) ->
  drawsNoTable m.
Proof. intros Hm st a st' H. unfold tablesOf. now rewrite (Hm _ _ _ H). Qed.

Lemma noTable_facility (c : Call) : drawsNoTable (facility fac c).
Proof.
  apply noTable_state. intros st a st' H. apply facility_Ret_inv in H. now subst.
Qed.

Lemma noTable_modifyDoc (f : Doc -> Doc) :
  (forall d, tablesOf (f d) = tablesOf d) -> drawsNoTable (modifyDoc f).
Proof. intros Hf st a st' H. injection H as _ <-. apply Hf. Qed.

Lemma tablesOf_withOp (o : Op) (d : Doc) :
  tablesOf (withOp o d) =
  tablesOf d ++ match o with Grid head body _ => [(head, body)] | _ => [] end.
Proof.
  unfold tablesOf, withOp. cbn [drawn]. rewrite flat_map_app. cbn [flat_map snd].
  now rewrite app_nil_r.
Qed.

Lemma noTable_getDoc : drawsNoTable getDoc.
Proof. intros st a st' H. now injection H as _ <-. Qed.
Lemma noTable_getY : drawsNoTable getY.
Proof. intros st a st' H. now injection H as _ <-. Qed.
Lemma noTable_setY (v : Q) : drawsNoTable (setY v).
Proof. intros st a st' H. now injection H as _ <-. Qed.
Lemma noTable_diverge {A : Type} : drawsNoTable (@diverge A).
Proof. intros st a st' H. discriminate. Qed.

Hint Resolve noTable_ret noTable_facility noTable_getDoc noTable_getY noTable_setY
  noTable_diverge : tables.

Ltac noTable_step :=
  first [ solve [auto with tables]
        | apply noTable_bind; [|intros ?]
        | apply noTable_if
        | apply noTable_modifyDoc; intros ?;
          first [reflexivity | rewrite tablesOf_withOp; apply app_nil_r] ].

Lemma noTable_getFontSize : drawsNoTable (getFontSize fac).
Proof. unfold getFontSize. repeat noTable_step. Qed.
Lemma noTable_setFontSize (n : Q) : drawsNoTable (setFontSize fac n).
Proof. unfold setFontSize. repeat noTable_step. Qed.
Lemma noTable_setFont (f : FontStyle) : drawsNoTable (setFont fac f).
Proof. unfold setFont. repeat noTable_step. Qed.
Lemma noTable_setTextColor (r g b : Z) : drawsNoTable (setTextColor fac r g b).
Proof. unfold setTextColor. repeat noTable_step. Qed.
Lemma noTable_getTextWidth (s : str) : drawsNoTable (getTextWidth fac s).
Proof. unfold getTextWidth. repeat noTable_step. Qed.
Lemma noTable_text (s : str) (x y0 : Q) (opt : TextOpt) : drawsNoTable (text fac s x y0 opt).
Proof. unfold text. repeat noTable_step. Qed.
Lemma noTable_textWithLink (s : str) (x y0 : Q) (u : str) :
  drawsNoTable (textWithLink fac s x y0 u).
Proof. unfold textWithLink. repeat noTable_step. Qed.
Lemma noTable_addPage : drawsNoTable (addPage fac).
Proof. unfold addPage. repeat noTable_step. Qed.
Lemma noTable_setPage (i : nat) : drawsNoTable (setPage fac i).
Proof. unfold setPage. repeat noTable_step. Qed.
Lemma noTable_getNumberOfPages : drawsNoTable (getNumberOfPages fac).
Proof. unfold getNumberOfPages. repeat noTable_step. Qed.

Hint Resolve noTable_getFontSize noTable_setFontSize noTable_setFont noTable_setTextColor
  noTable_getTextWidth noTable_text noTable_textWithLink noTable_addPage noTable_setPage
  noTable_getNumberOfPages : tables.

Lemma noTable_checkPageBreak (spaceNeeded : Q) : drawsNoTable (checkPageBreak fac spaceNeeded).
Proof. unfold checkPageBreak. repeat noTable_step. Qed.

Hint Resolve noTable_checkPageBreak : tables.

Lemma noTable_forEach {A : Type} (l : list A) (f : A -> M unit) :
  (forall a, drawsNoTable (f a)) -> drawsNoTable (forEach l f).
Proof.
  intros Hf. induction l as [|a l IH]; cbn [forEach]; [auto with tables|].
  apply noTable_bind; [apply Hf | intros _; exact IH].
Qed.

Lemma noTable_shrink (fuel : nat) :
  forall remainingText budget i, drawsNoTable (shrink fac fuel remainingText budget i).
Proof.
  induction fuel as [|fuel IH]; intros remainingText budget i; cbn [shrink].
  - auto with tables.
  - repeat noTable_step; apply IH.
Qed.

Hint Resolve noTable_shrink : tables.

Lemma noTable_printToken (fuel : nat) :
  forall token x maxWidth remainingText currentX currentY,
    drawsNoTable (printToken fac fuel token x maxWidth remainingText currentX currentY).
Proof.
  induction fuel as [|fuel IH]; intros token x maxWidth [|c rest] currentX currentY;
    try solve [cbn [printToken]; auto with tables].
  rewrite printToken_S. cbv zeta.
  apply noTable_bind; [auto with tables | intros i].
  apply noTable_bind; [repeat noTable_step | intros [[i1 cx1] cy1]].
  apply noTable_bind; [repeat noTable_step | intros _].
  apply noTable_bind; [auto with tables | intros w]. apply IH.
Qed.

Hint Resolve noTable_printToken : tables.

Lemma noTable_renderTokens (fuel : nat) (tokens : list Token) :
  forall x maxWidth currentX currentY,
    drawsNoTable (renderTokens fac fuel tokens x maxWidth currentX currentY).
Proof.
  induction tokens as [|t ts IH]; intros x maxWidth currentX currentY; cbn [renderTokens].
  - auto with tables.
  - repeat noTable_step; apply IH.
Qed.

Hint Resolve noTable_renderTokens : tables.

Lemma noTable_renderFormattedLine (fuel : nat) (line : str) (x currentY maxWidth : Q) :
  drawsNoTable (renderFormattedLine fac fuel line x currentY maxWidth).
Proof.
  unfold renderFormattedLine. repeat noTable_step.
  destruct (tokenizeLine line) as [tokens|]; repeat noTable_step.
Qed.

Hint Resolve noTable_renderFormattedLine : tables.

Lemma noTable_didDrawCell (fuel : nat) (c : Cell) : drawsNoTable (didDrawCell fac fuel c).
Proof. unfold didDrawCell. repeat noTable_step. Qed.

Hint Resolve noTable_didDrawCell : tables.

(** The cells of a table are no tables of their own. *)
Lemma noTable_drawCells (fuel : nat) (steps : list TableStep) :
  drawsNoTable (drawCells fac fuel steps).
Proof.
  induction steps as [|[|c] cs IH]; cbn [drawCells]; [auto with tables| |].
  - apply noTable_bind; [|intros _; exact IH]. repeat noTable_step.
  - apply noTable_bind; [|intros _; exact IH].
    destruct (willDrawCell c) as [[|]|]; repeat noTable_step.
Qed.

Lemma noTable_renderBullet (fuel : nat) (line : str) : drawsNoTable (renderBullet fac fuel line).
Proof.
  unfold renderBullet. repeat noTable_step.
  apply noTable_forEach. intros bl. repeat noTable_step.
Qed.

Lemma noTable_addPageNumbers : drawsNoTable (addPageNumbers fac).
Proof.
  unfold addPageNumbers. repeat noTable_step.
  apply noTable_forEach. intros i. repeat noTable_step.
Qed.

Hint Resolve noTable_renderBullet noTable_addPageNumbers : tables.

(** A call of the table facility that returns has drawn one table, the
    one it was given. *)
Lemma autoTable_one_table (fuel : nat) (head body : list (list str)) (startY : Q)
    (st : Layout) (a : unit) (st' : Layout) :
  autoTable fac fuel head body startY st = Ret (a, st') ->
  tablesOf (doc st') = tablesOf (doc st) ++ [(head, body)].
Proof.
  unfold autoTable. intros H.
  apply bind_Ret_inv in H. destruct H as (u & s1 & H1 & H).
  apply facility_Ret_inv in H1. subst s1.
  apply bind_Ret_inv in H. destruct H as (u1 & s1 & H1 & H).
  injection H1 as _ <-.
  apply bind_Ret_inv in H. destruct H as (u2 & s2 & H2 & H).
  apply noTable_drawCells in H2. injection H as _ <-.
  cbn [doc] in *. unfold tablesOf in *. cbn [drawn withFinalY] in *.
  rewrite H2. cbn [withOp drawn]. rewrite flat_map_app. cbn [flat_map snd].
  now rewrite app_nil_r.
Qed.

(** [renderTable], when it returns, has parsed the rows in the buffer and
    drawn them as one table. *)
Lemma renderTable_draws_buffer (fuel : nat) (st : Layout) (a : unit) (st' : Layout) :
  renderTable fac fuel st = Ret (a, st') ->
  map Some (tablesOf (doc st')) =
    map Some (tablesOf (doc st)) ++ [parseTable (tableLines st)] /\
  tableLines st <> [] /\ inTable st' = false /\ tableLines st' = [].
Proof.
  unfold renderTable. intros H.
  apply bind_Ret_inv in H. destruct H as (lines & s1 & H1 & H).
  injection H1 as <- <-.
  destruct (parseTable (tableLines st)) as [[head body]|] eqn:P; [|discriminate].
  apply bind_Ret_inv in H. destruct H as (u & s1 & H1 & H).
  apply noTable_checkPageBreak in H1.
  apply bind_Ret_inv in H. destruct H as (startY & s2 & H2 & H).
  injection H2 as _ <-.
  apply bind_Ret_inv in H. destruct H as (u2 & s2 & H2 & H).
  apply autoTable_one_table in H2.
  apply bind_Ret_inv in H. destruct H as (d & s3 & H3 & H).
  injection H3 as _ <-.
  apply bind_Ret_inv in H. destruct H as (u3 & s3 & H3 & H).
  injection H3 as _ <-.
  apply bind_Ret_inv in H. destruct H as (u4 & s4 & H4 & H).
  injection H4 as _ <-. injection H as _ <-.
  cbn [doc inTable tableLines].
  split; [|split; [|split; reflexivity]].
  - rewrite H2, H1, map_app. reflexivity.
  - intros E. rewrite E in P. discriminate.
Qed.

(** The flush before a line that is no table row. *)
Lemma flush_draws_buffer (fuel : nat) (st : Layout) (a : unit) (st' : Layout) :
  bufferInv st ->
  (if inTable st then renderTable fac fuel else ret tt) st = Ret (a, st') ->
  map Some (tablesOf (doc st')) =
    map Some (tablesOf (doc st)) ++ map parseTable (closeRun (tableLines st)) /\
  inTable st' = false /\ tableLines st' = [].
Proof.
  intros Inv H. destruct (inTable st) eqn:T.
  - apply renderTable_draws_buffer in H. destruct H as (D & NE & I & L).
    split; [|split; assumption].
    rewrite D. destruct (tableLines st); [congruence|reflexivity].
  - injection H as _ <-.
    assert (L : tableLines st = []).
    { destruct (tableLines st) as [|l ls] eqn:L; [reflexivity|].
      assert (F : inTable st = true) by (apply Inv; rewrite L; discriminate).
      congruence. }
    rewrite L. cbn [closeRun map]. rewrite app_nil_r. repeat split; assumption.
Qed.

(** What follows the flush in the body of the loop draws no table and
    leaves the buffer alone. *)
Lemma rest_draws_nothing (k : M unit) (fuel : nat) (st : Layout) (st' : Layout) :
  bufferInv st -> drawsNoTable k -> framed k ->
  bind getInTable (fun t =>
    bind (if t then renderTable fac fuel else ret tt) (fun _ => k)) st = Ret (tt, st') ->
  map Some (tablesOf (doc st')) =
    map Some (tablesOf (doc st)) ++ map parseTable (closeRun (tableLines st)) /\
  inTable st' = false /\ tableLines st' = [].
Proof.
  intros Inv N F H.
  rewrite (bind_Ret getInTable _ st st _ eq_refl) in H.
  apply bind_Ret_inv in H. destruct H as (u & s1 & H1 & H).
  apply (flush_draws_buffer fuel st u s1 Inv) in H1. destruct H1 as (D & I & L).
  pose proof (F s1) as Fk. rewrite H in Fk. cbn in Fk. destruct Fk as [Fk1 Fk2].
  rewrite (N _ _ _ H). split; [exact D|]. split; congruence.
Qed.

Lemma empty_bufferInv (st : Layout) :
  inTable st = false -> tableLines st = [] -> bufferInv st.
Proof.
  intros H1 H2. unfold bufferInv. rewrite H1, H2. split; [discriminate | congruence].
Qed.

(** One line of the document: a table row joins the run in the buffer;
    any other line has the run drawn as a table first. *)
Lemma processLine_tables (fuel : nat) (line : str) (st st' : Layout) :
  bufferInv st ->
  processLine fac fuel line st = Ret (tt, st') ->
  bufferInv st' /\
  match classify line with
  | TableRow =>
      tablesOf (doc st') = tablesOf (doc st) /\
      tableLines st' = tableLines st ++ [trim line]
  | _ =>
      map Some (tablesOf (doc st')) =
        map Some (tablesOf (doc st)) ++ map parseTable (closeRun (tableLines st)) /\
      tableLines st' = []
  end.
Proof.
  intros Inv H. unfold classify. unfold processLine in H.
  destruct (classifyTrimmed (trim line)).
  - apply rest_draws_nothing in H; [|exact Inv|repeat noTable_step|repeat framed_step].
    destruct H as (D & I & L). split; [now apply empty_bufferInv|]. split; assumption.
  - cbn in H. injection H as <-. cbn [doc tableLines]. split; [|split; reflexivity].
    unfold bufferInv. cbn. split; [intros _|reflexivity].
    destruct (tableLines st); discriminate.
  - apply rest_draws_nothing in H; [|exact Inv|repeat noTable_step|repeat framed_step].
    destruct H as (D & I & L). split; [now apply empty_bufferInv|]. split; assumption.
  - apply rest_draws_nothing in H; [|exact Inv|repeat noTable_step|repeat framed_step].
    destruct H as (D & I & L). split; [now apply empty_bufferInv|]. split; assumption.
  - apply rest_draws_nothing in H; [|exact Inv|repeat noTable_step|repeat framed_step].
    destruct H as (D & I & L). split; [now apply empty_bufferInv|]. split; assumption.
  - apply rest_draws_nothing in H; [|exact Inv|repeat noTable_step|repeat framed_step].
    destruct H as (D & I & L). split; [now apply empty_bufferInv|]. split; assumption.
Qed.

(** The lines of a report: the tables drawn, with the run still in the
    buffer, are the runs of table rows read so far. *)
Lemma forEach_tables (fuel : nat) (lines : list str) :
  forall st st',
    bufferInv st ->
    forEach lines (processLine fac fuel) st = Ret (tt, st') ->
    bufferInv st' /\
    map Some (tablesOf (doc st')) ++ map parseTable (closeRun (tableLines st')) =
    map Some (tablesOf (doc st)) ++ map parseTable (tableRuns lines (tableLines st)).
Proof.
  induction lines as [|l ls IH]; intros st st' Inv H.
  - injection H as <-. split; [exact Inv | reflexivity].
  - cbn [forEach] in H. apply bind_Ret_inv in H. destruct H as ([] & s1 & H1 & H).
    destruct (processLine_tables fuel l st s1 Inv H1) as [Inv1 P].
    destruct (IH s1 st' Inv1 H) as [Inv' E]. split; [exact Inv'|].
    rewrite E. cbn [tableRuns].
    destruct (classify l); try (destruct P as [D L]; rewrite D, L, map_app, app_assoc;
                                reflexivity).
    destruct P as [D L]. rewrite D, L. reflexivity.
Qed.


(** The whole generation: the tables drawn are the runs of table rows of
    the report, parsed. *)
Lemma generate_tables (fuel : nat) (reportText ticker : str) (st : Layout) :
  generate fac fuel reportText ticker initial = Ret (tt, st) ->
  inTable st = false /\ tableLines st = [] /\
  map Some (tablesOf (doc st)) = map parseTable (tableRuns (split 10%N reportText) []).
Proof.
  intros G.
  assert (Pre : forall (m : M unit) (s s' : Layout) (u : unit),
            drawsNoTable m -> framed m -> m s = Ret (u, s') ->
            tablesOf (doc s') = tablesOf (doc s) /\
            tableLines s' = tableLines s /\ inTable s' = inTable s).
  { intros m s s' u N F E. split; [exact (N _ _ _ E)|].
    pose proof (F s) as Fs. rewrite E in Fs. exact Fs. }
  unfold generate in G.
  apply bind_Ret_inv in G. destruct G as (u1 & s1 & H1 & G).
  apply (Pre _ _ _ _ (noTable_facility _) (framed_facility _)) in H1.
  apply bind_Ret_inv in G. destruct G as (u2 & s2 & H2 & G).
  apply (Pre _ _ _ _ (noTable_setFontSize _) (framed_setFontSize _)) in H2.
  apply bind_Ret_inv in G. destruct G as (u3 & s3 & H3 & G).
  apply (Pre _ _ _ _ (noTable_setFont _) (framed_setFont _)) in H3.
  apply bind_Ret_inv in G. destruct G as (y0 & s4 & H4 & G).
  injection H4 as _ <-.
  apply bind_Ret_inv in G. destruct G as (u5 & s5 & H5 & G).
  apply (Pre _ _ _ _ (noTable_text _ _ _ _) (framed_text _ _ _ _)) in H5.
  apply bind_Ret_inv in G. destruct G as (u6 & s6 & H6 & G).
  injection H6 as _ <-.
  destruct H1 as (A1 & B1 & C1), H2 as (A2 & B2 & C2), H3 as (A3 & B3 & C3),
           H5 as (A5 & B5 & C5).
  set (s6 := mkLayout (doc s5) _ (tableLines s5) (inTable s5)) in G.
  assert (T0 : tablesOf (doc initial) = []) by reflexivity.
  assert (L0 : tableLines initial = []) by reflexivity.
  assert (I0 : inTable initial = false) by reflexivity.
  assert (T6 : tablesOf (doc s6) = []) by (cbn [doc s6]; congruence).
  assert (L6 : tableLines s6 = []) by (cbn [tableLines s6]; congruence).
  assert (I6 : inTable s6 = false) by (cbn [inTable s6]; congruence).
  apply bind_Ret_inv in G. destruct G as ([] & s7 & H7 & G).
  destruct (forEach_tables fuel (split 10%N reportText) s6 s7
              (empty_bufferInv s6 I6 L6) H7) as [Inv7 E7].
  rewrite T6, L6 in E7. cbn [map app] in E7.
  apply bind_Ret_inv in G. destruct G as (t & s8 & H8 & G).
  injection H8 as <- <-.
  apply bind_Ret_inv in G. destruct G as (u9 & s9 & H9 & G).
  apply (flush_draws_buffer fuel s7 u9 s9 Inv7) in H9. destruct H9 as (D9 & I9 & L9).
  apply (Pre _ _ _ _ noTable_addPageNumbers framed_addPageNumbers) in G.
  destruct G as (A & B & C).
  split; [congruence|]. split; [congruence|].
  rewrite A, D9. exact E7.
Qed.

End Framed.

(** X5: whatever the report text and whatever the facility does,
    generation raises no TypeError: [renderTable] is only ever run with at
    least one row in the buffer, so [tableLines[0]] is defined. The only
    exceptions that reach the [catch] block are failures of the facility. *)
Theorem generate_raises_only_facility_errors (fac : Facility) (fuel : nat)
    (reportText ticker : str) (e : Exn) :
  generate fac fuel reportText ticker initial = Throw e ->
  exists c, e = FacilityError c.
Proof.
  intros H. pose proof (generate_outcome fac fuel reportText ticker) as G.
  rewrite H in G. cbn in G. destruct e as [c|]; [now exists c | congruence].
Qed.

Lemma generate_raises_only_facility_errors_witness :
  exists c, FacilityError (CGetTextWidth (lit "hello")) = FacilityError c.
Proof.
  apply (generate_raises_only_facility_errors failingMeasure 5 (lit "hello") (lit "ACME")).
  vm_compute. reflexivity.
Defined.

(** X6: when generation returns, every table row of the report has gone
    through [renderTable], and in its own run: the tables that the table
    facility was given, in the order of drawing, are the runs of table
    rows of the report, each parsed once (its first row the head, its
    second row dropped, the others the body), and no row is left in the
    buffer. *)
Theorem generate_flushes_tables (fac : Facility) (fuel : nat)
    (reportText ticker : str) (st : Layout) :
  generate fac fuel reportText ticker initial = Ret (tt, st) ->
  inTable st = false /\ tableLines st = [] /\
  map Some (tablesOf (doc st)) = map parseTable (tableRuns (split 10%N reportText) []).
Proof. apply generate_tables. Qed.

Lemma generate_flushes_tables_witness :
  exists st,
    generate (sampleTable sampleCells false) 10 twoTables (lit "ACME") initial
      = Ret (tt, st) /\
    inTable st = false /\ tableLines st = [] /\
    tablesOf (doc st) =
      [([[lit "a"; lit "b"]], [[lit "1"; lit "2"]]); ([[lit "c"]], [[lit "3"]])].
Proof.
  destruct (generate (sampleTable sampleCells false) 10 twoTables (lit "ACME") initial)
    as [[[] st]|e|] eqn:E; try (vm_compute in E; discriminate E).
  exists st. split; [reflexivity|].
  destruct (generate_flushes_tables (sampleTable sampleCells false) 10 twoTables
              (lit "ACME") st E) as (I & L & T).
  split; [exact I|]. split; [exact L|].
  apply (f_equal (fun l => flat_map (fun o => match o with Some t => [t] | None => [] end) l))
    in T.
  rewrite flat_map_concat_map, map_map in T. cbn [concat] in T.
  revert T. generalize (tablesOf (doc st)). intros l T.
  assert (Id : forall l : list (list (list str) * list (list str)),
            concat (map (fun x => [x]) l) = l).
  { induction l0 as [|x l0 IH]; [reflexivity|]. cbn. now rewrite IH. }
  rewrite Id in T. rewrite T. vm_compute. reflexivity.
Defined.

Section TableRows.

Variable fac : Facility.

Lemma processLine_table_row (fuel : nat) (line : str) (st : Layout) :
  classify line = TableRow ->
  processLine fac fuel line st =
  Ret (tt, mkLayout (doc st) (y st) (tableLines st ++ [trim line]) true).
Proof. intros C. unfold processLine. unfold classify in C. rewrite C. reflexivity. Qed.

End TableRows.

(** X7: a run of table rows is only buffered: processing the rows draws
    nothing, calls nothing of the facility and leaves [y] alone; the rows,
    trimmed and in order, are appended to the buffer, and the in-table
    flag is set once there is at least one row. *)
Theorem table_rows_are_buffered (fac : Facility) (fuel : nat) (rows : list str)
    (st : Layout) :
  Forall (fun r => classify r = TableRow) rows ->
  forEach rows (processLine fac fuel) st =
  Ret (tt, mkLayout (doc st) (y st) (tableLines st ++ map trim rows)
             (match rows with [] => inTable st | _ :: _ => true end)).
Proof.
  intros H. revert st. induction H as [|r rows C _ IH]; intros st.
  - cbn. rewrite app_nil_r. destruct st; reflexivity.
  - cbn [forEach].
    rewrite (bind_Ret _ _ _ _ _ (processLine_table_row fac fuel r st C)).
    rewrite IH. cbn [doc y tableLines inTable map].
    rewrite <- app_assoc. cbn [app]. destruct rows; reflexivity.
Qed.

Lemma table_rows_are_buffered_witness :
  forEach [lit " |A|B|"; lit "|-|-| "] (processLine sampleFacility 0) initial =
  Ret (tt, mkLayout (doc initial) (y initial)
             (tableLines initial ++ map trim [lit " |A|B|"; lit "|-|-| "])
             true).
Proof.
  apply (table_rows_are_buffered sampleFacility 0 [lit " |A|B|"; lit "|-|-| "] initial).
  repeat constructor.
Defined.

Section ClassFacts.

Lemma includes_of_startsWith (s : str) (c : char) :
  startsWith s [c] = true -> includes s c = true.
Proof.
  destruct s as [|d s]; [discriminate|]. cbn [startsWith includes existsb].
  rewrite andb_true_r. intros H. apply N.eqb_eq in H. subst d.
  now rewrite N.eqb_refl.
Qed.

(** The [includes] half of the table test follows from the other half. *)
Lemma tableTest_eq (s : str) :
  includes s pipe && startsWith s [pipe] = startsWith s [pipe].
Proof.
  destruct (startsWith s [pipe]) eqn:P.
  - now rewrite (includes_of_startsWith _ _ P).
  - apply andb_false_r.
Qed.

End ClassFacts.

(** Case analysis on every test of a code unit variable against a
    constant. *)
Ltac eqb_cases :=
  repeat match goal with
         | |- context [N.eqb ?a ?b] =>
             is_var a;
             let E := fresh "E" in
             destruct (N.eqb a b) eqn:E; [apply N.eqb_eq in E; subst a|]
         end.

(** X8: the class of a line depends only on how the trimmed line starts,
    not on the order of the tests: it is blank when nothing is left, a
    table row when it starts with a pipe (the [includes] test adds
    nothing), a heading of level 2 or 3 when it starts with [## ] or
    [### ], a bullet when it starts with [- ], and a paragraph in every
    other case. *)
Theorem classify_by_prefix (line : str) :
  (classify line = Blank <-> trim line = []) /\
  (classify line = TableRow <-> startsWith (trim line) [pipe] = true) /\
  (classify line = Heading2 <-> startsWith (trim line) (lit "## ") = true) /\
  (classify line = Heading3 <-> startsWith (trim line) (lit "### ") = true) /\
  (classify line = Bullet <-> startsWith (trim line) (lit "- ") = true) /\
  (classify line = Paragraph <->
     trim line <> [] /\
     startsWith (trim line) [pipe] = false /\
     startsWith (trim line) (lit "## ") = false /\
     startsWith (trim line) (lit "### ") = false /\
     startsWith (trim line) (lit "- ") = false).
Proof.
  unfold classify. set (s := trim line). clearbody s.
  destruct s as [|c s].
  - cbn. repeat split; intros; try discriminate; try reflexivity; tauto.
  - unfold classifyTrimmed. rewrite tableTest_eq.
    change (lit "## ") with [35%N; 35%N; 32%N].
    change (lit "### ") with [35%N; 35%N; 35%N; 32%N].
    change (lit "- ") with [45%N; 32%N].
    change pipe with 124%N.
    destruct s as [|c2 [|c3 [|c4 s]]]; cbn [startsWith]; eqb_cases;
      cbn; intuition (try discriminate; try congruence).
Qed.

(* ================================================================== *)
(** ** Page numbers *)
(* ================================================================== *)

Section PageNumbers.

Variable fac : Facility.
Hypothesis no_failure : forall c, throws fac c = false.

Lemma last_cons_default {A : Type} (a x : A) (l : list A) :
  last (a :: l) x = last l a.
Proof.
  revert a x. induction l as [|b l IH]; intros a x; [reflexivity|].
  change (last (a :: b :: l) x) with (last (b :: l) x).
  rewrite (IH b x). symmetry. apply IH.
Qed.

Lemma setPage_ok (i : nat) (st : Layout) :
  setPage fac i st =
  Ret (tt, mkLayout (withPage i (doc st)) (y st) (tableLines st) (inTable st)).
Proof.
  unfold setPage. erewrite bind_Ret by (apply facility_ok, no_failure). reflexivity.
Qed.

(** The loop of [addPageNumbers] over the pages [l]. *)
Lemma stamps_forEach (pageCount : nat) (l : list nat) :
  forall d y0 tl it,
    forEach l (fun i =>
      bind (setPage fac i) (fun _ =>
      text fac (lit "Page " ++ natToStr i ++ lit " of " ++ natToStr pageCount)
               (div fac (pageWidth fac) 2) (sub fac (pageHeight fac) 10) AlignCenter))
      (mkLayout d y0 tl it) =
    Ret (tt, mkLayout
               (mkDoc (fontSize d) (fontStyle d) (textColor d) (numPages d)
                      (last l (page d))
                      (drawn d ++ map (pageStamp fac pageCount) l)
                      (lastFinalY d))
               y0 tl it).
Proof.
  induction l as [|i l IH]; intros d y0 tl it.
  - cbn. rewrite app_nil_r. destruct d; reflexivity.
  - cbn [forEach].
    erewrite bind_Ret; cycle 1.
    { rewrite (bind_Ret _ _ _ _ _ (setPage_ok i _)). apply text_ok. exact no_failure. }
    cbn [doc y tableLines inTable]. rewrite IH.
    cbn [fontSize fontStyle textColor numPages page drawn lastFinalY withOp withPage map].
    rewrite last_cons_default, <- app_assoc. reflexivity.
Qed.

End PageNumbers.

(** X9: when the facility does not fail, [addPageNumbers] puts exactly one
    stamp [Page i of N] on each page [i] from 1 to [N], in that order,
    where [N] is the number of pages of the document; it adds no page and
    leaves the font at size 9, italic. *)
Theorem addPageNumbers_stamps_every_page (fac : Facility) (st : Layout) :
  (forall c, throws fac c = false) ->
  exists st',
    addPageNumbers fac st = Ret (tt, st') /\
    drawn (doc st') =
      drawn (doc st) ++ map (pageStamp fac (numPages (doc st))) (seq 1 (numPages (doc st))) /\
    numPages (doc st') = numPages (doc st) /\
    fontSize (doc st') = 9 /\ fontStyle (doc st') = Italic /\
    y st' = y st.
Proof.
  intros NF. unfold addPageNumbers, getNumberOfPages.
  erewrite bind_Ret; cycle 1.
  { erewrite bind_Ret by (apply facility_ok, NF). reflexivity. }
  rewrite (bind_Ret _ _ _ _ _ (setFontSize_ok fac NF 9 st)).
  rewrite (bind_Ret _ _ _ _ _ (setFont_ok fac NF Italic _)).
  rewrite (stamps_forEach fac NF).
  eexists. split; [reflexivity|]. cbn. repeat split.
Qed.

Lemma addPageNumbers_stamps_every_page_witness :
  exists st',
    addPageNumbers sampleFacility (mkLayout (withNewPage newDoc) 30 [] false)
      = Ret (tt, st') /\
    drawn (doc st') =
      drawn (withNewPage newDoc) ++
      map (pageStamp sampleFacility (numPages (withNewPage newDoc)))
          (seq 1 (numPages (withNewPage newDoc))) /\
    numPages (doc st') = numPages (withNewPage newDoc) /\
    fontSize (doc st') = 9 /\ fontStyle (doc st') = Italic /\
    y st' = 30.
Proof.
  apply (addPageNumbers_stamps_every_page sampleFacility
           (mkLayout (withNewPage newDoc) 30 [] false)).
  reflexivity.
Defined.

(* ================================================================== *)
(** ** The cursor after a rendered line *)
(* ================================================================== *)

Section Advance.

Variable fac : Facility.

Lemma lowered_more (n m : nat) (h : Q) :
  lowered fac n (lowered fac m h) = lowered fac (n + m) h.
Proof. induction n as [|n IH]; cbn [lowered Nat.add]; [reflexivity | now rewrite IH]. Qed.

Lemma printToken_moves_down (fuel : nat) :
  forall token x maxWidth remainingText currentX currentY st currentX' currentY' st',
    printToken fac fuel token x maxWidth remainingText currentX currentY st =
      Ret ((currentX', currentY'), st') ->
    exists wraps, currentY' = lowered fac wraps currentY.
Proof.
  induction fuel as [|fuel IH];
    intros token x maxWidth [|c rest] cx cy st cx' cy' st' H.
  - injection H as _ <- _. exists 0%nat. reflexivity.
  - discriminate.
  - injection H as _ <- _. exists 0%nat. reflexivity.
  - rewrite printToken_S in H. cbv zeta in H.
    bind_inv H. bind_inv H. destruct a0 as [[i1 cx1] cy1].
    bind_inv H. bind_inv H.
    apply IH in H. destruct H as (n & ->).
    assert (W : exists k, cy1 = lowered fac k cy).
    { destruct ((a =? 0)%Z && Qgtb cx x).
      - bind_inv Hm0. bind_inv Hm0. injection Hm0 as _ _ <- _.
        exists 1%nat. reflexivity.
      - injection Hm0 as _ _ <- _. exists 0%nat. reflexivity. }
    destruct W as (k & ->). exists (n + k)%nat. apply lowered_more.
Qed.

Lemma renderTokens_moves_down (fuel : nat) (tokens : list Token) :
  forall x maxWidth currentX currentY st r st',
    renderTokens fac fuel tokens x maxWidth currentX currentY st = Ret (r, st') ->
    exists wraps, snd r = lowered fac wraps currentY.
Proof.
  induction tokens as [|t ts IH]; intros x maxWidth cx cy st r st' H.
  - injection H as <- _. exists 0%nat. reflexivity.
  - cbn [renderTokens] in H.
    bind_inv H. bind_inv H. bind_inv H. destruct a1 as [cx1 cy1].
    apply printToken_moves_down in Hm1. destruct Hm1 as (k & ->).
    bind_inv H. apply IH in H. cbn [snd] in H. destruct H as (n & ->).
    exists (n + k)%nat. apply lowered_more.
Qed.

(** What a call that returns gives back: the height it was given, moved
    down by one line height more than it wrapped. *)
Lemma renderFormattedLine_lowers (fuel : nat) (line : str) (x currentY maxWidth : Q)
    (st : Layout) (r : Q) (st' : Layout) :
  renderFormattedLine fac fuel line x currentY maxWidth st = Ret (r, st') ->
  exists wraps, r = lowered fac (S wraps) currentY.
Proof.
  intros H. unfold renderFormattedLine in H.
  bind_inv H. bind_inv H.
  destruct (tokenizeLine line) as [tokens|]; [|discriminate].
  bind_inv H. apply renderTokens_moves_down in Hm1. destruct Hm1 as (n & E).
  bind_inv H. bind_inv H. injection H as <- _.
  exists n. cbn [lowered]. now rewrite E.
Qed.

(** Under a rounding that keeps the order, moving down never moves up. *)
Lemma lowered_below (h : Q) :
  monotoneRounding fac -> round fac h == h ->
  forall n, round fac (lowered fac n h) == lowered fac n h /\
            lowered fac n h <= lowered fac (S n) h.
Proof.
  intros [Mono Idem] Rep n.
  assert (R : round fac (lowered fac n h) == lowered fac n h).
  { destruct n as [|n]; [exact Rep|]. cbn [lowered]. unfold add. apply Idem. }
  split; [exact R|].
  cbn [lowered]. unfold add, lineHeight.
  rewrite <- R at 1. apply Mono. lra.
Qed.

Lemma lowered_from_one (h : Q) :
  monotoneRounding fac -> round fac h == h ->
  forall n, lowered fac 1 h <= lowered fac (S n) h.
Proof.
  intros M Rep. induction n as [|n IH]; [apply Qle_refl|].
  eapply Qle_trans; [exact IH|]. apply (lowered_below h M Rep (S n)).
Qed.

End Advance.

(** X10: a call of [renderFormattedLine] that returns gives back the
    height it was called with, moved down by the line height (5) once for
    the line and once more for every wrap; so under a rounding that keeps
    the order (exact arithmetic, or the doubles of JavaScript) what it
    gives back is at least one line height below the height it was called
    with. It leaves the table buffer and its flag as they were. *)
Theorem renderFormattedLine_advances (fac : Facility) (fuel : nat) (line : str)
    (x currentY maxWidth : Q) (st : Layout) (r : Q) (st' : Layout) :
  renderFormattedLine fac fuel line x currentY maxWidth st = Ret (r, st') ->
  (exists wraps, r = lowered fac (S wraps) currentY) /\
  (monotoneRounding fac -> round fac currentY == currentY ->
   add fac currentY 5 <= r) /\
  tableLines st' = tableLines st /\ inTable st' = inTable st.
Proof.
  intros H. split; [|split].
  - exact (renderFormattedLine_lowers fac fuel line x currentY maxWidth st r st' H).
  - intros M Rep.
    destruct (renderFormattedLine_lowers fac fuel line x currentY maxWidth st r st' H)
      as (n & ->).
    exact (lowered_from_one fac currentY M Rep n).
  - pose proof (framed_renderFormattedLine fac fuel line x currentY maxWidth st) as F.
    rewrite H in F. exact F.
Qed.

Lemma renderFormattedLine_advances_witness :
  ((exists wraps, 15 = lowered sampleFacility (S wraps) 0) /\
   add sampleFacility 0 5 <= 15 /\
   tableLines (mkLayout (mkDoc 16 Normal (0, 0, 0)%Z 1 1
                 [(1%nat, Text (lit "abc") 0 0 NoOpt);
                  (1%nat, Text (lit "def") 0 5 NoOpt);
                  (1%nat, Text (lit "gh") 0 10 NoOpt)] 0) 20 [] false)
     = tableLines initial /\
   inTable (mkLayout (mkDoc 16 Normal (0, 0, 0)%Z 1 1
                 [(1%nat, Text (lit "abc") 0 0 NoOpt);
                  (1%nat, Text (lit "def") 0 5 NoOpt);
                  (1%nat, Text (lit "gh") 0 10 NoOpt)] 0) 20 [] false)
     = inTable initial) /\
  (exists r st',
     renderFormattedLine tenthFacility 10 (lit "**x**yyyyyy")
       (add tenthFacility leftMargin 3) 20
       (sub tenthFacility (contentWidth tenthFacility) 3) initial = Ret (r, st') /\
     r = 30 /\ add tenthFacility 20 5 <= r).
Proof.
  split.
  - destruct (renderFormattedLine_advances sampleFacility 10 (lit "abcdefgh") 0 0 3 initial
                15 (mkLayout (mkDoc 16 Normal (0, 0, 0)%Z 1 1
                  [(1%nat, Text (lit "abc") 0 0 NoOpt);
                   (1%nat, Text (lit "def") 0 5 NoOpt);
                   (1%nat, Text (lit "gh") 0 10 NoOpt)] 0) 20 [] false))
      as (A & B & C).
    + vm_compute. reflexivity.
    + split; [exact A|]. split; [|exact C].
      apply B.
      * split; [intros a b L; exact L | intros a; apply Qeq_refl].
      * apply Qeq_refl.
  - destruct (renderFormattedLine tenthFacility 10 (lit "**x**yyyyyy")
                (add tenthFacility leftMargin 3) 20
                (sub tenthFacility (contentWidth tenthFacility) 3) initial)
      as [[r st']|e|] eqn:E; try (vm_compute in E; discriminate E).
    exists r, st'. split; [reflexivity|].
    pose proof E as E'. vm_compute in E'. injection E' as Hr _.
    split; [symmetry; exact Hr|].
    destruct (renderFormattedLine_advances tenthFacility 10 (lit "**x**yyyyyy")
                (add tenthFacility leftMargin 3) 20
                (sub tenthFacility (contentWidth tenthFacility) 3) initial r st' E)
      as (_ & B & _).
    apply B; [apply inDoubles_monotone | vm_compute; reflexivity].
Defined.

(* ================================================================== *)
(** ** Links in table cells *)
(* ================================================================== *)

Section LinkCells.

Lemma hasUrlScheme_eq (s : str) :
  hasUrlScheme s =
  startsWith s (lit "http://") || startsWith s (lit "https://") ||
  match s with [] => false | _ :: s' => hasUrlScheme s' end.
Proof. destruct s; reflexivity. Qed.

(** The test of the hooks: the text holds [http://] or [https://]. *)
Lemma hasUrlScheme_iff (s : str) :
  hasUrlScheme s = true <->
  exists a b, s = a ++ lit "http://" ++ b \/ s = a ++ lit "https://" ++ b.
Proof.
  split.
  - induction s as [|c s IH]; rewrite hasUrlScheme_eq; intros H.
    + discriminate.
    + apply orb_prop in H. destruct H as [H|H]; [apply orb_prop in H; destruct H as [H|H]|].
      * apply startsWith_decompose in H. exists [], (skipn 7 (c :: s)). left. exact H.
      * apply startsWith_decompose in H. exists [], (skipn 8 (c :: s)). right. exact H.
      * destruct (IH H) as (a & b & [E|E]); exists (c :: a), b; [left|right];
          rewrite E; reflexivity.
  - intros (a & b & [E|E]); rewrite E; apply hasUrlScheme_contains.
Qed.

(** The text of every link token occurs in the line. *)
Lemma tokenizeLoop_link_occurs (fuel : nat) :
  forall line lastIndex tokens r,
    (forall t, In t tokens -> isLink t = true ->
               exists a b, line = a ++ Tokenizer.text t ++ b) ->
    tokenizeLoop fuel line lastIndex tokens = Some r ->
    forall t, In t r -> isLink t = true ->
              exists a b, line = a ++ Tokenizer.text t ++ b.
Proof.
  induction fuel as [|fuel IH]; intros line li acc r Hacc H; [discriminate|].
  rewrite tokenizeLoop_S in H.
  destruct (exec line li) as [[idx m]|] eqn:E.
  - apply exec_spec in E as S. destruct S as (H1 & H2 & H3 & H4 & H5).
    cbv zeta in H.
    assert (Dm : line = firstn idx line ++ m ++ skipn (idx + length m) line).
    { rewrite <- (firstn_skipn idx line) at 1. f_equal.
      rewrite <- (firstn_skipn (length m) (skipn idx line)) at 1.
      rewrite <- H5, skipn_skipn. do 2 f_equal. lia. }
    assert (Hacc1 : forall t,
              In t (if (li <? idx)%nat
                    then acc ++ [plain (substring line li idx)] else acc) ->
              isLink t = true -> exists a b, line = a ++ Tokenizer.text t ++ b).
    { destruct (li <? idx)%nat; [|exact Hacc].
      intros t Ht. apply in_app_or in Ht. destruct Ht as [Ht|[<-|[]]]; [now apply Hacc|].
      discriminate. }
    destruct (startsWith m (lit "http")) eqn:L.
    + eapply IH; [|exact H].
      intros t Ht. apply in_app_or in Ht. destruct Ht as [Ht|[<-|[]]]; [now apply Hacc1|].
      intros _. cbn [link Tokenizer.text]. eauto.
    + destruct (tokenizeLoop fuel (substring m 2 (length m - 2)) 0 []) as [it|] eqn:Hit;
        [|discriminate].
      eapply IH; [|exact H].
      intros t Ht. apply in_app_or in Ht. destruct Ht as [Ht|Ht]; [now apply Hacc1|].
      apply in_map_iff in Ht. destruct Ht as (t0 & <- & Ht0).
      cbn [withBold isLink Tokenizer.text]. intros Lk.
      assert (Hn : forall t, In t (@nil Token) -> isLink t = true ->
                    exists a b, substring m 2 (length m - 2) = a ++ Tokenizer.text t ++ b)
        by (intros ? []).
      destruct (IH _ _ _ _ Hn Hit t0 Ht0 Lk) as (a & b & Ei).
      pose proof (exec_bold_shape line li idx m E L) as Sh.
      exists (firstn idx line ++ [star; star] ++ a),
             (b ++ [star; star] ++ skipn (idx + length m) line).
      rewrite Dm at 1. rewrite Sh at 1. rewrite Ei.
      now rewrite <- !app_assoc.
  - injection H as <-. destruct (li <? length line)%nat; [|exact Hacc].
    intros t Ht. apply in_app_or in Ht. destruct Ht as [Ht|[<-|[]]]; [now apply Hacc|].
    discriminate.
Qed.

End LinkCells.

(** X11: the table hooks and the renderer agree on links. If the
    tokenizer finds a link token in the raw text of a cell, that text
    holds a URL scheme, so [willDrawCell] returns [false] for the cell and
    [didDrawCell] hands it to [renderFormattedLine]: no link found by the
    renderer is ever in a cell that the facility draws by itself. *)
Theorem link_token_cell_is_suppressed (c : Cell) (tokens : list Token) (t : Token) :
  tokenizeLine (raw c) = Some tokens ->
  In t tokens ->
  isLink t = true ->
  hasUrlScheme (raw c) = true /\ willDrawCell c = Some false.
Proof.
  intros T Ht Lk.
  assert (U : hasUrlScheme (raw c) = true).
  { assert (Hn : forall t, In t (@nil Token) -> isLink t = true ->
                  exists a b, raw c = a ++ Tokenizer.text t ++ b) by (intros ? []).
    destruct (tokenizeLoop_link_occurs _ _ _ _ _ Hn T t Ht Lk) as (a & b & E).
    pose proof (tokenizeLoop_wellFormed _ _ _ _ _ (Forall_nil _) T) as W.
    rewrite Forall_forall in W. destruct (W t Ht) as (_ & W2 & _).
    destruct (W2 Lk) as [_ [S|S]]; apply startsWith_decompose in S;
      apply hasUrlScheme_iff; rewrite E, S; rewrite <- !app_assoc.
    - exists a. eexists. left. reflexivity.
    - exists a. eexists. right. reflexivity. }
  split; [exact U|]. unfold willDrawCell. now rewrite U.
Qed.

Lemma link_token_cell_is_suppressed_witness :
  hasUrlScheme (raw (mkCell (lit "**see https://x.com**") 0 0 50 2 2 4)) = true /\
  willDrawCell (mkCell (lit "**see https://x.com**") 0 0 50 2 2 4) = Some false.
Proof.
  apply (link_token_cell_is_suppressed
           (mkCell (lit "**see https://x.com**") 0 0 50 2 2 4)
           [mkToken (lit "see ") true false None;
            mkToken (lit "https://x.com") true true (Some (lit "https://x.com"))]
           (mkToken (lit "https://x.com") true true (Some (lit "https://x.com")))).
  - reflexivity.
  - right. left. reflexivity.
  - reflexivity.
Defined.

(* ================================================================== *)
(** ** Placement of the tutorial tooltip *)
(* ================================================================== *)

Section TooltipFacts.

Lemma Qle_bool_false (a b : Q) : Qle_bool a b = false <-> b < a.
Proof.
  split.
  - intros H. apply Qnot_le_lt. intros L. apply Qle_bool_iff in L. congruence.
  - intros H. destruct (Qle_bool a b) eqn:E; [|reflexivity].
    apply Qle_bool_iff in E. lra.
Qed.

End TooltipFacts.

(** Turns every comparison of the goal and of the context into an order
    fact, by cases. *)
Ltac q_cases :=
  repeat match goal with
         | |- context [Qle_bool ?a ?b] =>
             let E := fresh "E" in
             destruct (Qle_bool a b) eqn:E;
             [apply Qle_bool_iff in E | apply Qle_bool_false in E]
         | H : context [Qle_bool ?a ?b] |- _ =>
             let E := fresh "E" in
             destruct (Qle_bool a b) eqn:E;
             [apply Qle_bool_iff in E | apply Qle_bool_false in E]
         end.

(** X12: the tooltip is kept in the window. Its left and top edges are
    never less than 10 from the window's left and top edge, whatever the
    arithmetic; and when the window is at least 20 wider (higher) than the
    tooltip and the far edge [inner - size - 10] comes out of the
    arithmetic as it is, the right (bottom) edge of the tooltip is at
    least 10 inside the window as well. *)
Theorem tooltip_stays_in_window (round : Q -> Q) (position : Position)
    (targetRect tooltipRect : Rect) (innerWidth innerHeight : Q) :
  10 <= tooltipLeft round targetRect tooltipRect innerWidth /\
  10 <= tooltipTop round position targetRect tooltipRect innerHeight /\
  (farEdge round innerWidth (rWidth tooltipRect)
     == innerWidth - rWidth tooltipRect - 10 ->
   rWidth tooltipRect + 20 <= innerWidth ->
   tooltipLeft round targetRect tooltipRect innerWidth + rWidth tooltipRect
     <= innerWidth - 10) /\
  (farEdge round innerHeight (rHeight tooltipRect)
     == innerHeight - rHeight tooltipRect - 10 ->
   rHeight tooltipRect + 20 <= innerHeight ->
   tooltipTop round position targetRect tooltipRect innerHeight + rHeight tooltipRect
     <= innerHeight - 10).
Proof.
  unfold tooltipLeft, tooltipTop, jsMax, jsMin, edgeMargin.
  repeat split; intros; q_cases; try lra.
Qed.

Lemma tooltip_stays_in_window_witness :
  10 <= tooltipLeft binary64 (mkRect (1001 # 2) 100 80 20 (1041 # 2))
          (mkRect 0 0 (401 # 2) (401 # 4) (401 # 4)) 800 /\
  10 <= tooltipTop binary64 Bottom (mkRect (1001 # 2) 100 80 20 (1041 # 2))
          (mkRect 0 0 (401 # 2) (401 # 4) (401 # 4)) 600 /\
  tooltipLeft binary64 (mkRect (1001 # 2) 100 80 20 (1041 # 2))
    (mkRect 0 0 (401 # 2) (401 # 4) (401 # 4)) 800 + (401 # 2)
    <= 800 - 10 /\
  tooltipTop binary64 Bottom (mkRect (1001 # 2) 100 80 20 (1041 # 2))
    (mkRect 0 0 (401 # 2) (401 # 4) (401 # 4)) 600 + (401 # 4)
    <= 600 - 10.
Proof.
  destruct (tooltip_stays_in_window binary64 Bottom (mkRect (1001 # 2) 100 80 20 (1041 # 2))
              (mkRect 0 0 (401 # 2) (401 # 4) (401 # 4)) 800 600) as (A & B & C & D).
  split; [exact A|]. split; [exact B|]. split.
  - apply C; vm_compute; [reflexivity | discriminate].
  - apply D; vm_compute; [reflexivity | discriminate].
Defined.

(** Where the arithmetic rounds, the far edge is not exact and the
    tooltip can end beyond it: in doubles, a tooltip 113.2 high under a
    target that ends at 461.8, in a window 600 high, is put at 476.8, and
    its lower edge is below [600 - 10], by [2 ^ -46]. *)
Example rounding_moves_the_tooltip :
  600 - 10 <
  tooltipTop binary64 Bottom
    (mkRect (binary64 (4418 # 10)) 100 80 20 (binary64 (4618 # 10)))
    (mkRect 0 0 200 (binary64 (1132 # 10)) (binary64 (1132 # 10))) 600
  + binary64 (1132 # 10).
Proof. vm_compute. reflexivity. Qed.



(* ================================================================== *)
(** ** Facts about the tutorial and the theme *)
(* ================================================================== *)

Section TutorialSteps.

Variable configs : Configs.

Lemma addStep_config (steps : list Step) (key : str) (pos : Position) :
  streqb key (lit "prompt-input") = false ->
  addStep configs steps (key, pos) = steps \/
  exists config d,
    mapGet configs key = Some config /\ description config = Some d /\ d <> [] /\
    addStep configs steps (key, pos) =
      steps ++ [mkStep (configId config) (displayName config) d pos].
Proof.
  intros K. unfold addStep. cbn [fst snd]. rewrite K.
  destruct (mapGet configs key) as [config|]; [|now left].
  destruct (description config) as [[|c d]|] eqn:D; [now left| |now left].
  right. exists config, (c :: d). repeat split; try assumption. discriminate.
Qed.

Lemma fold_addStep (keys : list str) :
  Forall (fun key => streqb key (lit "prompt-input") = false) keys ->
  forall steps, exists extra,
    fold_left (addStep configs) (map (fun key => (key, Bottom)) keys) steps = steps ++ extra /\
    (length extra <= length keys)%nat /\
    Forall (fun s => position s = Bottom /\ stepDescription s <> [] /\
              exists key config, In key keys /\ mapGet configs key = Some config /\
                elementId s = configId config /\ title s = displayName config /\
                description config = Some (stepDescription s)) extra.
Proof.
  induction 1 as [|key keys K _ IH]; intros steps.
  - exists []. cbn. rewrite app_nil_r. repeat split; auto.
  - cbn [map fold_left].
    destruct (addStep_config steps key Bottom K) as [E|(config & d & G & D & N & E)];
      rewrite E.
    + destruct (IH steps) as (extra & F & L & A). exists extra.
      split; [exact F|]. split; [cbn; lia|].
      eapply Forall_impl; [|exact A]. cbn beta.
      intros s (P & Q & key' & config' & I & R). repeat split; auto.
      exists key', config'. split; [now right|exact R].
    + destruct (IH (steps ++ [mkStep (configId config) (displayName config) d Bottom]))
        as (extra & F & L & A).
      exists (mkStep (configId config) (displayName config) d Bottom :: extra).
      split; [rewrite F, <- app_assoc; reflexivity|]. split; [cbn; lia|].
      constructor.
      * cbn. repeat split; auto. exists key, config. repeat split; auto.
      * eapply Forall_impl; [|exact A]. cbn beta.
        intros s (P & Q & key' & config' & I & R). repeat split; auto.
        exists key', config'. split; [now right|exact R].
Qed.

End TutorialSteps.

Section TutorialRun.

Variable getElementById : str -> bool.
Variable querySelector : str -> Lookup.

Lemma showTutorialStep_S (fuel index : nat) (t : Tutorial) :
  showTutorialStep true true getElementById querySelector (S fuel) index t =
  match nth_error (tutorialSteps t) index with
  | None => TTypeError
  | Some step =>
      match targetElement getElementById querySelector step with
      | InvalidSelector => TSyntaxError
      | NotFound => handleTutorialNext true true getElementById querySelector fuel t
      | Found =>
          TRet (mkTutorial (tutorialSteps t) (currentTutorialStep t)
                  (overlayHidden t) (resizeListener t)
                  (Some (title step)) (Some (stepDescription step))
                  (Some (if (index =? length (tutorialSteps t) - 1)%nat
                         then lit "Done" else lit "Next"))
                  (storage t))
      end
  end.
Proof. reflexivity. Qed.

Lemma handleTutorialNext_S (fuel : nat) (t : Tutorial) :
  handleTutorialNext true true getElementById querySelector (S fuel) t =
  let t1 := mkTutorial (tutorialSteps t) (S (currentTutorialStep t))
              (overlayHidden t) (resizeListener t)
              (shownTitle t) (shownDescription t) (nextLabel t) (storage t) in
  if (currentTutorialStep t1 <? length (tutorialSteps t1))%nat
  then showTutorialStep true true getElementById querySelector fuel
         (currentTutorialStep t1) t1
  else TRet (endTutorial true t1).
Proof. reflexivity. Qed.

Lemma showTutorialStep_settles (n : nat) :
  forall fuel t,
    (currentTutorialStep t < length (tutorialSteps t))%nat ->
    (length (tutorialSteps t) - currentTutorialStep t <= n)%nat ->
    (2 * n <= fuel)%nat ->
    (forall s, In s (tutorialSteps t) ->
       targetElement getElementById querySelector s <> InvalidSelector) ->
    exists t',
      showTutorialStep true true getElementById querySelector fuel
        (currentTutorialStep t) t = TRet t' /\
      tutorialSteps t' = tutorialSteps t /\
      (currentTutorialStep t <= currentTutorialStep t')%nat /\
      (forall k step,
         (currentTutorialStep t <= k < currentTutorialStep t')%nat ->
         nth_error (tutorialSteps t) k = Some step ->
         targetElement getElementById querySelector step = NotFound) /\
      settled getElementById querySelector t t'.
Proof.
  induction n as [|n IH]; intros fuel t C N F V; [lia|]. unfold settled in *.
  destruct fuel as [|[|fuel]]; try lia.
  rewrite showTutorialStep_S.
  destruct (nth_error (tutorialSteps t) (currentTutorialStep t)) as [step|] eqn:E;
    [|apply nth_error_None in E; lia].
  pose proof (V step (nth_error_In _ _ E)) as Vs.
  destruct (targetElement getElementById querySelector step) eqn:T;
    [| |congruence].
  - eexists. split; [reflexivity|]. cbn. repeat split; try lia.
    left. exists step. cbn. repeat split; auto.
  - rewrite handleTutorialNext_S. cbv zeta. cbn [currentTutorialStep tutorialSteps].
    destruct (S (currentTutorialStep t) <? length (tutorialSteps t))%nat eqn:L.
    + apply Nat.ltb_lt in L.
      set (t1 := mkTutorial (tutorialSteps t) (S (currentTutorialStep t))
                   (overlayHidden t) (resizeListener t)
                   (shownTitle t) (shownDescription t) (nextLabel t) (storage t)).
      destruct (IH fuel t1) as (t' & R & St & Le & Sk & Se);
        [exact L|cbn; lia|lia|exact V|].
      exists t'. split; [exact R|]. cbn in St, Le, Sk, Se.
      split; [exact St|]. split; [lia|]. split.
      * intros k step' K Ek.
        destruct (Nat.eq_dec k (currentTutorialStep t)) as [->|D].
        -- congruence.
        -- apply (Sk k step'); [lia|exact Ek].
      * exact Se.
    + apply Nat.ltb_ge in L.
      eexists. split; [reflexivity|]. unfold endTutorial. cbn.
      split; [reflexivity|]. split; [lia|]. split.
      * intros k step' K Ek.
        assert (k = currentTutorialStep t) as -> by lia. congruence.
      * right. repeat split; try lia.
Qed.

Lemma handleTutorialNext_settles (fuel : nat) (t : Tutorial) :
  (2 * length (tutorialSteps t) < fuel)%nat ->
  (forall s, In s (tutorialSteps t) ->
     targetElement getElementById querySelector s <> InvalidSelector) ->
  exists t',
    handleTutorialNext true true getElementById querySelector fuel t = TRet t' /\
    tutorialSteps t' = tutorialSteps t /\
    (currentTutorialStep t < currentTutorialStep t')%nat /\
    (forall k step,
       (currentTutorialStep t < k < currentTutorialStep t')%nat ->
       nth_error (tutorialSteps t) k = Some step ->
       targetElement getElementById querySelector step = NotFound) /\
    settled getElementById querySelector t t'.
Proof.
  intros F V. destruct fuel as [|fuel]; [lia|]. unfold settled in *.
  rewrite handleTutorialNext_S. cbv zeta. cbn [currentTutorialStep tutorialSteps].
  destruct (S (currentTutorialStep t) <? length (tutorialSteps t))%nat eqn:L.
  - apply Nat.ltb_lt in L.
    set (t1 := mkTutorial (tutorialSteps t) (S (currentTutorialStep t))
                 (overlayHidden t) (resizeListener t)
                 (shownTitle t) (shownDescription t) (nextLabel t) (storage t)).
    destruct (showTutorialStep_settles (length (tutorialSteps t)) fuel t1)
      as (t' & R & St & Le & Sk & Se); [exact L|cbn; lia|lia|exact V|].
    exists t'. split; [exact R|]. cbn in St, Le, Sk, Se.
    split; [exact St|]. split; [lia|]. split; [|exact Se].
    intros k step K Ek. apply (Sk k step); [lia|exact Ek].
  - apply Nat.ltb_ge in L.
    eexists. split; [reflexivity|]. unfold endTutorial. cbn.
    split; [reflexivity|]. split; [lia|]. split.
    + intros k step K. lia.
    + right. repeat split; try lia.
Qed.

Lemma pressNext_hidden (fuel n : nat) (t : Tutorial) :
  overlayHidden t = true ->
  pressNext true true getElementById querySelector fuel n t = TRet t.
Proof. intros H. destruct n; cbn; [reflexivity|now rewrite H]. Qed.

Lemma pressNext_closes (fuel : nat) (n : nat) :
  forall t,
    overlayHidden t = false ->
    (currentTutorialStep t < length (tutorialSteps t))%nat ->
    (length (tutorialSteps t) - currentTutorialStep t <= n)%nat ->
    (2 * length (tutorialSteps t) < fuel)%nat ->
    (forall s, In s (tutorialSteps t) ->
       targetElement getElementById querySelector s <> InvalidSelector) ->
    exists t',
      pressNext true true getElementById querySelector fuel n t = TRet t' /\
      tutorialSteps t' = tutorialSteps t /\
      overlayHidden t' = true /\
      resizeListener t' = false /\
      getItem (storage t') (lit "hasSeenTutorial") = Some (lit "true").
Proof.
  induction n as [|n IH]; intros t H C N F V; [lia|].
  cbn [pressNext]. rewrite H.
  destruct (handleTutorialNext_settles fuel t F V) as (t1 & R & St & Lt & _ & Se).
  unfold settled in Se. rewrite R. destruct Se as [(step & E & _ & _ & _ & _ & Hd & _ & _)|(_ & Hd & Li & Sn)].
  - assert (currentTutorialStep t1 < length (tutorialSteps t))%nat as C1
      by (apply nth_error_Some; congruence).
    destruct (IH t1) as (t' & R' & St' & Hd' & Li' & Sn');
      [congruence|rewrite St; exact C1|rewrite St; lia|rewrite St; exact F
      |rewrite St; exact V|].
    exists t'. repeat split; auto. congruence.
  - exists t1. rewrite (pressNext_hidden fuel n t1 Hd). repeat split; auto.
Qed.

(** X14 ([buildTutorialSteps]). Whatever configurations are loaded, the
    tutorial is never empty: it ends with the step of the prompt input,
    after at most four steps, each made from a loaded configuration of
    one of the four known ids that has a description, and placed below
    its target. *)
Theorem buildTutorialSteps_ends_with_prompt (configs : Configs) :
  exists pre,
    buildTutorialSteps configs = pre ++ [promptStep] /\
    (length pre <= 4)%nat /\
    Forall (fun s => position s = Bottom /\ stepDescription s <> [] /\
              exists key config,
                In key [lit "chat"; lit "quick_summary"; lit "deep_dive"; lit "technical"] /\
                mapGet configs key = Some config /\
                elementId s = configId config /\ title s = displayName config /\
                description config = Some (stepDescription s)) pre.
Proof.
  destruct (fold_addStep configs
              [lit "chat"; lit "quick_summary"; lit "deep_dive"; lit "technical"])
    with (steps := @nil Step) as (pre & F & L & A).
  { repeat constructor. }
  exists pre. split; [|split; [exact L|exact A]].
  unfold buildTutorialSteps.
  change stepsConfig with
    (map (fun key => (key, Bottom))
       [lit "chat"; lit "quick_summary"; lit "deep_dive"; lit "technical"] ++
     [(lit "prompt-input", Top)]).
  rewrite fold_left_app, F. reflexivity.
Qed.

(** X15 ([handleTutorialNext], [showTutorialStep]). When no step has an
    identifier that breaks its selector, pressing Next never fails: it
    moves to the first later step whose target is on the page, showing
    that step's title and description and the label Done on the last step
    and Next on the others, and skipping only steps whose target is
    missing; when no later step has a target it closes the tutorial,
    records that it was seen and detaches the resize listener. *)
Theorem handleTutorialNext_moves_to_next_available
    (fuel : nat) (t : Tutorial) :
  (2 * length (tutorialSteps t) < fuel)%nat ->
  (forall s, In s (tutorialSteps t) ->
     targetElement getElementById querySelector s <> InvalidSelector) ->
  exists t',
    handleTutorialNext true true getElementById querySelector fuel t = TRet t' /\
    tutorialSteps t' = tutorialSteps t /\
    (currentTutorialStep t < currentTutorialStep t')%nat /\
    (forall k step,
       (currentTutorialStep t < k < currentTutorialStep t')%nat ->
       nth_error (tutorialSteps t) k = Some step ->
       targetElement getElementById querySelector step = NotFound) /\
    ((exists step,
        nth_error (tutorialSteps t) (currentTutorialStep t') = Some step /\
        targetElement getElementById querySelector step = Found /\
        shownTitle t' = Some (title step) /\
        shownDescription t' = Some (stepDescription step) /\
        nextLabel t' =
          Some (if (currentTutorialStep t' =? length (tutorialSteps t) - 1)%nat
                then lit "Done" else lit "Next") /\
        overlayHidden t' = overlayHidden t /\
        resizeListener t' = resizeListener t /\
        storage t' = storage t) \/
     ((length (tutorialSteps t) <= currentTutorialStep t')%nat /\
      overlayHidden t' = true /\
      resizeListener t' = false /\
      getItem (storage t') (lit "hasSeenTutorial") = Some (lit "true"))).
Proof. intros F V. exact (handleTutorialNext_settles fuel t F V). Qed.

(** X16 ([handleTutorialNext], [endTutorial]). A tutorial that is showing
    a step closes after at most as many presses of Next as there are
    steps left, without a TypeError: the overlay is hidden, the resize
    listener is detached and the local storage records that the tutorial
    was seen. *)
Theorem tutorial_closes_after_remaining_steps
    (fuel n : nat) (t : Tutorial) :
  overlayHidden t = false ->
  (currentTutorialStep t < length (tutorialSteps t))%nat ->
  (length (tutorialSteps t) - currentTutorialStep t <= n)%nat ->
  (2 * length (tutorialSteps t) < fuel)%nat ->
  (forall s, In s (tutorialSteps t) ->
     targetElement getElementById querySelector s <> InvalidSelector) ->
  exists t',
    pressNext true true getElementById querySelector fuel n t = TRet t' /\
    tutorialSteps t' = tutorialSteps t /\
    overlayHidden t' = true /\
    resizeListener t' = false /\
    getItem (storage t') (lit "hasSeenTutorial") = Some (lit "true").
Proof. intros H C N F V. exact (pressNext_closes fuel n t H C N F V). Qed.

(** X17 ([startTutorial]). With at least one step and no identifier that
    breaks its selector, starting the tutorial never fails and always
    leaves the resize listener attached: it shows the first step whose
    target is on the page, with the overlay visible; when no step has a
    target the overlay is hidden again and the tutorial recorded as seen,
    and the listener is attached all the same. *)
Theorem startTutorial_shows_first_available (fuel : nat) (t : Tutorial) :
  tutorialSteps t <> [] ->
  (2 * length (tutorialSteps t) < fuel)%nat ->
  (forall s, In s (tutorialSteps t) ->
     targetElement getElementById querySelector s <> InvalidSelector) ->
  exists t',
    startTutorial true true getElementById querySelector fuel t = TRet t' /\
    tutorialSteps t' = tutorialSteps t /\
    resizeListener t' = true /\
    (forall k step,
       (k < currentTutorialStep t')%nat ->
       nth_error (tutorialSteps t) k = Some step ->
       targetElement getElementById querySelector step = NotFound) /\
    ((exists step,
        nth_error (tutorialSteps t) (currentTutorialStep t') = Some step /\
        targetElement getElementById querySelector step = Found /\
        shownTitle t' = Some (title step) /\
        shownDescription t' = Some (stepDescription step) /\
        overlayHidden t' = false /\
        storage t' = storage t) \/
     ((length (tutorialSteps t) <= currentTutorialStep t')%nat /\
      overlayHidden t' = true /\
      getItem (storage t') (lit "hasSeenTutorial") = Some (lit "true"))).
Proof.
  intros Ne F V. unfold startTutorial.
  destruct (tutorialSteps t) as [|s0 steps] eqn:Es; [congruence|].
  cbn [length Nat.eqb negb orb].
  set (t1 := mkTutorial (s0 :: steps) 0 false (resizeListener t)
               (shownTitle t) (shownDescription t) (nextLabel t) (storage t)).
  destruct (showTutorialStep_settles (length (s0 :: steps)) fuel t1)
    as (t2 & R & St & _ & Sk & Se); [cbn; lia|cbn; lia|cbn in F |- *; lia|exact V|].
  unfold settled in Se. rewrite R. eexists. split; [reflexivity|]. cbn in St, Sk, Se |- *.
  split; [exact St|]. split; [reflexivity|]. split.
  - intros k step K E. apply (Sk k step); [lia|exact E].
  - destruct Se as [(step & E & T & Ti & De & _ & Hd & _ & So)|(L & Hd & _ & Sn)].
    + left. exists step. repeat split; auto.
    + right. repeat split; auto.
Qed.

End TutorialRun.

(** X18 ([toggleTheme], [initializeTheme], [applyTheme]). Toggling flips
    the dark mode and saves the choice, and the saved choice is what a
    later initialisation applies, whatever class the body starts with and
    whatever the system prefers. *)
Theorem theme_survives_reload (p : Page) (prefersDark bodyDark : bool) :
  darkMode (toggleTheme p) = negb (darkMode p) /\
  darkMode (initializeTheme prefersDark
              (mkPage bodyDark (pageStorage (toggleTheme p)))) =
    negb (darkMode p).
Proof.
  unfold toggleTheme, initializeTheme, applyTheme.
  destruct p as [[|] s]; cbn [darkMode pageStorage]; split; reflexivity.
Qed.

Lemma handleTutorialNext_moves_to_next_available_witness :
  exists t',
    handleTutorialNext true true (fun _ => true) (fun _ => Found) 5 sampleTutorial
      = TRet t' /\
    tutorialSteps t' = tutorialSteps sampleTutorial /\
    (currentTutorialStep sampleTutorial < currentTutorialStep t')%nat.
Proof.
  destruct (handleTutorialNext_moves_to_next_available
              (fun _ => true) (fun _ => Found) 5 sampleTutorial)
    as (t' & R & St & Lt & _).
  - vm_compute. lia.
  - intros s _. unfold targetElement. destruct (streqb _ _); discriminate.
  - exists t'. split; [exact R|]. split; [exact St|exact Lt].
Defined.

Lemma tutorial_closes_after_remaining_steps_witness :
  exists t',
    pressNext true true (fun _ => true) (fun _ => Found) 5 2 sampleTutorial = TRet t' /\
    tutorialSteps t' = tutorialSteps sampleTutorial /\
    overlayHidden t' = true /\
    resizeListener t' = false /\
    getItem (storage t') (lit "hasSeenTutorial") = Some (lit "true").
Proof.
  apply (tutorial_closes_after_remaining_steps
           (fun _ => true) (fun _ => Found) 5 2 sampleTutorial).
  - reflexivity.
  - vm_compute. lia.
  - vm_compute. lia.
  - vm_compute. lia.
  - intros s _. unfold targetElement. destruct (streqb _ _); discriminate.
Defined.

Lemma startTutorial_shows_first_available_witness :
  exists t',
    startTutorial true true (fun _ => true) (fun _ => NotFound) 5 sampleTutorial
      = TRet t' /\
    resizeListener t' = true /\
    currentTutorialStep t' = 1%nat /\
    overlayHidden t' = false.
Proof.
  destruct (startTutorial_shows_first_available
              (fun _ => true) (fun _ => NotFound) 5 sampleTutorial)
    as (t' & R & _ & Li & _).
  - vm_compute. discriminate.
  - vm_compute. lia.
  - intros s _. unfold targetElement. destruct (streqb _ _); discriminate.
  - exists t'. split; [exact R|]. split; [exact Li|].
    vm_compute in R. injection R as <-. split; reflexivity.
Defined.

(* ================================================================== *)
(** ** Facts about the conversion to HTML *)
(* ================================================================== *)

Section ReplaceFacts.

Lemma replaceAll_cons (m : Matcher) (b : bool) (c : char) (s : str) :
  replaceAll m 0 b (c :: s) =
  match m b (c :: s) with
  | Some (S k, r) => r ++ replaceAll m k (isLineTerminator c) s
  | _ => c :: replaceAll m 0 (isLineTerminator c) s
  end.
Proof. reflexivity. Qed.

Lemma replaceAll_angle (c : char) (e : str) (s : str) :
  forall b,
    replaceAll (angle c e) 0 b s = flat_map (fun x => if N.eqb x c then e else [x]) s.
Proof.
  induction s as [|x s IH]; intros b; [reflexivity|].
  rewrite replaceAll_cons. unfold angle at 1. cbn [flat_map].
  destruct (N.eqb x c).
  - cbn [replaceAll]. rewrite IH. reflexivity.
  - rewrite IH. reflexivity.
Qed.

Lemma flat_map_cons {A B : Type} (f : A -> list B) (c : A) (s : list A) :
  flat_map f (c :: s) = f c ++ flat_map f s.
Proof. reflexivity. Qed.

Lemma safeText_flat_map (text : str) : safeText text = flat_map escapeUnit text.
Proof.
  unfold safeText, replace. rewrite !replaceAll_angle.
  induction text as [|c text IH]; [reflexivity|].
  rewrite (flat_map_cons _ c text), flat_map_app, (flat_map_cons escapeUnit).
  f_equal; [|exact IH]. unfold escapeUnit.
  destruct (N.eqb c lessThan) eqn:L; [reflexivity|].
  cbn [flat_map]. rewrite app_nil_r. reflexivity.
Qed.

Lemma escapeUnit_plain (c : char) :
  c <> lessThan -> c <> greaterThan -> escapeUnit c = [c].
Proof.
  intros L G. unfold escapeUnit.
  destruct (N.eqb_spec c lessThan); [contradiction|].
  destruct (N.eqb_spec c greaterThan); [contradiction|reflexivity].
Qed.

Lemma escapeUnit_cases (c : char) :
  (c <> lessThan /\ c <> greaterThan /\ escapeUnit c = [c]) \/
  (c = lessThan /\ escapeUnit c = lit "&lt;") \/
  (c = greaterThan /\ escapeUnit c = lit "&gt;").
Proof.
  unfold escapeUnit.
  destruct (N.eqb_spec c lessThan) as [->|L]; [right; left; now split|].
  destruct (N.eqb_spec c greaterThan) as [->|G]; [right; right; now split|].
  left. now repeat split.
Qed.

Lemma safeText_no_angle (text : str) :
  ~ In lessThan (safeText text) /\ ~ In greaterThan (safeText text).
Proof.
  rewrite safeText_flat_map.
  split; intros H; apply in_flat_map in H; destruct H as (c & _ & H);
    destruct (escapeUnit_cases c) as [(L & G & E)|[(-> & E)|(-> & E)]];
    rewrite E in H; cbn in H; intuition (try congruence; try discriminate).
Qed.

Lemma safeText_plain (text : str) :
  ~ In lessThan text -> ~ In greaterThan text -> safeText text = text.
Proof.
  rewrite safeText_flat_map.
  induction text as [|c text IH]; intros L G; [reflexivity|].
  cbn [flat_map]. rewrite escapeUnit_plain, IH; cbn in *; intuition congruence.
Qed.

(** Where nothing matches, nothing is replaced. *)
Lemma replaceAll_lineMarker_none (marker opening closing : str) (s : str) :
  forall b,
    anyLineStarts marker b s = false ->
    replaceAll (lineMarker marker opening closing) 0 b s = s.
Proof.
  induction s as [|c s IH]; intros b H; [reflexivity|].
  cbn [anyLineStarts] in H. apply orb_false_elim in H. destruct H as [H1 H2].
  rewrite replaceAll_cons. unfold lineMarker at 1. rewrite H1.
  rewrite IH by exact H2. reflexivity.
Qed.

Lemma hasBoldPair_cons (c : char) (s : str) :
  hasBoldPair (c :: s) =
  match matchBold (c :: s) with Some _ => true | None => hasBoldPair s end.
Proof. reflexivity. Qed.

Lemma hasUrl_cons (c : char) (s : str) :
  hasUrl (c :: s) =
  match matchUrl (c :: s) with Some _ => true | None => hasUrl s end.
Proof. reflexivity. Qed.

Lemma replaceAll_strong_none (s : str) :
  forall b, hasBoldPair s = false -> replaceAll strong 0 b s = s.
Proof.
  induction s as [|c s IH]; intros b H; [reflexivity|].
  rewrite hasBoldPair_cons in H. rewrite replaceAll_cons. unfold strong at 1.
  destruct (matchBold (c :: s)); [discriminate|]. rewrite IH by exact H. reflexivity.
Qed.

Lemma replaceAll_autolink_none (s : str) :
  forall b, hasUrl s = false -> replaceAll autolink 0 b s = s.
Proof.
  induction s as [|c s IH]; intros b H; [reflexivity|].
  rewrite hasUrl_cons in H. rewrite replaceAll_cons. unfold autolink at 1.
  destruct (matchUrl (c :: s)); [discriminate|]. rewrite IH by exact H. reflexivity.
Qed.

Lemma canonicalize_lessThan (c : char) :
  N.eqb (canonicalize c) (canonicalize lessThan) = true -> c = lessThan.
Proof.
  unfold canonicalize, lessThan. cbn.
  destruct ((97 <=? c)%N && (c <=? 122)%N) eqn:E; intros H; apply N.eqb_eq in H.
  - apply andb_prop in E. destruct E as [E1 E2].
    apply N.leb_le in E1. apply N.leb_le in E2. lia.
  - exact H.
Qed.

Lemma adjacentLists_head (b : bool) (c : char) (s : str) :
  c <> lessThan -> adjacentLists b (c :: s) = None.
Proof.
  intros H. unfold adjacentLists.
  change (lit "</ul>") with (lessThan :: lit "/ul>"). cbn [startsWithIgnoreCase].
  destruct (N.eqb (canonicalize c) (canonicalize lessThan)) eqn:E.
  - apply canonicalize_lessThan in E. contradiction.
  - reflexivity.
Qed.

Lemma replaceAll_adjacentLists_none (s : str) :
  forall b, ~ In lessThan s -> replaceAll adjacentLists 0 b s = s.
Proof.
  induction s as [|c s IH]; intros b H; [reflexivity|].
  rewrite replaceAll_cons, adjacentLists_head by (cbn in H; intuition congruence).
  rewrite IH by (cbn in H; intuition congruence). reflexivity.
Qed.

End ReplaceFacts.

Section EscapeTransfer.

(** A pattern without [&], [<] and [>] starts the escaped text exactly
    when it starts the text. *)
Lemma startsWith_escaped (p : str) :
  ~ In 38%N p -> ~ In lessThan p -> ~ In greaterThan p ->
  forall s, startsWith (flat_map escapeUnit s) p = startsWith s p.
Proof.
  induction p as [|y p IH]; intros A L G s; [reflexivity|].
  destruct s as [|c s]; [reflexivity|].
  cbn [flat_map].
  destruct (escapeUnit_cases c) as [(Lc & Gc & E)|[(-> & E)|(-> & E)]]; rewrite E.
  - cbn [app startsWith]. rewrite IH by (cbn in *; intuition congruence). reflexivity.
  - cbn [lit app startsWith].
    destruct (N.eqb_spec (N_of_ascii "&") y) as [X|X];
      [exfalso; apply A; left; symmetry; exact X|].
    destruct (N.eqb_spec lessThan y) as [Y|Y];
      [exfalso; apply L; left; symmetry; exact Y|]. reflexivity.
  - cbn [lit app startsWith].
    destruct (N.eqb_spec (N_of_ascii "&") y) as [X|X];
      [exfalso; apply A; left; symmetry; exact X|].
    destruct (N.eqb_spec greaterThan y) as [Y|Y];
      [exfalso; apply G; left; symmetry; exact Y|]. reflexivity.
Qed.

End EscapeTransfer.

Section EscapeKeeps.

Lemma flat_map_escape_plain (p : str) (s : str) :
  ~ In lessThan p -> ~ In greaterThan p ->
  flat_map escapeUnit (p ++ s) = p ++ flat_map escapeUnit s.
Proof.
  intros L G. induction p as [|c p IH]; [reflexivity|].
  cbn [app]. rewrite flat_map_cons, escapeUnit_plain, IH; cbn in *;
    intuition congruence.
Qed.

Lemma startsWith_head_ne (x y : char) (s p : str) :
  x <> y -> startsWith (x :: s) (y :: p) = false.
Proof.
  intros H. cbn [startsWith]. destruct (N.eqb_spec x y); [contradiction|reflexivity].
Qed.

Lemma anyLineStarts_entity (y : char) (p : str) (b : bool) (e1 e2 : char) (s : str) :
  y <> 38%N ->
  isLineTerminator e1 = false -> isLineTerminator e2 = false ->
  anyLineStarts (y :: p) b ([38%N; e1; e2; 59%N] ++ s) = anyLineStarts (y :: p) false s.
Proof.
  intros Y E1 E2. cbn [app anyLineStarts].
  rewrite E1, E2, (@startsWith_head_ne 38%N y _ p) by congruence.
  rewrite andb_false_r. reflexivity.
Qed.

Lemma anyLineStarts_escaped (y : char) (p : str) (s : str) :
  ~ In 38%N (y :: p) -> ~ In lessThan (y :: p) -> ~ In greaterThan (y :: p) ->
  forall b,
    anyLineStarts (y :: p) b (flat_map escapeUnit s) = anyLineStarts (y :: p) b s.
Proof.
  intros A L G. induction s as [|c s IH]; intros b; [reflexivity|].
  pose proof (@startsWith_escaped (y :: p) A L G (c :: s)) as S0.
  rewrite flat_map_cons in *.
  assert (Y1 : y <> 38%N) by (cbn in A; intuition congruence).
  assert (Y2 : lessThan <> y) by (cbn in L; intuition congruence).
  assert (Y3 : greaterThan <> y) by (cbn in G; intuition congruence).
  destruct (escapeUnit_cases c) as [(Lc & Gc & E)|[(-> & E)|(-> & E)]];
    rewrite E in *.
  - cbn [app anyLineStarts] in *. rewrite S0, IH. reflexivity.
  - change (lit "&lt;") with [38%N; 108%N; 116%N; 59%N].
    rewrite anyLineStarts_entity by (reflexivity || exact Y1).
    cbn [anyLineStarts]. rewrite (startsWith_head_ne lessThan y s p Y2), andb_false_r, IH.
    reflexivity.
  - change (lit "&gt;") with [38%N; 103%N; 116%N; 59%N].
    rewrite anyLineStarts_entity by (reflexivity || exact Y1).
    cbn [anyLineStarts]. rewrite (startsWith_head_ne greaterThan y s p Y3), andb_false_r, IH.
    reflexivity.
Qed.

Lemma lazyDotsStars_skip (c : char) (s : str) :
  c <> star -> isLineTerminator c = false ->
  lazyDotsStars (c :: s) = option_map S (lazyDotsStars s).
Proof.
  intros C T. rewrite lazyDotsStars_eq, (startsWith_head_ne c star s [star] C), T.
  reflexivity.
Qed.

Lemma lazyDotsStars_escaped (s : str) :
  lazyDotsStars (flat_map escapeUnit s) = None <-> lazyDotsStars s = None.
Proof.
  assert (P : forall o : option nat, option_map S o = None <-> o = None).
  { intros [n|]; cbn; split; intros; congruence. }
  induction s as [|c s IH]; [reflexivity|].
  assert (S0 : startsWith (flat_map escapeUnit (c :: s)) [star; star]
               = startsWith (c :: s) [star; star]).
  { apply startsWith_escaped; cbn; unfold star, lessThan, greaterThan;
      intuition discriminate. }
  rewrite flat_map_cons in *.
  destruct (escapeUnit_cases c) as [(Lc & Gc & E)|[(-> & E)|(-> & E)]];
    rewrite E in *.
  - cbn [app] in *. rewrite lazyDotsStars_eq, S0, (lazyDotsStars_eq (c :: s)).
    destruct (startsWith (c :: s) [star; star]); [reflexivity|].
    destruct (isLineTerminator c); [reflexivity|]. rewrite !P. exact IH.
  - change (lit "&lt;") with [38%N; 108%N; 116%N; 59%N]. cbn [app].
    rewrite !lazyDotsStars_skip by (reflexivity || discriminate).
    rewrite !P. exact IH.
  - change (lit "&gt;") with [38%N; 103%N; 116%N; 59%N]. cbn [app].
    rewrite !lazyDotsStars_skip by (reflexivity || discriminate).
    rewrite !P. exact IH.
Qed.

Lemma matchBold_head_ne (c : char) (s : str) :
  c <> star -> matchBold (c :: s) = None.
Proof.
  intros C. unfold matchBold. rewrite (startsWith_head_ne c star s [star] C). reflexivity.
Qed.

Lemma matchBold_escaped (s : str) :
  matchBold (flat_map escapeUnit s) = None <-> matchBold s = None.
Proof.
  assert (P : forall o : option nat,
            option_map (fun n => (2 + n)%nat) o = None <-> o = None).
  { intros [n|]; cbn; split; intros; congruence. }
  assert (S0 : startsWith (flat_map escapeUnit s) [star; star]
               = startsWith s [star; star]).
  { apply startsWith_escaped; cbn; unfold star, lessThan, greaterThan;
      intuition discriminate. }
  unfold matchBold. rewrite S0.
  destruct (startsWith s [star; star]) eqn:E; [|reflexivity].
  apply startsWith_two in E. rewrite E at 1.
  change (star :: star :: skipn 2 s) with ([star; star] ++ skipn 2 s).
  rewrite flat_map_escape_plain
    by (cbn; unfold star, lessThan, greaterThan; intuition discriminate).
  cbn [app skipn]. rewrite !P. apply lazyDotsStars_escaped.
Qed.

Lemma hasBoldPair_escaped (s : str) :
  hasBoldPair (flat_map escapeUnit s) = hasBoldPair s.
Proof.
  induction s as [|c s IH]; [reflexivity|].
  pose proof (matchBold_escaped (c :: s)) as M.
  rewrite flat_map_cons in *.
  destruct (escapeUnit_cases c) as [(Lc & Gc & E)|[(-> & E)|(-> & E)]];
    rewrite E in *.
  - cbn [app] in *. rewrite !hasBoldPair_cons.
    destruct (matchBold (c :: flat_map escapeUnit s)) as [n|],
             (matchBold (c :: s)) as [k|]; try reflexivity; try exact IH.
    + destruct M as [_ M]. specialize (M eq_refl). discriminate.
    + destruct M as [M _]. specialize (M eq_refl). discriminate.
  - change (lit "&lt;") with [38%N; 108%N; 116%N; 59%N]. cbn [app].
    rewrite !hasBoldPair_cons, !matchBold_head_ne by discriminate. exact IH.
  - change (lit "&gt;") with [38%N; 103%N; 116%N; 59%N]. cbn [app].
    rewrite !hasBoldPair_cons, !matchBold_head_ne by discriminate. exact IH.
Qed.

Lemma matchUrlTail_escaped (t : str) :
  matchUrlTail (flat_map escapeUnit t) = None <-> matchUrlTail t = None.
Proof.
  assert (S0 : startsWith (flat_map escapeUnit t) (lit "://")
               = startsWith t (lit "://")).
  { apply startsWith_escaped; cbn; unfold lessThan, greaterThan;
      intuition discriminate. }
  unfold matchUrlTail. rewrite S0.
  destruct (startsWith t (lit "://")) eqn:E; [|reflexivity].
  apply startsWith_decompose in E. change (length (lit "://")) with 3%nat in E.
  rewrite E at 1.
  rewrite flat_map_escape_plain
    by (cbn; unfold lessThan, greaterThan; intuition discriminate).
  change (skipn 3 (lit "://" ++ flat_map escapeUnit (skipn 3 t)))
    with (flat_map escapeUnit (skipn 3 t)).
  destruct (skipn 3 t) as [|c u]; [reflexivity|].
  rewrite flat_map_cons.
  destruct (escapeUnit_cases c) as [(Lc & Gc & X)|[(-> & X)|(-> & X)]]; rewrite X.
  - cbn [app takeWhile]. destruct (isWhiteSpace c); cbn; split; congruence.
  - cbn. split; congruence.
  - cbn. split; congruence.
Qed.

Lemma matchUrl_head_ne (c : char) (s : str) :
  c <> ch "h" -> matchUrl (c :: s) = None.
Proof.
  intros C. unfold matchUrl.
  change (lit "http") with (ch "h" :: lit "ttp").
  rewrite (startsWith_head_ne c (ch "h") s (lit "ttp") C). reflexivity.
Qed.

Lemma matchUrl_http (r : str) :
  matchUrl (lit "http" ++ r) =
  match
    match r with
    | c :: r' => if N.eqb c (ch "s") then option_map S (matchUrlTail r') else None
    | [] => None
    end
  with
  | Some n => Some (4 + n)%nat
  | None => option_map (fun n => 4 + n)%nat (matchUrlTail r)
  end.
Proof. reflexivity. Qed.

Lemma matchUrl_escaped (s : str) :
  matchUrl (flat_map escapeUnit s) = None <-> matchUrl s = None.
Proof.
  assert (P : forall (f : nat -> nat) (o : option nat),
            option_map f o = None <-> o = None).
  { intros f [n|]; cbn; split; intros; congruence. }
  assert (S0 : startsWith (flat_map escapeUnit s) (lit "http")
               = startsWith s (lit "http")).
  { apply startsWith_escaped; cbn; unfold lessThan, greaterThan;
      intuition discriminate. }
  destruct (startsWith s (lit "http")) eqn:E.
  2:{ unfold matchUrl. rewrite S0, E. reflexivity. }
  clear S0. apply startsWith_decompose in E. change (length (lit "http")) with 4%nat in E.
  set (r0 := skipn 4 s) in *. clearbody r0. subst s.
  rewrite flat_map_escape_plain
    by (cbn; unfold lessThan, greaterThan; intuition discriminate).
  rewrite !matchUrl_http.
  pose proof (matchUrlTail_escaped r0) as T.
  destruct r0 as [|c r]; [reflexivity|].
  rewrite flat_map_cons in *.
  destruct (escapeUnit_cases c) as [(Lc & Gc & X)|[(-> & X)|(-> & X)]];
    rewrite X in *.
  - cbn [app] in *.
    pose proof (matchUrlTail_escaped r) as Tr.
    destruct (N.eqb c (ch "s")).
    + destruct (matchUrlTail (flat_map escapeUnit r)) as [n|],
               (matchUrlTail r) as [k|]; cbn [option_map].
      * split; discriminate.
      * destruct Tr as [_ Tr]. specialize (Tr eq_refl). discriminate.
      * destruct Tr as [Tr _]. specialize (Tr eq_refl). discriminate.
      * rewrite !P. exact T.
    + rewrite !P. exact T.
  - change (lit "&lt;") with [38%N; 108%N; 116%N; 59%N] in *. cbn [app] in *.
    change (N.eqb 38 (ch "s")) with false. change (N.eqb lessThan (ch "s")) with false.
    cbv iota. rewrite !P. exact T.
  - change (lit "&gt;") with [38%N; 103%N; 116%N; 59%N] in *. cbn [app] in *.
    change (N.eqb 38 (ch "s")) with false. change (N.eqb greaterThan (ch "s")) with false.
    cbv iota. rewrite !P. exact T.
Qed.

Lemma hasUrl_escaped (s : str) :
  hasUrl (flat_map escapeUnit s) = hasUrl s.
Proof.
  induction s as [|c s IH]; [reflexivity|].
  pose proof (matchUrl_escaped (c :: s)) as M.
  rewrite flat_map_cons in *.
  destruct (escapeUnit_cases c) as [(Lc & Gc & E)|[(-> & E)|(-> & E)]];
    rewrite E in *.
  - cbn [app] in *. rewrite !hasUrl_cons.
    destruct (matchUrl (c :: flat_map escapeUnit s)) as [n|],
             (matchUrl (c :: s)) as [k|]; try reflexivity; try exact IH.
    + destruct M as [_ M]. specialize (M eq_refl). discriminate.
    + destruct M as [M _]. specialize (M eq_refl). discriminate.
  - change (lit "&lt;") with [38%N; 108%N; 116%N; 59%N]. cbn [app].
    rewrite !hasUrl_cons, !matchUrl_head_ne by discriminate. exact IH.
  - change (lit "&gt;") with [38%N; 103%N; 116%N; 59%N]. cbn [app].
    rewrite !hasUrl_cons, !matchUrl_head_ne by discriminate. exact IH.
Qed.

End EscapeKeeps.

(** X19 ([markdownToHtml]). Text without markup is only escaped: when no
    line of the text starts with [## ], [### ] or [- ], and the text holds
    no bold marker pair and no URL, the result is the text with every [<]
    and [>] replaced by its entity; it holds no angle bracket at all. *)
Theorem markdownToHtml_plain_text (text : str) :
  anyLineStarts (lit "## ") true text = false ->
  anyLineStarts (lit "### ") true text = false ->
  anyLineStarts (lit "- ") true text = false ->
  hasBoldPair text = false ->
  hasUrl text = false ->
  markdownToHtml text = flat_map escapeUnit text /\
  ~ In lessThan (markdownToHtml text) /\ ~ In greaterThan (markdownToHtml text).
Proof.
  intros H2 H3 Li Bo Ur.
  assert (E : markdownToHtml text = safeText text).
  { unfold markdownToHtml, headers2, headers3, lists, replace.
    pose proof (safeText_no_angle text) as [NL _].
    rewrite safeText_flat_map in *.
    rewrite (@replaceAll_lineMarker_none (lit "## ") (lit "<h2>") (lit "</h2>")
               (flat_map escapeUnit text) true)
      by (change (lit "## ") with (35%N :: lit "# "); rewrite anyLineStarts_escaped;
          [exact H2| | |]; cbn; unfold lessThan, greaterThan; intuition discriminate).
    rewrite (@replaceAll_lineMarker_none (lit "### ") (lit "<h3>") (lit "</h3>")
               (flat_map escapeUnit text) true)
      by (change (lit "### ") with (35%N :: lit "## "); rewrite anyLineStarts_escaped;
          [exact H3| | |]; cbn; unfold lessThan, greaterThan; intuition discriminate).
    rewrite replaceAll_strong_none by (rewrite hasBoldPair_escaped; exact Bo).
    rewrite (@replaceAll_lineMarker_none (lit "- ") (lit "<ul><li>") (lit "</li></ul>")
               (flat_map escapeUnit text) true)
      by (change (lit "- ") with (45%N :: lit " "); rewrite anyLineStarts_escaped;
          [exact Li| | |]; cbn; unfold lessThan, greaterThan; intuition discriminate).
    rewrite replaceAll_adjacentLists_none by exact NL.
    rewrite replaceAll_autolink_none by (rewrite hasUrl_escaped; exact Ur).
    reflexivity. }
  rewrite E. split; [apply safeText_flat_map|apply safeText_no_angle].
Qed.

Section BulletLists.

Lemma bulletLines_flat (item : str) (items : list str) :
  bulletLines (item :: items) =
  lit "- " ++ item ++ flat_map (fun i => 10%N :: lit "- " ++ i) items.
Proof.
  revert item. induction items as [|i items IH]; intros item.
  - cbn [bulletLines flat_map]. rewrite app_nil_r. reflexivity.
  - change (bulletLines (item :: i :: items))
      with (lit "- " ++ item ++ [10%N] ++ bulletLines (i :: items)).
    rewrite IH. cbn [flat_map app]. reflexivity.
Qed.

Lemma replaceAll_skip (m : Matcher) (p s : str) :
  Forall (fun c => isLineTerminator c = false) p ->
  replaceAll m (length p) false (p ++ s) = replaceAll m 0 false s.
Proof.
  induction 1 as [|c p C _ IH]; [reflexivity|].
  cbn [length app replaceAll]. rewrite C. exact IH.
Qed.

Lemma takeWhile_line (p s : str) :
  Forall (fun c => isLineTerminator c = false) p ->
  s = [] \/ (exists r, s = 10%N :: r) ->
  takeWhile (fun c => negb (isLineTerminator c)) (p ++ s) = p.
Proof.
  intros F S. induction F as [|c p C _ IH].
  - destruct S as [->|(r & ->)]; reflexivity.
  - cbn [app takeWhile]. rewrite C. cbn [negb]. f_equal. exact IH.
Qed.

(** One bullet line at the start of a line. *)
Lemma lists_step (item s : str) :
  Forall (fun c => isLineTerminator c = false) item ->
  s = [] \/ (exists r, s = 10%N :: r) ->
  replaceAll (lineMarker (lit "- ") (lit "<ul><li>") (lit "</li></ul>")) 0 true
    (lit "- " ++ item ++ s) =
  lit "<ul><li>" ++ item ++ lit "</li></ul>" ++
  replaceAll (lineMarker (lit "- ") (lit "<ul><li>") (lit "</li></ul>")) 0 false s.
Proof.
  intros F Hs.
  change (lit "- " ++ item ++ s) with (45%N :: 32%N :: item ++ s).
  rewrite replaceAll_cons. unfold lineMarker at 1.
  change (startsWith (45%N :: 32%N :: item ++ s) (lit "- ")) with true.
  cbn [andb]. change (length (lit "- ")) with 2%nat. cbn [skipn].
  rewrite (takeWhile_line item s F Hs). cbn [Nat.add].
  change (isLineTerminator 45%N) with false.
  change (replaceAll ?m (Datatypes.S (length item)) false (32%N :: item ++ s))
    with (replaceAll m (length item) false (item ++ s)).
  rewrite (replaceAll_skip _ item s F), <- !app_assoc. reflexivity.
Qed.

Lemma lists_rest (items : list str) :
  Forall (Forall (fun c => isLineTerminator c = false)) items ->
  replaceAll (lineMarker (lit "- ") (lit "<ul><li>") (lit "</li></ul>")) 0 false
    (flat_map (fun i => 10%N :: lit "- " ++ i) items) =
  flat_map (fun i => 10%N :: lit "<ul><li>" ++ i ++ lit "</li></ul>") items.
Proof.
  induction 1 as [|i items F _ IH]; [reflexivity|].
  rewrite !flat_map_cons.
  set (R := flat_map (fun i => 10%N :: lit "- " ++ i) items) in *.
  change ((10%N :: lit "- " ++ i) ++ R) with (10%N :: lit "- " ++ i ++ R).
  rewrite replaceAll_cons. unfold lineMarker at 1. cbn [andb].
  change (isLineTerminator 10%N) with true.
  rewrite lists_step, IH.
  - cbn [app]. rewrite <- !app_assoc. reflexivity.
  - exact F.
  - subst R. destruct items as [|j items]; [left; reflexivity|right].
    rewrite flat_map_cons. eexists. reflexivity.
Qed.

End BulletLists.

Section Collapse.

Lemma replaceAll_adjacentLists_start (s : str) :
  forall k b, replaceAll adjacentLists k b s = replaceAll adjacentLists k true s.
Proof.
  induction s as [|c s IH]; intros k b; [reflexivity|].
  destruct k as [|k].
  - rewrite !replaceAll_cons.
    change (adjacentLists b (c :: s)) with (adjacentLists true (c :: s)).
    reflexivity.
  - cbn [replaceAll]. reflexivity.
Qed.

Lemma replaceAll_adjacentLists_copy (p s : str) :
  ~ In lessThan p ->
  forall b,
    replaceAll adjacentLists 0 b (p ++ s) = p ++ replaceAll adjacentLists 0 true s.
Proof.
  induction p as [|c p IH]; intros N b.
  - apply replaceAll_adjacentLists_start.
  - cbn [app]. rewrite replaceAll_cons, adjacentLists_head by (cbn in N; intuition congruence).
    rewrite IH by (cbn in N; intuition congruence). reflexivity.
Qed.

Lemma adjacent_flat (i : str) (items : list str) :
  flat_map (fun i => 10%N :: lit "<ul><li>" ++ i ++ lit "</li></ul>") (i :: items) =
  10%N :: lit "<ul>" ++ lit "<li>" ++ i ++ lit "</li></ul>" ++
  flat_map (fun i => 10%N :: lit "<ul><li>" ++ i ++ lit "</li></ul>") items.
Proof.
  rewrite flat_map_cons. cbn [app lit]. rewrite <- !app_assoc. reflexivity.
Qed.

Lemma adjacent_li (b : bool) (t : str) :
  replaceAll adjacentLists 0 b (lit "<li>" ++ t) =
  lit "<li>" ++ replaceAll adjacentLists 0 true t.
Proof.
  change (replaceAll adjacentLists 0 b (lit "<li>" ++ t))
    with (lit "<li>" ++ replaceAll adjacentLists 0 false t).
  rewrite replaceAll_adjacentLists_start. reflexivity.
Qed.

(** The items of one list, after the first opening tag. *)
Lemma adjacent_items (items : list str) :
  forall item b,
    ~ In lessThan item ->
    Forall (fun i => ~ In lessThan i) items ->
    replaceAll adjacentLists 0 b
      (lit "<li>" ++ item ++ lit "</li></ul>" ++
       flat_map (fun i => 10%N :: lit "<ul><li>" ++ i ++ lit "</li></ul>") items) =
    lit "<li>" ++ item ++ lit "</li>" ++
    flat_map (fun i => lit "<li>" ++ i ++ lit "</li>") items ++ lit "</ul>".
Proof.
  induction items as [|i items IH]; intros item b N F.
  - cbn [flat_map]. rewrite !app_nil_r, app_nil_l.
    rewrite adjacent_li.
    rewrite (replaceAll_adjacentLists_copy item) by exact N.
    reflexivity.
  - inversion F as [|? ? Ni Fi]; subst.
    rewrite adjacent_flat.
    rewrite adjacent_li.
    rewrite (replaceAll_adjacentLists_copy item) by exact N.
    set (X := lit "<li>" ++ i ++ lit "</li></ul>" ++
              flat_map (fun i => 10%N :: lit "<ul><li>" ++ i ++ lit "</li></ul>") items).
    change (replaceAll adjacentLists 0 true (lit "</li></ul>" ++ 10%N :: lit "<ul>" ++ X))
      with (lit "</li>" ++ replaceAll adjacentLists 0 false X).
    subst X. rewrite (IH i false Ni Fi), flat_map_cons, <- !app_assoc. reflexivity.
Qed.

Lemma hasUrlScheme_head_ne (c : char) (s : str) :
  c <> ch "h" -> hasUrlScheme (c :: s) = hasUrlScheme s.
Proof.
  intros C. rewrite hasUrlScheme_eq.
  change (lit "http://") with (ch "h" :: lit "ttp://").
  change (lit "https://") with (ch "h" :: lit "ttps://").
  rewrite !(startsWith_head_ne c (ch "h") s _ C). reflexivity.
Qed.

Lemma startsWith_app_stop (p : str) (c : char) :
  ~ In c p ->
  forall a s, startsWith (a ++ c :: s) p = true -> startsWith a p = true.
Proof.
  induction p as [|y p IH]; intros N a s H; [reflexivity|].
  destruct a as [|x a].
  - cbn [app startsWith] in H. apply andb_prop in H. destruct H as [H _].
    apply N.eqb_eq in H. exfalso. apply N. left. symmetry. exact H.
  - cbn [app startsWith] in *. apply andb_prop in H. destruct H as [H1 H2].
    rewrite H1. cbn [andb]. apply (IH (fun X => N (or_intror X)) a s H2).
Qed.

Lemma hasUrlScheme_before_tag (a s : str) :
  hasUrlScheme a = false ->
  hasUrlScheme (a ++ lessThan :: s) = hasUrlScheme s.
Proof.
  induction a as [|x a IH]; intros H.
  - cbn [app]. apply hasUrlScheme_head_ne. discriminate.
  - rewrite hasUrlScheme_eq in H. apply orb_false_elim in H. destruct H as [H H3].
    apply orb_false_elim in H. destruct H as [H1 H2].
    cbn [app]. rewrite hasUrlScheme_eq.
    change (x :: a ++ lessThan :: s) with ((x :: a) ++ lessThan :: s).
    destruct (startsWith ((x :: a) ++ lessThan :: s) (lit "http://")) eqn:E1.
    { apply startsWith_app_stop in E1; [congruence|].
      cbn; unfold lessThan; intuition discriminate. }
    destruct (startsWith ((x :: a) ++ lessThan :: s) (lit "https://")) eqn:E2.
    { apply startsWith_app_stop in E2; [congruence|].
      cbn; unfold lessThan; intuition discriminate. }
    cbn [orb]. apply IH. exact H3.
Qed.

Lemma hasUrl_scheme (s : str) : hasUrl s = true -> hasUrlScheme s = true.
Proof.
  induction s as [|c s IH]; [discriminate|].
  rewrite hasUrl_cons, hasUrlScheme_eq.
  destruct (matchUrl (c :: s)) as [n|] eqn:M.
  - intros _. destruct (@matchUrl_scheme _ _ M) as [E|E]; rewrite E;
      [reflexivity|apply orb_true_iff; left; apply orb_true_r].
  - intros H. rewrite (IH H). apply orb_true_r.
Qed.

Lemma hasUrlScheme_items (items : list str) :
  Forall (fun i => hasUrlScheme i = false) items ->
  hasUrlScheme (flat_map (fun i => lit "<li>" ++ i ++ lit "</li>") items ++ lit "</ul>")
    = false.
Proof.
  induction 1 as [|i items H _ IH]; [reflexivity|].
  rewrite flat_map_cons, <- !app_assoc.
  change (lit "<li>" ++ i ++ lit "</li>" ++ ?t)
    with (60%N :: 108%N :: 105%N :: 62%N :: i ++ lessThan :: lit "/li>" ++ t).
  rewrite !hasUrlScheme_head_ne by discriminate.
  rewrite (@hasUrlScheme_before_tag i _ H).
  change (lit "/li>" ++ ?t) with (47%N :: 108%N :: 105%N :: 62%N :: t).
  rewrite !hasUrlScheme_head_ne by discriminate. exact IH.
Qed.

Lemma hasBoldPair_no_star (s : str) : ~ In star s -> hasBoldPair s = false.
Proof.
  induction s as [|c s IH]; intros N; [reflexivity|].
  rewrite hasBoldPair_cons, matchBold_head_ne by (cbn in N; intuition congruence).
  apply IH. cbn in N. intuition.
Qed.

Lemma anyLineStarts_line (y : char) (p : str) (a s : str) :
  Forall (fun c => isLineTerminator c = false) a ->
  anyLineStarts (y :: p) false (a ++ s) = anyLineStarts (y :: p) false s.
Proof.
  induction 1 as [|c a C _ IH]; [reflexivity|].
  cbn [app anyLineStarts andb orb]. rewrite C. exact IH.
Qed.

Lemma anyLineStarts_bullet (y : char) (p : str) (a s : str) :
  y <> 45%N ->
  Forall (fun c => isLineTerminator c = false) a ->
  anyLineStarts (y :: p) true (lit "- " ++ a ++ s) = anyLineStarts (y :: p) false s.
Proof.
  intros Y F. change (lit "- " ++ a ++ s) with (45%N :: 32%N :: a ++ s).
  cbn [anyLineStarts]. rewrite (@startsWith_head_ne 45%N y _ p) by congruence.
  change (isLineTerminator 45%N) with false. change (isLineTerminator 32%N) with false.
  cbn [andb orb]. apply anyLineStarts_line. exact F.
Qed.

Lemma anyLineStarts_bullets (y : char) (p : str) (items : list str) :
  y <> 45%N ->
  Forall (Forall (fun c => isLineTerminator c = false)) items ->
  anyLineStarts (y :: p) false (flat_map (fun i => 10%N :: lit "- " ++ i) items) = false.
Proof.
  intros Y. induction 1 as [|i items F _ IH]; [reflexivity|].
  rewrite flat_map_cons.
  set (R := flat_map (fun i => 10%N :: lit "- " ++ i) items) in *.
  change ((10%N :: lit "- " ++ i) ++ R) with (10%N :: lit "- " ++ i ++ R).
  cbn [anyLineStarts andb orb]. change (isLineTerminator 10%N) with true.
  rewrite anyLineStarts_bullet by assumption. exact IH.
Qed.

End Collapse.

Section OneList.

Lemma bulletLines_Forall (P : char -> Prop) (item : str) (items : list str) :
  P 45%N -> P 32%N -> P 10%N ->
  Forall (Forall P) (item :: items) ->
  Forall P (bulletLines (item :: items)).
Proof.
  intros P1 P2 P3 F. rewrite bulletLines_flat.
  inversion F as [|? ? Fi Fr]; subst. clear F.
  apply Forall_app. split; [repeat constructor; assumption|].
  apply Forall_app. split; [exact Fi|].
  induction Fr as [|i items Hi _ IH]; [constructor|].
  rewrite flat_map_cons. apply Forall_app. split; [|exact IH].
  constructor; [exact P3|]. apply Forall_app. split; [repeat constructor; assumption|exact Hi].
Qed.

Lemma plainItems_units (P : char -> Prop) (items : list str) :
  (forall c, c <> lessThan /\ c <> greaterThan /\ c <> star /\
             isLineTerminator c = false -> P c) ->
  Forall plainItem items -> Forall (Forall P) items.
Proof.
  intros I F. eapply Forall_impl; [|exact F].
  intros i [Hi _]. eapply Forall_impl; [|exact Hi]. exact I.
Qed.

Lemma Forall_not_In (c : char) (s : str) :
  Forall (fun x => x <> c) s -> ~ In c s.
Proof.
  intros F H. rewrite Forall_forall in F. exact (F c H eq_refl).
Qed.

End OneList.

(** X20 ([markdownToHtml]). Consecutive bullet lines become one list: for
    one or more items without angle bracket, asterisk, line terminator and
    URL scheme, the lines [- item] joined by line feeds give a single
    [<ul>] with one [<li>] per item, in order, and nothing between them:
    the pass that joins adjacent lists also takes the line feeds. *)
Theorem bullets_form_one_list (item : str) (items : list str) :
  Forall plainItem (item :: items) ->
  markdownToHtml (bulletLines (item :: items)) =
  lit "<ul>" ++
  flat_map (fun i => lit "<li>" ++ i ++ lit "</li>") (item :: items) ++
  lit "</ul>".
Proof.
  intros P.
  assert (FT : Forall (Forall (fun c => isLineTerminator c = false)) (item :: items))
    by (apply (plainItems_units _ (item :: items)); [cbn beta; tauto|exact P]).
  assert (FL : Forall (Forall (fun c => c <> lessThan)) (item :: items))
    by (apply (plainItems_units _ (item :: items)); [cbn beta; tauto|exact P]).
  assert (FG : Forall (Forall (fun c => c <> greaterThan)) (item :: items))
    by (apply (plainItems_units _ (item :: items)); [cbn beta; tauto|exact P]).
  assert (FS : Forall (Forall (fun c => c <> star)) (item :: items))
    by (apply (plainItems_units _ (item :: items)); [cbn beta; tauto|exact P]).
  assert (FU : Forall (fun i => hasUrlScheme i = false) (item :: items))
    by (eapply Forall_impl; [|exact P]; intros i [_ Hi]; exact Hi).
  unfold markdownToHtml, headers2, headers3, lists, replace.
  rewrite safeText_plain
    by (apply Forall_not_In, bulletLines_Forall; try discriminate; assumption).
  rewrite bulletLines_flat.
  inversion FT as [|? ? Ti Tr]; subst.
  rewrite (@replaceAll_lineMarker_none (lit "## ") (lit "<h2>") (lit "</h2>"))
    by (change (lit "## ") with (35%N :: lit "# ");
        rewrite anyLineStarts_bullet, anyLineStarts_bullets;
        (reflexivity || discriminate || assumption)).
  rewrite (@replaceAll_lineMarker_none (lit "### ") (lit "<h3>") (lit "</h3>"))
    by (change (lit "### ") with (35%N :: lit "## ");
        rewrite anyLineStarts_bullet, anyLineStarts_bullets;
        (reflexivity || discriminate || assumption)).
  rewrite replaceAll_strong_none
    by (apply hasBoldPair_no_star; rewrite <- bulletLines_flat;
        apply Forall_not_In, bulletLines_Forall; try discriminate; assumption).
  rewrite lists_step, lists_rest; [|exact Tr|exact Ti|].
  2:{ destruct items as [|j items']; [left; reflexivity|right].
      rewrite flat_map_cons. eexists. reflexivity. }
  inversion FL as [|? ? Li Lr]; subst.
  change (replaceAll adjacentLists 0 true (lit "<ul><li>" ++ ?t))
    with (lit "<ul>" ++ replaceAll adjacentLists 0 false (lit "<li>" ++ t)).
  rewrite adjacent_items;
    [|apply Forall_not_In; exact Li
     |eapply Forall_impl; [|exact Lr]; intros i; apply Forall_not_In].
  rewrite replaceAll_autolink_none; [rewrite flat_map_cons, <- !app_assoc; reflexivity|].
  destruct (hasUrl _) eqn:U; [|reflexivity].
  apply hasUrl_scheme in U.
  change (lit "<ul>" ++ ?t) with (60%N :: 117%N :: 108%N :: 62%N :: t) in U.
  rewrite !hasUrlScheme_head_ne in U by discriminate.
  pose proof (hasUrlScheme_items (item :: items) FU) as Z.
  rewrite flat_map_cons, <- !app_assoc in Z. congruence.
Qed.

Section Headings.



Lemma replaceAll_autolink_start (s : str) :
  forall k b, replaceAll autolink k b s = replaceAll autolink k true s.
Proof.
  induction s as [|c s IH]; intros k b; [reflexivity|].
  destruct k as [|k].
  - rewrite !replaceAll_cons.
    change (autolink b (c :: s)) with (autolink true (c :: s)).
    reflexivity.
  - cbn [replaceAll]. reflexivity.
Qed.

Lemma replaceAll_skip_all (m : Matcher) (s : str) :
  forall b, replaceAll m (length s) b s = [].
Proof.
  induction s as [|c s IH]; intros b; [reflexivity|].
  cbn [length replaceAll]. apply IH.
Qed.

Lemma takeWhile_all (f : char -> bool) (s : str) :
  Forall (fun c => f c = true) s -> takeWhile f s = s.
Proof.
  induction 1 as [|c s C _ IH]; [reflexivity|].
  cbn [takeWhile]. rewrite C, IH. reflexivity.
Qed.

Lemma lineMarker_step (y : char) (p opening closing t : str) :
  Forall (fun c => isLineTerminator c = false) t ->
  replaceAll (lineMarker (y :: p) opening closing) 0 true ((y :: p) ++ t) =
  opening ++ t ++ closing.
Proof.
  intros Ft.
  assert (Ft' : Forall (fun c => negb (isLineTerminator c) = true) t).
  { eapply Forall_impl; [|exact Ft]. cbn beta. intros c ->. reflexivity. }
  cbn [app]. rewrite replaceAll_cons. unfold lineMarker at 1.
  change (y :: p ++ t) with ((y :: p) ++ t).
  rewrite startsWith_app. cbn [andb].
  rewrite skipn_app, skipn_all, Nat.sub_diag. cbn [skipn app].
  rewrite (takeWhile_all _ t Ft').
  cbn [length Nat.add].
  rewrite <- length_app, replaceAll_skip_all, app_nil_r. reflexivity.
Qed.

(** A run without white space that starts with a scheme and goes on
    after it is one match of the link pattern. *)
Lemma matchUrl_whole (s : str) :
  startsWith s (lit "http://") = true \/ startsWith s (lit "https://") = true ->
  Forall (fun c => isWhiteSpace c = false) s ->
  (8 < length s)%nat ->
  matchUrl s = Some (length s).
Proof.
  intros [E|E] F L; apply startsWith_decompose in E.
  - change (length (lit "http://")) with 7%nat in E.
    set (r := skipn 7 s) in *. clearbody r. subst s.
    assert (Fr : Forall (fun c => negb (isWhiteSpace c) = true) r).
    { apply Forall_app in F. destruct F as [_ F].
      eapply Forall_impl; [|exact F]. cbn beta. intros c ->. reflexivity. }
    change (lit "http://" ++ r) with (lit "http" ++ lit "://" ++ r).
    rewrite matchUrl_http.
    change (lit "://" ++ r) with (58%N :: 47%N :: 47%N :: r).
    cbv iota. change (N.eqb 58 (ch "s")) with false. cbv iota.
    unfold matchUrlTail.
    change (startsWith (58%N :: 47%N :: 47%N :: r) (lit "://")) with true.
    cbv iota. cbn [skipn]. rewrite (takeWhile_all _ r Fr).
    rewrite length_app in L. change (length (lit "http://")) with 7%nat in L.
    destruct (Nat.leb_spec 1 (length r)); [|lia].
    cbn [option_map]. rewrite !length_app. cbn [length lit]. f_equal.
  - change (length (lit "https://")) with 8%nat in E.
    set (r := skipn 8 s) in *. clearbody r. subst s.
    assert (Fr : Forall (fun c => negb (isWhiteSpace c) = true) r).
    { apply Forall_app in F. destruct F as [_ F].
      eapply Forall_impl; [|exact F]. cbn beta. intros c ->. reflexivity. }
    change (lit "https://" ++ r) with (lit "http" ++ lit "s://" ++ r).
    rewrite matchUrl_http.
    change (lit "s://" ++ r) with (ch "s" :: 58%N :: 47%N :: 47%N :: r).
    cbv iota. rewrite N.eqb_refl.
    unfold matchUrlTail at 1.
    change (startsWith (58%N :: 47%N :: 47%N :: r) (lit "://")) with true.
    cbv iota. cbn [skipn]. rewrite (takeWhile_all _ r Fr).
    rewrite length_app in L. change (length (lit "https://")) with 8%nat in L.
    destruct (Nat.leb_spec 1 (length r)); [|lia].
    cbn [option_map]. rewrite !length_app. cbn [length lit]. f_equal.
Qed.

End Headings.

Section HeadingLines.

Lemma anyLineStarts_one_line (y : char) (p : str) (s : str) :
  Forall (fun c => isLineTerminator c = false) s ->
  anyLineStarts (y :: p) false s = false.
Proof.
  intros F. rewrite <- (app_nil_r s). rewrite anyLineStarts_line by exact F.
  reflexivity.
Qed.

Lemma anyLineStarts_first (x y : char) (p s : str) :
  x <> y -> isLineTerminator x = false ->
  Forall (fun c => isLineTerminator c = false) s ->
  anyLineStarts (y :: p) true (x :: s) = false.
Proof.
  intros N X F.
  change (anyLineStarts (y :: p) true (x :: s))
    with ((true && startsWith (x :: s) (y :: p))
          || anyLineStarts (y :: p) (isLineTerminator x) s).
  rewrite (startsWith_head_ne x y s p N), X, anyLineStarts_one_line by exact F.
  reflexivity.
Qed.

(** The passes after the two for the headings, on one heading. *)
Lemma after_headers (d : char) (t : str) :
  d = 50%N \/ d = 51%N ->
  Forall (fun c => c <> lessThan /\ c <> greaterThan /\ c <> star /\
                   isLineTerminator c = false) t ->
  replaceAll autolink 0 true
    (replaceAll adjacentLists 0 true
       (replaceAll (lineMarker (lit "- ") (lit "<ul><li>") (lit "</li></ul>")) 0 true
          (replaceAll strong 0 true
             ([60%N; 104%N; d; 62%N] ++ t ++ [60%N; 47%N; 104%N; d; 62%N])))) =
  [60%N; 104%N; d; 62%N] ++
  replaceAll autolink 0 true (t ++ [60%N; 47%N; 104%N; d; 62%N]).
Proof.
  intros D F.
  assert (FT : Forall (fun c => isLineTerminator c = false) t)
    by (eapply Forall_impl; [|exact F]; cbn beta; tauto).
  assert (FL : Forall (fun c => c <> lessThan) t)
    by (eapply Forall_impl; [|exact F]; cbn beta; tauto).
  assert (FS : Forall (fun c => c <> star) t)
    by (eapply Forall_impl; [|exact F]; cbn beta; tauto).
  rewrite replaceAll_strong_none.
  2:{ apply hasBoldPair_no_star, Forall_not_In.
      apply Forall_app; split; [|apply Forall_app; split; [exact FS|]];
        destruct D as [-> | ->]; repeat constructor; discriminate. }
  rewrite replaceAll_lineMarker_none.
  2:{ cbn [app]. change (lit "- ") with (45%N :: lit " ").
      apply anyLineStarts_first; [discriminate|reflexivity|].
      constructor; [reflexivity|].
      constructor; [destruct D as [-> | ->]; reflexivity|].
      constructor; [reflexivity|].
      apply Forall_app; split; [exact FT|].
      repeat constructor; destruct D as [-> | ->]; reflexivity. }
  assert (A : replaceAll adjacentLists 0 true
                ([60%N; 104%N; d; 62%N] ++ t ++ [60%N; 47%N; 104%N; d; 62%N]) =
              [60%N; 104%N; d; 62%N] ++ t ++ [60%N; 47%N; 104%N; d; 62%N]).
  { destruct D as [-> | ->].
    - change (replaceAll adjacentLists 0 true
                ([60%N; 104%N; 50%N; 62%N] ++ t ++ [60%N; 47%N; 104%N; 50%N; 62%N]))
        with ([60%N; 104%N; 50%N; 62%N] ++
              replaceAll adjacentLists 0 false (t ++ [60%N; 47%N; 104%N; 50%N; 62%N])).
      rewrite replaceAll_adjacentLists_copy by (apply Forall_not_In; exact FL).
      reflexivity.
    - change (replaceAll adjacentLists 0 true
                ([60%N; 104%N; 51%N; 62%N] ++ t ++ [60%N; 47%N; 104%N; 51%N; 62%N]))
        with ([60%N; 104%N; 51%N; 62%N] ++
              replaceAll adjacentLists 0 false (t ++ [60%N; 47%N; 104%N; 51%N; 62%N])).
      rewrite replaceAll_adjacentLists_copy by (apply Forall_not_In; exact FL).
      reflexivity. }
  rewrite A.
  destruct D as [-> | ->].
  - change (replaceAll autolink 0 true
              ([60%N; 104%N; 50%N; 62%N] ++ t ++ [60%N; 47%N; 104%N; 50%N; 62%N]))
      with ([60%N; 104%N; 50%N; 62%N] ++
            replaceAll autolink 0 false (t ++ [60%N; 47%N; 104%N; 50%N; 62%N])).
    rewrite replaceAll_autolink_start. reflexivity.
  - change (replaceAll autolink 0 true
              ([60%N; 104%N; 51%N; 62%N] ++ t ++ [60%N; 47%N; 104%N; 51%N; 62%N]))
      with ([60%N; 104%N; 51%N; 62%N] ++
            replaceAll autolink 0 false (t ++ [60%N; 47%N; 104%N; 51%N; 62%N])).
    rewrite replaceAll_autolink_start. reflexivity.
Qed.

Lemma heading2_links (t : str) :
  Forall (fun c => c <> lessThan /\ c <> greaterThan /\ c <> star /\
                   isLineTerminator c = false) t ->
  markdownToHtml (lit "## " ++ t) =
  lit "<h2>" ++ replaceAll autolink 0 true (t ++ lit "</h2>").
Proof.
  intros F.
  assert (FT : Forall (fun c => isLineTerminator c = false) t)
    by (eapply Forall_impl; [|exact F]; cbn beta; tauto).
  assert (FL : Forall (fun c => c <> lessThan) t)
    by (eapply Forall_impl; [|exact F]; cbn beta; tauto).
  assert (FG : Forall (fun c => c <> greaterThan) t)
    by (eapply Forall_impl; [|exact F]; cbn beta; tauto).
  unfold markdownToHtml, headers2, headers3, lists, replace.
  rewrite safeText_plain
    by (apply Forall_not_In, Forall_app; split;
        [repeat constructor; discriminate|assumption]).
  change (lit "## ") with (35%N :: lit "# ").
  rewrite lineMarker_step by exact FT.
  rewrite (@replaceAll_lineMarker_none (lit "### ") (lit "<h3>") (lit "</h3>")).
  2:{ change (lit "<h2>" ++ t ++ lit "</h2>")
        with (60%N :: lit "h2>" ++ t ++ lit "</h2>").
      change (lit "### ") with (35%N :: lit "## ").
      apply anyLineStarts_first; [discriminate|reflexivity|].
      apply Forall_app; split; [repeat constructor|].
      apply Forall_app; split; [exact FT|repeat constructor]. }
  apply (after_headers 50%N t); [left; reflexivity|exact F].
Qed.

Lemma heading3_links (t : str) :
  Forall (fun c => c <> lessThan /\ c <> greaterThan /\ c <> star /\
                   isLineTerminator c = false) t ->
  markdownToHtml (lit "### " ++ t) =
  lit "<h3>" ++ replaceAll autolink 0 true (t ++ lit "</h3>").
Proof.
  intros F.
  assert (FT : Forall (fun c => isLineTerminator c = false) t)
    by (eapply Forall_impl; [|exact F]; cbn beta; tauto).
  assert (FL : Forall (fun c => c <> lessThan) t)
    by (eapply Forall_impl; [|exact F]; cbn beta; tauto).
  assert (FG : Forall (fun c => c <> greaterThan) t)
    by (eapply Forall_impl; [|exact F]; cbn beta; tauto).
  unfold markdownToHtml, headers2, headers3, lists, replace.
  rewrite safeText_plain
    by (apply Forall_not_In, Forall_app; split;
        [repeat constructor; discriminate|assumption]).
  rewrite (@replaceAll_lineMarker_none (lit "## ") (lit "<h2>") (lit "</h2>")).
  2:{ change (anyLineStarts (lit "## ") true (lit "### " ++ t))
        with (anyLineStarts (lit "## ") false (lit "## " ++ t)).
      change (lit "## ") with (35%N :: lit "# ") at 1.
      apply anyLineStarts_one_line.
      apply Forall_app; split; [repeat constructor|exact FT]. }
  change (lit "### ") with (35%N :: lit "## ").
  rewrite lineMarker_step by exact FT.
  apply (after_headers 51%N t); [right; reflexivity|exact F].
Qed.

Lemma hasUrlScheme_closing (t : str) (d : char) :
  hasUrlScheme t = false ->
  hasUrl (t ++ [60%N; 47%N; 104%N; d; 62%N]) = false.
Proof.
  intros H. destruct (hasUrl _) eqn:U; [|reflexivity].
  apply hasUrl_scheme in U.
  change (t ++ [60%N; 47%N; 104%N; d; 62%N])
    with (t ++ lessThan :: [47%N; 104%N; d; 62%N]) in U.
  rewrite hasUrlScheme_before_tag in U by exact H.
  rewrite hasUrlScheme_head_ne in U by discriminate.
  rewrite hasUrlScheme_eq in U. cbn in U.
  rewrite !andb_false_r in U. cbn in U.
  destruct (N.eqb d 116); cbn in U; discriminate.
Qed.

End HeadingLines.

(** X21 ([markdownToHtml]). A heading line becomes a heading element: for
    a title without angle bracket, asterisk, line terminator and URL
    scheme, the line [## title] gives [<h2>title</h2>] and the line
    [### title] gives [<h3>title</h3>]; the pass for [## ] does not take
    a line that starts with [### ]. *)
Theorem heading_lines (t : str) :
  plainItem t ->
  markdownToHtml (lit "## " ++ t) = lit "<h2>" ++ t ++ lit "</h2>" /\
  markdownToHtml (lit "### " ++ t) = lit "<h3>" ++ t ++ lit "</h3>".
Proof.
  intros [F U]. split.
  - rewrite (heading2_links t F).
    rewrite replaceAll_autolink_none; [reflexivity|].
    apply (@hasUrlScheme_closing t 50%N U).
  - rewrite (heading3_links t F).
    rewrite replaceAll_autolink_none; [reflexivity|].
    apply (@hasUrlScheme_closing t 51%N U).
Qed.

(** X22 ([markdownToHtml]). A URL at the end of a heading takes the
    closing tag with it: the link pattern runs after the heading was
    wrapped and stops only at white space, so for a heading that is a URL
    (a scheme followed by units that are no white space, angle bracket or
    asterisk) the address and the text of the link are the URL followed by
    [</h2>], and no closing tag comes after the link. *)
Theorem heading_url_takes_closing_tag (u : str) :
  startsWith u (lit "http://") = true \/ startsWith u (lit "https://") = true ->
  Forall (fun c => isWhiteSpace c = false /\ c <> lessThan /\ c <> greaterThan /\
                   c <> star) u ->
  markdownToHtml (lit "## " ++ u) = lit "<h2>" ++ anchor (u ++ lit "</h2>").
Proof.
  intros S F.
  assert (FW : Forall (fun c => isWhiteSpace c = false) (u ++ lit "</h2>")).
  { apply Forall_app. split; [eapply Forall_impl; [|exact F]; cbn beta; tauto|].
    repeat constructor. }
  assert (L : (7 <= length u)%nat).
  { destruct S as [S|S]; apply startsWith_length in S; cbn in S; lia. }
  rewrite heading2_links.
  2:{ eapply Forall_impl; [|exact F]. cbn beta. intros c (W & A & B & C).
      repeat split; try assumption.
      unfold isLineTerminator. unfold isWhiteSpace in W.
      repeat (apply orb_false_elim in W; destruct W as [W ?]).
      repeat (apply orb_false_intro; try assumption). }
  f_equal.
  assert (M : matchUrl (u ++ lit "</h2>") = Some (length (u ++ lit "</h2>"))).
  { apply matchUrl_whole; [| exact FW | rewrite length_app; cbn; lia].
    destruct S as [S|S]; [left|right];
      apply startsWith_decompose in S; rewrite S, <- app_assoc; apply startsWith_app. }
  destruct (u ++ lit "</h2>") as [|c s] eqn:E.
  { apply (f_equal (@length _)) in E. rewrite length_app in E. cbn in E. lia. }
  rewrite replaceAll_cons. unfold autolink at 1. rewrite M.
  cbn [length]. rewrite firstn_all2 by (cbn; lia).
  rewrite replaceAll_skip_all, app_nil_r. reflexivity.
Qed.

Lemma markdownToHtml_plain_text_witness :
  markdownToHtml (lit "1 < 2 > 0") = flat_map escapeUnit (lit "1 < 2 > 0") /\
  ~ In lessThan (markdownToHtml (lit "1 < 2 > 0")) /\
  ~ In greaterThan (markdownToHtml (lit "1 < 2 > 0")).
Proof. apply markdownToHtml_plain_text; reflexivity. Defined.

Lemma bullets_form_one_list_witness :
  markdownToHtml (bulletLines [lit "Revenue up"; lit "Margin flat"]) =
  lit "<ul>" ++
  flat_map (fun i => lit "<li>" ++ i ++ lit "</li>") [lit "Revenue up"; lit "Margin flat"] ++
  lit "</ul>".
Proof.
  apply bullets_form_one_list.
  repeat constructor; try reflexivity; intros H; vm_compute in H; discriminate.
Defined.

Lemma heading_lines_witness :
  markdownToHtml (lit "## " ++ lit "Overview") = lit "<h2>" ++ lit "Overview" ++ lit "</h2>" /\
  markdownToHtml (lit "### " ++ lit "Overview") = lit "<h3>" ++ lit "Overview" ++ lit "</h3>".
Proof.
  apply heading_lines.
  repeat constructor; try reflexivity; intros H; vm_compute in H; discriminate.
Defined.

Lemma heading_url_takes_closing_tag_witness :
  markdownToHtml (lit "## " ++ lit "https://x.com") =
  lit "<h2>" ++ anchor (lit "https://x.com" ++ lit "</h2>").
Proof.
  apply heading_url_takes_closing_tag.
  - right. reflexivity.
  - repeat constructor; try reflexivity; intros H; vm_compute in H; discriminate.
Defined.

(* ================================================================== *)
(** ** Facts about the prompts *)
(* ================================================================== *)

Section StructureLines.

Lemma split_cons (sep c : char) (s : str) :
  split sep (c :: s) =
  if N.eqb c sep then [] :: split sep s
  else match split sep s with
       | [] => [[c]]
       | f :: fs => (c :: f) :: fs
       end.
Proof. reflexivity. Qed.

Lemma split_one (sep : char) (s : str) :
  Forall (fun c => c <> sep) s -> split sep s = [s].
Proof.
  induction 1 as [|c s C _ IH]; [reflexivity|].
  rewrite split_cons, IH. destruct (N.eqb_spec c sep); [contradiction|reflexivity].
Qed.

Lemma split_line (sep : char) (a r : str) :
  Forall (fun c => c <> sep) a -> split sep (a ++ sep :: r) = a :: split sep r.
Proof.
  induction 1 as [|c a C _ IH].
  - cbn [app]. rewrite split_cons, N.eqb_refl. reflexivity.
  - cbn [app]. rewrite split_cons, IH.
    destruct (N.eqb_spec c sep); [contradiction|reflexivity].
Qed.

Lemma join_empty_cons (p : str) (ps : list str) :
  join [] (p :: ps) = p ++ join [] ps.
Proof.
  cbn [join]. f_equal. destruct ps as [|q qs]; [reflexivity|].
  cbn [flat_map join app]. reflexivity.
Qed.

Lemma join_lines (m : str) (sub : str) (subs : list str) :
  [lf] ++ join [lf] (map (fun s => m ++ s) (sub :: subs)) =
  flat_map (fun s => lf :: m ++ s) (sub :: subs).
Proof.
  cbn [map join flat_map app]. f_equal. f_equal.
  induction subs as [|s subs IH]; [reflexivity|].
  cbn [map flat_map app]. f_equal. f_equal. exact IH.
Qed.

Lemma dropWhile_stop (f : char -> bool) (u : str) (c : char) (t : str) :
  f c = false ->
  dropWhile f (u ++ c :: t) = dropWhile f u ++ c :: t.
Proof.
  intros C. induction u as [|x u IH]; cbn [app dropWhile].
  - rewrite C. reflexivity.
  - destruct (f x); [exact IH|reflexivity].
Qed.

(** [trim] keeps everything from a first unit that is no white space to
    a later one that is none either. *)
Lemma trim_keeps (x : char) (a : str) (c : char) (r : str) :
  isWhiteSpace x = false -> isWhiteSpace c = false ->
  exists r', trim (x :: a ++ c :: r) = x :: a ++ c :: r'.
Proof.
  intros X C. unfold trim. cbn [dropWhile]. rewrite X.
  change (x :: a ++ c :: r) with ((x :: a) ++ c :: r).
  rewrite rev_app_distr. cbn [rev]. rewrite <- app_assoc. cbn [app].
  rewrite (dropWhile_stop isWhiteSpace (rev r) c _ C).
  rewrite rev_app_distr. cbn [rev]. rewrite rev_app_distr, rev_involutive.
  cbn [rev app]. rewrite <- !app_assoc. cbn [app].
  eexists. reflexivity.
Qed.

Lemma trim_head (x : char) (r : str) :
  isWhiteSpace x = false -> exists r', trim (x :: r) = x :: r'.
Proof.
  intros X. unfold trim. cbn [dropWhile]. rewrite X.
  cbn [rev]. rewrite (dropWhile_stop isWhiteSpace (rev r) x [] X).
  rewrite rev_app_distr. cbn [rev app]. eexists. reflexivity.
Qed.

Lemma classifyTrimmed_no_pipe (x : char) (rest : str) :
  x <> pipe ->
  classifyTrimmed (x :: rest) =
  if startsWith (x :: rest) (lit "## ") then Heading2
  else if startsWith (x :: rest) (lit "### ") then Heading3
  else if startsWith (x :: rest) (lit "- ") then Bullet
  else Paragraph.
Proof.
  intros X. unfold classifyTrimmed.
  rewrite (startsWith_head_ne x pipe rest [] X), andb_false_r. reflexivity.
Qed.

Lemma classify_heading2 (n : nat) (rest : str) :
  classify (lit "## " ++ natToStr n ++ lit ". " ++ rest) = Heading2.
Proof.
  unfold classify.
  destruct (trim_keeps 35%N (lit "# " ++ natToStr n) 46%N (lit " " ++ rest))
    as (r' & E); [reflexivity|reflexivity|].
  match type of E with
  | trim ?s = _ =>
      replace (lit "## " ++ natToStr n ++ lit ". " ++ rest) with s
        by (rewrite <- app_assoc; reflexivity)
  end.
  rewrite E, classifyTrimmed_no_pipe by discriminate. reflexivity.
Qed.

Lemma classify_marked (x : char) (a : str) (k : LineKind) (sub : str) :
  isWhiteSpace x = false ->
  (forall t, classifyTrimmed (x :: a ++ t) = k) ->
  (exists c, In c sub /\ isWhiteSpace c = false) ->
  classify ((x :: a) ++ sub) = k.
Proof.
  intros X K (c & I & C).
  apply in_split in I. destruct I as (w & r & ->).
  unfold classify.
  destruct (trim_keeps x (a ++ w) c r X C) as (r' & E).
  match type of E with
  | trim ?s = _ =>
      replace ((x :: a) ++ w ++ c :: r) with s
        by (cbn [app]; rewrite <- app_assoc; reflexivity)
  end.
  rewrite E, <- app_assoc. apply K.
Qed.

Lemma classify_heading3 (sub : str) :
  (exists c, In c sub /\ isWhiteSpace c = false) ->
  classify (lit "### " ++ sub) = Heading3.
Proof.
  apply (classify_marked 35%N (lit "## ") Heading3 sub); [reflexivity|].
  intros t. rewrite classifyTrimmed_no_pipe by discriminate. reflexivity.
Qed.

Lemma classify_bullet (sub : str) :
  (exists c, In c sub /\ isWhiteSpace c = false) ->
  classify (lit "- " ++ sub) = Bullet.
Proof.
  apply (classify_marked 45%N (lit " ") Bullet sub); [reflexivity|].
  intros t. rewrite classifyTrimmed_no_pipe by discriminate. reflexivity.
Qed.

Lemma classify_bold_line (rest : str) :
  classify (lit "**" ++ rest) = Paragraph.
Proof.
  unfold classify.
  destruct (trim_head 42%N (42%N :: rest)) as (r' & E); [reflexivity|].
  match type of E with
  | trim ?s = _ => change (lit "**" ++ rest) with s
  end.
  rewrite E, classifyTrimmed_no_pipe by discriminate. reflexivity.
Qed.

Lemma uintToStr_oneLine (d : Decimal.uint) : oneLine (uintToStr d).
Proof. induction d; constructor; (discriminate || assumption). Qed.

(** The lines of the subheadings, after a line [cur] and before [tail]. *)
Lemma marked_lines (m : str) (k : LineKind) (tail : str) (T : list LineKind) :
  oneLine m ->
  (forall cur, oneLine cur ->
     map classify (split lf (cur ++ tail)) = classify cur :: T) ->
  forall subs cur,
    oneLine cur ->
    Forall (fun sub => oneLine sub /\ classify (m ++ sub) = k) subs ->
    map classify (split lf (cur ++ flat_map (fun s => lf :: m ++ s) subs ++ tail)) =
    classify cur :: map (fun _ => k) subs ++ T.
Proof.
  intros M Tl. induction subs as [|sub subs IH]; intros cur C F.
  - cbn [flat_map app map]. apply Tl. exact C.
  - inversion F as [|? ? SK F']; subst. destruct SK as [Sx K].
    cbn [flat_map]. rewrite <- app_assoc. cbn [app].
    rewrite (split_line lf cur _ C). cbn [map]. f_equal.
    rewrite <- app_assoc.
    rewrite (app_assoc m sub).
    rewrite IH; [|apply Forall_app; split; assumption|exact F'].
    rewrite K. reflexivity.
Qed.

End StructureLines.

Section StructureClasses.

Lemma oneLine_app (a b : str) : oneLine a -> oneLine b -> oneLine (a ++ b).
Proof. intros A B. apply Forall_app. split; assumption. Qed.

Lemma oneLine_lit_checked (s : str) :
  forallb (fun c => negb (N.eqb c lf)) s = true -> oneLine s.
Proof.
  intros H. apply Forall_forall. intros c I E. subst c.
  rewrite forallb_forall in H. specialize (H lf I). discriminate.
Qed.

Lemma deepDive_line (i : nat) (section : ReportSection) :
  sectionOfLines section ->
  oneLine (lit "## " ++ natToStr (i + 1) ++ lit ". " ++ heading section ++ lit " " ++
           match score_guideline section with
           | Some (c :: g) => lit "(Score: " ++ (c :: g) ++ lit ")"
           | _ => []
           end).
Proof.
  intros (H & G & _).
  apply oneLine_app; [apply oneLine_lit_checked; reflexivity|].
  apply oneLine_app; [apply uintToStr_oneLine|].
  apply oneLine_app; [apply oneLine_lit_checked; reflexivity|].
  apply oneLine_app; [exact H|].
  apply oneLine_app; [apply oneLine_lit_checked; reflexivity|].
  destruct (score_guideline section) as [[|c g]|]; [constructor| |constructor].
  apply oneLine_app; [apply oneLine_lit_checked; reflexivity|].
  apply (oneLine_app (c :: g)); [exact G|apply oneLine_lit_checked; reflexivity].
Qed.

Lemma deepDive_classes (sections : list ReportSection) :
  Forall sectionOfLines sections ->
  forall i cur,
    oneLine cur ->
    map classify (split lf (cur ++ join [] (mapIndexed deepDiveSection i sections))) =
    classify cur ::
    flat_map (fun section => Heading2 :: map (fun _ => Heading3) (subheadingsOf section))
             sections.
Proof.
  induction 1 as [|section sections Sec _ IH]; intros i cur C.
  - cbn [mapIndexed join flat_map]. rewrite app_nil_r, (split_one lf cur C).
    reflexivity.
  - cbn [mapIndexed flat_map]. rewrite join_empty_cons.
    pose proof (deepDive_line i section Sec) as L0.
    pose proof Sec as (_ & _ & Fs).
    pose proof (IH (S i)) as IHs.
    set (rest := join [] (mapIndexed deepDiveSection (S i) sections)) in *.
    unfold deepDiveSection. unfold subheadingsOf at 1. unfold subheadingsOf in Fs.
    set (line0 := lit "## " ++ natToStr (i + 1) ++ lit ". " ++ heading section ++
                  lit " " ++ _) in *.
    assert (K0 : classify line0 = Heading2) by apply classify_heading2.
    destruct (subheadings section) as [[|sub subs]|].
    + rewrite <- !app_assoc. cbn [app].
      rewrite (split_line lf cur _ C). cbn [map]. f_equal.
      rewrite (IHs line0 L0), K0. reflexivity.
    + rewrite <- !app_assoc.
      rewrite (app_assoc [lf] (join [lf] _) rest), (join_lines (lit "### ") sub subs).
      cbn [app].
      rewrite (split_line lf cur _ C).
      change (map classify (cur :: ?l)) with (classify cur :: map classify l).
      f_equal.
      rewrite (marked_lines (lit "### ") Heading3 _ _
                 (oneLine_lit_checked (lit "### ") eq_refl) IHs
                 (sub :: subs) line0 L0).
      * rewrite K0. reflexivity.
      * eapply Forall_impl; [|exact Fs]. cbn beta. intros s [A B].
        split; [exact A|apply classify_heading3; exact B].
    + rewrite <- !app_assoc. cbn [app].
      rewrite (split_line lf cur _ C). cbn [map]. f_equal.
      rewrite (IHs line0 L0), K0. reflexivity.
Qed.

Lemma quickSummary_classes (sections : list ReportSection) :
  Forall sectionOfLines sections ->
  forall cur,
    oneLine cur ->
    map classify (split lf (cur ++ join [] (map quickSummarySection sections))) =
    classify cur ::
    flat_map (fun section =>
                Paragraph ::
                match subheadingsOf section with
                | [] => [Blank]
                | sub :: subs => map (fun _ => Bullet) (sub :: subs)
                end)
             sections.
Proof.
  induction 1 as [|section sections Sec _ IH]; intros cur C.
  - cbn [map join flat_map]. rewrite app_nil_r, (split_one lf cur C). reflexivity.
  - cbn [map flat_map]. rewrite join_empty_cons.
    destruct Sec as (H & G & Fs).
    pose proof (IH [] (Forall_nil _)) as Z.
    set (rest := join [] (map quickSummarySection sections)) in *.
    change ([] ++ rest) with rest in Z.
    unfold quickSummarySection. unfold subheadingsOf at 1. unfold subheadingsOf in Fs.
    set (line0 := lit "**" ++ heading section ++ lit "** " ++
                  orEmpty (score_guideline section)).
    assert (L0 : oneLine line0).
    { apply oneLine_app; [apply oneLine_lit_checked; reflexivity|].
      apply oneLine_app; [exact H|].
      apply oneLine_app; [apply oneLine_lit_checked; reflexivity|exact G]. }
    assert (K0 : classify line0 = Paragraph) by apply classify_bold_line.
    assert (E0 : [lf] ++ lit "**" ++ heading section ++ lit "** " ++
                 orEmpty (score_guideline section) ++ [lf] = [lf] ++ line0 ++ [lf]).
    { subst line0. rewrite <- !app_assoc. reflexivity. }
    rewrite E0.
    destruct (subheadings section) as [[|sub subs]|].
    + rewrite <- !app_assoc. cbn [app].
      rewrite (split_line lf cur _ C), (split_line lf line0 _ L0). cbn [map].
      rewrite K0, Z. reflexivity.
    + rewrite <- !app_assoc.
      rewrite (app_assoc [lf] (join [lf] _) rest), (join_lines (lit "- ") sub subs).
      cbn [app].
      rewrite (split_line lf cur _ C).
      change (map classify (cur :: ?l)) with (classify cur :: map classify l).
      f_equal.
      rewrite (marked_lines (lit "- ") Bullet _ _
                 (oneLine_lit_checked (lit "- ") eq_refl) IH
                 (sub :: subs) line0 L0).
      * rewrite K0. reflexivity.
      * eapply Forall_impl; [|exact Fs]. cbn beta. intros s [A B].
        split; [exact A|apply classify_bullet; exact B].
    + rewrite <- !app_assoc. cbn [app].
      rewrite (split_line lf cur _ C), (split_line lf line0 _ L0). cbn [map].
      rewrite K0, Z. reflexivity.
Qed.

End StructureClasses.

(** X23 ([buildDeepDiveStructure], with the line classes of
    [downloadAsPdf]). The structure that the deep dive prompt prescribes is
    written in the Markdown that the PDF renderer reads: for sections whose
    texts hold no line feed and whose subheadings are not blank, the lines
    of the structure are an empty line and then, for each section in
    order, one line that the renderer classifies as a heading of level 2,
    numbered from 1, followed by one heading of level 3 for each of its
    subheadings. *)
Theorem deep_dive_structure_lines_are_headings (sections : list ReportSection) :
  Forall sectionOfLines sections ->
  map classify (split lf (buildDeepDiveStructure sections)) =
  Blank ::
  flat_map (fun section => Heading2 :: map (fun _ => Heading3) (subheadingsOf section))
           sections.
Proof.
  intros F. exact (deepDive_classes sections F 0%nat [] (Forall_nil _)).
Qed.

(** X24 ([buildQuickSummaryStructure], with the line classes of
    [downloadAsPdf]). For sections whose texts hold no line feed and whose
    subheadings are not blank, the lines of the quick summary structure are
    an empty line and then, for each section in order, a paragraph line
    (the heading between bold markers, with the guideline) followed by one
    bullet line for each subheading, or by an empty line when the section
    has no subheading. *)
Theorem quick_summary_structure_lines (sections : list ReportSection) :
  Forall sectionOfLines sections ->
  map classify (split lf (buildQuickSummaryStructure sections)) =
  Blank ::
  flat_map (fun section =>
              Paragraph ::
              match subheadingsOf section with
              | [] => [Blank]
              | sub :: subs => map (fun _ => Bullet) (sub :: subs)
              end)
           sections.
Proof.
  intros F. exact (quickSummary_classes sections F [] (Forall_nil _)).
Qed.

Section Substitution.

Lemma getSubstitution_cons (matched before after : str) (c : char) (r : str) :
  getSubstitution matched before after (c :: r) =
  if N.eqb c dollar then
    match r with
    | d :: r' =>
        if N.eqb d dollar then dollar :: getSubstitution matched before after r'
        else if N.eqb d 38%N then matched ++ getSubstitution matched before after r'
        else if N.eqb d 96%N then before ++ getSubstitution matched before after r'
        else if N.eqb d 39%N then after ++ getSubstitution matched before after r'
        else dollar :: getSubstitution matched before after r
    | [] => [dollar]
    end
  else c :: getSubstitution matched before after r.
Proof. reflexivity. Qed.

Lemma noPattern_cons (c : char) (r : str) :
  noPattern (c :: r) =
  if N.eqb c dollar then
    match r with
    | d :: _ =>
        negb (N.eqb d dollar || N.eqb d 38%N || N.eqb d 96%N || N.eqb d 39%N)
        && noPattern r
    | [] => true
    end
  else noPattern r.
Proof. reflexivity. Qed.

(** A replacement without pattern is put in as it is. *)
Lemma getSubstitution_plain (matched before after : str) (r : str) :
  noPattern r = true -> getSubstitution matched before after r = r.
Proof.
  induction r as [|c r IH]; intros H; [reflexivity|].
  rewrite getSubstitution_cons. rewrite noPattern_cons in H.
  destruct (N.eqb_spec c dollar) as [->|C].
  - destruct r as [|d r']; [reflexivity|].
    apply andb_prop in H. destruct H as [H1 H2].
    apply negb_true_iff in H1.
    apply orb_false_elim in H1. destruct H1 as [H1 D4].
    apply orb_false_elim in H1. destruct H1 as [H1 D3].
    apply orb_false_elim in H1. destruct H1 as [D1 D2].
    rewrite D1, D2, D3, D4, (IH H2). reflexivity.
  - rewrite (IH H). reflexivity.
Qed.

Lemma replaceFirst_plain (s pattern r : str) :
  noPattern r = true ->
  replaceFirst s pattern r =
  match cut pattern s with
  | Some (before, after) => before ++ r ++ after
  | None => s
  end.
Proof.
  intros H. unfold replaceFirst.
  destruct (cut pattern s) as [[before after]|]; [|reflexivity].
  rewrite (getSubstitution_plain pattern before after r H). reflexivity.
Qed.

End Substitution.

(** X25 ([buildPrompt]). The ticker enters only the contents, and only at
    the first [{TICKER}]: when a prompt is built for one ticker, one is
    built for every ticker, with the same system instruction, and the
    contents are one and the same text with its first [{TICKER}] replaced.
    A ticker in which no [$] starts a replacement pattern (as in the
    cashtag [$AAPL]) is put in exactly as typed. *)
Theorem buildPrompt_inserts_ticker (configs : Configs) (analysisType ticker : str)
    (prompt : Prompt) :
  buildPrompt configs analysisType ticker = Built prompt ->
  exists description,
    (forall ticker', exists prompt',
       buildPrompt configs analysisType ticker' = Built prompt' /\
       systemInstruction prompt' = systemInstruction prompt /\
       contents prompt' = replaceFirst description (lit "{TICKER}") ticker') /\
    (noPattern ticker = true ->
     contents prompt =
     match cut (lit "{TICKER}") description with
     | Some (before, after) => before ++ ticker ++ after
     | None => description
     end).
Proof.
  unfold buildPrompt.
  destruct (mapGet configs _) as [config|]; [|discriminate].
  destruct (structureOf config) as [structure| |]; try discriminate.
  destruct (system_instruction_template config) as [template|]; [|discriminate].
  cbv zeta.
  destruct (if includesStr _ (lit "{DATA_SOURCES}") then _ else _) as [s2| |];
    try discriminate.
  destruct (prompt_description config) as [description|]; [|discriminate].
  intros E. injection E as <-. cbn [systemInstruction contents].
  eexists. split.
  - intros ticker'. eexists. split; [reflexivity|]. split; reflexivity.
  - intros N. apply replaceFirst_plain. exact N.
Qed.

Lemma buildPrompt_inserts_ticker_witness :
  exists description,
    (forall ticker', exists prompt',
       buildPrompt
         [(lit "technical",
           mkConfig (lit "technical") (lit "Technical") None
             (Some (mkStructure None (Some [lit "Trend"; lit "Momentum"])))
             (Some (lit "Cover: {STRUCTURE}")) (Some (lit "Analyse {TICKER} now."))
             None None (lit "undefined"))]
         (lit "technical") ticker' = Built prompt' /\
       systemInstruction prompt' =
         systemInstruction (mkPrompt (lit "Cover: - Trend" ++ [lf] ++ lit "- Momentum")
                                     (lit "Analyse $AAPL now.")) /\
       contents prompt' = replaceFirst description (lit "{TICKER}") ticker') /\
    (noPattern (lit "$AAPL") = true ->
     contents (mkPrompt (lit "Cover: - Trend" ++ [lf] ++ lit "- Momentum")
                        (lit "Analyse $AAPL now.")) =
     match cut (lit "{TICKER}") description with
     | Some (before, after) => before ++ lit "$AAPL" ++ after
     | None => description
     end).
Proof.
  apply (buildPrompt_inserts_ticker _ (lit "technical") (lit "$AAPL")).
  reflexivity.
Defined.

Lemma deep_dive_structure_lines_are_headings_witness :
  map classify
    (split lf
       (buildDeepDiveStructure
          [mkSection (lit "Valuation") (Some (lit "1-10"))
             (Some [lit "DCF"; lit "Multiples"]);
           mkSection (lit "Risks") None None])) =
  [Blank; Heading2; Heading3; Heading3; Heading2].
Proof.
  apply (deep_dive_structure_lines_are_headings
           [mkSection (lit "Valuation") (Some (lit "1-10"))
              (Some [lit "DCF"; lit "Multiples"]);
            mkSection (lit "Risks") None None]).
  repeat constructor; try discriminate;
    try (exists 68%N; split; [left; reflexivity|reflexivity]);
    try (exists 77%N; split; [left; reflexivity|reflexivity]).
Defined.

Lemma quick_summary_structure_lines_witness :
  map classify
    (split lf
       (buildQuickSummaryStructure
          [mkSection (lit "Valuation") (Some (lit "1-10"))
             (Some [lit "DCF"; lit "Multiples"]);
           mkSection (lit "Risks") None None])) =
  [Blank; Paragraph; Bullet; Bullet; Paragraph; Blank].
Proof.
  apply (quick_summary_structure_lines
           [mkSection (lit "Valuation") (Some (lit "1-10"))
              (Some [lit "DCF"; lit "Multiples"]);
            mkSection (lit "Risks") None None]).
  repeat constructor; try discriminate;
    try (exists 68%N; split; [left; reflexivity|reflexivity]);
    try (exists 77%N; split; [left; reflexivity|reflexivity]).
Defined.

(* ================================================================== *)
(** ** Facts about loading *)
(* ================================================================== *)

Section LoadingFacts.

Lemma streqb_eq (a b : str) : streqb a b = true -> a = b.
Proof.
  revert b. induction a as [|x a IH]; intros [|y b] H; try discriminate.
  - reflexivity.
  - cbn [streqb] in H. apply andb_prop in H. destruct H as [H1 H2].
    apply N.eqb_eq in H1. subst y. f_equal. apply IH. exact H2.
Qed.

Lemma mapSet_keyed (m : Configs) (config : Config) :
  Forall keyed m ->
  configId config <> [] -> displayName config <> [] ->
  Forall keyed (mapSet m (configId config) config).
Proof.
  intros F I D. induction F as [|[k v] m K F' IH].
  - constructor; [|constructor]. unfold keyed. cbn [fst snd]. repeat split; assumption.
  - cbn [mapSet]. destruct (streqb k (configId config)) eqn:E.
    + constructor; [|exact F'].
      apply streqb_eq in E. unfold keyed. cbn [fst snd]. repeat split; assumption.
    + constructor; assumption.
Qed.

Lemma loadFiles_keyed (fetch : str -> Response) (files : list str) :
  forall m m' b,
    Forall keyed m ->
    loadFiles fetch files m = (m', b) ->
    Forall keyed m'.
Proof.
  induction files as [|file files IH]; intros m m' b F E.
  - cbn in E. injection E as <- _. exact F.
  - cbn [loadFiles] in E.
    destruct (fetch (lit "./prompts/" ++ file)) as [|config|].
    + exact (IH m m' b F E).
    + destruct (configId config) as [|c i] eqn:I; [exact (IH m m' b F E)|].
      destruct (displayName config) as [|d n] eqn:D; [exact (IH m m' b F E)|].
      refine (IH _ m' b _ E). rewrite <- I.
      apply mapSet_keyed; [exact F|rewrite I; discriminate|rewrite D; discriminate].
    + injection E as <- _. exact F.
Qed.

Lemma mapGet_In (m : Configs) (key : str) (config : Config) :
  mapGet m key = Some config -> In (key, config) m.
Proof.
  induction m as [|[k v] m IH]; [discriminate|].
  cbn [mapGet]. destruct (streqb k key) eqn:E.
  - intros H. injection H as ->. apply streqb_eq in E. subst k. left. reflexivity.
  - intros H. right. exact (IH H).
Qed.

Lemma buildTutorialSteps_from (configs : Configs) (s : Step) :
  In s (buildTutorialSteps configs) ->
  s = promptStep \/
  exists key config,
    In key [lit "chat"; lit "quick_summary"; lit "deep_dive"; lit "technical"] /\
    mapGet configs key = Some config /\ elementId s = configId config.
Proof.
  destruct (fold_addStep configs
              [lit "chat"; lit "quick_summary"; lit "deep_dive"; lit "technical"])
    with (steps := @nil Step) as (pre & F & _ & A).
  { repeat constructor. }
  unfold buildTutorialSteps.
  change stepsConfig with
    (map (fun key => (key, Bottom))
       [lit "chat"; lit "quick_summary"; lit "deep_dive"; lit "technical"] ++
     [(lit "prompt-input", Top)]).
  rewrite fold_left_app, F. cbn [app fold_left].
  change (addStep configs pre (lit "prompt-input", Top)) with (pre ++ [promptStep]).
  intros I. apply in_app_or in I. destruct I as [I|[<-|[]]]; [right|left; reflexivity].
  rewrite Forall_forall in A. destruct (A s I) as (_ & _ & key & config & K & G & E & _).
  exists key, config. repeat split; assumption.
Qed.

End LoadingFacts.

(** X26 ([loadConfigs], [populateAnalysisOptions], [buildTutorialSteps]).
    When no file is rejected, every configuration is stored under its own
    [id], and the tutorial made from the loaded configurations points only
    at elements that loading has put on the page: each step is for the
    prompt input, for the chat, or for a report type whose option, with
    its label, was made by [populateAnalysisOptions]. *)
Theorem loaded_steps_have_their_labels (fetch : str -> Response) (m : Configs)
    (o : Options) :
  loadFiles fetch configFiles [] = (m, true) ->
  loadConfigs true fetch [] o =
    (m, mkOptions
          (map (fun config => (configId config, displayName config))
               (filter (fun config => negb (streqb (configId config) (lit "chat")))
                       (map snd m)))
          (errorAdded o) (chatDisabled o)) /\
  Forall (fun entry => fst entry = configId (snd entry)) m /\
  forall s,
    In s (buildTutorialSteps m) ->
    elementId s = lit "prompt-input" \/
    elementId s = lit "chat" \/
    In (elementId s)
       (map fst (dynamicOptions (snd (loadConfigs true fetch [] o)))).
Proof.
  intros L.
  assert (K : Forall keyed m)
    by exact (loadFiles_keyed fetch configFiles [] m true (Forall_nil _) L).
  assert (E : loadConfigs true fetch [] o =
              (m, mkOptions
                    (map (fun config => (configId config, displayName config))
                         (filter (fun config => negb (streqb (configId config) (lit "chat")))
                                 (map snd m)))
                    (errorAdded o) (chatDisabled o))).
  { unfold loadConfigs. rewrite L. reflexivity. }
  split; [exact E|]. split.
  { eapply Forall_impl; [|exact K]. unfold keyed. tauto. }
  intros s I. rewrite E. cbn [snd dynamicOptions].
  destruct (buildTutorialSteps_from m s I) as [->|(key & config & Ik & G & Es)].
  - left. reflexivity.
  - right. apply mapGet_In in G.
    rewrite Forall_forall in K. destruct (K _ G) as (Kk & _). cbn [fst snd] in Kk.
    rewrite Es, <- Kk.
    destruct Ik as [<-|Ik]; [left; reflexivity|right].
    rewrite map_map. cbn [fst].
    apply in_map_iff. exists config. split; [symmetry; exact Kk|].
    apply filter_In. split.
    + apply in_map_iff. exists (key, config). split; [reflexivity|exact G].
    + rewrite <- Kk.
      destruct Ik as [<-|[<-|[<-|[]]]]; reflexivity.
Qed.

Lemma loaded_steps_have_their_labels_witness :
  In (lit "technical")
     (map fst
        (dynamicOptions
           (snd (loadConfigs true
                   (fun url =>
                      if streqb url (lit "./prompts/technical.json")
                      then Json (mkConfig (lit "technical") (lit "Technical")
                                   (Some (lit "Charts")) None None None None None
                                   (lit "undefined"))
                      else NotOk)
                   [] (mkOptions [] false false))))).
Proof.
  destruct (loaded_steps_have_their_labels
              (fun url =>
                 if streqb url (lit "./prompts/technical.json")
                 then Json (mkConfig (lit "technical") (lit "Technical")
                              (Some (lit "Charts")) None None None None None
                              (lit "undefined"))
                 else NotOk)
              [(lit "technical",
                mkConfig (lit "technical") (lit "Technical") (Some (lit "Charts"))
                  None None None None None (lit "undefined"))]
              (mkOptions [] false false) eq_refl) as (_ & _ & S).
  destruct (S (mkStep (lit "technical") (lit "Technical") (lit "Charts") Bottom)
              (or_introl eq_refl)) as [E|[E|I]].
  - vm_compute in E. discriminate E.
  - vm_compute in E. discriminate E.
  - exact I.
Defined.

(* ================================================================== *)
(** ** Page breaks inside a rendered line *)
(* ================================================================== *)

Create HintDb pages.

Section OneBreak.

Variable fac : Facility.
Hypothesis room :
  Qgtb (add fac topMargin lineHeight) (sub fac (pageHeight fac) 15) = false.
Variable st0 : Layout.

Lemma breaksOnce_still {A : Type} (m : M A) : still m -> breaksOnce st0 m.
Proof.
  intros S st a st' B H. destruct (S st a st' H) as [P Y].
  destruct B as [[B1 B2]|[B1 B2]]; [left|right]; split; congruence.
Qed.

Lemma still_ret {A : Type} (a : A) : still (ret a).
Proof. intros st b st' H. injection H as _ <-. split; reflexivity. Qed.

Lemma still_bind {A B : Type} (m : M A) (k : A -> M B) :
  still m -> (forall a, still (k a)) -> still (bind m k).
Proof.
  intros Hm Hk st b st' H. unfold bind in H.
  destruct (m st) as [[a st1]|e|] eqn:E; try discriminate.
  destruct (Hm st a st1 E) as [P1 Y1]. destruct (Hk a st1 b st' H) as [P2 Y2].
  split; congruence.
Qed.

Lemma still_facility (c : Call) : still (facility fac c).
Proof.
  intros st a st' H. unfold facility in H.
  destruct (throws fac c); [discriminate|]. injection H as _ <-. split; reflexivity.
Qed.

Lemma still_getDoc : still getDoc.
Proof. intros st a st' H. injection H as _ <-. split; reflexivity. Qed.

Lemma still_modifyDoc (f : Doc -> Doc) :
  (forall d, numPages (f d) = numPages d) -> still (modifyDoc f).
Proof. intros F st a st' H. injection H as _ <-. cbn. split; [apply F|reflexivity]. Qed.

Lemma still_diverge {A : Type} : still (@diverge A).
Proof. intros st a st' H. discriminate. Qed.

Hint Resolve still_ret still_facility still_getDoc still_diverge : pages.

Lemma still_getFontSize : still (getFontSize fac).
Proof. unfold getFontSize. repeat (apply still_bind; [|intros ?]); auto with pages. Qed.
Lemma still_setFontSize (n : Q) : still (setFontSize fac n).
Proof.
  unfold setFontSize. apply still_bind; [auto with pages|intros _].
  apply still_modifyDoc. reflexivity.
Qed.
Lemma still_setFont (f : FontStyle) : still (setFont fac f).
Proof.
  unfold setFont. apply still_bind; [auto with pages|intros _].
  apply still_modifyDoc. reflexivity.
Qed.
Lemma still_setTextColor (r g b : Z) : still (setTextColor fac r g b).
Proof.
  unfold setTextColor. apply still_bind; [auto with pages|intros _].
  apply still_modifyDoc. reflexivity.
Qed.
Lemma still_getTextWidth (s : str) : still (getTextWidth fac s).
Proof. unfold getTextWidth. repeat (apply still_bind; [|intros ?]); auto with pages. Qed.
Lemma still_text (s : str) (x y0 : Q) (opt : TextOpt) : still (text fac s x y0 opt).
Proof.
  unfold text. apply still_bind; [auto with pages|intros _].
  apply still_modifyDoc. reflexivity.
Qed.
Lemma still_textWithLink (s : str) (x y0 : Q) (u : str) :
  still (textWithLink fac s x y0 u).
Proof.
  unfold textWithLink. apply still_bind; [auto with pages|intros _].
  apply still_modifyDoc. reflexivity.
Qed.

Hint Resolve still_getFontSize still_setFontSize still_setFont still_setTextColor
  still_getTextWidth still_text still_textWithLink : pages.

Lemma still_shrink (fuel : nat) :
  forall remainingText budget i, still (shrink fac fuel remainingText budget i).
Proof.
  induction fuel as [|fuel IH]; intros remainingText budget i; cbn [shrink].
  - auto with pages.
  - apply still_bind; [auto with pages|intros w].
    destruct (Qgtb w budget); [apply IH|auto with pages].
Qed.

Hint Resolve still_shrink : pages.

Lemma breaksOnce_bind {A B : Type} (m : M A) (k : A -> M B) :
  breaksOnce st0 m -> (forall a, breaksOnce st0 (k a)) -> breaksOnce st0 (bind m k).
Proof.
  intros Hm Hk st b st' I H. unfold bind in H.
  destruct (m st) as [[a st1]|e|] eqn:E; try discriminate.
  exact (Hk a st1 b st' (Hm st a st1 I E) H).
Qed.

(** The page check of a wrapped line: where a line has room under the top
    margin, the check finds room once [y] is at the top margin. *)
Lemma breaksOnce_checkPageBreak : breaksOnce st0 (checkPageBreak fac lineHeight).
Proof.
  intros st a st' I H. unfold checkPageBreak, bind, getY in H.
  destruct (Qgtb (add fac (y st) lineHeight) (sub fac (pageHeight fac) 15)) eqn:G.
  - destruct I as [[P Y]|[P Y]].
    + unfold addPage, facility, modifyDoc, setY, bind in H.
      destruct (throws fac CAddPage); [discriminate|].
      injection H as _ <-. right. cbn. split; [congruence|reflexivity].
    + exfalso. rewrite Y in G. congruence.
  - injection H as _ <-. exact I.
Qed.

Hint Resolve breaksOnce_checkPageBreak : pages.

Ltac once_step :=
  first [ solve [auto with pages]
        | solve [apply breaksOnce_still; auto with pages]
        | apply breaksOnce_bind; [|intros ?] ].

Lemma breaksOnce_printToken (fuel : nat) :
  forall token x maxWidth remainingText currentX currentY,
    breaksOnce st0 (printToken fac fuel token x maxWidth remainingText currentX currentY).
Proof.
  induction fuel as [|fuel IH]; intros token x maxWidth [|c rest] currentX currentY;
    try solve [cbn [printToken]; apply breaksOnce_still; auto with pages].
  rewrite printToken_S. cbv zeta.
  apply breaksOnce_bind; [once_step|intros i].
  apply breaksOnce_bind.
  { destruct ((i =? 0)%Z && Qgtb currentX x); repeat once_step. }
  intros [[i1 cx1] cy1].
  apply breaksOnce_bind.
  { destruct (isLink token); once_step. }
  intros _. apply breaksOnce_bind; [once_step|intros w]. apply IH.
Qed.

Lemma breaksOnce_renderTokens (fuel : nat) (tokens : list Token) :
  forall x maxWidth currentX currentY,
    breaksOnce st0 (renderTokens fac fuel tokens x maxWidth currentX currentY).
Proof.
  induction tokens as [|t ts IH]; intros x maxWidth currentX currentY;
    cbn [renderTokens].
  - once_step.
  - apply breaksOnce_bind; [once_step|intros _].
    apply breaksOnce_bind; [destruct (isLink t); once_step|intros _].
    apply breaksOnce_bind; [apply breaksOnce_printToken|intros r].
    apply breaksOnce_bind; [destruct (isLink t); once_step|intros _].
    apply IH.
Qed.

Lemma breaksOnce_renderFormattedLine (fuel : nat) (line : str) (x currentY maxWidth : Q) :
  breaksOnce st0 (renderFormattedLine fac fuel line x currentY maxWidth).
Proof.
  unfold renderFormattedLine.
  apply breaksOnce_bind; [once_step|intros size].
  apply breaksOnce_bind; [once_step|intros _].
  destruct (tokenizeLine line) as [tokens|]; [|once_step].
  apply breaksOnce_bind; [apply breaksOnce_renderTokens|intros r].
  repeat once_step.
Qed.

End OneBreak.

(** X27 ([renderFormattedLine], [checkPageBreak]). However many lines a
    text wraps into, one call of [renderFormattedLine] adds at most one
    page: the page check of a wrapped line looks at the [y] of the
    enclosing function, which the call does not advance, so where a line
    has room under the top margin (the check does not fire at [y] = 20, as
    on every page 40 high or more) it either never fires or fires once and
    leaves [y] at the top margin; the height at which the call draws is
    not reset by it, and what the call returns is the height it was given
    moved down by one line height or more. *)
Theorem renderFormattedLine_breaks_at_most_once (fac : Facility) (fuel : nat)
    (line : str) (x currentY maxWidth : Q) (st : Layout) (r : Q) (st' : Layout) :
  Qgtb (add fac topMargin lineHeight) (sub fac (pageHeight fac) 15) = false ->
  renderFormattedLine fac fuel line x currentY maxWidth st = Ret (r, st') ->
  ((numPages (doc st') = numPages (doc st) /\ y st' = y st) \/
   (numPages (doc st') = S (numPages (doc st)) /\ y st' = topMargin)) /\
  (exists wraps, r = lowered fac (S wraps) currentY) /\
  (monotoneRounding fac -> round fac currentY == currentY ->
   add fac currentY 5 <= r).
Proof.
  intros T H. split; [|split].
  - apply (breaksOnce_renderFormattedLine fac T st fuel line x currentY maxWidth
             st r st'); [left; split; reflexivity|exact H].
  - exact (renderFormattedLine_lowers fac fuel line x currentY maxWidth st r st' H).
  - intros M R.
    destruct (renderFormattedLine_lowers fac fuel line x currentY maxWidth st r st' H)
      as (n & ->).
    exact (lowered_from_one fac currentY M R n).
Qed.

Lemma renderFormattedLine_breaks_at_most_once_witness :
  match renderFormattedLine sampleFacility 10 (lit "abcdefgh") 0 0 3
          (mkLayout newDoc 280 [] false) with
  | Ret (r, st') =>
      ((numPages (doc st') = numPages newDoc /\ y st' = 280) \/
       (numPages (doc st') = S (numPages newDoc) /\ y st' = topMargin)) /\
      (exists wraps, r = lowered sampleFacility (S wraps) 0) /\
      add sampleFacility 0 5 <= r
  | _ => False
  end /\
  match renderFormattedLine tenthFacility 10 (lit "**x**yyyyyy")
          (add tenthFacility leftMargin 3) 20
          (sub tenthFacility (contentWidth tenthFacility) 3)
          (mkLayout newDoc 280 [] false) with
  | Ret (r, st') =>
      numPages (doc st') = S (numPages newDoc) /\ y st' = topMargin /\
      r = 30 /\ add tenthFacility 20 5 <= r
  | _ => False
  end.
Proof.
  split.
  - destruct (renderFormattedLine sampleFacility 10 (lit "abcdefgh") 0 0 3
                (mkLayout newDoc 280 [] false)) as [[r st']|e|] eqn:E.
    + destruct (renderFormattedLine_breaks_at_most_once sampleFacility 10 (lit "abcdefgh")
                  0 0 3 (mkLayout newDoc 280 [] false) r st') as (A & B & C);
        [reflexivity|exact E|].
      split; [exact A|]. split; [exact B|].
      apply C; [|apply Qeq_refl].
      split; [intros a b L; exact L | intros a; apply Qeq_refl].
    + vm_compute in E. discriminate.
    + vm_compute in E. discriminate.
  - destruct (renderFormattedLine tenthFacility 10 (lit "**x**yyyyyy")
                (add tenthFacility leftMargin 3) 20
                (sub tenthFacility (contentWidth tenthFacility) 3)
                (mkLayout newDoc 280 [] false)) as [[r st']|e|] eqn:E;
      try (vm_compute in E; discriminate E).
    pose proof E as E'. vm_compute in E'. injection E' as Hr Hs.
    split; [rewrite <- Hs; reflexivity|].
    split; [rewrite <- Hs; reflexivity|].
    split; [symmetry; exact Hr|].
    destruct (renderFormattedLine_breaks_at_most_once tenthFacility 10
                (lit "**x**yyyyyy") (add tenthFacility leftMargin 3) 20
                (sub tenthFacility (contentWidth tenthFacility) 3)
                (mkLayout newDoc 280 [] false) r st') as (_ & _ & C);
      [vm_compute; reflexivity|exact E|].
    apply C; [apply inDoubles_monotone | vm_compute; reflexivity].
Defined.

(* ================================================================== *)
(** ** The file that is saved *)
(* ================================================================== *)

Section SavedFile.

Variable fac : Facility.

Lemma facility_returned (c : Call) (st : Layout) (a : unit) (st' : Layout) :
  facility fac c st = Ret (a, st') -> st' = st.
Proof.
  unfold facility. destruct (throws fac c); [discriminate|].
  intros H. injection H as _ <-. reflexivity.
Qed.

Lemma setPage_returned (i : nat) (st : Layout) (a : unit) (st' : Layout) :
  setPage fac i st = Ret (a, st') ->
  st' = mkLayout (withPage i (doc st)) (y st) (tableLines st) (inTable st).
Proof.
  unfold setPage. intros H.
  apply bind_Ret_inv in H. destruct H as (u & s1 & H1 & H).
  apply facility_returned in H1. subst s1. injection H as _ <-. reflexivity.
Qed.

Lemma text_returned (s : str) (x y0 : Q) (opt : TextOpt) (st : Layout) (a : unit)
    (st' : Layout) :
  text fac s x y0 opt st = Ret (a, st') ->
  st' = mkLayout (withOp (Text s x y0 opt) (doc st)) (y st) (tableLines st) (inTable st).
Proof.
  unfold text. intros H.
  apply bind_Ret_inv in H. destruct H as (u & s1 & H1 & H).
  apply facility_returned in H1. subst s1. injection H as _ <-. reflexivity.
Qed.

Lemma setFontSize_returned (n : Q) (st : Layout) (a : unit) (st' : Layout) :
  setFontSize fac n st = Ret (a, st') ->
  st' = mkLayout (withFontSize n (doc st)) (y st) (tableLines st) (inTable st).
Proof.
  unfold setFontSize. intros H.
  apply bind_Ret_inv in H. destruct H as (u & s1 & H1 & H).
  apply facility_returned in H1. subst s1. injection H as _ <-. reflexivity.
Qed.

Lemma setFont_returned (f : FontStyle) (st : Layout) (a : unit) (st' : Layout) :
  setFont fac f st = Ret (a, st') ->
  st' = mkLayout (withFontStyle f (doc st)) (y st) (tableLines st) (inTable st).
Proof.
  unfold setFont. intros H.
  apply bind_Ret_inv in H. destruct H as (u & s1 & H1 & H).
  apply facility_returned in H1. subst s1. injection H as _ <-. reflexivity.
Qed.

(** The loop of [addPageNumbers], when it returns. *)
Lemma stamps_returned (pageCount : nat) (l : list nat) :
  forall st st',
    forEach l (fun i =>
      bind (setPage fac i) (fun _ =>
      text fac (lit "Page " ++ natToStr i ++ lit " of " ++ natToStr pageCount)
               (div fac (pageWidth fac) 2) (sub fac (pageHeight fac) 10) AlignCenter)) st
      = Ret (tt, st') ->
    drawn (doc st') = drawn (doc st) ++ map (pageStamp fac pageCount) l /\
    numPages (doc st') = numPages (doc st).
Proof.
  induction l as [|i l IH]; intros st st' H.
  - cbn in H. injection H as <-. rewrite app_nil_r. split; reflexivity.
  - cbn [forEach] in H.
    apply bind_Ret_inv in H. destruct H as (u & s2 & H1 & H).
    apply bind_Ret_inv in H1. destruct H1 as (u1 & s1 & H1 & H2).
    apply setPage_returned in H1. apply text_returned in H2. subst s1 s2.
    apply IH in H. destruct H as [D P]. rewrite D, P. cbn. rewrite <- app_assoc.
    split; reflexivity.
Qed.

Lemma addPageNumbers_returned (st st' : Layout) :
  addPageNumbers fac st = Ret (tt, st') ->
  drawn (doc st') =
    drawn (doc st) ++ map (pageStamp fac (numPages (doc st))) (seq 1 (numPages (doc st))) /\
  numPages (doc st') = numPages (doc st).
Proof.
  unfold addPageNumbers, getNumberOfPages. intros H.
  apply bind_Ret_inv in H. destruct H as (pageCount & s1 & H1 & H).
  apply bind_Ret_inv in H1. destruct H1 as (u & s0 & H0 & H1).
  apply facility_returned in H0. subst s0.
  apply bind_Ret_inv in H1. destruct H1 as (d0 & s0 & H0 & H1).
  injection H0 as <- <-. injection H1 as <- <-.
  apply bind_Ret_inv in H. destruct H as (u1 & s2 & H2 & H).
  apply setFontSize_returned in H2. subst s2.
  apply bind_Ret_inv in H. destruct H as (u2 & s3 & H3 & H).
  apply setFont_returned in H3. subst s3.
  apply stamps_returned in H. exact H.
Qed.

End SavedFile.

(** On a string of units below 128, [toUpperCase] is the mapping of the
    letters [a]..[z], unit by unit. *)
Lemma toUpperCase_ascii (other : str -> str) (s : str) :
  forallb isAscii s = true -> toUpperCase other s = map upperAscii s.
Proof.
  unfold toUpperCase. induction s as [|c s IH]; intros H; [reflexivity|].
  cbn [forallb] in H. apply andb_prop in H. destruct H as [A H].
  cbn [toUpperCaseFrom map]. rewrite A. cbn [app]. now rewrite (IH H).
Qed.

(** X28 ([downloadAsPdf]). Whatever the report text, a file that is saved
    is named after the ticker as it was passed, it is the only effect of
    the call, and its drawing starts with the title on the first page, at
    the left and top margins, with the ticker in upper case (for a ticker
    of ASCII units: every [a]..[z] replaced by [A]..[Z]), and ends with
    the page stamps, exactly one for each page of the document in order:
    nothing is drawn before the title or after the stamps. *)
Theorem saved_report_has_title_and_stamps (fac : Facility) (fuel : nat)
    (reportText ticker : str) (effects : list Effect) (filename : str) (d : Doc) :
  downloadAsPdf fac fuel reportText ticker = Some effects ->
  In (SaveFile filename d) effects ->
  effects = [SaveFile filename d] /\
  filename = ticker ++ lit "_Financial_Analysis.pdf" /\
  (exists content,
     drawn d =
     (1%nat, Text (lit "Financial Analyst Report: " ++
                   toUpperCase (upperCaseOther fac) ticker)
               leftMargin topMargin NoOpt) ::
     content ++ map (pageStamp fac (numPages d)) (seq 1 (numPages d))) /\
  (forallb isAscii ticker = true ->
   toUpperCase (upperCaseOther fac) ticker = map upperAscii ticker /\
   Forall (fun c => ((c <? 97) || (122 <? c))%N = true)
          (toUpperCase (upperCaseOther fac) ticker)).
Proof.
  unfold downloadAsPdf.
  destruct (generate fac fuel reportText ticker initial) as [[[] st]|e|] eqn:G;
    [| |discriminate].
  2:{ intros H; injection H as <-. simpl. intros [F|[F|[]]]; discriminate. }
  destruct (throws fac _).
  { intros H; injection H as <-. simpl. intros [F|[F|[]]]; discriminate. }
  intros H; injection H as <-. simpl. intros [F|[]]. injection F as <- <-.
  split; [reflexivity|]. split; [reflexivity|]. split.
  - unfold generate in G.
    apply bind_Ret_inv in G. destruct G as (u0 & s0 & H0 & G).
    apply facility_returned in H0. subst s0.
    apply bind_Ret_inv in G. destruct G as (u1 & s1 & H1 & G).
    apply setFontSize_returned in H1. subst s1.
    apply bind_Ret_inv in G. destruct G as (u2 & s2 & H2 & G).
    apply setFont_returned in H2. subst s2.
    apply bind_Ret_inv in G. destruct G as (y0 & s3 & H3 & G).
    injection H3 as <- <-.
    apply bind_Ret_inv in G. destruct G as (u4 & s4 & H4 & G).
    apply text_returned in H4. subst s4.
    apply bind_Ret_inv in G. destruct G as (u5 & s5 & H5 & G).
    injection H5 as _ <-.
    apply bind_Ret_inv in G. destruct G as (u6 & s6 & H6 & G).
    destruct (grows_forEach (split 10%N reportText) (processLine fac fuel)
                (fun l => grows_processLine fac fuel l) _ _ _ H6) as [(ops1 & D1) _].
    apply bind_Ret_inv in G. destruct G as (t & s7 & H7 & G).
    injection H7 as <- <-.
    apply bind_Ret_inv in G. destruct G as (u8 & s8 & H8 & G).
    assert (X : exists ops2, drawn (doc s8) = drawn (doc s6) ++ ops2).
    { destruct (inTable s6).
      - destruct (grows_renderTable fac fuel _ _ _ H8) as [X _]. exact X.
      - injection H8 as _ <-. exists []. rewrite app_nil_r. reflexivity. }
    destruct X as (ops2 & D2).
    apply addPageNumbers_returned in G. destruct G as [D3 P3].
    rewrite <- P3 in D3. rewrite D3, D2, D1. cbn.
    exists (ops1 ++ ops2). rewrite <- !app_assoc. reflexivity.
  - intros A. rewrite (toUpperCase_ascii _ _ A). split; [reflexivity|].
    apply Forall_forall. intros c Hc. apply in_map_iff in Hc.
    destruct Hc as (c0 & <- & _). unfold upperAscii.
    destruct ((97 <=? c0)%N && (c0 <=? 122)%N) eqn:L.
    + apply andb_prop in L. destruct L as [L1 L2].
      apply N.leb_le in L1. apply N.leb_le in L2.
      apply orb_true_iff. left. apply N.ltb_lt. lia.
    + apply andb_false_iff in L. apply orb_true_iff.
      destruct L as [L|L]; apply N.leb_gt in L; [left|right]; apply N.ltb_lt; exact L.
Qed.

Lemma saved_report_has_title_and_stamps_witness :
  match downloadAsPdf sampleFacility 10 (lit "hello") (lit "acme") with
  | Some [SaveFile filename d] =>
      filename = lit "acme_Financial_Analysis.pdf" /\
      (exists content,
         drawn d =
         (1%nat, Text (lit "Financial Analyst Report: ACME") leftMargin topMargin NoOpt) ::
         content ++ map (pageStamp sampleFacility (numPages d)) (seq 1 (numPages d))) /\
      toUpperCase (upperCaseOther sampleFacility) (lit "acme") = lit "ACME"
  | _ => False
  end.
Proof.
  destruct (downloadAsPdf sampleFacility 10 (lit "hello") (lit "acme"))
    as [[|[filename d| |] [|]]|] eqn:E;
    try (vm_compute in E; discriminate E).
  destruct (saved_report_has_title_and_stamps sampleFacility 10 (lit "hello") (lit "acme")
              [SaveFile filename d] filename d E (or_introl eq_refl))
    as (_ & F & D & U).
  split; [exact F|]. split; [exact D|].
  destruct (U eq_refl) as [U1 _]. exact U1.
Defined.

(* ================================================================== *)
(** ** Bold text and links in the chat *)
(* ================================================================== *)

Section InlineMarkup.

Lemma lazyDotsStars_closing (t : str) :
  Forall (fun c => c <> star /\ isLineTerminator c = false) t ->
  lazyDotsStars (t ++ [star; star]) = Some (length t + 2)%nat.
Proof.
  induction 1 as [|c t [C T] _ IH]; [reflexivity|].
  cbn [app length]. rewrite lazyDotsStars_skip by assumption.
  rewrite IH. reflexivity.
Qed.

Lemma strong_whole (t : str) :
  Forall (fun c => c <> star /\ isLineTerminator c = false) t ->
  replaceAll strong 0 true (lit "**" ++ t ++ lit "**") =
  lit "<strong>" ++ t ++ lit "</strong>".
Proof.
  intros F.
  change (lit "**" ++ t ++ lit "**") with (star :: star :: t ++ [star; star]).
  rewrite replaceAll_cons. unfold strong at 1. unfold matchBold.
  change (startsWith (star :: star :: t ++ [star; star]) [star; star]) with true.
  cbv iota. cbn [skipn]. rewrite (lazyDotsStars_closing t F). cbn [option_map].
  replace (2 + (length t + 2))%nat with (S (length (star :: t ++ [star; star])))
    by (cbn [length]; rewrite length_app; cbn [length]; lia).
  rewrite replaceAll_skip_all, app_nil_r.
  unfold substring. cbn [skipn].
  replace (S (length (star :: t ++ [star; star])) - 2 - 2)%nat with (length t + 0)%nat
    by (cbn [length]; rewrite length_app; cbn [length]; lia).
  rewrite firstn_app_2. cbn [firstn]. rewrite app_nil_r. reflexivity.
Qed.

End InlineMarkup.

(** X29 ([markdownToHtml]). Bold text and links in the chat: for a text
    without angle bracket, asterisk, line terminator and URL scheme,
    [**text**] gives [<strong>text</strong>]; and a URL on its own (a
    scheme followed by units that are no white space, angle bracket or
    asterisk) gives one link whose address and text are the URL. *)
Theorem bold_and_link_markup (t u : str) :
  plainItem t ->
  startsWith u (lit "http://") = true \/ startsWith u (lit "https://") = true ->
  Forall (fun c => isWhiteSpace c = false /\ c <> lessThan /\ c <> greaterThan /\
                   c <> star) u ->
  (8 < length u)%nat ->
  markdownToHtml (lit "**" ++ t ++ lit "**") = lit "<strong>" ++ t ++ lit "</strong>" /\
  markdownToHtml u = anchor u.
Proof.
  intros [Ft Ut] Su Fu Lu. split.
  - assert (FT : Forall (fun c => isLineTerminator c = false) t)
      by (eapply Forall_impl; [|exact Ft]; cbn beta; tauto).
    assert (FL : Forall (fun c => c <> lessThan) t)
      by (eapply Forall_impl; [|exact Ft]; cbn beta; tauto).
    assert (FG : Forall (fun c => c <> greaterThan) t)
      by (eapply Forall_impl; [|exact Ft]; cbn beta; tauto).
    assert (FS : Forall (fun c => c <> star /\ isLineTerminator c = false) t)
      by (eapply Forall_impl; [|exact Ft]; cbn beta; tauto).
    unfold markdownToHtml, headers2, headers3, lists, replace.
    rewrite safeText_plain
      by (apply Forall_not_In; apply Forall_app; split;
          [repeat constructor; discriminate
          |apply Forall_app; split; [assumption|repeat constructor; discriminate]]).
    assert (T1 : Forall (fun c => isLineTerminator c = false)
                   (42%N :: t ++ lit "**")).
    { constructor; [reflexivity|]. apply Forall_app. split; [exact FT|].
      repeat constructor. }
    rewrite (replaceAll_lineMarker_none (lit "## ") (lit "<h2>") (lit "</h2>"))
      by (change (lit "## ") with (35%N :: lit "# ");
          apply (anyLineStarts_first 42%N 35%N); [discriminate|reflexivity|exact T1]).
    rewrite (replaceAll_lineMarker_none (lit "### ") (lit "<h3>") (lit "</h3>"))
      by (change (lit "### ") with (35%N :: lit "## ");
          apply (anyLineStarts_first 42%N 35%N); [discriminate|reflexivity|exact T1]).
    rewrite (strong_whole t FS).
    assert (T2 : Forall (fun c => isLineTerminator c = false)
                   (lit "strong>" ++ t ++ lit "</strong>")).
    { apply Forall_app. split; [repeat constructor|].
      apply Forall_app. split; [exact FT|repeat constructor]. }
    rewrite (replaceAll_lineMarker_none (lit "- ") (lit "<ul><li>") (lit "</li></ul>"))
      by (change (lit "- ") with (45%N :: lit " ");
          apply (anyLineStarts_first 60%N 45%N); [discriminate|reflexivity|exact T2]).
    change (replaceAll adjacentLists 0 true (lit "<strong>" ++ t ++ lit "</strong>"))
      with (lit "<strong>" ++ replaceAll adjacentLists 0 false (t ++ lit "</strong>")).
    rewrite (replaceAll_adjacentLists_copy t (lit "</strong>"))
      by (apply Forall_not_In; exact FL).
    change (replaceAll adjacentLists 0 true (lit "</strong>")) with (lit "</strong>").
    rewrite replaceAll_autolink_none; [reflexivity|].
    destruct (hasUrl _) eqn:U; [|reflexivity].
    apply hasUrl_scheme in U.
    change (lit "<strong>" ++ t ++ lit "</strong>")
      with (60%N :: 115%N :: 116%N :: 114%N :: 111%N :: 110%N :: 103%N :: 62%N ::
            t ++ lessThan :: lit "/strong>") in U.
    rewrite !hasUrlScheme_head_ne in U by discriminate.
    rewrite (hasUrlScheme_before_tag t _ Ut) in U.
    vm_compute in U. discriminate U.
  - assert (FW : Forall (fun c => isWhiteSpace c = false) u)
      by (eapply Forall_impl; [|exact Fu]; cbn beta; tauto).
    assert (FT : Forall (fun c => isLineTerminator c = false) u).
    { eapply Forall_impl; [|exact FW]. cbn beta. intros c W.
      unfold isLineTerminator. unfold isWhiteSpace in W.
      repeat (apply orb_false_elim in W; destruct W as [W ?]).
      repeat (apply orb_false_intro; try assumption). }
    assert (FL : Forall (fun c => c <> lessThan) u)
      by (eapply Forall_impl; [|exact Fu]; cbn beta; tauto).
    assert (FG : Forall (fun c => c <> greaterThan) u)
      by (eapply Forall_impl; [|exact Fu]; cbn beta; tauto).
    assert (FS : Forall (fun c => c <> star) u)
      by (eapply Forall_impl; [|exact Fu]; cbn beta; tauto).
    assert (Hd : exists r : str, u = @cons char 104%N r).
    { destruct Su as [S|S]; apply startsWith_decompose in S; rewrite S;
        eexists; reflexivity. }
    destruct Hd as (r & ->).
    assert (FTr : Forall (fun c => isLineTerminator c = false) r)
      by (inversion FT; assumption).
    unfold markdownToHtml, headers2, headers3, lists, replace.
    rewrite safeText_plain by (apply Forall_not_In; assumption).
    rewrite (replaceAll_lineMarker_none (lit "## ") (lit "<h2>") (lit "</h2>"))
      by (change (lit "## ") with (35%N :: lit "# ");
          apply (anyLineStarts_first 104%N 35%N); [discriminate|reflexivity|exact FTr]).
    rewrite (replaceAll_lineMarker_none (lit "### ") (lit "<h3>") (lit "</h3>"))
      by (change (lit "### ") with (35%N :: lit "## ");
          apply (anyLineStarts_first 104%N 35%N); [discriminate|reflexivity|exact FTr]).
    rewrite replaceAll_strong_none
      by (apply hasBoldPair_no_star, Forall_not_In; exact FS).
    rewrite (replaceAll_lineMarker_none (lit "- ") (lit "<ul><li>") (lit "</li></ul>"))
      by (change (lit "- ") with (45%N :: lit " ");
          apply (anyLineStarts_first 104%N 45%N); [discriminate|reflexivity|exact FTr]).
    rewrite replaceAll_adjacentLists_none by (apply Forall_not_In; exact FL).
    rewrite replaceAll_cons. unfold autolink at 1.
    pose proof (matchUrl_whole _ Su FW Lu) as M. rewrite M.
    cbn [length]. rewrite firstn_all2 by (cbn [length]; lia).
    rewrite replaceAll_skip_all, app_nil_r. reflexivity.
Qed.

Lemma bold_and_link_markup_witness :
  markdownToHtml (lit "**" ++ lit "Buy" ++ lit "**") =
    lit "<strong>" ++ lit "Buy" ++ lit "</strong>" /\
  markdownToHtml (lit "https://x.com") = anchor (lit "https://x.com").
Proof.
  apply bold_and_link_markup.
  - repeat constructor; try reflexivity; intros H; vm_compute in H; discriminate.
  - right. reflexivity.
  - repeat constructor; try reflexivity; intros H; vm_compute in H; discriminate.
  - vm_compute. lia.
Defined.

(** X30 ([handleTutorialResize]). A resize never fails: while the overlay
    is hidden it changes nothing; while a step is shown it shows that same
    step again when its target is still on the page, and otherwise moves on
    as Next does, to the first later step with a target or to the end of
    the tutorial. *)
Theorem handleTutorialResize_shows_again
    (getElementById : str -> bool) (querySelector : str -> Lookup)
    (fuel : nat) (t : Tutorial) :
  (2 * length (tutorialSteps t) < fuel)%nat ->
  (forall s, In s (tutorialSteps t) ->
     targetElement getElementById querySelector s <> InvalidSelector) ->
  (overlayHidden t = true ->
   handleTutorialResize true true getElementById querySelector fuel t = TRet t) /\
  (overlayHidden t = false ->
   (currentTutorialStep t < length (tutorialSteps t))%nat ->
   exists t',
     handleTutorialResize true true getElementById querySelector fuel t = TRet t' /\
     tutorialSteps t' = tutorialSteps t /\
     (currentTutorialStep t <= currentTutorialStep t')%nat /\
     settled getElementById querySelector t t' /\
     (forall step,
        nth_error (tutorialSteps t) (currentTutorialStep t) = Some step ->
        targetElement getElementById querySelector step = Found ->
        currentTutorialStep t' = currentTutorialStep t)).
Proof.
  intros F V. split.
  - intros H. unfold handleTutorialResize. rewrite H. reflexivity.
  - intros H C. unfold handleTutorialResize. rewrite H. cbn [negb orb].
    destruct (showTutorialStep_settles getElementById querySelector
                (length (tutorialSteps t)) fuel t C)
      as (t' & R & St & Le & Sk & Se); [lia|lia|exact V|].
    exists t'. split; [exact R|]. split; [exact St|]. split; [exact Le|].
    split; [exact Se|].
    intros step E T.
    destruct (Nat.eq_dec (currentTutorialStep t') (currentTutorialStep t)) as [Q|Q];
      [exact Q|].
    assert (N : targetElement getElementById querySelector step = NotFound)
      by (apply (Sk (currentTutorialStep t) step); [lia|exact E]).
    congruence.
Qed.

Lemma handleTutorialResize_shows_again_witness :
  handleTutorialResize true true (fun _ => true) (fun _ => Found) 5
    (mkTutorial (tutorialSteps sampleTutorial) 0 true false None None None []) =
  TRet (mkTutorial (tutorialSteps sampleTutorial) 0 true false None None None []).
Proof.
  destruct (handleTutorialResize_shows_again (fun _ => true) (fun _ => Found) 5
              (mkTutorial (tutorialSteps sampleTutorial) 0 true false None None None []))
    as [Hd _].
  - vm_compute. lia.
  - intros s _. unfold targetElement. destruct (streqb _ _); discriminate.
  - apply Hd. reflexivity.
Defined.
